(** * Stratosphere: ECS signatures and the cooked-model loader

    A shallow embedding of
    - [Engine/include/ECS/Components.h]  (ComponentRegistry, ComponentMask),
    - [Engine/include/assets/ModelFormat.h] and [Engine/src/SModelLoader.cpp]
      (the [.smodel] header gate and [LoadSModelFile]),
    - [Sample/src/VerifyLoadSModel.cpp]  (node-graph checks and the traversal
      that recomputes global transforms),
    - [Engine/tools/GltfToSmodel/GltfToSmodel.cpp]  (the string table, the
      blob, the header and the node graph of the cooker),
    - [Engine/include/assets/MeshFormats.h], [Engine/src/SMeshLoader.cpp] and
      [Engine/tools/ObjToSmesh/ObjToSmesh.cpp]  (the [.smesh] writer and
      loader),
    - [findMemoryType] of [Engine/src/ImageUtils.cpp],
    followed by the properties established about them.

    Fixed-width unsigned integers are integers in [Z] with the wrap-around of
    every C++ operation written out; [std::vector] is a list; the
    [std::unordered_map] of the registry is a [gmap]. *)

From Stdlib Require Import ZArith Lia List Bool Ascii String DecimalString.
From stdpp Require Import base option list strings gmap.

Local Open Scope Z_scope.

(** ** Machine integers *)

Definition wrap (bits : Z) (x : Z) : Z := x mod 2 ^ bits.
Definition wrap32 (x : Z) : Z := wrap 32 x.
Definition wrap64 (x : Z) : Z := wrap 64 x.

Definition UINT32_MAX : Z := 2 ^ 32 - 1.
Definition UINT64_MAX : Z := 2 ^ 64 - 1.

(** [std::vector::operator[]] on an index the caller has already bounded. *)
Definition at_ {A} (d : A) (l : list A) (i : Z) : A := nth (Z.to_nat i) l d.

(** [std::to_string] and [operator<<] on an unsigned integer. *)
Definition to_string (n : Z) : string := NilZero.string_of_int (Z.to_int n).

(* ===================================================================== *)
(** ** Engine::ECS  (Components.h) *)
(* ===================================================================== *)

Module ECS.

(** *** ComponentRegistry *)

Record ComponentRegistry := {
  m_nameToId : gmap string Z;
  m_idToName : list string
}.

Definition InvalidID : Z := UINT32_MAX.

Definition empty_registry : ComponentRegistry :=
  {| m_nameToId := ∅; m_idToName := [] |}.

(** [std::unordered_map::emplace]: inserts only when the key is absent. *)
Definition emplace (k : string) (v : Z) (m : gmap string Z) : gmap string Z :=
  match m !! k with
  | Some _ => m
  | None => <[k:=v]> m
  end.

(** Returns the ID and the registry after the call. *)
Definition registerComponent (name : string) (r : ComponentRegistry)
  : Z * ComponentRegistry :=
  match m_nameToId r !! name with
  | Some id => (id, r)
  | None =>
      let id := wrap32 (Z.of_nat (length (m_idToName r))) in
      (id, {| m_nameToId := emplace name id (m_nameToId r);
              m_idToName := m_idToName r ++ [name] |})
  end.

Definition getId (name : string) (r : ComponentRegistry) : Z :=
  match m_nameToId r !! name with
  | Some id => id
  | None => InvalidID
  end.

Definition ensureId (name : string) (r : ComponentRegistry)
  : Z * ComponentRegistry :=
  match m_nameToId r !! name with
  | Some id => (id, r)
  | None => registerComponent name r
  end.

Definition getName (id : Z) (r : ComponentRegistry) : string :=
  if id <? Z.of_nat (length (m_idToName r))
  then at_ EmptyString (m_idToName r) id
  else EmptyString.

Definition count (r : ComponentRegistry) : Z :=
  wrap32 (Z.of_nat (length (m_idToName r))).

(** *** ComponentMask *)

Record ComponentMask := { m_words : list Z }.

Definition empty_mask : ComponentMask := {| m_words := [] |}.

Definition size (m : ComponentMask) : Z := Z.of_nat (length (m_words m)).

Definition bitPos (compId : Z) : Z * Z := (compId / 64, compId mod 64).

Definition ensureBit (compId : Z) (m : ComponentMask) : ComponentMask :=
  let need := compId / 64 + 1 in
  if size m <? need
  then {| m_words := m_words m ++ repeat 0 (Z.to_nat (need - size m)) |}
  else m.

Definition set (compId : Z) (m : ComponentMask) : ComponentMask :=
  let m1 := ensureBit compId m in
  let '(wordIdx, bit) := bitPos compId in
  {| m_words := <[Z.to_nat wordIdx :=
                   Z.lor (at_ 0 (m_words m1) wordIdx) (Z.shiftl 1 bit)]>
                (m_words m1) |}.

Definition has (compId : Z) (m : ComponentMask) : bool :=
  let '(wordIdx, bit) := bitPos compId in
  if wordIdx >=? size m then false
  else negb (Z.land (at_ 0 (m_words m) wordIdx) (Z.shiftl 1 bit) =? 0).

(** [~x] on a [uint64_t]. *)
Definition not64 (x : Z) : Z := Z.lxor x UINT64_MAX.

Definition clear (compId : Z) (m : ComponentMask) : ComponentMask :=
  if negb (has compId m) then m
  else
    let '(wordIdx, bit) := bitPos compId in
    {| m_words := <[Z.to_nat wordIdx :=
                     Z.land (at_ 0 (m_words m) wordIdx) (not64 (Z.shiftl 1 bit))]>
                  (m_words m) |}.

(** [i < v.size() ? v[i] : 0] *)
Definition word_or_zero (ws : list Z) (i : nat) : Z :=
  if (i <? length ws)%nat then nth i ws 0 else 0.

(** The loop [for (i; i < n; ++i)] of [containsAll], entered at [i] with
    [steps = n - i] iterations left. *)
Fixpoint containsAll_from (ws rhs : list Z) (i steps : nat) : bool :=
  match steps with
  | O => true
  | S k =>
      let a := word_or_zero ws i in
      let b := word_or_zero rhs i in
      if negb (Z.land a b =? b) then false
      else containsAll_from ws rhs (S i) k
  end.

Definition containsAll (self rhs : ComponentMask) : bool :=
  let n := Nat.max (length (m_words self)) (length (m_words rhs)) in
  containsAll_from (m_words self) (m_words rhs) 0 n.

Fixpoint containsNone_from (ws rhs : list Z) (i steps : nat) : bool :=
  match steps with
  | O => true
  | S k =>
      let a := word_or_zero ws i in
      let b := word_or_zero rhs i in
      if negb (Z.land a b =? 0) then false
      else containsNone_from ws rhs (S i) k
  end.

Definition containsNone (self rhs : ComponentMask) : bool :=
  let n := Nat.max (length (m_words self)) (length (m_words rhs)) in
  containsNone_from (m_words self) (m_words rhs) 0 n.

Definition matches (self required excluded : ComponentMask) : bool :=
  containsAll self required && containsNone self excluded.

Definition hex_digit (d : Z) : ascii :=
  match d with
  | 0 => "0" | 1 => "1" | 2 => "2" | 3 => "3" | 4 => "4"
  | 5 => "5" | 6 => "6" | 7 => "7" | 8 => "8" | 9 => "9"
  | 10 => "a" | 11 => "b" | 12 => "c" | 13 => "d" | 14 => "e"
  | _ => "f"
  end%char.

(** [oss << std::hex << std::setfill('0') << std::setw(width) << w] for a
    value that fits [width] digits. *)
Fixpoint hex_fixed (width : nat) (w : Z) : string :=
  match width with
  | O => EmptyString
  | S k => String (hex_digit ((w / 16 ^ Z.of_nat k) mod 16)) (hex_fixed k w)
  end.

(** The words are streamed from the last one down to the first. *)
Definition toKey (m : ComponentMask) : string :=
  match m_words m with
  | [] => "0"%string
  | _ => fold_left (fun oss w => oss +:+ hex_fixed 16 w) (rev (m_words m)) EmptyString
  end.

Definition fromIds (ids : list Z) : ComponentMask :=
  fold_left (fun m id => set id m) ids empty_mask.

(** What every mask built through the class interface satisfies: words are
    64-bit values, and IDs being 32-bit there are at most [2^26] words. *)
Definition mask_wf (m : ComponentMask) : Prop :=
  Forall (fun w => 0 <= w < 2 ^ 64) (m_words m) /\ size m <= 2 ^ 26.

Definition is_id (compId : Z) : Prop := 0 <= compId < 2 ^ 32.

End ECS.

(* ===================================================================== *)
(** ** Engine::smodel  (ModelFormat.h, SModelNodeRecord.h, SModelLoader.cpp) *)
(* ===================================================================== *)

Module SModel.

Definition SMODEL_MAGIC : Z := 0x444F4D53.
Definition SMODEL_VERSION_MAJOR : Z := 2.
Definition SMODEL_VERSION_MINOR : Z := 1.

(** The header as the loader and the cooker use it.  [SModelHeader.h] is not
    among the sources: the record lists the fields they name, each holding
    the unsigned value of the field. *)
Record SModelHeader := {
  magic : Z;
  versionMajor : Z;
  versionMinor : Z;
  meshCount : Z;
  primitiveCount : Z;
  materialCount : Z;
  textureCount : Z;
  nodeCount : Z;
  nodePrimitiveIndexCount : Z;
  nodeChildIndicesCount : Z;
  meshesOffset : Z;
  primitivesOffset : Z;
  materialsOffset : Z;
  texturesOffset : Z;
  nodesOffset : Z;
  nodePrimitiveIndicesOffset : Z;
  nodeChildIndicesOffset : Z;
  stringTableOffset : Z;
  stringTableSize : Z;
  blobOffset : Z;
  blobSize : Z;
  fileSizeBytes : Z
}.

(** The record fields [LoadSModelFile] reads (the record headers other than
    the node record are not among the sources). *)
Record SModelMeshRecord := {
  vertexCount : Z;
  vertexStride : Z;
  vertexDataOffset : Z;
  vertexDataSize : Z;
  indexDataOffset : Z;
  indexDataSize : Z
}.

Record SModelPrimitiveRecord := {
  meshIndex : Z;
  materialIndex : Z
}.

(** The texture indices are [int32_t]: [-1] is "none". *)
Record SModelMaterialRecord := {
  baseColorTexture : Z;
  normalTexture : Z;
  metallicRoughnessTexture : Z;
  occlusionTexture : Z;
  emissiveTexture : Z
}.

Record SModelTextureRecord := {
  imageDataOffset : Z;
  imageDataSize : Z
}.

(** SModelNodeRecord.h (88 bytes, packed).  The local matrix is never read
    by the loader and is left out. *)
Module NodeRecord.
Record SModelNodeRecord := {
  nameStrOffset : Z;
  parentIndex : Z;
  firstChildIndex : Z;
  childCount : Z;
  firstPrimitiveIndex : Z;
  primitiveCount : Z
}.
End NodeRecord.

Definition sizeof_SModelNodeRecord : Z := 88.
Definition sizeof_uint32_t : Z := 4.

(** What the missing declarations fix: the [sizeof] of the header and of the
    four other records, and the width of the integer type in which a record's
    blob [offset + size] is evaluated (32 when both fields are [uint32_t],
    64 otherwise). *)
Record Layout := {
  sizeof_SModelHeader : Z;
  sizeof_SModelMeshRecord : Z;
  sizeof_SModelPrimitiveRecord : Z;
  sizeof_SModelMaterialRecord : Z;
  sizeof_SModelTextureRecord : Z;
  slice_bits : Z
}.

(** The file memory seen through the loader's [reinterpret_cast]s: the
    header at byte 0 and, for every byte address, the record or word a typed
    pointer reads there. *)
Record Memory := {
  header_at_0 : SModelHeader;
  mesh_at : Z -> SModelMeshRecord;
  primitive_at : Z -> SModelPrimitiveRecord;
  material_at : Z -> SModelMaterialRecord;
  texture_at : Z -> SModelTextureRecord;
  node_at : Z -> NodeRecord.SModelNodeRecord;
  u32_at : Z -> Z
}.

(** [std::vector<uint8_t>]: a byte count and the bytes. *)
Record ByteVector := {
  vec_size : Z;
  vec_data : Memory
}.

Definition zero_header : SModelHeader :=
  {| magic := 0; versionMajor := 0; versionMinor := 0;
     meshCount := 0; primitiveCount := 0; materialCount := 0;
     textureCount := 0; nodeCount := 0; nodePrimitiveIndexCount := 0;
     nodeChildIndicesCount := 0;
     meshesOffset := 0; primitivesOffset := 0; materialsOffset := 0;
     texturesOffset := 0; nodesOffset := 0; nodePrimitiveIndicesOffset := 0;
     nodeChildIndicesOffset := 0;
     stringTableOffset := 0; stringTableSize := 0;
     blobOffset := 0; blobSize := 0; fileSizeBytes := 0 |}.

Definition zero_memory : Memory :=
  {| header_at_0 := zero_header;
     mesh_at := fun _ => {| vertexCount := 0; vertexStride := 0;
                            vertexDataOffset := 0; vertexDataSize := 0;
                            indexDataOffset := 0; indexDataSize := 0 |};
     primitive_at := fun _ => {| meshIndex := 0; materialIndex := 0 |};
     material_at := fun _ => {| baseColorTexture := 0; normalTexture := 0;
                                metallicRoughnessTexture := 0;
                                occlusionTexture := 0; emissiveTexture := 0 |};
     texture_at := fun _ => {| imageDataOffset := 0; imageDataSize := 0 |};
     node_at := fun _ => {| NodeRecord.nameStrOffset := 0;
                            NodeRecord.parentIndex := 0;
                            NodeRecord.firstChildIndex := 0;
                            NodeRecord.childCount := 0;
                            NodeRecord.firstPrimitiveIndex := 0;
                            NodeRecord.primitiveCount := 0 |};
     u32_at := fun _ => 0 |}.

Definition empty_vector : ByteVector := {| vec_size := 0; vec_data := zero_memory |}.

(** SModelFileView.  A pointer into [fileBytes] is its byte offset from
    [fileBytes.data()]; [None] is [nullptr].  [nodes] and
    [nodePrimitiveIndices] are the members [LoadSModelFile] assigns. *)
Record SModelFileView := {
  fileBytes : ByteVector;
  header : option Z;
  meshes : option Z;
  primitives : option Z;
  materials : option Z;
  textures : option Z;
  nodes : option Z;
  nodePrimitiveIndices : option Z;
  stringTable : option Z;
  blob : option Z
}.

(** [SModelFileView{}] *)
Definition empty_view : SModelFileView :=
  {| fileBytes := empty_vector; header := None;
     meshes := None; primitives := None; materials := None; textures := None;
     nodes := None; nodePrimitiveIndices := None;
     stringTable := None; blob := None |}.

(** The counting helpers of the view: [header ? header->meshCount : 0]. *)
Module View.
Definition deref (v : SModelFileView) : option SModelHeader :=
  match header v with
  | Some _ => Some (header_at_0 (vec_data (fileBytes v)))
  | None => None
  end.
Definition meshCount (v : SModelFileView) : Z :=
  match deref v with Some h => SModel.meshCount h | None => 0 end.
Definition primitiveCount (v : SModelFileView) : Z :=
  match deref v with Some h => SModel.primitiveCount h | None => 0 end.
Definition materialCount (v : SModelFileView) : Z :=
  match deref v with Some h => SModel.materialCount h | None => 0 end.
Definition textureCount (v : SModelFileView) : Z :=
  match deref v with Some h => SModel.textureCount h | None => 0 end.
End View.

(** *** ModelFormat.h *)

Definition isHeaderCompatible (h : SModelHeader) : bool :=
  if negb (magic h =? SMODEL_MAGIC) then false
  else if negb (versionMajor h =? SMODEL_VERSION_MAJOR) then false
  else if versionMinor h <? SMODEL_VERSION_MINOR then false
  else true.

(** *** SModelLoader.cpp: local helpers *)

Definition isRangeInsideFile (begin size fileSize : Z) : bool :=
  if begin >? fileSize then false
  else if size >? fileSize then false
  else if wrap64 (begin + size) >? fileSize then false
  else true.

(** [None] on success; on failure the text written to [outError]. *)
Definition tableRangeValid (sizeof_T tableOffset count fileSize : Z) : option string :=
  let bytes := wrap64 (count * sizeof_T) in
  if negb (isRangeInsideFile tableOffset bytes fileSize)
  then Some ("Table out of file bounds. offset=" +:+ to_string tableOffset
             +:+ " bytes=" +:+ to_string bytes
             +:+ " fileSize=" +:+ to_string fileSize)
  else None.

(** *** SModelLoader.cpp: LoadSModelFile *)

(** The outcome of a validation loop: it runs to its end, or returns false
    with [outError] set, or reads outside the file buffer (behaviour the
    language leaves undefined). *)
Inductive Check :=
| Pass
| Fail (outError : string)
| OutOfBounds.

Definition and_then (c : Check) (k : Check) : Check :=
  match c with
  | Pass => k
  | _ => c
  end.

(** [for (uint32_t i = first; ...; ++i) body], [steps] iterations left. *)
Fixpoint for_loop (body : Z -> Check) (i : Z) (steps : nat) : Check :=
  match steps with
  | O => Pass
  | S k => and_then (body i) (for_loop body (i + 1) k)
  end.

Definition for_each (count : Z) (body : Z -> Check) : Check :=
  for_loop body 0 (Z.to_nat count).

Section Validation.
Variable L : Layout.
Variable mem : Memory.
Variable uFileSize : Z.

Let h : SModelHeader := header_at_0 mem.

(** [m.offset + m.size > blobSize] *)
Definition slice_exceeds (offset size blobSize : Z) : bool :=
  wrap (slice_bits L) (offset + size) >? blobSize.

Definition check_mesh (i : Z) : Check :=
  let m := mesh_at mem (meshesOffset h + i * sizeof_SModelMeshRecord L) in
  if slice_exceeds (vertexDataOffset m) (vertexDataSize m) (blobSize h)
  then Fail ("Mesh vertex data slice out of blob bounds (meshIndex="
             +:+ to_string i +:+ ")")
  else if slice_exceeds (indexDataOffset m) (indexDataSize m) (blobSize h)
  then Fail ("Mesh index data slice out of blob bounds (meshIndex="
             +:+ to_string i +:+ ")")
  else if (vertexCount m =? 0) || (vertexStride m =? 0)
  then Fail ("Mesh has invalid vertexCount/vertexStride (meshIndex="
             +:+ to_string i +:+ ")")
  else
    let expectedVBSize := wrap64 (vertexCount m * vertexStride m) in
    if negb (vertexDataSize m =? expectedVBSize)
    then Fail ("Mesh vertexDataSize mismatch (meshIndex=" +:+ to_string i +:+ ")")
    else Pass.

Definition check_texture (i : Z) : Check :=
  let t := texture_at mem (texturesOffset h + i * sizeof_SModelTextureRecord L) in
  if slice_exceeds (imageDataOffset t) (imageDataSize t) (blobSize h)
  then Fail ("Texture image data slice out of blob bounds (textureIndex="
             +:+ to_string i +:+ ")")
  else Pass.

Definition check_primitive (i : Z) : Check :=
  let p := primitive_at mem (primitivesOffset h + i * sizeof_SModelPrimitiveRecord L) in
  if meshIndex p >=? meshCount h
  then Fail ("Primitive references invalid meshIndex (primitiveIndex="
             +:+ to_string i +:+ ")")
  else if materialIndex p >=? materialCount h
  then Fail ("Primitive references invalid materialIndex (primitiveIndex="
             +:+ to_string i +:+ ")")
  else Pass.

(** The lambda [checkTex]; [uint32_t(texIndex)] of a non-negative
    [int32_t] is the value itself. *)
Definition checkTex (i : Z) (texIndex : Z) (fieldName : string) : Check :=
  if texIndex <? 0 then Pass
  else if texIndex >=? textureCount h
  then Fail ("Material references invalid texture index (materialIndex="
             +:+ to_string i +:+ ", field=" +:+ fieldName +:+ ")")
  else Pass.

Definition check_material (i : Z) : Check :=
  let mat := material_at mem (materialsOffset h + i * sizeof_SModelMaterialRecord L) in
  and_then (checkTex i (baseColorTexture mat) "baseColorTexture")
  (and_then (checkTex i (normalTexture mat) "normalTexture")
  (and_then (checkTex i (metallicRoughnessTexture mat) "metallicRoughnessTexture")
  (and_then (checkTex i (occlusionTexture mat) "occlusionTexture")
            (checkTex i (emissiveTexture mat) "emissiveTexture")))).

(** [outView.nodePrimitiveIndices[idx]]: the pointer is only set when the
    table is declared non-empty, and the word read must lie in the
    buffer. *)
Definition read_nodePrimitiveIndex (idx : Z) : option Z :=
  if nodePrimitiveIndexCount h >? 0 then
    let addr := nodePrimitiveIndicesOffset h + idx * sizeof_uint32_t in
    if addr + sizeof_uint32_t <=? uFileSize then Some (u32_at mem addr) else None
  else None.

Definition check_node_primitive (nr : NodeRecord.SModelNodeRecord) (k : Z) : Check :=
  match read_nodePrimitiveIndex (wrap32 (NodeRecord.firstPrimitiveIndex nr + k)) with
  | None => OutOfBounds
  | Some pidx =>
      if pidx >=? primitiveCount h
      then Fail "Node references invalid primitive index"
      else Pass
  end.

(** The loader names the third word of the node record [firstChild]; it is
    the field SModelNodeRecord.h declares as [firstChildIndex]. *)
Definition check_node (ni : Z) : Check :=
  let nodeCount := nodeCount h in
  let idxCount := nodePrimitiveIndexCount h in
  let nr := node_at mem (nodesOffset h + ni * sizeof_SModelNodeRecord) in
  if negb (NodeRecord.parentIndex nr =? UINT32_MAX)
     && (NodeRecord.parentIndex nr >=? nodeCount)
  then Fail "Node parentIndex out of bounds"
  else
    and_then
      (if NodeRecord.childCount nr >? 0 then
         if NodeRecord.firstChildIndex nr =? UINT32_MAX
         then Fail "Node has children but firstChild == UINT32_MAX"
         else if wrap32 (NodeRecord.firstChildIndex nr + NodeRecord.childCount nr)
                 >? nodeCount
         then Fail "Node children range out of bounds"
         else Pass
       else Pass)
      (if NodeRecord.primitiveCount nr >? 0 then
         if wrap32 (NodeRecord.firstPrimitiveIndex nr + NodeRecord.primitiveCount nr)
            >? idxCount
         then Fail "Node primitive index range out of bounds"
         else for_each (NodeRecord.primitiveCount nr) (check_node_primitive nr)
       else Pass).

(** Everything after the typed pointers are built. *)
Definition validate_records : Check :=
  and_then (for_each (meshCount h) check_mesh)
  (and_then (for_each (textureCount h) check_texture)
  (and_then (for_each (primitiveCount h) check_primitive)
  (and_then (for_each (materialCount h) check_material)
            (if nodeCount h >? 0 then for_each (nodeCount h) check_node
             else Pass)))).

(** The section and table range gate, in the order of the source. *)
Definition validate_ranges : option string :=
  if negb (isRangeInsideFile (stringTableOffset h) (stringTableSize h) uFileSize)
  then Some "String table out of bounds."%string
  else if negb (isRangeInsideFile (blobOffset h) (blobSize h) uFileSize)
  then Some "Blob section out of bounds."%string
  else
    match tableRangeValid (sizeof_SModelMeshRecord L) (meshesOffset h)
            (meshCount h) uFileSize with
    | Some e => Some e
    | None =>
    match tableRangeValid (sizeof_SModelPrimitiveRecord L) (primitivesOffset h)
            (primitiveCount h) uFileSize with
    | Some e => Some e
    | None =>
    match tableRangeValid (sizeof_SModelMaterialRecord L) (materialsOffset h)
            (materialCount h) uFileSize with
    | Some e => Some e
    | None =>
    match tableRangeValid (sizeof_SModelTextureRecord L) (texturesOffset h)
            (textureCount h) uFileSize with
    | Some e => Some e
    | None =>
    match (if nodeCount h >? 0
           then tableRangeValid sizeof_SModelNodeRecord (nodesOffset h)
                  (nodeCount h) uFileSize
           else None) with
    | Some e => Some e
    | None =>
        if (nodePrimitiveIndexCount h >? 0)
           && negb (isRangeInsideFile (nodePrimitiveIndicesOffset h)
                      (wrap64 (nodePrimitiveIndexCount h * sizeof_uint32_t))
                      uFileSize)
        then Some "NodePrimitiveIndices table out of file bounds."%string
        else None
    end end end end end.

End Validation.

(** [std::ifstream] as the loader uses it: whether the file opened, what
    [tellg] reports at the end, whether [read] succeeded, and the buffer
    contents after [read]. *)
Record IfStream := {
  is_open : bool;
  tellg : Z;
  read_ok : bool;
  contents : Memory
}.

Inductive Outcome :=
| Returned (ok : bool) (outView : SModelFileView) (outError : string)
| Undefined.

Definition with_fileBytes (v : SModelFileView) (b : ByteVector) : SModelFileView :=
  {| fileBytes := b; header := header v;
     meshes := meshes v; primitives := primitives v; materials := materials v;
     textures := textures v; nodes := nodes v;
     nodePrimitiveIndices := nodePrimitiveIndices v;
     stringTable := stringTable v; blob := blob v |}.

Definition with_header (v : SModelFileView) (p : option Z) : SModelFileView :=
  {| fileBytes := fileBytes v; header := p;
     meshes := meshes v; primitives := primitives v; materials := materials v;
     textures := textures v; nodes := nodes v;
     nodePrimitiveIndices := nodePrimitiveIndices v;
     stringTable := stringTable v; blob := blob v |}.

(** "Build pointers/views": [base + offset] for every table. *)
Definition with_tables (v : SModelFileView) (h : SModelHeader) : SModelFileView :=
  {| fileBytes := fileBytes v; header := header v;
     meshes := Some (meshesOffset h);
     primitives := Some (primitivesOffset h);
     materials := Some (materialsOffset h);
     textures := Some (texturesOffset h);
     nodes := if nodeCount h >? 0 then Some (nodesOffset h) else nodes v;
     nodePrimitiveIndices :=
       if nodePrimitiveIndexCount h >? 0
       then Some (nodePrimitiveIndicesOffset h) else nodePrimitiveIndices v;
     stringTable := Some (stringTableOffset h);
     blob := Some (blobOffset h) |}.

(** [outView] and [outError] are the caller's objects on entry; the outcome
    carries them as they are on return. *)
Definition LoadSModelFile (L : Layout) (path : string) (file : IfStream)
    (outView : SModelFileView) (outError : string) : Outcome :=
  let outError := EmptyString in
  let outView := empty_view in
  if negb (is_open file)
  then Returned false outView ("Failed to open file: " +:+ path)
  else
    let fileSize := tellg file in
    if fileSize <=? 0
    then Returned false outView ("File is empty: " +:+ path)
    else
      let outView :=
        with_fileBytes outView {| vec_size := fileSize; vec_data := contents file |} in
      if negb (read_ok file)
      then Returned false outView ("Failed to read file bytes: " +:+ path)
      else
        let uFileSize := vec_size (fileBytes outView) in
        if uFileSize <? sizeof_SModelHeader L
        then Returned false outView "File too small to contain SModelHeader."
        else
          let outView := with_header outView (Some 0) in
          let mem := vec_data (fileBytes outView) in
          let h := header_at_0 mem in
          if negb (isHeaderCompatible h)
          then Returned false outView
                 "SModel header incompatible (bad magic or unsupported version)."
          else if negb (fileSizeBytes h =? 0) && negb (fileSizeBytes h =? uFileSize)
          then Returned false outView
                 "SModel header fileSizeBytes does not match actual file size."
          else
            match validate_ranges L mem uFileSize with
            | Some e => Returned false outView e
            | None =>
                let outView := with_tables outView h in
                match validate_records L mem uFileSize with
                | Pass => Returned true outView outError
                | Fail e => Returned false outView e
                | OutOfBounds => Undefined
                end
            end.

End SModel.

(* ===================================================================== *)
(** ** glm::mat4 *)
(* ===================================================================== *)

(** The matrix library is external to the repository.  The verifier uses
    [glm::mat4(1.0f)], [operator*] and an element-wise comparison within
    [1e-4]; they are an interface here. *)
Class Mat4 := {
  mat4 : Type;
  mat_identity : mat4;
  mat_mul : mat4 -> mat4 -> mat4;
  mat_nearlyEqual : mat4 -> mat4 -> bool
}.

(** The identity matrix is a left unit of the product. *)
Class Mat4LeftUnit (M : Mat4) := {
  mat_mul_identity_l : forall m : mat4, mat_mul mat_identity m = m
}.

(** Exact 4x4 integer matrices, stored by columns as [glm] does; they run the
    traversal on concrete node tables. *)
Module ZMat.
Record vec4 := { vx : Z; vy : Z; vz : Z; vw : Z }.
Record zmat4 := { col0 : vec4; col1 : vec4; col2 : vec4; col3 : vec4 }.

Definition vscale (s : Z) (v : vec4) : vec4 :=
  {| vx := s * vx v; vy := s * vy v; vz := s * vz v; vw := s * vw v |}.
Definition vadd (a b : vec4) : vec4 :=
  {| vx := vx a + vx b; vy := vy a + vy b; vz := vz a + vz b; vw := vw a + vw b |}.
Definition veqb (a b : vec4) : bool :=
  (vx a =? vx b) && (vy a =? vy b) && (vz a =? vz b) && (vw a =? vw b).

Definition mul_vec (m : zmat4) (v : vec4) : vec4 :=
  vadd (vadd (vscale (vx v) (col0 m)) (vscale (vy v) (col1 m)))
       (vadd (vscale (vz v) (col2 m)) (vscale (vw v) (col3 m))).

Definition mul (a b : zmat4) : zmat4 :=
  {| col0 := mul_vec a (col0 b); col1 := mul_vec a (col1 b);
     col2 := mul_vec a (col2 b); col3 := mul_vec a (col3 b) |}.

Definition diag (d : Z) : zmat4 :=
  {| col0 := {| vx := d; vy := 0; vz := 0; vw := 0 |};
     col1 := {| vx := 0; vy := d; vz := 0; vw := 0 |};
     col2 := {| vx := 0; vy := 0; vz := d; vw := 0 |};
     col3 := {| vx := 0; vy := 0; vz := 0; vw := d |} |}.

(** A translation by [(x, y, z)]. *)
Definition translate (x y z : Z) : zmat4 :=
  {| col0 := {| vx := 1; vy := 0; vz := 0; vw := 0 |};
     col1 := {| vx := 0; vy := 1; vz := 0; vw := 0 |};
     col2 := {| vx := 0; vy := 0; vz := 1; vw := 0 |};
     col3 := {| vx := x; vy := y; vz := z; vw := 1 |} |}.

Definition eqb (a b : zmat4) : bool :=
  veqb (col0 a) (col0 b) && veqb (col1 a) (col1 b)
  && veqb (col2 a) (col2 b) && veqb (col3 a) (col3 b).

#[export] Instance ops : Mat4 :=
  {| mat4 := zmat4; mat_identity := diag 1; mat_mul := mul; mat_nearlyEqual := eqb |}.
End ZMat.

(* ===================================================================== *)
(** ** Sample::VerifyLoadSModel  (VerifyLoadSModel.cpp, ModelAsset.h) *)
(* ===================================================================== *)

Module Verify.
Section WithMatrices.
Context {M : Mat4}.

(** ModelAsset::ModelNode (the debug name is left out). *)
Record ModelNode := {
  parentIndex : Z;
  firstChildIndex : Z;
  childCount : Z;
  firstPrimitiveIndex : Z;
  primitiveCount : Z;
  localMatrix : mat4;
  globalMatrix : mat4
}.

(** ModelAsset, as far as the node-graph block reads it: the number of
    primitives and the three node vectors. *)
Record ModelAsset := {
  primitives_size : Z;
  nodes : list ModelNode;
  nodePrimitiveIndices : list Z;
  nodeChildIndices : list Z
}.

(** A default-constructed [ModelNode]. *)
Definition default_node : ModelNode :=
  {| parentIndex := UINT32_MAX; firstChildIndex := UINT32_MAX; childCount := 0;
     firstPrimitiveIndex := 0; primitiveCount := 0;
     localMatrix := mat_identity; globalMatrix := mat_identity |}.

Variable model : ModelAsset.

Let np : list Z := nodePrimitiveIndices model.
Let nc : list Z := nodeChildIndices model.

Definition nodeCount : Z := wrap32 (Z.of_nat (length (nodes model))).
Definition primCount : Z := wrap32 (primitives_size model).
Definition node (i : Z) : ModelNode := at_ default_node (nodes model) i.

(** *** Bounds checks (first loop) *)

(** The child loop of node [i]: [false] when it breaks on a defect. *)
Fixpoint children_ok (i : Z) (n : ModelNode) (k : Z) (steps : nat) : bool :=
  match steps with
  | O => true
  | S s =>
      let c := at_ 0 nc (wrap32 (firstChildIndex n + k)) in
      if c >=? nodeCount then false
      else if negb (parentIndex (node c) =? i) then false
      else children_ok i n (k + 1) s
  end.

(** The primitive loop runs while [k < primitiveCount] and the index is in
    the table; every iteration may clear [nodeOk]. *)
Fixpoint primitives_ok (n : ModelNode) (k : Z) (steps : nat) (nodeOk : bool) : bool :=
  match steps with
  | O => nodeOk
  | S s =>
      let at_k := wrap32 (firstPrimitiveIndex n + k) in
      if at_k <? Z.of_nat (length np) then
        let pidx := at_ 0 np at_k in
        primitives_ok n (k + 1) s (if pidx >=? primCount then false else nodeOk)
      else nodeOk
  end.

(** One iteration of the first loop, threading [nodeOk]. *)
Definition check_node (i : Z) (nodeOk : bool) : bool :=
  let n := node i in
  let nodeOk :=
    if negb (parentIndex n =? UINT32_MAX) && (parentIndex n >=? nodeCount)
    then false else nodeOk in
  let nodeOk :=
    if childCount n >? 0 then
      if (firstChildIndex n =? UINT32_MAX)
         || (firstChildIndex n + childCount n >? Z.of_nat (length nc))
      then false
      else if children_ok i n 0 (Z.to_nat (childCount n)) then nodeOk else false
    else nodeOk in
  if primitiveCount n >? 0 then
    let nodeOk :=
      if wrap32 (firstPrimitiveIndex n + primitiveCount n) >? Z.of_nat (length np)
      then false else nodeOk in
    primitives_ok n 0 (Z.to_nat (primitiveCount n)) nodeOk
  else nodeOk.

Fixpoint check_nodes (i : Z) (steps : nat) (nodeOk : bool) : bool :=
  match steps with
  | O => nodeOk
  | S s => check_nodes (i + 1) s (check_node i nodeOk)
  end.

(** *** Traversal *)

Record DfsState := {
  expectedGlobals : list mat4;
  visited : list bool
}.

Definition initial_state : DfsState :=
  {| expectedGlobals := repeat mat_identity (Z.to_nat nodeCount);
     visited := repeat false (Z.to_nat nodeCount) |}.

Definition mark (idx : Z) (g : mat4) (st : DfsState) : DfsState :=
  {| expectedGlobals := <[Z.to_nat idx := g]> (expectedGlobals st);
     visited := <[Z.to_nat idx := true]> (visited st) |}.

(** The loop over the child range of [idx]; [dfs] is the recursive call. *)
Fixpoint visit_children (dfs : Z -> mat4 -> DfsState -> option DfsState)
    (idx : Z) (n : ModelNode) (k : Z) (steps : nat) (st : DfsState)
  : option DfsState :=
  match steps with
  | O => Some st
  | S s =>
      let c := at_ 0 nc (wrap32 (firstChildIndex n + k)) in
      match dfs c (at_ mat_identity (expectedGlobals st) idx) st with
      | None => None
      | Some st' => visit_children dfs idx n (k + 1) s st'
      end
  end.

(** The recursive lambda [dfs].  [fuel] bounds the depth of the recursion;
    [None] means the bound was reached. *)
Fixpoint dfs (fuel : nat) (idx : Z) (parent : mat4) (st : DfsState)
  : option DfsState :=
  match fuel with
  | O => None
  | S fuel' =>
      if idx >=? nodeCount then Some st
      else if at_ false (visited st) idx then Some st
      else
        let n := node idx in
        let st := mark idx (mat_mul parent (localMatrix n)) st in
        if (childCount n =? 0) || (firstChildIndex n =? UINT32_MAX) then Some st
        else if firstChildIndex n + childCount n >? Z.of_nat (length nc) then Some st
        else visit_children (dfs fuel') idx n 0 (Z.to_nat (childCount n)) st
  end.

(** One more than the number of nodes: every nested call marks a node that
    was not marked before. *)
Definition depth_bound : nat := S (Z.to_nat nodeCount).

Fixpoint visit_roots (i : Z) (steps : nat) (st : DfsState) : option DfsState :=
  match steps with
  | O => Some st
  | S s =>
      let r := if parentIndex (node i) =? UINT32_MAX
               then dfs depth_bound i mat_identity st
               else Some st in
      match r with
      | None => None
      | Some st' => visit_roots (i + 1) s st'
      end
  end.

Definition resolve_globals : option DfsState :=
  visit_roots 0 (Z.to_nat nodeCount) initial_state.

(** *** Comparison with the stored globals (last loop) *)

Fixpoint compare_globals (st : DfsState) (i : Z) (steps : nat) (nodeOk : bool) : bool :=
  match steps with
  | O => nodeOk
  | S s =>
      let nodeOk :=
        if negb (at_ false (visited st) i) then nodeOk
        else if mat_nearlyEqual (at_ mat_identity (expectedGlobals st) i)
                                (globalMatrix (node i))
        then nodeOk else false in
      compare_globals st (i + 1) s nodeOk
  end.

Inductive Report :=
| NoNodes
| NodeGraph (nodeOk : bool).

(** The node-graph block of [VerifyLoadSModel]: [NodeGraph true] is the run
    that prints "Node graph validation OK". *)
Definition verify_node_graph : option Report :=
  match nodes model with
  | [] => Some NoNodes
  | _ =>
      let nodeOk := check_nodes 0 (Z.to_nat nodeCount) true in
      match resolve_globals with
      | None => None
      | Some st => Some (NodeGraph (compare_globals st 0 (Z.to_nat nodeCount) nodeOk))
      end
  end.

(** *** Notions the properties of the traversal are stated with *)

(** Every index field holds a [uint32_t] value. *)
Definition is_u32 (x : Z) : Prop := 0 <= x < 2 ^ 32.

Definition node_wf (n : ModelNode) : Prop :=
  is_u32 (parentIndex n) /\ is_u32 (firstChildIndex n) /\ is_u32 (childCount n)
  /\ is_u32 (firstPrimitiveIndex n) /\ is_u32 (primitiveCount n).

Definition model_wf : Prop :=
  Forall node_wf (nodes model) /\ Forall is_u32 nc /\ Forall is_u32 np.

(** The two vectors of the traversal have one entry per node. *)
Definition state_wf (st : DfsState) : Prop :=
  length (visited st) = Z.to_nat nodeCount
  /\ length (expectedGlobals st) = Z.to_nat nodeCount.

(** The number of nodes not visited yet. *)
Fixpoint count_false (l : list bool) : nat :=
  match l with
  | [] => O
  | b :: l' => ((if b then 0 else 1) + count_false l')%nat
  end.

Definition unvisited (st : DfsState) : nat := count_false (visited st).

Definition is_visited (st : DfsState) (i : Z) : bool := at_ false (visited st) i.
Definition global_of (st : DfsState) (i : Z) : mat4 :=
  at_ mat_identity (expectedGlobals st) i.

(** The child range of node [i] passes the guards of [dfs]. *)
Definition has_child_range (i : Z) : Prop :=
  let n := node i in
  childCount n <> 0 /\ firstChildIndex n <> UINT32_MAX
  /\ firstChildIndex n + childCount n <= Z.of_nat (length nc).

(** The [k]-th entry of the child range of node [i]. *)
Definition child (i k : Z) : Z :=
  at_ 0 nc (wrap32 (firstChildIndex (node i) + k)).

(** [c] is a node the traversal steps to from node [i]. *)
Definition child_of (i c : Z) : Prop :=
  0 <= i < nodeCount /\ has_child_range i /\ 0 <= c < nodeCount
  /\ exists k, 0 <= k < childCount (node i) /\ c = child i k.

Definition is_root (i : Z) : Prop :=
  0 <= i < nodeCount /\ parentIndex (node i) = UINT32_MAX.

(** Reachable from a root through child ranges. *)
Inductive reachable : Z -> Prop :=
| reachable_root (i : Z) : is_root i -> reachable i
| reachable_child (i c : Z) : reachable i -> child_of i c -> reachable c.

(** [st'] has the marks and globals of [st] and possibly more. *)
Definition extends (st st' : DfsState) : Prop :=
  state_wf st'
  /\ (forall j, 0 <= j -> is_visited st j = true ->
        is_visited st' j = true /\ global_of st' j = global_of st j)
  /\ (forall j, 0 <= j -> is_visited st' j = false ->
        global_of st' j = global_of st j).

(** The nodes marked between [st] and [st'] have their children marked in
    [st']. *)
Definition new_closed (st st' : DfsState) : Prop :=
  forall j c, 0 <= j -> is_visited st' j = true -> is_visited st j = false ->
    child_of j c -> is_visited st' c = true.

(** A global is the product of the global of a node that lists the node as
    a child and of the node's local matrix. *)
Definition from_lister (st : DfsState) (j : Z) : Prop :=
  exists p, child_of p j /\ is_visited st p = true
            /\ global_of st j = mat_mul (global_of st p) (localMatrix (node j)).

(** What holds of the state between two iterations of the loop over the
    roots, before iteration [i]. *)
Definition roots_invariant (i : Z) (st : DfsState) : Prop :=
  state_wf st
  /\ (forall j, 0 <= j -> is_visited st j = true -> reachable j)
  /\ (forall j c, 0 <= j -> is_visited st j = true -> child_of j c ->
        is_visited st c = true)
  /\ (forall j, 0 <= j -> is_visited st j = true ->
        (is_root j
         /\ global_of st j = mat_mul mat_identity (localMatrix (node j)))
        \/ from_lister st j)
  /\ (forall j, 0 <= j -> is_visited st j = false -> global_of st j = mat_identity)
  /\ (forall r, 0 <= r < i -> is_root r -> is_visited st r = true).

(** The calls of [dfs] as a relation between the state before and the state
    after: a call returns at once on an index out of range or a visited
    node, marks a node without a usable child range, or marks the node and
    runs the loop over its child range. *)
Inductive Dfs : Z -> mat4 -> DfsState -> DfsState -> Prop :=
| Dfs_skip (idx : Z) (parent : mat4) (st : DfsState) :
    nodeCount <= idx \/ is_visited st idx = true ->
    Dfs idx parent st st
| Dfs_leaf (idx : Z) (parent : mat4) (st : DfsState) :
    0 <= idx < nodeCount -> is_visited st idx = false ->
    ~ has_child_range idx ->
    Dfs idx parent st (mark idx (mat_mul parent (localMatrix (node idx))) st)
| Dfs_node (idx : Z) (parent : mat4) (st st' : DfsState) :
    0 <= idx < nodeCount -> is_visited st idx = false ->
    has_child_range idx ->
    Children idx 0 (Z.to_nat (childCount (node idx)))
      (mark idx (mat_mul parent (localMatrix (node idx))) st) st' ->
    Dfs idx parent st st'
with Children : Z -> Z -> nat -> DfsState -> DfsState -> Prop :=
| Children_done (idx k : Z) (st : DfsState) :
    Children idx k O st st
| Children_step (idx k : Z) (steps : nat) (st st1 st' : DfsState) :
    Dfs (child idx k) (global_of st idx) st st1 ->
    Children idx (k + 1) steps st1 st' ->
    Children idx k (S steps) st st'.

Scheme Dfs_min := Minimality for Dfs Sort Prop
  with Children_min := Minimality for Children Sort Prop.
Combined Scheme Dfs_Children_min from Dfs_min, Children_min.

End WithMatrices.
End Verify.


(* ===================================================================== *)
(** ** Statements the loader is compared with *)
(* ===================================================================== *)

Module Spec.
Import SModel.

(** The node invariant of the format on child ranges: for every node with
    children, the declared range lies within the node-child-index table and
    every index found there is a node index. *)
Fixpoint children_resolve (mem : Memory) (first : Z) (k : Z) (steps : nat) : bool :=
  match steps with
  | O => true
  | S s =>
      let h := header_at_0 mem in
      (u32_at mem (nodeChildIndicesOffset h + (first + k) * sizeof_uint32_t)
         <? nodeCount h)
      && children_resolve mem first (k + 1) s
  end.

Definition child_range_ok (mem : Memory) (ni : Z) : bool :=
  let h := header_at_0 mem in
  let nr := node_at mem (nodesOffset h + ni * sizeof_SModelNodeRecord) in
  if NodeRecord.childCount nr >? 0 then
    (NodeRecord.firstChildIndex nr + NodeRecord.childCount nr
       <=? nodeChildIndicesCount h)
    && children_resolve mem (NodeRecord.firstChildIndex nr) 0
         (Z.to_nat (NodeRecord.childCount nr))
  else true.

Definition child_ranges_ok (mem : Memory) : bool :=
  forallb (fun ni => child_range_ok mem (Z.of_nat ni))
          (seq 0 (Z.to_nat (nodeCount (header_at_0 mem)))).

(** A blob slice [offset, offset + size) lies within the blob, in exact
    arithmetic. *)
Definition slice_in_blob (offset size blobSize : Z) : bool :=
  offset + size <=? blobSize.

(** The header of a file that holds nothing but its header. *)
Definition header_only (h : SModelHeader) : Prop :=
  magic h = SMODEL_MAGIC /\ versionMajor h = SMODEL_VERSION_MAJOR
  /\ SMODEL_VERSION_MINOR <= versionMinor h
  /\ meshCount h = 0 /\ primitiveCount h = 0 /\ materialCount h = 0
  /\ textureCount h = 0 /\ nodeCount h = 0 /\ nodePrimitiveIndexCount h = 0
  /\ nodeChildIndicesCount h = 0
  /\ meshesOffset h = 0 /\ primitivesOffset h = 0 /\ materialsOffset h = 0
  /\ texturesOffset h = 0 /\ nodesOffset h = 0
  /\ nodePrimitiveIndicesOffset h = 0 /\ nodeChildIndicesOffset h = 0
  /\ stringTableOffset h = 0 /\ stringTableSize h = 0
  /\ blobOffset h = 0 /\ blobSize h = 0.

(** A failing check leaves a reason in [outError]. *)
Definition reports_reason (c : Check) : Prop :=
  match c with
  | Fail e => e <> EmptyString
  | _ => True
  end.

Definition outcome_ok (o : Outcome) : option bool :=
  match o with
  | Returned ok _ _ => Some ok
  | Undefined => None
  end.

(** The two texts [LoadSModelFile] reports when it rejects a header: an
    incompatible header, and a declared size that is not the byte count. *)
Definition gate_error (e : string) : Prop :=
  e = "SModel header incompatible (bad magic or unsupported version)."%string
  \/ e = "SModel header fileSizeBytes does not match actual file size."%string.

(** A failing check reports a text that is not one of the header gate. *)
Definition reports_later (c : Check) : Prop :=
  match c with
  | Fail e => ~ gate_error e
  | _ => True
  end.
End Spec.

(* ===================================================================== *)
(** ** Concrete files *)
(* ===================================================================== *)

Module Examples.
Import SModel.

(** Sizes standing in for the declarations that are not among the sources;
    the loader only compares sums and products of them with the file size.
    The two layouts differ in the width of the blob-slice sum. *)
Definition layout64 : Layout :=
  {| sizeof_SModelHeader := 128; sizeof_SModelMeshRecord := 80;
     sizeof_SModelPrimitiveRecord := 20; sizeof_SModelMaterialRecord := 64;
     sizeof_SModelTextureRecord := 48; slice_bits := 64 |}.

Definition layout32 : Layout :=
  {| sizeof_SModelHeader := 128; sizeof_SModelMeshRecord := 80;
     sizeof_SModelPrimitiveRecord := 20; sizeof_SModelMaterialRecord := 64;
     sizeof_SModelTextureRecord := 48; slice_bits := 32 |}.

Definition on_disk (size : Z) (mem : Memory) : IfStream :=
  {| is_open := true; tellg := size; read_ok := true; contents := mem |}.

Definition with_header_at_0 (h : SModelHeader) (mem : Memory) : Memory :=
  {| header_at_0 := h; mesh_at := mesh_at mem; primitive_at := primitive_at mem;
     material_at := material_at mem; texture_at := texture_at mem;
     node_at := node_at mem; u32_at := u32_at mem |}.

(** *** A file that is only a header (128 bytes, all offsets zero) *)
Definition header_only_file (minor declaredSize : Z) : IfStream :=
  on_disk 128
    (with_header_at_0
       {| magic := SMODEL_MAGIC; versionMajor := 2; versionMinor := minor;
          meshCount := 0; primitiveCount := 0; materialCount := 0;
          textureCount := 0; nodeCount := 0; nodePrimitiveIndexCount := 0;
          nodeChildIndicesCount := 0;
          meshesOffset := 0; primitivesOffset := 0; materialsOffset := 0;
          texturesOffset := 0; nodesOffset := 0; nodePrimitiveIndicesOffset := 0;
          nodeChildIndicesOffset := 0;
          stringTableOffset := 0; stringTableSize := 0;
          blobOffset := 0; blobSize := 0; fileSizeBytes := declaredSize |}
       zero_memory).

(** *** The same file with the first byte of the magic flipped *)
Definition bad_magic_file : IfStream :=
  on_disk 128
    (with_header_at_0
       {| magic := SMODEL_MAGIC + 1; versionMajor := 2; versionMinor := 1;
          meshCount := 0; primitiveCount := 0; materialCount := 0;
          textureCount := 0; nodeCount := 0; nodePrimitiveIndexCount := 0;
          nodeChildIndicesCount := 0;
          meshesOffset := 0; primitivesOffset := 0; materialsOffset := 0;
          texturesOffset := 0; nodesOffset := 0; nodePrimitiveIndicesOffset := 0;
          nodeChildIndicesOffset := 0;
          stringTableOffset := 0; stringTableSize := 0;
          blobOffset := 0; blobSize := 0; fileSizeBytes := 128 |}
       zero_memory).

(** *** One root node that declares a child, and an empty child-index table

    Header (128 bytes), then the node record at byte 128; 216 bytes. *)
Definition childless_table_header : SModelHeader :=
  {| magic := SMODEL_MAGIC; versionMajor := 2; versionMinor := 1;
     meshCount := 0; primitiveCount := 0; materialCount := 0;
     textureCount := 0; nodeCount := 1; nodePrimitiveIndexCount := 0;
     nodeChildIndicesCount := 0;
     meshesOffset := 128; primitivesOffset := 128;
     materialsOffset := 128; texturesOffset := 128;
     nodesOffset := 128; nodePrimitiveIndicesOffset := 216;
     nodeChildIndicesOffset := 216;
     stringTableOffset := 216; stringTableSize := 0;
     blobOffset := 216; blobSize := 0; fileSizeBytes := 216 |}.

Definition node_with_child : NodeRecord.SModelNodeRecord :=
  {| NodeRecord.nameStrOffset := 0;
     NodeRecord.parentIndex := UINT32_MAX;
     NodeRecord.firstChildIndex := 0;
     NodeRecord.childCount := 1;
     NodeRecord.firstPrimitiveIndex := 0;
     NodeRecord.primitiveCount := 0 |}.

Definition dangling_child_memory : Memory :=
  {| header_at_0 := childless_table_header;
     mesh_at := mesh_at zero_memory; primitive_at := primitive_at zero_memory;
     material_at := material_at zero_memory; texture_at := texture_at zero_memory;
     node_at := fun addr => if addr =? 128 then node_with_child
                            else node_at zero_memory addr;
     u32_at := fun _ => 0 |}.

Definition dangling_child_file : IfStream := on_disk 216 dangling_child_memory.

(** *** Two nodes, a one-entry child-index table holding the index 7

    Header, two node records at 128 and 216, the child-index word at 304;
    308 bytes.  Node 0 declares the range [0, 1). *)
Definition bad_child_index_header : SModelHeader :=
  {| magic := SMODEL_MAGIC; versionMajor := 2; versionMinor := 1;
     meshCount := 0; primitiveCount := 0; materialCount := 0;
     textureCount := 0; nodeCount := 2; nodePrimitiveIndexCount := 0;
     nodeChildIndicesCount := 1;
     meshesOffset := 128; primitivesOffset := 128;
     materialsOffset := 128; texturesOffset := 128;
     nodesOffset := 128; nodePrimitiveIndicesOffset := 304;
     nodeChildIndicesOffset := 304;
     stringTableOffset := 308; stringTableSize := 0;
     blobOffset := 308; blobSize := 0; fileSizeBytes := 308 |}.

Definition leaf_node (parent : Z) : NodeRecord.SModelNodeRecord :=
  {| NodeRecord.nameStrOffset := 0;
     NodeRecord.parentIndex := parent;
     NodeRecord.firstChildIndex := UINT32_MAX;
     NodeRecord.childCount := 0;
     NodeRecord.firstPrimitiveIndex := 0;
     NodeRecord.primitiveCount := 0 |}.

Definition bad_child_index_memory : Memory :=
  {| header_at_0 := bad_child_index_header;
     mesh_at := mesh_at zero_memory; primitive_at := primitive_at zero_memory;
     material_at := material_at zero_memory; texture_at := texture_at zero_memory;
     node_at := fun addr => if addr =? 128 then node_with_child
                            else if addr =? 216 then leaf_node 0
                            else node_at zero_memory addr;
     u32_at := fun addr => if addr =? 304 then 7 else 0 |}.

Definition bad_child_index_file : IfStream := on_disk 308 bad_child_index_memory.

(** *** One texture whose image slice wraps around

    Header, the texture record at 128, a 64-byte blob at 176; 240 bytes.
    The slice starts 8 below the top of the offset type and is 16 long. *)
Definition wrapping_texture_header : SModelHeader :=
  {| magic := SMODEL_MAGIC; versionMajor := 2; versionMinor := 1;
     meshCount := 0; primitiveCount := 0; materialCount := 0;
     textureCount := 1; nodeCount := 0; nodePrimitiveIndexCount := 0;
     nodeChildIndicesCount := 0;
     meshesOffset := 128; primitivesOffset := 128;
     materialsOffset := 128; texturesOffset := 128;
     nodesOffset := 176; nodePrimitiveIndicesOffset := 176;
     nodeChildIndicesOffset := 176;
     stringTableOffset := 176; stringTableSize := 0;
     blobOffset := 176; blobSize := 64; fileSizeBytes := 240 |}.

Definition wrapping_texture (bits : Z) : SModelTextureRecord :=
  {| imageDataOffset := 2 ^ bits - 8; imageDataSize := 16 |}.

Definition wrapping_texture_memory (bits : Z) : Memory :=
  {| header_at_0 := wrapping_texture_header;
     mesh_at := mesh_at zero_memory; primitive_at := primitive_at zero_memory;
     material_at := material_at zero_memory;
     texture_at := fun addr => if addr =? 128 then wrapping_texture bits
                               else texture_at zero_memory addr;
     node_at := node_at zero_memory; u32_at := fun _ => 0 |}.

Definition wrapping_texture_file (bits : Z) : IfStream :=
  on_disk 240 (wrapping_texture_memory bits).

(** *** One mesh whose vertex slice wraps around (same file shape, one mesh
    record of 80 bytes at 128, blob at 208; 272 bytes) *)
Definition wrapping_mesh_header : SModelHeader :=
  {| magic := SMODEL_MAGIC; versionMajor := 2; versionMinor := 1;
     meshCount := 1; primitiveCount := 0; materialCount := 0;
     textureCount := 0; nodeCount := 0; nodePrimitiveIndexCount := 0;
     nodeChildIndicesCount := 0;
     meshesOffset := 128; primitivesOffset := 208;
     materialsOffset := 208; texturesOffset := 208;
     nodesOffset := 208; nodePrimitiveIndicesOffset := 208;
     nodeChildIndicesOffset := 208;
     stringTableOffset := 208; stringTableSize := 0;
     blobOffset := 208; blobSize := 64; fileSizeBytes := 272 |}.

Definition wrapping_mesh (bits : Z) : SModelMeshRecord :=
  {| vertexCount := 1; vertexStride := 16;
     vertexDataOffset := 2 ^ bits - 8; vertexDataSize := 16;
     indexDataOffset := 0; indexDataSize := 12 |}.

Definition wrapping_mesh_memory (bits : Z) : Memory :=
  {| header_at_0 := wrapping_mesh_header;
     mesh_at := fun addr => if addr =? 128 then wrapping_mesh bits
                            else mesh_at zero_memory addr;
     primitive_at := primitive_at zero_memory;
     material_at := material_at zero_memory;
     texture_at := texture_at zero_memory;
     node_at := node_at zero_memory; u32_at := fun _ => 0 |}.

Definition wrapping_mesh_file (bits : Z) : IfStream :=
  on_disk 272 (wrapping_mesh_memory bits).

(** *** One mesh record of zeros (the file shape of the wrapping mesh) *)
Definition zero_mesh_file : IfStream :=
  on_disk 272 (with_header_at_0 wrapping_mesh_header zero_memory).

(** *** A header that declares 100 textures in a 128-byte file *)
Definition short_table_file : IfStream :=
  on_disk 128
    (with_header_at_0
       {| magic := SMODEL_MAGIC; versionMajor := 2; versionMinor := 1;
          meshCount := 0; primitiveCount := 0; materialCount := 0;
          textureCount := 100; nodeCount := 0; nodePrimitiveIndexCount := 0;
          nodeChildIndicesCount := 0;
          meshesOffset := 128; primitivesOffset := 128; materialsOffset := 128;
          texturesOffset := 128; nodesOffset := 128;
          nodePrimitiveIndicesOffset := 128; nodeChildIndicesOffset := 128;
          stringTableOffset := 128; stringTableSize := 0;
          blobOffset := 128; blobSize := 0; fileSizeBytes := 128 |}
       zero_memory).

(** *** A file of 64 bytes, and one whose read fails *)
Definition truncated_file : IfStream := on_disk 64 zero_memory.

Definition unreadable_file : IfStream :=
  {| is_open := true; tellg := 128; read_ok := false; contents := zero_memory |}.

(** *** Node tables *)

Definition tree_node (parent first count : Z) (local : @mat4 ZMat.ops)
  : Verify.ModelNode (M := ZMat.ops) :=
  {| Verify.parentIndex := parent; Verify.firstChildIndex := first;
     Verify.childCount := count;
     Verify.firstPrimitiveIndex := 0; Verify.primitiveCount := 0;
     Verify.localMatrix := local; Verify.globalMatrix := ZMat.diag 1 |}.

(** Node 0 lists node 1 as its child and node 1 lists node 0; each names the
    other as its parent, so no node is a root. *)
Definition cyclic_model : Verify.ModelAsset (M := ZMat.ops) :=
  {| Verify.primitives_size := 1;
     Verify.nodes := [tree_node 1 0 1 (ZMat.diag 1); tree_node 0 1 1 (ZMat.diag 1)];
     Verify.nodePrimitiveIndices := [];
     Verify.nodeChildIndices := [1; 0] |}.

(** Root R (node 0) with children C1 (node 1) and C2 (node 2); C1 has the
    child C3 (node 3).  The locals are translations. *)
Definition local_R : ZMat.zmat4 := ZMat.translate 1 0 0.
Definition local_C1 : ZMat.zmat4 := ZMat.mul (ZMat.diag 2) (ZMat.translate 0 3 0).
Definition local_C2 : ZMat.zmat4 := ZMat.translate 0 0 5.
Definition local_C3 : ZMat.zmat4 := ZMat.translate 7 0 0.

Definition family_model : Verify.ModelAsset (M := ZMat.ops) :=
  {| Verify.primitives_size := 1;
     Verify.nodes := [tree_node UINT32_MAX 0 2 local_R;
                      tree_node 0 2 1 local_C1;
                      tree_node 0 UINT32_MAX 0 local_C2;
                      tree_node 1 UINT32_MAX 0 local_C3];
     Verify.nodePrimitiveIndices := [];
     Verify.nodeChildIndices := [1; 2; 3] |}.

(** Node 0 is a root whose child range lists node 1; node 1 names no
    parent, so it is a root as well. *)
Definition adopted_root_model : Verify.ModelAsset (M := ZMat.ops) :=
  {| Verify.primitives_size := 1;
     Verify.nodes := [tree_node UINT32_MAX 0 1 local_R;
                      tree_node UINT32_MAX UINT32_MAX 0 local_C2];
     Verify.nodePrimitiveIndices := [];
     Verify.nodeChildIndices := [1] |}.


End Examples.

(* ===================================================================== *)
(** ** Sequences of calls *)
(* ===================================================================== *)

Module Calls.

(** [registerComponent] called on each name of a list in turn. *)
Definition register_all (names : list string) (r : ECS.ComponentRegistry)
  : ECS.ComponentRegistry :=
  fold_left (fun r name => snd (ECS.registerComponent name r)) names r.

(** The two tables of a registry are inverse to each other, and the IDs fit
    32 bits. *)
Definition registry_inv (r : ECS.ComponentRegistry) : Prop :=
  Z.of_nat (length (ECS.m_idToName r)) < 2 ^ 32
  /\ forall name id,
       ECS.m_nameToId r !! name = Some id <->
       0 <= id /\ ECS.m_idToName r !! Z.to_nat id = Some name.

End Calls.

(* ===================================================================== *)
(** ** Field widths *)
(* ===================================================================== *)

Module Format.
Import SModel.

Definition fits (bits : Z) (x : Z) : Prop := 0 <= x < 2 ^ bits.

(** The counts are [uint32_t]; offsets and sizes fit 64 bits whatever the
    declared width of each field is. *)
Definition header_typed (h : SModelHeader) : Prop :=
  fits 32 (meshCount h) /\ fits 32 (primitiveCount h) /\ fits 32 (materialCount h)
  /\ fits 32 (textureCount h) /\ fits 32 (nodeCount h)
  /\ fits 32 (nodePrimitiveIndexCount h) /\ fits 32 (nodeChildIndicesCount h)
  /\ fits 64 (meshesOffset h) /\ fits 64 (primitivesOffset h)
  /\ fits 64 (materialsOffset h) /\ fits 64 (texturesOffset h)
  /\ fits 64 (nodesOffset h) /\ fits 64 (nodePrimitiveIndicesOffset h)
  /\ fits 64 (stringTableOffset h) /\ fits 64 (stringTableSize h)
  /\ fits 64 (blobOffset h) /\ fits 64 (blobSize h).

(** Record sizes are positive and small (a [sizeof] of a few dozen fields). *)
Definition layout_typed (L : Layout) : Prop :=
  0 < sizeof_SModelHeader L <= 2 ^ 16
  /\ 0 < sizeof_SModelMeshRecord L <= 2 ^ 16
  /\ 0 < sizeof_SModelPrimitiveRecord L <= 2 ^ 16
  /\ 0 < sizeof_SModelMaterialRecord L <= 2 ^ 16
  /\ 0 < sizeof_SModelTextureRecord L <= 2 ^ 16.

(** The node record at index [ni] of the node table. *)
Definition node_record (mem : Memory) (ni : Z) : NodeRecord.SModelNodeRecord :=
  node_at mem (nodesOffset (header_at_0 mem) + ni * sizeof_SModelNodeRecord).

(** The primitive range of every node ends below [2^32]: the 32-bit sum of
    the loader does not wrap. *)
Definition primitive_ranges_fit (mem : Memory) : Prop :=
  forall ni, 0 <= ni < nodeCount (header_at_0 mem) ->
    0 <= NodeRecord.firstPrimitiveIndex (node_record mem ni)
    /\ 0 <= NodeRecord.primitiveCount (node_record mem ni)
    /\ NodeRecord.firstPrimitiveIndex (node_record mem ni)
       + NodeRecord.primitiveCount (node_record mem ni) < 2 ^ 32.

End Format.

(* ===================================================================== *)
(** ** A cooked triangle *)
(* ===================================================================== *)

Module Triangle.
Import SModel.

(** One mesh of three 48-byte vertices and three 32-bit indices, one
    primitive, one material without textures, one root node that draws
    primitive 0.  Layout of [Examples.layout64]: header (128), mesh record
    at 128, primitive record at 208, material record at 228, node record at
    292, node-primitive-index word at 380, string table (1 byte) at 384,
    blob (156 bytes) at 385; 541 bytes. *)
Definition header : SModelHeader :=
  {| magic := SMODEL_MAGIC; versionMajor := 2; versionMinor := 1;
     meshCount := 1; primitiveCount := 1; materialCount := 1;
     textureCount := 0; nodeCount := 1; nodePrimitiveIndexCount := 1;
     nodeChildIndicesCount := 0;
     meshesOffset := 128; primitivesOffset := 208;
     materialsOffset := 228; texturesOffset := 292;
     nodesOffset := 292; nodePrimitiveIndicesOffset := 380;
     nodeChildIndicesOffset := 384;
     stringTableOffset := 384; stringTableSize := 1;
     blobOffset := 385; blobSize := 156; fileSizeBytes := 541 |}.

Definition mesh : SModelMeshRecord :=
  {| vertexCount := 3; vertexStride := 48;
     vertexDataOffset := 0; vertexDataSize := 144;
     indexDataOffset := 144; indexDataSize := 12 |}.

Definition primitive : SModelPrimitiveRecord :=
  {| meshIndex := 0; materialIndex := 0 |}.

Definition material : SModelMaterialRecord :=
  {| baseColorTexture := -1; normalTexture := -1;
     metallicRoughnessTexture := -1; occlusionTexture := -1;
     emissiveTexture := -1 |}.

Definition root : NodeRecord.SModelNodeRecord :=
  {| NodeRecord.nameStrOffset := 0;
     NodeRecord.parentIndex := UINT32_MAX;
     NodeRecord.firstChildIndex := UINT32_MAX;
     NodeRecord.childCount := 0;
     NodeRecord.firstPrimitiveIndex := 0;
     NodeRecord.primitiveCount := 1 |}.

Definition memory : Memory :=
  {| header_at_0 := header;
     mesh_at := fun addr => if addr =? 128 then mesh else mesh_at zero_memory addr;
     primitive_at := fun addr => if addr =? 208 then primitive
                                 else primitive_at zero_memory addr;
     material_at := fun addr => if addr =? 228 then material
                                else material_at zero_memory addr;
     texture_at := texture_at zero_memory;
     node_at := fun addr => if addr =? 292 then root else node_at zero_memory addr;
     u32_at := fun _ => 0 |}.

Definition file : IfStream :=
  {| is_open := true; tellg := 541; read_ok := true; contents := memory |}.

End Triangle.

(* ===================================================================== *)
(** ** The string table  (SModelLoader.cpp, GltfToSmodel.cpp) *)
(* ===================================================================== *)

Module Strings.
Import SModel.

Definition NUL : ascii := Ascii.zero.

(** The C string a [const char *] denotes once [std::memchr(s, '\0', n)]
    has found a terminator among the [n] bytes at [addr]: the characters
    before the first NUL.  [None] when the [n] bytes hold no NUL.  [chars]
    is the file buffer read as [char], by byte offset. *)
Fixpoint c_string (chars : Z -> ascii) (addr : Z) (n : nat) : option string :=
  match n with
  | O => None
  | S k =>
      if Ascii.eqb (chars addr) NUL then Some EmptyString
      else option_map (String (chars addr)) (c_string chars (addr + 1) k)
  end.

(** [SModelFileView::getStringOrEmpty] *)
Definition getStringOrEmpty (chars : Z -> ascii) (v : SModelFileView)
    (strOffset : Z) : string :=
  match View.deref v, stringTable v with
  | Some h, Some table =>
      if strOffset =? 0 then EmptyString
      else if strOffset >=? stringTableSize h then EmptyString
      else
        let maxRemaining := wrap64 (stringTableSize h - strOffset) in
        match c_string chars (table + strOffset) (Z.to_nat maxRemaining) with
        | None => EmptyString
        | Some s => s
        end
  | _, _ => EmptyString
  end.

(** [StringTable] of the cooker: [data] starts as one NUL, so that offset 0
    is the empty string. *)
Record StringTable := { data : list ascii }.

Definition StringTable_new : StringTable := {| data := [NUL] |}.

Definition add (s : string) (t : StringTable) : Z * StringTable :=
  match s with
  | EmptyString => (0, t)
  | String _ _ =>
      (wrap32 (Z.of_nat (length (data t))),
       {| data := data t ++ list_ascii_of_string s ++ [NUL] |})
  end.

(** A string table written to a file and mapped by the loader: the view's
    table pointer is [table], and the [size] bytes there are [bytes]. *)
Definition holds (chars : Z -> ascii) (table : Z) (bytes : list ascii) : Prop :=
  forall i c, bytes !! i = Some c -> chars (table + Z.of_nat i) = c.

Definition no_NUL (s : string) : Prop := ~ In NUL (list_ascii_of_string s).

End Strings.

(* ===================================================================== *)
(** ** The cooker  (GltfToSmodel.cpp) *)
(* ===================================================================== *)

Module Cooker.
Import SModel.

Definition len {A} (l : list A) : Z := Z.of_nat (length l).

(** *** Blob *)

Record Blob := { bytes : list Z }.

(** [align]: callers pass 8; [% 0] is undefined in the source. *)
Definition align (alignment : Z) (b : Blob) : Blob :=
  let mod_ := len (bytes b) mod alignment in
  if negb (mod_ =? 0)
  then
    let pad := alignment - mod_ in
    {| bytes := bytes b ++ repeat 0 (Z.to_nat pad) |}
  else b.

Definition append (src : list Z) (b : Blob) : Z * Blob :=
  (wrap64 (len (bytes b)), {| bytes := bytes b ++ src |}).

(** The bytes of a slice of the blob. *)
Definition slice (offset size : Z) (b : list Z) : list Z :=
  take (Z.to_nat size) (drop (Z.to_nat offset) b).

(** *** Mesh records *)

Definition sizeof_VertexPNTT : Z := 48.

(** The blob part of the mesh loop: the vertex array and the index array
    go to the blob, each after an [align(8)], and the record gets their
    offsets and sizes.  [vertices] holds the raw bytes of each vertex,
    [indices] the 32-bit indices; [index_bytes] is their byte image. *)
Definition store_mesh (vertices : list (list Z)) (indices : list Z)
    (index_bytes : list Z) (blob : Blob) : SModelMeshRecord * Blob :=
  let vertexCount := wrap32 (len vertices) in
  let vertexStride := wrap32 sizeof_VertexPNTT in
  let blob1 := align 8 blob in
  let '(vertexDataOffset, blob2) := append (concat vertices) blob1 in
  let vertexDataSize := wrap32 (len vertices * sizeof_VertexPNTT) in
  let blob3 := align 8 blob2 in
  let '(indexDataOffset, blob4) := append index_bytes blob3 in
  let indexDataSize := wrap32 (len indices * sizeof_uint32_t) in
  ({| vertexCount := vertexCount; vertexStride := vertexStride;
      vertexDataOffset := vertexDataOffset; vertexDataSize := vertexDataSize;
      indexDataOffset := indexDataOffset; indexDataSize := indexDataSize |},
   blob4).

(** *** The header *)

(** The sizes of the vectors the cooker writes out. *)
Record Sizes := {
  meshRecords_size : Z;
  primRecords_size : Z;
  materialRecords_size : Z;
  textureRecords_size : Z;
  nodeRecords_size : Z;
  nodePrimitiveIndices_size : Z;
  nodeChildIndices_size : Z;
  strings_data_size : Z;
  blob_bytes_size : Z
}.

(** The header block of [main]; the result is the header and the final
    [cursor].  The offsets assigned without a cast hold the 64-bit cursor. *)
Definition build_header (L : Layout) (s : Sizes) : SModelHeader * Z :=
  let cursor0 := sizeof_SModelHeader L in
  let meshesOffset := cursor0 in
  let cursor1 := wrap64 (cursor0 + wrap64 (meshRecords_size s * sizeof_SModelMeshRecord L)) in
  let primitivesOffset := cursor1 in
  let cursor2 := wrap64 (cursor1 + wrap64 (primRecords_size s * sizeof_SModelPrimitiveRecord L)) in
  let materialsOffset := cursor2 in
  let cursor3 := wrap64 (cursor2 + wrap64 (materialRecords_size s * sizeof_SModelMaterialRecord L)) in
  let texturesOffset := cursor3 in
  let cursor4 := wrap64 (cursor3 + wrap64 (textureRecords_size s * sizeof_SModelTextureRecord L)) in
  let nodesOffset := cursor4 in
  let cursor5 := wrap64 (cursor4 + wrap64 (nodeRecords_size s * sizeof_SModelNodeRecord)) in
  let nodePrimitiveIndicesOffset := cursor5 in
  let cursor6 := wrap64 (cursor5 + wrap64 (nodePrimitiveIndices_size s * sizeof_uint32_t)) in
  let nodeChildIndicesOffset := wrap32 cursor6 in
  let cursor7 := wrap64 (cursor6 + wrap64 (nodeChildIndices_size s * sizeof_uint32_t)) in
  let stringTableOffset := cursor7 in
  let stringTableSize := wrap32 (strings_data_size s) in
  let cursor8 := wrap64 (cursor7 + strings_data_size s) in
  let blobOffset := cursor8 in
  let blobSize := wrap32 (blob_bytes_size s) in
  let cursor9 := wrap64 (cursor8 + blob_bytes_size s) in
  ({| magic := SMODEL_MAGIC; versionMajor := 2; versionMinor := 1;
      meshCount := wrap32 (meshRecords_size s);
      primitiveCount := wrap32 (primRecords_size s);
      materialCount := wrap32 (materialRecords_size s);
      textureCount := wrap32 (textureRecords_size s);
      nodeCount := wrap32 (nodeRecords_size s);
      nodePrimitiveIndexCount := wrap32 (nodePrimitiveIndices_size s);
      nodeChildIndicesCount := wrap32 (nodeChildIndices_size s);
      meshesOffset := meshesOffset; primitivesOffset := primitivesOffset;
      materialsOffset := materialsOffset; texturesOffset := texturesOffset;
      nodesOffset := nodesOffset;
      nodePrimitiveIndicesOffset := nodePrimitiveIndicesOffset;
      nodeChildIndicesOffset := nodeChildIndicesOffset;
      stringTableOffset := stringTableOffset; stringTableSize := stringTableSize;
      blobOffset := blobOffset; blobSize := blobSize;
      fileSizeBytes := wrap32 cursor9 |},
   cursor9).

(** The number of bytes [main] writes: the header, the seven tables, the
    string table and the blob ([WriteVector] and its siblings write
    nothing for an empty vector). *)
Definition bytes_written (L : Layout) (s : Sizes) : Z :=
  sizeof_SModelHeader L
  + meshRecords_size s * sizeof_SModelMeshRecord L
  + primRecords_size s * sizeof_SModelPrimitiveRecord L
  + materialRecords_size s * sizeof_SModelMaterialRecord L
  + textureRecords_size s * sizeof_SModelTextureRecord L
  + nodeRecords_size s * sizeof_SModelNodeRecord
  + nodePrimitiveIndices_size s * sizeof_uint32_t
  + nodeChildIndices_size s * sizeof_uint32_t
  + strings_data_size s
  + blob_bytes_size s.

(** Vector sizes are not negative. *)
Definition sizes_ok (s : Sizes) : Prop :=
  0 <= meshRecords_size s /\ 0 <= primRecords_size s
  /\ 0 <= materialRecords_size s /\ 0 <= textureRecords_size s
  /\ 0 <= nodeRecords_size s /\ 0 <= nodePrimitiveIndices_size s
  /\ 0 <= nodeChildIndices_size s /\ 0 <= strings_data_size s
  /\ 0 <= blob_bytes_size s.

(** *** The node graph *)

(** [aiNode], as [EmitNode] reads it: the name, the mesh indices and the
    child pointers, any of which may be null.  The transformation only
    goes to the local matrix, which the record of this development does
    not carry. *)
#[local] Unset Elimination Schemes.
Inductive aiNode :=
| AiNode (mName : string) (mMeshes : list Z) (mChildren : list (option aiNode)).
#[local] Set Elimination Schemes.

Definition mName (n : aiNode) : string := let 'AiNode s _ _ := n in s.
Definition mMeshes (n : aiNode) : list Z := let 'AiNode _ m _ := n in m.
Definition mChildren (n : aiNode) : list (option aiNode) :=
  let 'AiNode _ _ c := n in c.

(** The vectors [EmitNode] captures by reference. *)
Record NodeTables := {
  nodeRecords : list NodeRecord.SModelNodeRecord;
  nodePrimitiveIndices : list Z;
  nodeChildIndices : list Z;
  strings : Strings.StringTable
}.

Definition no_tables : NodeTables :=
  {| nodeRecords := []; nodePrimitiveIndices := []; nodeChildIndices := [];
     strings := Strings.StringTable_new |}.

Definition with_nodeChildIndices (st : NodeTables) (nc : list Z) : NodeTables :=
  {| nodeRecords := nodeRecords st;
     nodePrimitiveIndices := nodePrimitiveIndices st;
     nodeChildIndices := nc; strings := strings st |}.

Definition with_nodeRecords (st : NodeTables)
    (recs : list NodeRecord.SModelNodeRecord) : NodeTables :=
  {| nodeRecords := recs;
     nodePrimitiveIndices := nodePrimitiveIndices st;
     nodeChildIndices := nodeChildIndices st; strings := strings st |}.

(** [sm::SModelNodeRecord{}] *)
Definition zero_record : NodeRecord.SModelNodeRecord :=
  {| NodeRecord.nameStrOffset := 0; NodeRecord.parentIndex := 0;
     NodeRecord.firstChildIndex := 0; NodeRecord.childCount := 0;
     NodeRecord.firstPrimitiveIndex := 0; NodeRecord.primitiveCount := 0 |}.

Section EmitNode.
(** [meshIndexToPrimIndex]: [int32_t] entries, [-1] for a mesh without a
    primitive. *)
Variable meshIndexToPrimIndex : list Z.

(** One turn of the mesh loop, on [nodePrimitiveIndices] and
    [rec.primitiveCount]. *)
Definition push_mesh (acc : list Z * Z) (aiMeshIdx : Z) : list Z * Z :=
  let '(np, primitiveCount) := acc in
  let primIdx :=
    if aiMeshIdx <? len meshIndexToPrimIndex
    then at_ (-1) meshIndexToPrimIndex aiMeshIdx
    else -1 in
  if primIdx >=? 0
  then (np ++ [primIdx], wrap32 (primitiveCount + 1))
  else (np, primitiveCount).

Section Children.
Variable emit : aiNode -> Z -> NodeTables -> Z * NodeTables.
Variable thisIndex start : Z.

(** The loop over the direct children, from child [ci] on. *)
Fixpoint emit_children (children : list (option aiNode)) (ci : Z)
    (st : NodeTables) : NodeTables :=
  match children with
  | [] => st
  | c :: rest =>
      let '(childIndex, st1) :=
        match c with
        | None => (UINT32_MAX, st)
        | Some n => emit n thisIndex st
        end in
      emit_children rest (ci + 1)
        (with_nodeChildIndices st1
           (<[Z.to_nat (wrap32 (start + ci)) := childIndex]>
              (nodeChildIndices st1)))
  end.
End Children.

(** [EmitNode] on a node that is not null. *)
Fixpoint EmitNode (n : aiNode) (parentIndex : Z) (st : NodeTables)
    : Z * NodeTables :=
  match n with
  | AiNode name meshes children =>
      let thisIndex := wrap32 (len (nodeRecords st)) in
      let records1 := nodeRecords st ++ [zero_record] in
      let '(nameStrOffset, strings1) := Strings.add name (strings st) in
      let rec_parentIndex :=
        if parentIndex =? UINT32_MAX then UINT32_MAX else parentIndex in
      let firstPrimitiveIndex := wrap32 (len (nodePrimitiveIndices st)) in
      let '(np1, primitiveCount) :=
        fold_left push_mesh meshes (nodePrimitiveIndices st, 0) in
      let st1 := {| nodeRecords := records1; nodePrimitiveIndices := np1;
                    nodeChildIndices := nodeChildIndices st;
                    strings := strings1 |} in
      let '(firstChildIndex, childCount, st2) :=
        if len children >? 0 then
          let firstChildIndex := wrap32 (len (nodeChildIndices st1)) in
          let childCount := wrap32 (len children) in
          let reserved :=
            with_nodeChildIndices st1
              (nodeChildIndices st1
               ++ repeat UINT32_MAX (Z.to_nat childCount)) in
          (firstChildIndex, childCount,
           emit_children EmitNode thisIndex firstChildIndex children 0 reserved)
        else (UINT32_MAX, 0, st1) in
      let rec :=
        {| NodeRecord.nameStrOffset := nameStrOffset;
           NodeRecord.parentIndex := rec_parentIndex;
           NodeRecord.firstChildIndex := firstChildIndex;
           NodeRecord.childCount := childCount;
           NodeRecord.firstPrimitiveIndex := firstPrimitiveIndex;
           NodeRecord.primitiveCount := primitiveCount |} in
      (thisIndex,
       with_nodeRecords st2 (<[Z.to_nat thisIndex := rec]> (nodeRecords st2)))
  end.

(** [EmitNode] on a pointer. *)
Definition EmitNode_ptr (n : option aiNode) (parentIndex : Z) (st : NodeTables)
    : Z * NodeTables :=
  match n with
  | None => (UINT32_MAX, st)
  | Some n => EmitNode n parentIndex st
  end.
End EmitNode.

(** The nodes of a tree, the mesh references in it, and whether it is free
    of null children. *)
Definition size_ptr (size : aiNode -> nat) (c : option aiNode) : nat :=
  match c with Some n => size n | None => O end.

Fixpoint size (n : aiNode) : nat :=
  match n with
  | AiNode _ _ children => S (list_sum (map (size_ptr size) children))
  end.

Fixpoint mesh_refs (n : aiNode) : nat :=
  match n with
  | AiNode _ meshes children =>
      (length meshes + list_sum (map (size_ptr mesh_refs) children))%nat
  end.

Fixpoint no_null (n : aiNode) : Prop :=
  match n with
  | AiNode _ _ children =>
      fold_right (fun c acc =>
                    match c with Some n => no_null n /\ acc | None => False end)
        True children
  end.

(** **** What a well-formed node table is *)

Section Tables.
Import NodeRecord.

(** The child range of the record at index [N + j] of a table whose
    records [recs] start at node index [N] and whose child indices [cs]
    start at position [C]. *)
Definition child_range_ok (N C : Z) (recs : list SModelNodeRecord) (cs : list Z)
    (j : nat) (r : SModelNodeRecord) : Prop :=
  (childCount r = 0 /\ firstChildIndex r = UINT32_MAX)
  \/ (0 < childCount r /\ C <= firstChildIndex r
      /\ firstChildIndex r + childCount r <= C + len cs
      /\ forall k, 0 <= k < childCount r ->
           exists c r',
             cs !! Z.to_nat (firstChildIndex r - C + k) = Some c
             /\ N + Z.of_nat j < c
             /\ recs !! Z.to_nat (c - N) = Some r'
             /\ parentIndex r' = N + Z.of_nat j).

Definition primitive_range_ok (P : Z) (ps : list Z) (r : SModelNodeRecord)
    : Prop :=
  P <= firstPrimitiveIndex r /\ 0 <= primitiveCount r
  /\ firstPrimitiveIndex r + primitiveCount r <= P + len ps.

(** A stretch of a node table; [parent_ok j p] says which parent index
    [p] the record at position [j] may have. *)
Definition table_ok (parent_ok : nat -> Z -> Prop) (N C P : Z)
    (recs : list SModelNodeRecord) (cs ps : list Z) : Prop :=
  forall j r, recs !! j = Some r ->
    parent_ok j (parentIndex r)
    /\ child_range_ok N C recs cs j r
    /\ primitive_range_ok P ps r.

(** The records of one subtree: the first has the parent it was given,
    the others a parent inside the subtree and before them. *)
Definition subtree_parent (parent N : Z) (j : nat) (p : Z) : Prop :=
  match j with
  | O => p = parent
  | S _ => N <= p < N + Z.of_nat j
  end.

(** The records of the subtrees of the children of node [N - 1]. *)
Definition forest_parent (N : Z) (j : nat) (p : Z) : Prop :=
  N - 1 <= p < N + Z.of_nat j.

(** A primitive index that came out of [meshIndexToPrimIndex]. *)
Definition mapped_prim (m : list Z) (p : Z) : Prop := 0 <= p /\ In p m.

(** The tables have room for [n_size] more nodes and [n_refs] more
    primitive indices without a 32-bit index wrapping. *)
Definition room (st : NodeTables) (n_size n_refs : nat) : Prop :=
  len (nodeRecords st) + Z.of_nat n_size < 2 ^ 32
  /\ len (nodeChildIndices st) + Z.of_nat n_size <= 2 ^ 32
  /\ len (nodePrimitiveIndices st) + Z.of_nat n_refs < 2 ^ 32.

(** What one call of [EmitNode] on a subtree of [n_size] nodes does to
    the tables: it appends to each of them, and what it appends is a
    well-formed stretch. *)
Definition subtree_emitted (m : list Z) (parent : Z) (n_size n_refs : nat)
    (st st' : NodeTables) : Prop :=
  exists recs cs ps,
    nodeRecords st' = nodeRecords st ++ recs
    /\ nodeChildIndices st' = nodeChildIndices st ++ cs
    /\ nodePrimitiveIndices st' = nodePrimitiveIndices st ++ ps
    /\ length recs = n_size /\ length recs = S (length cs)
    /\ (length ps <= n_refs)%nat
    /\ table_ok (subtree_parent parent (len (nodeRecords st)))
         (len (nodeRecords st)) (len (nodeChildIndices st))
         (len (nodePrimitiveIndices st)) recs cs ps
    /\ Forall (mapped_prim m) ps.

Definition emits_subtree (m : list Z) (n : aiNode) : Prop :=
  forall parent st idx st',
    room st (size n) (mesh_refs n) ->
    EmitNode m n parent st = (idx, st') ->
    idx = len (nodeRecords st)
    /\ subtree_emitted m parent (size n) (mesh_refs n) st st'.

Definition forest_size (l : list (option aiNode)) : nat :=
  list_sum (map (size_ptr size) l).

Definition forest_refs (l : list (option aiNode)) : nat :=
  list_sum (map (size_ptr mesh_refs) l).

(** **** Names *)

(** The names of the nodes in the order [EmitNode] visits them. *)
Definition names_ptr (names : aiNode -> list string) (c : option aiNode)
    : list string :=
  match c with Some n => names n | None => [] end.

Fixpoint names (n : aiNode) : list string :=
  match n with
  | AiNode name _ children => name :: concat (map (names_ptr names) children)
  end.

Definition forest_names (l : list (option aiNode)) : list string :=
  concat (map (names_ptr names) l).

(** The bytes [StringTable::add] appends for a name. *)
Definition name_size (name : string) : nat :=
  match name with
  | EmptyString => O
  | String _ _ => S (String.length name)
  end.

Fixpoint name_bytes (n : aiNode) : nat :=
  match n with
  | AiNode name _ children =>
      (name_size name + list_sum (map (size_ptr name_bytes) children))%nat
  end.

Definition forest_name_bytes (l : list (option aiNode)) : nat :=
  list_sum (map (size_ptr name_bytes) l).

(** The string table holds [name], NUL-terminated, at offset [off];
    the empty name is offset 0. *)
Definition stored (table : list ascii) (off : Z) (name : string) : Prop :=
  (name = EmptyString /\ off = 0)
  \/ (0 < off
      /\ exists pre post,
           table = pre ++ list_ascii_of_string name ++ [Strings.NUL] ++ post
           /\ len pre = off).

Definition names_room (st : NodeTables) (n_size n_bytes : nat) : Prop :=
  len (nodeRecords st) + Z.of_nat n_size < 2 ^ 32
  /\ len (Strings.data (strings st)) + Z.of_nat n_bytes < 2 ^ 32
  /\ Strings.data (strings st) <> [].

(** What [EmitNode] does to the records and the string table: it
    appends to both, and every record it appends has its name stored at
    its name offset. *)
Definition names_emitted (ns : list string) (n_size n_bytes : nat)
    (st st' : NodeTables) : Prop :=
  exists recs more,
    nodeRecords st' = nodeRecords st ++ recs
    /\ Strings.data (strings st') = Strings.data (strings st) ++ more
    /\ length recs = n_size /\ (length more <= n_bytes)%nat
    /\ Forall2 (fun r name =>
                  stored (Strings.data (strings st')) (nameStrOffset r) name)
         recs ns.

Definition emits_names (m : list Z) (n : aiNode) : Prop :=
  forall parent st idx st',
    names_room st (size n) (name_bytes n) ->
    EmitNode m n parent st = (idx, st') ->
    names_emitted (names n) (size n) (name_bytes n) st st'.

(** The slots of the reserved slice of node [T] that are filled: slot
    [k] names a record after [T] whose parent is [T]. *)
Definition slots_filled (T : Z) (R : list SModelNodeRecord) (slots : list Z)
    (ci : nat) : Prop :=
  forall k, (k < ci)%nat ->
    exists c r', slots !! k = Some c /\ T < c
                 /\ R !! Z.to_nat (c - (T + 1)) = Some r'
                 /\ parentIndex r' = T.
End Tables.

End Cooker.

(* ===================================================================== *)
(** ** A cooked name *)
(* ===================================================================== *)

Module RootName.
Import SModel Strings.

(** The string table after the cooker added the name "root", written at
    byte 384 of a file and seen through a view of the loader. *)
Definition table : StringTable := snd (add "root" StringTable_new).

Definition chars (addr : Z) : ascii :=
  if (384 <=? addr) && (addr <? 390)
  then nth (Z.to_nat (addr - 384)) (data table) "x"%char
  else "x"%char.

Definition header : SModelHeader :=
  {| magic := SMODEL_MAGIC; versionMajor := 2; versionMinor := 1;
     meshCount := 0; primitiveCount := 0; materialCount := 0;
     textureCount := 0; nodeCount := 0; nodePrimitiveIndexCount := 0;
     nodeChildIndicesCount := 0;
     meshesOffset := 128; primitivesOffset := 128;
     materialsOffset := 128; texturesOffset := 128;
     nodesOffset := 128; nodePrimitiveIndicesOffset := 128;
     nodeChildIndicesOffset := 128;
     stringTableOffset := 384; stringTableSize := 6;
     blobOffset := 390; blobSize := 0; fileSizeBytes := 390 |}.

Definition view : SModelFileView :=
  {| fileBytes :=
       {| vec_size := 390;
          vec_data :=
            {| header_at_0 := header;
               mesh_at := mesh_at zero_memory;
               primitive_at := primitive_at zero_memory;
               material_at := material_at zero_memory;
               texture_at := texture_at zero_memory;
               node_at := node_at zero_memory;
               u32_at := u32_at zero_memory |} |};
     SModel.header := Some 0;
     meshes := Some 128; primitives := Some 128; materials := Some 128;
     textures := Some 128; nodes := None; nodePrimitiveIndices := None;
     stringTable := Some 384; blob := Some 390 |}.

End RootName.

(* ===================================================================== *)
(** ** Cooked files *)
(* ===================================================================== *)

Module Cooked.
Import SModel Cooker.

(** The vectors behind [Triangle.file]. *)
Definition triangle_sizes : Sizes :=
  {| meshRecords_size := 1; primRecords_size := 1; materialRecords_size := 1;
     textureRecords_size := 0; nodeRecords_size := 1;
     nodePrimitiveIndices_size := 1; nodeChildIndices_size := 0;
     strings_data_size := 1; blob_bytes_size := 156 |}.

(** The same model with a blob of 4 GiB. *)
Definition huge_sizes : Sizes :=
  {| meshRecords_size := 1; primRecords_size := 1; materialRecords_size := 1;
     textureRecords_size := 0; nodeRecords_size := 1;
     nodePrimitiveIndices_size := 1; nodeChildIndices_size := 0;
     strings_data_size := 1; blob_bytes_size := 2 ^ 32 |}.

Definition huge_file : IfStream :=
  {| is_open := true;
     tellg := bytes_written Examples.layout64 huge_sizes;
     read_ok := true;
     contents :=
       {| header_at_0 := fst (build_header Examples.layout64 huge_sizes);
          mesh_at := mesh_at Triangle.memory;
          primitive_at := primitive_at Triangle.memory;
          material_at := material_at Triangle.memory;
          texture_at := texture_at Triangle.memory;
          node_at := node_at Triangle.memory;
          u32_at := u32_at Triangle.memory |} |}.

(** A scene of seven nodes: the root draws mesh 0 and has three children;
    mesh 1 has no primitive, mesh 5 does not exist. *)
Definition prim_of_mesh : list Z := [0; -1; 1].

Definition leaf (name : string) (meshes : list Z) : aiNode :=
  AiNode name meshes [].

Definition scene : aiNode :=
  AiNode "root" [0]
    [Some (AiNode "a" [1; 5] [Some (leaf "a1" []); Some (leaf "a2" [2])]);
     Some (leaf "b" [0]);
     Some (AiNode "c" [] [Some (leaf "c1" [1])])].

Definition scene_tables : NodeTables :=
  snd (EmitNode prim_of_mesh scene UINT32_MAX no_tables).

Definition scene_sizes : Sizes :=
  {| meshRecords_size := 2; primRecords_size := 2; materialRecords_size := 1;
     textureRecords_size := 0;
     nodeRecords_size := len (nodeRecords scene_tables);
     nodePrimitiveIndices_size := len (nodePrimitiveIndices scene_tables);
     nodeChildIndices_size := len (nodeChildIndices scene_tables);
     strings_data_size := len (Strings.data (strings scene_tables));
     blob_bytes_size := 312 |}.

(** The node table and the node-primitive-index table as the cooker
    writes them, read back by address. *)
Definition scene_memory : Memory :=
  let h := fst (build_header Examples.layout64 scene_sizes) in
  {| header_at_0 := h;
     mesh_at := mesh_at zero_memory;
     primitive_at := primitive_at zero_memory;
     material_at := material_at zero_memory;
     texture_at := texture_at zero_memory;
     node_at := fun addr =>
       nth (Z.to_nat ((addr - nodesOffset h) / sizeof_SModelNodeRecord))
         (nodeRecords scene_tables) zero_record;
     u32_at := fun addr =>
       nth (Z.to_nat ((addr - nodePrimitiveIndicesOffset h) / sizeof_uint32_t))
         (nodePrimitiveIndices scene_tables) 0 |}.

(** The string table of the scene at its place in the file, and a view
    of the loader on that file. *)
Definition scene_header : SModelHeader :=
  fst (build_header Examples.layout64 scene_sizes).

Definition scene_chars (addr : Z) : ascii :=
  nth (Z.to_nat (addr - stringTableOffset scene_header))
    (Strings.data (strings scene_tables)) "x"%char.

Definition scene_view : SModelFileView :=
  with_tables
    (with_header
       (with_fileBytes empty_view
          {| vec_size := snd (build_header Examples.layout64 scene_sizes);
             vec_data := scene_memory |})
       (Some 0))
    scene_header.

End Cooked.

(* ===================================================================== *)
(** ** The mesh format  (MeshFormats.h, SMeshLoader.cpp, ObjToSmesh.cpp) *)
(* ===================================================================== *)

(** Files and buffers are lists of bytes.  [size_t] and [long] are 64 bits
    wide and integers are stored least significant byte first, as on the
    machines the tools are built for. *)
Module SMesh.

Definition len {A} (l : list A) : Z := Z.of_nat (length l).

Definition slice (offset size : Z) (b : list Z) : list Z :=
  take (Z.to_nat size) (drop (Z.to_nat offset) b).

(** *** Integers in memory *)

Definition encode_u32 (x : Z) : list Z :=
  [x mod 256; (x / 256) mod 256; (x / 65536) mod 256; (x / 16777216) mod 256].

Definition decode_u32 (b : list Z) : Z :=
  nth 0 b 0 + 256 * nth 1 b 0 + 65536 * nth 2 b 0 + 16777216 * nth 3 b 0.

Definition encode_u16 (x : Z) : list Z := [x mod 256; (x / 256) mod 256].

Definition decode_u16 (b : list Z) : Z := nth 0 b 0 + 256 * nth 1 b 0.

(** The [n] elements of [width] bytes each that a buffer holds. *)
Fixpoint decode_all (decode : list Z -> Z) (width : nat) (n : nat) (b : list Z)
    : list Z :=
  match n with
  | O => []
  | S k => decode (take width b) :: decode_all decode width k (drop width b)
  end.

Definition image_u32 (v : list Z) : list Z := concat (map encode_u32 v).
Definition image_u16 (v : list Z) : list Z := concat (map encode_u16 v).

(** [std::vector::resize(n)] (new elements are zero). *)
Definition resize (n : Z) (v : list Z) : list Z :=
  take (Z.to_nat n) v ++ repeat 0 (Z.to_nat n - length v).

(** *** MeshFormats.h *)

Module Header.
(** The two boxes are kept as the twelve bytes of their three floats. *)
Record SMeshHeaderV0 := {
  vertexCount : Z;
  indexCount : Z;
  vertexStride : Z;
  indexFormat : Z;
  aabbMin : list Z;
  aabbMax : list Z;
  vertexDataOffset : Z;
  indexDataOffset : Z
}.
End Header.

Definition sizeof_SMeshHeaderV0 : Z := 48.

(** The object representation of a header, and the header a 48-byte
    buffer represents. *)
Definition header_bytes (h : Header.SMeshHeaderV0) : list Z :=
  encode_u32 (Header.vertexCount h) ++ encode_u32 (Header.indexCount h)
  ++ encode_u32 (Header.vertexStride h) ++ encode_u32 (Header.indexFormat h)
  ++ Header.aabbMin h ++ Header.aabbMax h
  ++ encode_u32 (Header.vertexDataOffset h)
  ++ encode_u32 (Header.indexDataOffset h).

Definition header_of_bytes (b : list Z) : Header.SMeshHeaderV0 :=
  {| Header.vertexCount := decode_u32 (slice 0 4 b);
     Header.indexCount := decode_u32 (slice 4 4 b);
     Header.vertexStride := decode_u32 (slice 8 4 b);
     Header.indexFormat := decode_u32 (slice 12 4 b);
     Header.aabbMin := slice 16 12 b;
     Header.aabbMax := slice 28 12 b;
     Header.vertexDataOffset := decode_u32 (slice 40 4 b);
     Header.indexDataOffset := decode_u32 (slice 44 4 b) |}.

Record MeshData := {
  vertexBytes : list Z;
  indices32 : list Z;
  indices16 : list Z;
  vertexCount : Z;
  indexCount : Z;
  vertexStride : Z;
  indexFormat : Z;
  aabbMin : list Z;
  aabbMax : list Z
}.

(** *** stdio *)

Record FILE := { content : list Z; position : Z }.

Definition fseek_set (offset : Z) (f : FILE) : FILE :=
  {| content := content f; position := offset |}.

(** [fread_exact(f, dst, bytes)]: whether all the bytes were there, the
    destination afterwards (what was read, then what it held before), and
    the stream. *)
Definition fread_exact (dst : list Z) (bytes : Z) (f : FILE)
    : bool * list Z * FILE :=
  let got := slice (position f) bytes (content f) in
  (len got =? bytes,
   got ++ drop (length got) dst,
   {| content := content f; position := position f + len got |}).

Definition file_size (f : FILE) : Z := len (content f).

(** *** SMeshLoader.cpp *)

(** [file] is what [fopen] finds at the path, if anything; the result is
    the returned flag and [out] as the call leaves it. *)
Definition LoadSMeshV0FromFile (file : option (list Z)) (out : MeshData)
    : bool * MeshData :=
  match file with
  | None => (false, out)
  | Some bytes =>
      let f := {| content := bytes; position := 0 |} in
      let '(ok, hdr_bytes, f) :=
        fread_exact (repeat 0 48%nat) sizeof_SMeshHeaderV0 f in
      if negb ok then (false, out)
      else
        let hdr := header_of_bytes hdr_bytes in
        if negb (Header.vertexStride hdr =? 32) then (false, out)
        else if Header.indexFormat hdr >? 1 then (false, out)
        else
          let fsize := file_size f in
          let vertexBytes :=
            wrap64 (Header.vertexCount hdr * Header.vertexStride hdr) in
          let indexBytes :=
            wrap64 (Header.indexCount hdr
                    * (if Header.indexFormat hdr =? 0 then 2 else 4)) in
          if (wrap64 (Header.vertexDataOffset hdr + vertexBytes) >? fsize)
             || (wrap64 (Header.indexDataOffset hdr + indexBytes) >? fsize)
          then (false, out)
          else
            let resized := resize vertexBytes (SMesh.vertexBytes out) in
            let f := fseek_set (Header.vertexDataOffset hdr) f in
            let '(ok, vb, f) := fread_exact resized (len resized) f in
            let out1 :=
              {| vertexBytes := vb;
                 indices32 := indices32 out; indices16 := indices16 out;
                 vertexCount := Header.vertexCount hdr;
                 indexCount := Header.indexCount hdr;
                 vertexStride := Header.vertexStride hdr;
                 indexFormat := Header.indexFormat hdr;
                 aabbMin := Header.aabbMin hdr;
                 aabbMax := Header.aabbMax hdr |} in
            if negb ok then (false, out1)
            else if Header.indexFormat hdr =? 1 then
              let v := resize (Header.indexCount hdr) (indices32 out1) in
              let f := fseek_set (Header.indexDataOffset hdr) f in
              let '(ok, image, f) :=
                fread_exact (image_u32 v) (len v * 4) f in
              (ok,
               {| vertexBytes := vb;
                  indices32 := decode_all decode_u32 4 (length v) image;
                  indices16 := indices16 out1;
                  vertexCount := vertexCount out1;
                  indexCount := indexCount out1;
                  vertexStride := vertexStride out1;
                  indexFormat := indexFormat out1;
                  aabbMin := aabbMin out1; aabbMax := aabbMax out1 |})
            else
              let v := resize (Header.indexCount hdr) (indices16 out1) in
              let f := fseek_set (Header.indexDataOffset hdr) f in
              let '(ok, image, f) :=
                fread_exact (image_u16 v) (len v * 2) f in
              (ok,
               {| vertexBytes := vb;
                  indices32 := indices32 out1;
                  indices16 := decode_all decode_u16 2 (length v) image;
                  vertexCount := vertexCount out1;
                  indexCount := indexCount out1;
                  vertexStride := vertexStride out1;
                  indexFormat := indexFormat out1;
                  aabbMin := aabbMin out1; aabbMax := aabbMax out1 |})
  end.

(** What the checks of the loader ask of a file. *)
Definition accepted (bytes : list Z) : Prop :=
  let hdr := header_of_bytes (slice 0 48 bytes) in
  48 <= len bytes
  /\ Header.vertexStride hdr = 32
  /\ Header.indexFormat hdr <= 1
  /\ Header.vertexDataOffset hdr + Header.vertexCount hdr * 32 <= len bytes
  /\ Header.indexDataOffset hdr
     + Header.indexCount hdr * (if Header.indexFormat hdr =? 0 then 2 else 4)
     <= len bytes.

Definition is_byte (b : Z) : Prop := 0 <= b < 256.

(** What a successful load leaves in [out]: the header fields, the vertex
    bytes, and the indices in the vector of their format; the other index
    vector is as it was. *)
Definition loaded (bytes : list Z) (out : MeshData) : MeshData :=
  let hdr := header_of_bytes (slice 0 48 bytes) in
  {| vertexBytes :=
       slice (Header.vertexDataOffset hdr) (Header.vertexCount hdr * 32) bytes;
     indices32 :=
       if Header.indexFormat hdr =? 1
       then decode_all decode_u32 4 (Z.to_nat (Header.indexCount hdr))
              (slice (Header.indexDataOffset hdr) (Header.indexCount hdr * 4)
                 bytes)
       else indices32 out;
     indices16 :=
       if Header.indexFormat hdr =? 1 then indices16 out
       else decode_all decode_u16 2 (Z.to_nat (Header.indexCount hdr))
              (slice (Header.indexDataOffset hdr) (Header.indexCount hdr * 2)
                 bytes);
     vertexCount := Header.vertexCount hdr;
     indexCount := Header.indexCount hdr;
     vertexStride := Header.vertexStride hdr;
     indexFormat := Header.indexFormat hdr;
     aabbMin := Header.aabbMin hdr;
     aabbMax := Header.aabbMax hdr |}.

(** *** ObjToSmesh.cpp *)

Definition sizeof_VertexPNUT : Z := 32.

Section Weld.
Context {Vertex Key : Type} `{Countable Key}.
Variable makeKey : Vertex -> Key.

(** [remap], [vertices] and [indices] of [convertObjToSMesh]. *)
Record Welded := {
  remap : gmap Key Z;
  vertices : list Vertex;
  indices : list Z
}.

Definition nothing_welded : Welded :=
  {| remap := ∅; vertices := []; indices := [] |}.

(** The body of the corner loop, on the vertex [fetch] returned. *)
Definition weld_corner (st : Welded) (v : Vertex) : Welded :=
  let key := makeKey v in
  match remap st !! key with
  | None =>
      let vi := wrap32 (len (vertices st)) in
      {| remap := <[key := vi]> (remap st);
         vertices := vertices st ++ [v];
         indices := indices st ++ [vi] |}
  | Some vi =>
      {| remap := remap st; vertices := vertices st;
         indices := indices st ++ [vi] |}
  end.

(** The loops over the shapes and their triangles, [corners] being the
    vertices fetched for the corners of the triangles in turn. *)
Definition weld (corners : list Vertex) : Welded :=
  fold_left weld_corner corners nothing_welded.

(** The map knows exactly the keys of the vertices, each under the
    index of the one vertex that has it. *)
Definition weld_inv (st : Welded) : Prop :=
  forall key vi,
    remap st !! key = Some vi <->
    0 <= vi /\ exists w, vertices st !! Z.to_nat vi = Some w /\ makeKey w = key.

(** The index [vi] names a vertex that has the key of the corner [v]. *)
Definition represented (st : Welded) (v : Vertex) (vi : Z) : Prop :=
  0 <= vi
  /\ exists w, vertices st !! Z.to_nat vi = Some w /\ makeKey w = makeKey v.
End Weld.

(** [std::memcpy(dst + offset, src, n)], when both ranges exist. *)
Definition memcpy (dst : list Z) (offset : Z) (src : list Z) (n : Z)
    : option (list Z) :=
  if (offset + n <=? len dst) && (n <=? len src)
  then Some (take (Z.to_nat offset) dst ++ take (Z.to_nat n) src
             ++ drop (Z.to_nat (offset + n)) dst)
  else None.

Inductive Converted :=
| NoTriangles
| Blob (blob : list Z)
| OutOfBounds.

(** The end of [convertObjToSMesh]: the header and the blob handed to
    [writeBinary].  [vertices] holds the 32 bytes of each vertex. *)
Definition build_blob (vertices : list (list Z)) (indices : list Z)
    (aabbMin aabbMax : list Z) : Converted :=
  match vertices, indices with
  | [], _ | _, [] => NoTriangles
  | _, _ =>
      let vertexCount := wrap32 (len vertices) in
      let indexCount := wrap32 (len indices) in
      let vertexStride := sizeof_VertexPNUT in
      let headerSize := sizeof_SMeshHeaderV0 in
      let vertexBytes := wrap32 (vertexCount * vertexStride) in
      let indexBytes := wrap32 (indexCount * 4) in
      let hdr :=
        {| Header.vertexCount := vertexCount;
           Header.indexCount := indexCount;
           Header.vertexStride := vertexStride;
           Header.indexFormat := 1;
           Header.aabbMin := aabbMin; Header.aabbMax := aabbMax;
           Header.vertexDataOffset := headerSize;
           Header.indexDataOffset := wrap32 (headerSize + vertexBytes) |} in
      let blob :=
        repeat 0 (Z.to_nat (wrap32 (wrap32 (headerSize + vertexBytes)
                                    + indexBytes))) in
      match memcpy blob 0 (header_bytes hdr) sizeof_SMeshHeaderV0 with
      | None => OutOfBounds
      | Some blob =>
          match memcpy blob (Header.vertexDataOffset hdr) (concat vertices)
                  vertexBytes with
          | None => OutOfBounds
          | Some blob =>
              match memcpy blob (Header.indexDataOffset hdr)
                      (image_u32 indices) indexBytes with
              | None => OutOfBounds
              | Some blob => Blob blob
              end
          end
      end
  end.

(** A small mesh: two triangles on four vertices. *)
Definition quad_vertices : list (list Z) :=
  [repeat 1 32%nat; repeat 2 32%nat; repeat 3 32%nat; repeat 4 32%nat].
Definition quad_indices : list Z := [0; 1; 2; 2; 1; 3].
Definition quad_file : list Z :=
  match build_blob quad_vertices quad_indices (repeat 0 12%nat) (repeat 9 12%nat) with
  | Blob b => b
  | _ => []
  end.
Definition no_mesh : MeshData :=
  {| vertexBytes := []; indices32 := []; indices16 := [7];
     vertexCount := 0; indexCount := 0; vertexStride := 0; indexFormat := 1;
     aabbMin := repeat 0 12%nat; aabbMax := repeat 0 12%nat |}.

End SMesh.

(* ===================================================================== *)
(** ** Memory types  (ImageUtils.cpp) *)
(* ===================================================================== *)

Module ImageUtils.

(** The test of the loop of [findMemoryType] at index [i], on the
    property flags of memory type [i]. *)
Definition suitable (typeBits props i propertyFlags : Z) : bool :=
  negb (Z.land typeBits (wrap32 (Z.shiftl 1 i)) =? 0)
  && (Z.land propertyFlags props =? props).

(** The loop from index [i] on, over the flags of the remaining types. *)
Fixpoint search (typeBits props i : Z) (memoryTypes : list Z) : option Z :=
  match memoryTypes with
  | [] => None
  | propertyFlags :: rest =>
      if suitable typeBits props i propertyFlags then Some i
      else search typeBits props (i + 1) rest
  end.

(** [findMemoryType]: [memoryTypes] lists the property flags of the
    [memoryTypeCount] types the device reports; [None] is the exception
    thrown when the loop ends. *)
Definition findMemoryType (memoryTypes : list Z) (typeBits props : Z)
    : option Z :=
  search typeBits props 0 memoryTypes.

(** Type [i] is allowed by the mask and has all the wanted properties. *)
Definition fits (memoryTypes : list Z) (typeBits props : Z) (i : Z) : Prop :=
  0 <= i /\ Z.testbit typeBits i = true
  /\ exists propertyFlags,
       memoryTypes !! Z.to_nat i = Some propertyFlags
       /\ Z.land propertyFlags props = props.

End ImageUtils.

(* ===================================================================== *)
(** ** A primitive range that wraps *)
(* ===================================================================== *)

Module WrappedRange.
Import SModel.

(** One node, no primitive index table; the node claims one primitive
    starting at index [2^32 - 1]. *)
Definition header : SModelHeader :=
  {| magic := SMODEL_MAGIC; versionMajor := 2; versionMinor := 1;
     meshCount := 0; primitiveCount := 0; materialCount := 0;
     textureCount := 0; nodeCount := 1; nodePrimitiveIndexCount := 0;
     nodeChildIndicesCount := 0;
     meshesOffset := 128; primitivesOffset := 128;
     materialsOffset := 128; texturesOffset := 128;
     nodesOffset := 128; nodePrimitiveIndicesOffset := 216;
     nodeChildIndicesOffset := 216;
     stringTableOffset := 216; stringTableSize := 1;
     blobOffset := 217; blobSize := 0; fileSizeBytes := 217 |}.

Definition node : NodeRecord.SModelNodeRecord :=
  {| NodeRecord.nameStrOffset := 0;
     NodeRecord.parentIndex := UINT32_MAX;
     NodeRecord.firstChildIndex := UINT32_MAX;
     NodeRecord.childCount := 0;
     NodeRecord.firstPrimitiveIndex := UINT32_MAX;
     NodeRecord.primitiveCount := 1 |}.

Definition file : IfStream :=
  {| is_open := true; tellg := 217; read_ok := true;
     contents :=
       {| header_at_0 := header;
          mesh_at := mesh_at zero_memory;
          primitive_at := primitive_at zero_memory;
          material_at := material_at zero_memory;
          texture_at := texture_at zero_memory;
          node_at := fun _ => node;
          u32_at := u32_at zero_memory |} |}.

End WrappedRange.

(* ===================================================================== *)
(** * Properties of the registry and of component masks *)
(* ===================================================================== *)

(** ** Bits of machine words *)

Lemma testbit_single (bit k : Z) :
  0 <= bit -> 0 <= k ->
  Z.testbit (Z.shiftl 1 bit) k = bool_decide (k = bit).
Proof.
  intros Hb Hk. rewrite Z.shiftl_1_l.
  case_bool_decide as E.
  - subst. apply Z.pow2_bits_true; lia.
  - apply Z.pow2_bits_false; lia.
Qed.

Lemma land_single_eqb (w bit : Z) :
  0 <= bit -> (Z.land w (Z.shiftl 1 bit) =? 0) = negb (Z.testbit w bit).
Proof.
  intros Hb. destruct (Z.testbit w bit) eqn:E; simpl.
  - apply Z.eqb_neq. intros H0.
    assert (Z.testbit (Z.land w (Z.shiftl 1 bit)) bit = true) as T.
    { rewrite Z.land_spec, E, testbit_single by lia. by rewrite bool_decide_eq_true_2. }
    rewrite H0, Z.bits_0 in T. discriminate.
  - apply Z.eqb_eq. apply Z.bits_inj'. intros k Hk.
    rewrite Z.land_spec, Z.bits_0, testbit_single by lia.
    case_bool_decide; subst; [by rewrite E | apply andb_false_r].
Qed.

Lemma word_high_bits (w k : Z) :
  0 <= w < 2 ^ 64 -> 64 <= k -> Z.testbit w k = false.
Proof.
  intros Hw Hk. rewrite <- (Z.mod_small w (2 ^ 64)) by lia.
  apply Z.mod_pow2_bits_high. lia.
Qed.

Lemma land_eq_iff (a b : Z) :
  Z.land a b = b <->
  (forall k, 0 <= k -> Z.testbit b k = true -> Z.testbit a k = true).
Proof.
  split.
  - intros H k Hk Hb. rewrite <- H, Z.land_spec in Hb.
    by apply andb_true_iff in Hb as [? _].
  - intros H. apply Z.bits_inj'. intros k Hk. rewrite Z.land_spec.
    destruct (Z.testbit b k) eqn:E; [|apply andb_false_r].
    by rewrite (H k Hk E).
Qed.

Lemma land_zero_iff (a b : Z) :
  Z.land a b = 0 <->
  (forall k, 0 <= k -> ~ (Z.testbit a k = true /\ Z.testbit b k = true)).
Proof.
  split.
  - intros H k Hk [Ha Hb].
    assert (Z.testbit (Z.land a b) k = true) as T by (by rewrite Z.land_spec, Ha, Hb).
    rewrite H, Z.bits_0 in T. discriminate.
  - intros H. apply Z.bits_inj'. intros k Hk. rewrite Z.land_spec, Z.bits_0.
    destruct (Z.testbit a k) eqn:Ea, (Z.testbit b k) eqn:Eb; try reflexivity.
    exfalso. by apply (H k Hk).
Qed.

(** ** Masks as sets of bits *)

Lemma word_or_zero_nth (ws : list Z) (i : nat) :
  ECS.word_or_zero ws i = nth i ws 0.
Proof.
  unfold ECS.word_or_zero. destruct (Nat.ltb_spec i (length ws)); [done|].
  symmetry. apply nth_overflow. lia.
Qed.

(** [has] reads the bit [compId mod 64] of word [compId / 64], absent words
    being zero. *)
Lemma has_testbit (compId : Z) (m : ECS.ComponentMask) :
  0 <= compId ->
  ECS.has compId m
  = Z.testbit (nth (Z.to_nat (compId / 64)) (ECS.m_words m) 0) (compId mod 64).
Proof.
  intros Hid. unfold ECS.has, ECS.bitPos, ECS.size, at_.
  assert (0 <= compId / 64) by (apply Z.div_pos; lia).
  assert (0 <= compId mod 64 < 64) by (apply Z.mod_pos_bound; lia).
  destruct (Z.geb_spec (compId / 64) (Z.of_nat (length (ECS.m_words m)))) as [G|G].
  - rewrite nth_overflow by lia. by rewrite Z.bits_0.
  - rewrite land_single_eqb by lia. by rewrite negb_involutive.
Qed.

Lemma containsAll_from_spec (ws rhs : list Z) (steps i : nat) :
  ECS.containsAll_from ws rhs i steps = true <->
  (forall j, (i <= j < i + steps)%nat -> Z.land (nth j ws 0) (nth j rhs 0) = nth j rhs 0).
Proof.
  revert i. induction steps as [|k IH]; intros i; simpl.
  - split; [intros _ j Hj; lia | done].
  - rewrite !word_or_zero_nth.
    destruct (Z.eqb_spec (Z.land (nth i ws 0) (nth i rhs 0)) (nth i rhs 0)) as [E|E]; simpl.
    + rewrite IH. split; intros H j Hj.
      * destruct (decide (j = i)) as [->|]; [done | apply H; lia].
      * apply H; lia.
    + split; [done|]. intros H. exfalso. apply E, H. lia.
Qed.

Lemma containsNone_from_spec (ws rhs : list Z) (steps i : nat) :
  ECS.containsNone_from ws rhs i steps = true <->
  (forall j, (i <= j < i + steps)%nat -> Z.land (nth j ws 0) (nth j rhs 0) = 0).
Proof.
  revert i. induction steps as [|k IH]; intros i; simpl.
  - split; [intros _ j Hj; lia | done].
  - rewrite !word_or_zero_nth.
    destruct (Z.eqb_spec (Z.land (nth i ws 0) (nth i rhs 0)) 0) as [E|E]; simpl.
    + rewrite IH. split; intros H j Hj.
      * destruct (decide (j = i)) as [->|]; [done | apply H; lia].
      * apply H; lia.
    + split; [done|]. intros H. exfalso. apply E, H. lia.
Qed.

(** A bit of a well-formed mask is the bit of a component ID. *)
Lemma mask_bit_is_id (m : ECS.ComponentMask) (j : nat) (k : Z) :
  ECS.mask_wf m -> 0 <= k ->
  Z.testbit (nth j (ECS.m_words m) 0) k = true ->
  k < 64 /\ ECS.is_id (64 * Z.of_nat j + k)
  /\ (64 * Z.of_nat j + k) / 64 = Z.of_nat j /\ (64 * Z.of_nat j + k) mod 64 = k.
Proof.
  intros [Hw Hs] Hk Hb. unfold ECS.size in Hs.
  assert (j < length (ECS.m_words m))%nat as Hj.
  { destruct (Nat.ltb_spec j (length (ECS.m_words m))); [done|].
    rewrite nth_overflow, Z.bits_0 in Hb by lia. discriminate. }
  assert (k < 64) as Hk64.
  { destruct (Z.ltb_spec k 64); [done|].
    rewrite word_high_bits in Hb; [discriminate| |lia].
    rewrite Forall_forall in Hw. apply Hw. apply list_elem_of_In, nth_In. done. }
  split; [done|]. unfold ECS.is_id.
  replace (64 * Z.of_nat j + k) with (k + Z.of_nat j * 64) by lia.
  rewrite Z.div_add, Z.mod_add, Z.div_small, Z.mod_small by lia.
  repeat split; lia.
Qed.

(** ** How [set] changes the words *)

Lemma set_words (compId : Z) (m : ECS.ComponentMask) :
  0 <= compId ->
  let j := Z.to_nat (compId / 64) in
  length (ECS.m_words (ECS.set compId m)) = Nat.max (length (ECS.m_words m)) (S j)
  /\ forall i,
       nth i (ECS.m_words (ECS.set compId m)) 0
       = if decide (i = j)
         then Z.lor (nth i (ECS.m_words m) 0) (Z.shiftl 1 (compId mod 64))
         else nth i (ECS.m_words m) 0.
Proof.
  intros Hid j.
  assert (0 <= compId / 64) as Hq by (apply Z.div_pos; lia).
  unfold ECS.set, ECS.bitPos. cbn [ECS.m_words].
  set (m1 := ECS.ensureBit compId m).
  assert (length (ECS.m_words m1) = Nat.max (length (ECS.m_words m)) (S j)
          /\ forall i, nth i (ECS.m_words m1) 0 = nth i (ECS.m_words m) 0) as [Hl Hn].
  { unfold m1, ECS.ensureBit, ECS.size.
    destruct (Z.ltb_spec (Z.of_nat (length (ECS.m_words m))) (compId / 64 + 1)) as [G|G].
    - cbn [ECS.m_words]. split.
      + rewrite length_app, repeat_length. unfold j. lia.
      + intros i. destruct (Nat.ltb_spec i (length (ECS.m_words m))).
        * by rewrite app_nth1.
        * rewrite app_nth2, nth_repeat by lia. symmetry. apply nth_overflow. lia.
    - split; [unfold j; lia | done]. }
  split.
  - by rewrite length_insert.
  - intros i. unfold at_. fold j. destruct (decide (i = j)) as [->|Hne].
    + rewrite <- Hn.
      apply nth_lookup_Some. apply list_lookup_insert_eq. lia.
    + rewrite <- Hn.
      destruct (Nat.ltb_spec i (length (ECS.m_words m1))) as [Hi|Hi].
      * apply nth_lookup_Some. rewrite list_lookup_insert_ne by done.
        destruct (nth_lookup_or_length (ECS.m_words m1) i 0) as [E|E]; [exact E | lia].
      * rewrite !nth_overflow; [done | lia | rewrite length_insert; lia].
Qed.

(** The words reached from [m] by setting the IDs of a list, described by
    their length and their bits: both depend on the list only through its
    members. *)
Lemma fold_set_words (ids : list Z) (m : ECS.ComponentMask) :
  Forall (fun id => 0 <= id) ids ->
  let r := fold_left (fun m id => ECS.set id m) ids m in
  (forall j, (j < length (ECS.m_words r))%nat <->
             (j < length (ECS.m_words m))%nat
             \/ exists id, In id ids /\ (j <= Z.to_nat (id / 64))%nat)
  /\ (forall j k, 0 <= k ->
        Z.testbit (nth j (ECS.m_words r) 0) k = true <->
        Z.testbit (nth j (ECS.m_words m) 0) k = true
        \/ exists id, In id ids /\ j = Z.to_nat (id / 64) /\ k = id mod 64).
Proof.
  revert m. induction ids as [|a ids IH]; intros m Hpos; simpl.
  - split; intros; split; try tauto; intros [?|(? & [] & _)]; done.
  - apply Forall_cons in Hpos as [Ha Hpos].
    destruct (IH (ECS.set a m) Hpos) as [IHl IHb].
    destruct (set_words a m Ha) as [Sl Sn].
    assert (0 <= a mod 64 < 64) as Hbit by (apply Z.mod_pos_bound; lia).
    split.
    + intros j. rewrite IHl, Sl. split.
      * intros [H|(id & Hin & Hj)]; [|right; exists id; tauto].
        destruct (Nat.ltb_spec j (length (ECS.m_words m))); [by left|].
        right. exists a. split; [by left | lia].
      * intros [H|(id & [->|Hin] & Hj)]; [left; lia | left; lia |].
        right. by exists id.
    + intros j k Hk. rewrite IHb by done. rewrite Sn. split.
      * intros [H|(id & Hin & Hj)]; [|right; exists id; tauto].
        destruct (decide (j = Z.to_nat (a / 64))) as [->|]; [|by left].
        rewrite Z.lor_spec, testbit_single in H by lia.
        apply orb_true_iff in H as [H|H]; [by left|].
        apply bool_decide_eq_true in H. right. exists a. split; [by left | done].
      * intros [H|(id & [->|Hin] & Hj & Hkk)].
        -- left. destruct (decide (j = Z.to_nat (a / 64))); [|done].
           by rewrite Z.lor_spec, H.
        -- left. subst j k. rewrite decide_True by done.
           rewrite Z.lor_spec, testbit_single by lia.
           rewrite bool_decide_eq_true_2 by done. apply orb_true_r.
        -- right. by exists id.
Qed.

Lemma fromIds_extensional (ids1 ids2 : list Z) :
  Forall ECS.is_id ids1 -> Forall ECS.is_id ids2 ->
  (forall id, In id ids1 <-> In id ids2) ->
  ECS.fromIds ids1 = ECS.fromIds ids2.
Proof.
  intros H1 H2 Hsame.
  assert (forall ids, Forall ECS.is_id ids -> Forall (fun id => 0 <= id) ids) as Hpos.
  { intros ids Hids. eapply Forall_impl; [exact Hids|]. unfold ECS.is_id. intros; lia. }
  destruct (fold_set_words ids1 ECS.empty_mask (Hpos _ H1)) as [L1 B1].
  destruct (fold_set_words ids2 ECS.empty_mask (Hpos _ H2)) as [L2 B2].
  fold (ECS.fromIds ids1) in L1, B1. fold (ECS.fromIds ids2) in L2, B2.
  assert (ECS.m_words (ECS.fromIds ids1) = ECS.m_words (ECS.fromIds ids2)) as E.
  { apply (nth_ext _ _ 0 0).
    - assert (forall j, (j < length (ECS.m_words (ECS.fromIds ids1)))%nat <->
                        (j < length (ECS.m_words (ECS.fromIds ids2)))%nat) as Hl.
      { intros j. rewrite L1, L2. split; intros [H|(id & Hin & Hj)];
          try (by left); right; exists id; split; try done; by apply Hsame. }
      pose proof (Hl (length (ECS.m_words (ECS.fromIds ids1)))).
      pose proof (Hl (length (ECS.m_words (ECS.fromIds ids2)))). lia.
    - intros j _. apply Z.bits_inj'. intros k Hk.
      apply eq_true_iff_eq. rewrite B1, B2 by done.
      split; intros [H|(id & Hin & Hj)];
        try (by left); right; exists id; split; try done; by apply Hsame. }
  destruct (ECS.fromIds ids1), (ECS.fromIds ids2). simpl in E. by subst.
Qed.

(** ** The length of a key *)

Lemma string_length_append (s t : string) :
  String.length (s +:+ t) = (String.length s + String.length t)%nat.
Proof. induction s as [|c s IH]; simpl; [done | by rewrite IH]. Qed.

Lemma hex_fixed_length (width : nat) (w : Z) :
  String.length (ECS.hex_fixed width w) = width.
Proof. induction width as [|k IH]; simpl; [done | by rewrite IH]. Qed.

Lemma stream_words_length (ws : list Z) (oss : string) :
  String.length (fold_left (fun oss w => oss +:+ ECS.hex_fixed 16 w) ws oss)
  = (String.length oss + 16 * length ws)%nat.
Proof.
  revert oss. induction ws as [|w ws IH]; intros oss; cbn [fold_left length]; [lia|].
  rewrite IH, string_length_append, hex_fixed_length. lia.
Qed.

Lemma toKey_length (m : ECS.ComponentMask) :
  String.length (ECS.toKey m)
  = match ECS.m_words m with
    | [] => 1%nat
    | _ => (16 * length (ECS.m_words m))%nat
    end.
Proof.
  unfold ECS.toKey. destruct (ECS.m_words m) as [|w ws] eqn:E; [done|].
  rewrite stream_words_length, length_rev. simpl. lia.
Qed.

(** ** ComponentRegistry *)

(** C9. [registerComponent] is idempotent and ordering-stable.  Registering
    the same name twice returns the same ID both times (the second call
    leaves the registry as the first left it); a name never seen before
    receives the number of components registered before the call, and the
    count then grows by one, so IDs follow first-seen order; [ensureId] on an
    unregistered name registers it and returns that same fresh ID, which
    [getId] reports from then on. *)
Theorem registerComponent_idempotent_sequential
    (name : string) (r : ECS.ComponentRegistry) :
  let first := ECS.registerComponent name r in
  let second := ECS.registerComponent name (snd first) in
  fst second = fst first
  /\ snd second = snd first
  /\ (ECS.m_nameToId r !! name = None ->
      fst first = ECS.count r
      /\ ECS.count (snd first) = wrap32 (Z.of_nat (length (ECS.m_idToName r)) + 1)
      /\ ECS.m_idToName (snd first) = ECS.m_idToName r ++ [name]
      /\ ECS.ensureId name r = first
      /\ fst (ECS.ensureId name r) = ECS.count r
      /\ ECS.getId name (snd (ECS.ensureId name r)) = ECS.count r).
Proof.
  cbv zeta.
  destruct (ECS.m_nameToId r !! name) as [id|] eqn:E.
  - assert (ECS.registerComponent name r = (id, r)) as R
      by (unfold ECS.registerComponent; by rewrite E).
    rewrite R. cbn [fst snd]. rewrite R. cbn [fst snd].
    repeat split; done.
  - set (id := wrap32 (Z.of_nat (length (ECS.m_idToName r)))).
    set (r1 := {| ECS.m_nameToId := <[name:=id]> (ECS.m_nameToId r);
                  ECS.m_idToName := ECS.m_idToName r ++ [name] |}).
    assert (ECS.registerComponent name r = (id, r1)) as R
      by (unfold ECS.registerComponent, ECS.emplace; by rewrite E).
    assert (ECS.m_nameToId r1 !! name = Some id) as E1
      by (unfold r1; cbn [ECS.m_nameToId]; apply lookup_insert_eq).
    assert (ECS.registerComponent name r1 = (id, r1)) as R1
      by (unfold ECS.registerComponent; by rewrite E1).
    rewrite R. cbn [fst snd]. rewrite R1. cbn [fst snd].
    split; [done|]. split; [done|]. intros _.
    unfold ECS.ensureId, ECS.getId, ECS.count. rewrite E, R. cbn [fst snd].
    rewrite E1. unfold r1 at 1 2. cbn [ECS.m_idToName].
    rewrite length_app. cbn [length].
    repeat split; try done. unfold id. f_equal. lia.
Qed.

Lemma registerComponent_idempotent_sequential_witness :
  let r := snd (ECS.registerComponent "Position" ECS.empty_registry) in
  fst (ECS.registerComponent "Velocity" r) = 1
  /\ fst (ECS.registerComponent "Velocity" (snd (ECS.registerComponent "Velocity" r))) = 1
  /\ ECS.getId "Velocity" (snd (ECS.ensureId "Velocity" r)) = 1.
Proof.
  cbv zeta.
  pose proof (registerComponent_idempotent_sequential "Velocity"
                (snd (ECS.registerComponent "Position" ECS.empty_registry))) as H.
  cbv zeta in H. destruct H as (Hsame & _ & Hfresh).
  destruct Hfresh as (Hid & _ & _ & _ & _ & Hget); [vm_compute; reflexivity|].
  rewrite Hsame, Hget, Hid. vm_compute. repeat split; reflexivity.
Defined.

(** ** ComponentMask: containment *)

(** C8. [containsAll] holds exactly when every bit set in the right-hand mask
    is set in the left-hand one, and [containsNone] exactly when no bit is set
    in both, whatever the numbers of backing words of the two masks (a word
    missing on either side counts as zero); [matches] is their conjunction. *)
Theorem containsAll_containsNone_bitwise (A B required excluded : ECS.ComponentMask) :
  ECS.mask_wf B ->
  (ECS.containsAll A B = true <->
     forall id, ECS.is_id id -> ECS.has id B = true -> ECS.has id A = true)
  /\ (ECS.containsNone A B = true <->
     forall id, ECS.is_id id -> ~ (ECS.has id A = true /\ ECS.has id B = true))
  /\ ECS.matches A required excluded
     = ECS.containsAll A required && ECS.containsNone A excluded.
Proof.
  intros HB. split; [|split; [|reflexivity]].
  - unfold ECS.containsAll. rewrite containsAll_from_spec. split.
    + intros H id Hid Hb. unfold ECS.is_id in Hid.
      rewrite has_testbit in * by lia.
      set (j := Z.to_nat (id / 64)) in *.
      destruct (Nat.ltb_spec j (length (ECS.m_words B))) as [Hj|Hj].
      * assert (Z.land (nth j (ECS.m_words A) 0) (nth j (ECS.m_words B) 0)
                = nth j (ECS.m_words B) 0) as E by (apply H; lia).
        eapply land_eq_iff; [exact E | apply Z.mod_pos_bound; lia | exact Hb].
      * rewrite nth_overflow, Z.bits_0 in Hb by lia. discriminate.
    + intros H j _. apply land_eq_iff. intros k Hk Hb.
      destruct (mask_bit_is_id B j k HB Hk Hb) as (Hk64 & Hid & Hdiv & Hmod).
      specialize (H _ Hid). unfold ECS.is_id in Hid.
      rewrite !has_testbit, Hdiv, Hmod, Nat2Z.id in H by lia. by apply H.
  - unfold ECS.containsNone. rewrite containsNone_from_spec. split.
    + intros H id Hid [Ha Hb]. unfold ECS.is_id in Hid.
      rewrite has_testbit in * by lia.
      set (j := Z.to_nat (id / 64)) in *.
      destruct (Nat.ltb_spec j (length (ECS.m_words B))) as [Hj|Hj].
      * assert (Z.land (nth j (ECS.m_words A) 0) (nth j (ECS.m_words B) 0) = 0) as E
          by (apply H; lia).
        eapply land_zero_iff; [exact E | | split; [exact Ha | exact Hb]].
        apply Z.mod_pos_bound; lia.
      * rewrite nth_overflow, Z.bits_0 in Hb by lia. discriminate.
    + intros H j _. apply land_zero_iff. intros k Hk [Ha Hb].
      destruct (mask_bit_is_id B j k HB Hk Hb) as (Hk64 & Hid & Hdiv & Hmod).
      apply (H _ Hid). unfold ECS.is_id in Hid.
      rewrite !has_testbit, Hdiv, Hmod, Nat2Z.id by lia. done.
Qed.

(** The left mask has one backing word, the right one two. *)
Lemma containsAll_containsNone_bitwise_witness :
  let A := ECS.fromIds [1] in
  let B := ECS.fromIds [1; 70] in
  ECS.containsAll A B = false
  /\ ~ (forall id, ECS.is_id id -> ECS.has id B = true -> ECS.has id A = true).
Proof.
  cbv zeta.
  assert (ECS.mask_wf (ECS.fromIds [1; 70])) as HB.
  { split; [|vm_compute; intros H; discriminate H].
    change (ECS.m_words (ECS.fromIds [1; 70])) with [2; 64].
    repeat constructor; lia. }
  destruct (containsAll_containsNone_bitwise
              (ECS.fromIds [1]) (ECS.fromIds [1; 70])
              ECS.empty_mask ECS.empty_mask HB) as (Hall & _ & _).
  split; [vm_compute; reflexivity|].
  intros H. apply Hall in H. vm_compute in H. discriminate.
Defined.

(** ** ComponentMask: keys *)

(** A mask all of whose words are zero has no bit, at any ID. *)
Lemma has_zero_words (compId : Z) (m : ECS.ComponentMask) :
  Forall (fun w => w = 0) (ECS.m_words m) -> ECS.has compId m = false.
Proof.
  intros Hz. unfold ECS.has, ECS.bitPos, at_.
  destruct (compId / 64 >=? ECS.size m); [done|].
  assert (nth (Z.to_nat (compId / 64)) (ECS.m_words m) 0 = 0) as ->.
  { destruct (nth_in_or_default (Z.to_nat (compId / 64)) (ECS.m_words m) 0) as [Hin|E];
      [|done].
    rewrite Forall_forall in Hz. apply Hz. by apply list_elem_of_In. }
  by rewrite Z.land_0_l.
Qed.

(** C2, as stated, fails: after [set 64] and [clear 64] the mask has the same
    bits as the empty mask (none) but two zero words, and its key is 32 zeros
    where the empty mask has the one-character key. *)
Lemma toKey_trailing_zero_words_counterexample :
  let a := ECS.clear 64 (ECS.set 64 ECS.empty_mask) in
  let b := ECS.empty_mask in
  (forall id, ECS.has id a = ECS.has id b) /\ ECS.toKey a <> ECS.toKey b.
Proof.
  cbv zeta. split.
  - intros id. rewrite !has_zero_words; [done | constructor |].
    change (ECS.m_words (ECS.clear 64 (ECS.set 64 ECS.empty_mask))) with [0; 0].
    repeat constructor.
  - vm_compute. discriminate.
Qed.

(** C2, amended.  Masks built by [fromIds] from lists with the same members
    (any order, any repetition) have the same key; masks with the same
    backing words have the same key; and two masks with different numbers of
    backing words never have the same key, so trailing all-zero words do
    change the key. *)
Theorem toKey_same_ids_same_key (ids1 ids2 : list Z) (a b : ECS.ComponentMask) :
  (Forall ECS.is_id ids1 -> Forall ECS.is_id ids2 ->
   (forall id, In id ids1 <-> In id ids2) ->
   ECS.toKey (ECS.fromIds ids1) = ECS.toKey (ECS.fromIds ids2))
  /\ (ECS.m_words a = ECS.m_words b -> ECS.toKey a = ECS.toKey b)
  /\ (length (ECS.m_words a) <> length (ECS.m_words b) -> ECS.toKey a <> ECS.toKey b).
Proof.
  split; [|split].
  - intros H1 H2 Hsame. by rewrite (fromIds_extensional ids1 ids2).
  - intros E. unfold ECS.toKey. by rewrite E.
  - intros Hlen Hkey. apply (f_equal String.length) in Hkey.
    rewrite !toKey_length in Hkey.
    destruct (ECS.m_words a) as [|wa wsa], (ECS.m_words b) as [|wb wsb];
      simpl in *; lia.
Qed.

Lemma toKey_same_ids_same_key_witness :
  ECS.toKey (ECS.fromIds [1; 65; 3]) = ECS.toKey (ECS.fromIds [3; 1; 65; 1])
  /\ ECS.toKey (ECS.clear 64 (ECS.set 64 ECS.empty_mask)) <> ECS.toKey ECS.empty_mask.
Proof.
  destruct (toKey_same_ids_same_key [1; 65; 3] [3; 1; 65; 1]
              (ECS.clear 64 (ECS.set 64 ECS.empty_mask)) ECS.empty_mask)
    as (Hids & _ & Hlen).
  split.
  - apply Hids.
    + repeat constructor; unfold ECS.is_id; lia.
    + repeat constructor; unfold ECS.is_id; lia.
    + intros id. simpl. tauto.
  - apply Hlen. vm_compute. discriminate.
Defined.

(* ===================================================================== *)
(** * Properties of the loader *)
(* ===================================================================== *)

Section Loader.
Import SModel Spec.

(** ** Error texts *)

Lemma append_nonempty (c : ascii) (s t : string) : String c s +:+ t <> EmptyString.
Proof. simpl. discriminate. Qed.

Lemma and_then_reports (c k : Check) :
  reports_reason c -> reports_reason k -> reports_reason (and_then c k).
Proof. by destruct c. Qed.

Lemma for_loop_reports (body : Z -> Check) (steps : nat) (i : Z) :
  (forall j, reports_reason (body j)) -> reports_reason (for_loop body i steps).
Proof.
  intros Hb. revert i. induction steps as [|k IH]; intros i; simpl; [done|].
  by apply and_then_reports.
Qed.

Lemma check_mesh_reports L mem i : reports_reason (check_mesh L mem i).
Proof. unfold check_mesh. repeat case_match; simpl; done. Qed.

Lemma check_texture_reports L mem i : reports_reason (check_texture L mem i).
Proof. unfold check_texture. repeat case_match; simpl; done. Qed.

Lemma check_primitive_reports L mem i : reports_reason (check_primitive L mem i).
Proof. unfold check_primitive. repeat case_match; simpl; done. Qed.

Lemma checkTex_reports mem i t f : reports_reason (checkTex mem i t f).
Proof. unfold checkTex. repeat case_match; simpl; done. Qed.

Lemma check_material_reports L mem i : reports_reason (check_material L mem i).
Proof.
  unfold check_material. repeat apply and_then_reports; apply checkTex_reports.
Qed.

Lemma check_node_primitive_reports mem fs nr k :
  reports_reason (check_node_primitive mem fs nr k).
Proof. unfold check_node_primitive. repeat case_match; simpl; done. Qed.

Lemma check_node_reports mem fs ni : reports_reason (check_node mem fs ni).
Proof.
  unfold check_node. case_match; [simpl; done|].
  apply and_then_reports.
  - repeat case_match; simpl; done.
  - repeat case_match; try (simpl; done).
    apply for_loop_reports. intros j. apply check_node_primitive_reports.
Qed.

Lemma validate_records_reports L mem fs : reports_reason (validate_records L mem fs).
Proof.
  unfold validate_records, for_each.
  repeat apply and_then_reports;
    try (apply for_loop_reports; intros j);
    auto using check_mesh_reports, check_texture_reports, check_primitive_reports,
      check_material_reports.
  case_match; [|done]. apply for_loop_reports. intros j. apply check_node_reports.
Qed.

Lemma tableRangeValid_reports s off n fs e :
  tableRangeValid s off n fs = Some e -> e <> EmptyString.
Proof. unfold tableRangeValid. case_match; [|done]. intros [= <-]. simpl. done. Qed.

Lemma validate_ranges_reports L mem fs e :
  validate_ranges L mem fs = Some e -> e <> EmptyString.
Proof.
  unfold validate_ranges.
  repeat (case_match; try (intros [= <-]; simpl; done); try done);
    intros [= <-]; eauto using tableRangeValid_reports.
Qed.

(** ** What a failed load leaves behind *)

(** C4, as stated, fails: a 128-byte file with a wrong magic is rejected, and
    the view handed back holds the file bytes and a header pointer. *)
Lemma failed_load_view_counterexample :
  exists v e,
    LoadSModelFile Examples.layout64 "bad.smodel" Examples.bad_magic_file
      empty_view EmptyString = Returned false v e
    /\ v <> empty_view
    /\ vec_size (fileBytes v) = 128
    /\ header v = Some 0.
Proof.
  eexists _, _. split; [vm_compute; reflexivity|].
  split; [|split; reflexivity]. intros E. discriminate E.
Qed.

(** C4, amended.  A load that fails returns false with a non-empty error
    text.  The view and the error text of the caller are reset at the start:
    the outcome never depends on what they held.  When the file cannot be
    opened or is empty the view returned is the empty view.  On every later
    failure the view is not the empty view and holds the file bytes: when the
    read fails or the file is shorter than a header it is the empty view with
    the bytes and nothing else; when the header is incompatible, the declared
    size is wrong or a section or table range is out of the file, it holds
    the header pointer as well and no table pointer; when a record check
    fails it holds the header pointer and every table pointer the loader
    builds from the header. *)
Theorem failed_load_reports_and_resets
    (L : Layout) (path : string) (file : IfStream)
    (outView outView' : SModelFileView) (outError outError' : string)
    (v : SModelFileView) (e : string) :
  LoadSModelFile L path file outView outError = Returned false v e ->
  let mem := contents file in
  let h := header_at_0 mem in
  let bytes := {| vec_size := tellg file; vec_data := mem |} in
  let gate_passed :=
    isHeaderCompatible h = true
    /\ (fileSizeBytes h = 0 \/ fileSizeBytes h = tellg file)
    /\ validate_ranges L mem (tellg file) = None in
  e <> EmptyString
  /\ LoadSModelFile L path file outView' outError' = Returned false v e
  /\ (is_open file = false \/ tellg file <= 0 -> v = empty_view)
  /\ (is_open file = true -> 0 < tellg file ->
      vec_size (fileBytes v) = tellg file /\ v <> empty_view)
  /\ (is_open file = true -> 0 < tellg file ->
      (read_ok file = false \/ tellg file < sizeof_SModelHeader L ->
       v = with_fileBytes empty_view bytes)
      /\ (read_ok file = true -> sizeof_SModelHeader L <= tellg file ->
          (~ gate_passed ->
           v = with_header (with_fileBytes empty_view bytes) (Some 0))
          /\ (gate_passed ->
              v = with_tables
                    (with_header (with_fileBytes empty_view bytes) (Some 0)) h))).
Proof.
  intros H. cbv zeta. split; [|split; [exact H|]].
  - revert H. unfold LoadSModelFile.
    repeat (case_match; try (intros [= <- <-]; simpl; done)); try done.
    + intros [= <- <-]. eauto using validate_ranges_reports.
    + intros [= <- <-].
      pose proof (validate_records_reports L (contents file) (tellg file)) as R.
      cbn [vec_data vec_size fileBytes with_fileBytes with_header] in *.
      by match goal with E : validate_records _ _ _ = Fail _ |- _ => rewrite E in R end.
  - revert H. unfold LoadSModelFile.
    destruct (is_open file); cbn [negb].
    2:{ intros [= <- <-]. split; [done|]. split; intros; done. }
    destruct (Z.leb_spec (tellg file) 0) as [Hsz|Hsz].
    { intros [= <- <-]. split; [done|]. split; intros; lia. }
    intros H. split; [intros [?|?]; [done|lia]|].
    split.
    { intros _ _. revert H.
      repeat (case_match; try (intros [= <- <-]; simpl; split; [done|];
                               intros E; apply (f_equal (fun x => vec_size (fileBytes x))) in E;
                               simpl in E; lia)); done. }
    intros _ _. revert H.
    cbn [vec_size vec_data fileBytes with_fileBytes with_header].
    destruct (read_ok file); cbn [negb].
    2:{ intros [= <- <-]. split; [done|]. intros; done. }
    destruct (Z.ltb_spec (tellg file) (sizeof_SModelHeader L)) as [Hlt|Hge].
    { intros [= <- <-]. split; [done|]. intros; lia. }
    intros H. split; [intros [?|?]; [done|lia]|]. intros _ _. revert H.
    destruct (isHeaderCompatible (header_at_0 (contents file))); cbn [negb].
    2:{ intros [= <- <-]. split; [done|]. intros (? & _); done. }
    destruct (Z.eqb_spec (fileSizeBytes (header_at_0 (contents file))) 0) as [E0|E0];
      destruct (Z.eqb_spec (fileSizeBytes (header_at_0 (contents file))) (tellg file))
        as [E1|E1]; cbn [negb andb];
      try (destruct (validate_ranges L (contents file) (tellg file)) as [er|] eqn:Er;
           [ intros [= <- <-]; split; [done|]; intros (_ & _ & ?); done
           | destruct (validate_records L (contents file) (tellg file)); try done;
             intros [= <- <-]; split; [|done];
             intros Hn; exfalso; apply Hn; repeat split; auto ]).
    intros [= <- <-]. split; [done|]. intros (_ & [?|?] & _); done.
Qed.

(** A 272-byte file whose one mesh record is all zeros passes the header
    and range gates and fails the mesh check: the view handed back points at
    the header and at the mesh table. *)
Lemma failed_load_reports_and_resets_witness :
  exists v e,
    LoadSModelFile Examples.layout64 "zero.smodel" Examples.zero_mesh_file
      empty_view EmptyString = Returned false v e
    /\ e <> EmptyString /\ vec_size (fileBytes v) = 272
    /\ header v = Some 0 /\ meshes v = Some 128 /\ blob v = Some 208.
Proof.
  eexists _, _.
  assert (LoadSModelFile Examples.layout64 "zero.smodel" Examples.zero_mesh_file
            empty_view EmptyString
          = Returned false
              (with_tables
                 (with_header
                    (with_fileBytes empty_view
                       {| vec_size := 272;
                          vec_data := contents Examples.zero_mesh_file |})
                    (Some 0))
                 Examples.wrapping_mesh_header)
              "Mesh has invalid vertexCount/vertexStride (meshIndex=0)") as H
    by (vm_compute; reflexivity).
  split; [exact H|].
  destruct (failed_load_reports_and_resets _ _ _ _ empty_view _ EmptyString _ _ H)
    as (He & _ & _ & Hv & _).
  split; [exact He|]. split; [apply Hv; reflexivity|].
  split; [|split]; reflexivity.
Defined.

(** The stages before the mesh check, on concrete files: a failed read and
    a file shorter than a header leave the bytes and no pointer; a table
    range out of the file leaves the bytes and the header pointer. *)
Lemma failed_load_views_by_stage :
  (exists e,
     LoadSModelFile Examples.layout64 "u.smodel" Examples.unreadable_file
       empty_view EmptyString
     = Returned false
         (with_fileBytes empty_view {| vec_size := 128; vec_data := zero_memory |}) e)
  /\ (exists e,
       LoadSModelFile Examples.layout64 "t.smodel" Examples.truncated_file
         empty_view EmptyString
       = Returned false
           (with_fileBytes empty_view {| vec_size := 64; vec_data := zero_memory |}) e)
  /\ (exists v e,
       LoadSModelFile Examples.layout64 "s.smodel" Examples.short_table_file
         empty_view EmptyString = Returned false v e
       /\ header v = Some 0 /\ textures v = None /\ blob v = None).
Proof.
  split; [|split].
  - eexists. vm_compute. reflexivity.
  - eexists. vm_compute. reflexivity.
  - eexists _, _. split; [vm_compute; reflexivity|]. done.
Qed.

(** ** The header gate *)

Lemma isHeaderCompatible_iff (h : SModelHeader) :
  isHeaderCompatible h = true <->
  magic h = SMODEL_MAGIC /\ versionMajor h = SMODEL_VERSION_MAJOR
  /\ SMODEL_VERSION_MINOR <= versionMinor h.
Proof.
  unfold isHeaderCompatible.
  destruct (Z.eqb_spec (magic h) SMODEL_MAGIC),
    (Z.eqb_spec (versionMajor h) SMODEL_VERSION_MAJOR),
    (Z.ltb_spec (versionMinor h) SMODEL_VERSION_MINOR); simpl;
    split; try done; try (intros (? & ? & ?); done || lia); intros _; repeat split; try done; lia.
Qed.

(** Past the header gate every check reports a text of its own. *)
Lemma and_then_later (c k : Check) :
  reports_later c -> reports_later k -> reports_later (and_then c k).
Proof. by destruct c. Qed.

Lemma for_loop_later (body : Z -> Check) (steps : nat) (i : Z) :
  (forall j, reports_later (body j)) -> reports_later (for_loop body i steps).
Proof.
  intros Hb. revert i. induction steps as [|k IH]; intros i; simpl; [done|].
  by apply and_then_later.
Qed.

Ltac other_text :=
  simpl; try done;
  let E := fresh in intros [E|E]; simpl in E; discriminate E.

Lemma check_mesh_later L mem i : reports_later (check_mesh L mem i).
Proof. unfold check_mesh. repeat case_match; other_text. Qed.

Lemma check_texture_later L mem i : reports_later (check_texture L mem i).
Proof. unfold check_texture. repeat case_match; other_text. Qed.

Lemma check_primitive_later L mem i : reports_later (check_primitive L mem i).
Proof. unfold check_primitive. repeat case_match; other_text. Qed.

Lemma checkTex_later mem i t f : reports_later (checkTex mem i t f).
Proof. unfold checkTex. repeat case_match; other_text. Qed.

Lemma check_material_later L mem i : reports_later (check_material L mem i).
Proof.
  unfold check_material. repeat apply and_then_later; apply checkTex_later.
Qed.

Lemma check_node_primitive_later mem fs nr k :
  reports_later (check_node_primitive mem fs nr k).
Proof. unfold check_node_primitive. repeat case_match; other_text. Qed.

Lemma check_node_later mem fs ni : reports_later (check_node mem fs ni).
Proof.
  unfold check_node. case_match; [other_text|].
  apply and_then_later.
  - repeat case_match; other_text.
  - repeat case_match; try other_text.
    apply for_loop_later. intros j. apply check_node_primitive_later.
Qed.

Lemma validate_records_later L mem fs : reports_later (validate_records L mem fs).
Proof.
  unfold validate_records, for_each.
  repeat apply and_then_later;
    try (apply for_loop_later; intros j);
    auto using check_mesh_later, check_texture_later, check_primitive_later,
      check_material_later.
  case_match; [|done]. apply for_loop_later. intros j. apply check_node_later.
Qed.

Lemma tableRangeValid_later s off n fs e :
  tableRangeValid s off n fs = Some e -> ~ gate_error e.
Proof. unfold tableRangeValid. case_match; [|done]. intros [= <-]. other_text. Qed.

Lemma validate_ranges_later L mem fs e :
  validate_ranges L mem fs = Some e -> ~ gate_error e.
Proof.
  unfold validate_ranges.
  repeat (case_match; try (intros [= <-]; other_text); try done);
    intros [= <-]; eauto using tableRangeValid_later.
Qed.

(** C5. A file is rejected when its magic differs from the format constant,
    or its major version differs from the loader's, or its minor version is
    below the loader's, or a non-zero declared size differs from the byte
    count.  The compatibility test accepts exactly the headers with the right
    magic and major version and a minor version at least the loader's.  A
    file that holds a header with the right magic and major version, a minor
    version equal to or newer than the loader's and a declared size of zero
    or of the byte count passes the gate: the outcome of the load is the one
    of the range gate and of the record checks, and the text it reports is
    never one of the two texts of the header gate. *)
Theorem header_gate_rejects_and_is_forward_compatible
    (L : Layout) (path : string) (file : IfStream)
    (outView : SModelFileView) (outError : string) :
  let mem := contents file in
  let h := header_at_0 mem in
  (magic h <> SMODEL_MAGIC \/ versionMajor h <> SMODEL_VERSION_MAJOR
   \/ versionMinor h < SMODEL_VERSION_MINOR
   \/ (fileSizeBytes h <> 0 /\ fileSizeBytes h <> tellg file) ->
   exists v e, LoadSModelFile L path file outView outError = Returned false v e)
  /\ (isHeaderCompatible h = true <->
      magic h = SMODEL_MAGIC /\ versionMajor h = SMODEL_VERSION_MAJOR
      /\ SMODEL_VERSION_MINOR <= versionMinor h)
  /\ (is_open file = true -> 0 < tellg file -> read_ok file = true ->
      sizeof_SModelHeader L <= tellg file ->
      magic h = SMODEL_MAGIC -> versionMajor h = SMODEL_VERSION_MAJOR ->
      SMODEL_VERSION_MINOR <= versionMinor h ->
      fileSizeBytes h = 0 \/ fileSizeBytes h = tellg file ->
      let view :=
        with_header
          (with_fileBytes empty_view {| vec_size := tellg file; vec_data := mem |})
          (Some 0) in
      LoadSModelFile L path file outView outError
      = match validate_ranges L mem (tellg file) with
        | Some e => Returned false view e
        | None =>
            match validate_records L mem (tellg file) with
            | Pass => Returned true (with_tables view h) EmptyString
            | Fail e => Returned false (with_tables view h) e
            | OutOfBounds => Undefined
            end
        end
      /\ forall ok v e,
           LoadSModelFile L path file outView outError = Returned ok v e ->
           ~ gate_error e).
Proof.
  cbv zeta. split; [|split; [apply isHeaderCompatible_iff|]].
  - intros Hbad. unfold LoadSModelFile.
    destruct (is_open file); simpl; [|eauto].
    destruct (tellg file <=? 0); [eauto|].
    destruct (read_ok file); simpl; [|eauto].
    destruct (tellg file <? sizeof_SModelHeader L); [eauto|].
    destruct (isHeaderCompatible (header_at_0 (contents file))) eqn:C; simpl; [|eauto].
    apply isHeaderCompatible_iff in C as (Cm & CM & Cn).
    destruct Hbad as [?|[?|[?|[Hz Hs]]]]; try done; try lia.
    destruct (Z.eqb_spec (fileSizeBytes (header_at_0 (contents file))) 0); [done|].
    destruct (Z.eqb_spec (fileSizeBytes (header_at_0 (contents file))) (tellg file));
      [done|]. simpl. eauto.
  - intros Ho Hsz Hr Hlen Hm HM Hmin Hdecl.
    assert (isHeaderCompatible (header_at_0 (contents file)) = true) as C
      by (by apply isHeaderCompatible_iff).
    assert (negb (fileSizeBytes (header_at_0 (contents file)) =? 0)
            && negb (fileSizeBytes (header_at_0 (contents file)) =? tellg file)
            = false) as D.
    { destruct Hdecl as [->| ->]; [done|]. rewrite Z.eqb_refl. by rewrite andb_false_r. }
    assert (LoadSModelFile L path file outView outError
            = match validate_ranges L (contents file) (tellg file) with
              | Some e =>
                  Returned false
                    (with_header
                       (with_fileBytes empty_view
                          {| vec_size := tellg file; vec_data := contents file |})
                       (Some 0)) e
              | None =>
                  match validate_records L (contents file) (tellg file) with
                  | Pass =>
                      Returned true
                        (with_tables
                           (with_header
                              (with_fileBytes empty_view
                                 {| vec_size := tellg file; vec_data := contents file |})
                              (Some 0))
                           (header_at_0 (contents file))) EmptyString
                  | Fail e =>
                      Returned false
                        (with_tables
                           (with_header
                              (with_fileBytes empty_view
                                 {| vec_size := tellg file; vec_data := contents file |})
                              (Some 0))
                           (header_at_0 (contents file))) e
                  | OutOfBounds => Undefined
                  end
              end) as Heq.
    { unfold LoadSModelFile. rewrite Ho, Hr. cbn [negb].
      destruct (Z.leb_spec (tellg file) 0); [lia|].
      cbn [vec_size vec_data fileBytes with_fileBytes with_header].
      destruct (Z.ltb_spec (tellg file) (sizeof_SModelHeader L)); [lia|].
      rewrite C, D. cbn [negb]. reflexivity. }
    split; [exact Heq|].
    intros ok v e. rewrite Heq.
    destruct (validate_ranges L (contents file) (tellg file)) as [er|] eqn:Er.
    { intros [= <- <- <-]. eauto using validate_ranges_later. }
    pose proof (validate_records_later L (contents file) (tellg file)) as R.
    destruct (validate_records L (contents file) (tellg file)); [| |done].
    + intros [= <- <- <-]. intros [E|E]; discriminate E.
    + intros [= <- <- <-]. exact R.
Qed.

(** A header-only file with the bad magic is rejected; the same file shape
    with the right magic and the minor version 7 passes the gate and
    loads. *)
Lemma header_gate_rejects_and_is_forward_compatible_witness :
  (exists v e,
     LoadSModelFile Examples.layout64 "bad.smodel" Examples.bad_magic_file
       empty_view EmptyString = Returned false v e)
  /\ outcome_ok (LoadSModelFile Examples.layout64 "m.smodel"
                   (Examples.header_only_file 7 128)
                   empty_view EmptyString) = Some true.
Proof.
  split.
  - destruct (header_gate_rejects_and_is_forward_compatible
                Examples.layout64 "bad.smodel" Examples.bad_magic_file
                empty_view EmptyString) as (Hrej & _ & _).
    apply Hrej. left. vm_compute. discriminate.
  - destruct (header_gate_rejects_and_is_forward_compatible
                Examples.layout64 "m.smodel" (Examples.header_only_file 7 128)
                empty_view EmptyString) as (_ & _ & Hfwd).
    destruct Hfwd as [Heq _];
      [ reflexivity | reflexivity | reflexivity | vm_compute; discriminate
      | reflexivity | reflexivity | vm_compute; discriminate
      | right; reflexivity | ].
    rewrite Heq. vm_compute. reflexivity.
Defined.

(** ** A file that is only a header *)

(** C10. A file as long as the header, with a compatible header, every count,
    table offset, section offset and section size zero, and a declared size
    of zero or of the header size, loads: every range and record check passes
    on its empty tables, the error text is empty, and the view reports no
    mesh, primitive, material or texture and has no node table. *)
Theorem header_only_file_loads
    (L : Layout) (path : string) (file : IfStream)
    (outView : SModelFileView) (outError : string) :
  let h := header_at_0 (contents file) in
  is_open file = true -> read_ok file = true ->
  0 < sizeof_SModelHeader L -> tellg file = sizeof_SModelHeader L ->
  header_only h ->
  fileSizeBytes h = 0 \/ fileSizeBytes h = sizeof_SModelHeader L ->
  exists v,
    LoadSModelFile L path file outView outError = Returned true v EmptyString
    /\ View.meshCount v = 0 /\ View.primitiveCount v = 0
    /\ View.materialCount v = 0 /\ View.textureCount v = 0
    /\ nodes v = None /\ nodePrimitiveIndices v = None
    /\ vec_size (fileBytes v) = sizeof_SModelHeader L.
Proof.
  cbv zeta. intros Hopen Hread Hpos Hsize Hh Hdecl.
  destruct Hh as (Hm & HM & Hmin & Hc1 & Hc2 & Hc3 & Hc4 & Hc5 & Hc6 & Hc7
                  & Ho1 & Ho2 & Ho3 & Ho4 & Ho5 & Ho6 & Ho7 & Hs1 & Hs2 & Hb1 & Hb2).
  assert (isHeaderCompatible (header_at_0 (contents file)) = true) as Hcompat
    by (apply isHeaderCompatible_iff; done).
  assert (isRangeInsideFile 0 0 (tellg file) = true) as Hrange.
  { unfold isRangeInsideFile.
    destruct (Z.gtb_spec 0 (tellg file)); [lia|].
    change (wrap64 (0 + 0)) with 0. destruct (Z.gtb_spec 0 (tellg file)); [lia|done]. }
  assert (forall s, tableRangeValid s 0 0 (tellg file) = None) as Htable.
  { intros s. unfold tableRangeValid. change (wrap64 (0 * s)) with 0.
    by rewrite Hrange. }
  assert (validate_ranges L (contents file) (tellg file) = None) as Hranges.
  { unfold validate_ranges.
    rewrite Hs1, Hs2, Hb1, Hb2, Ho1, Ho2, Ho3, Ho4, Hc1, Hc2, Hc3, Hc4, Hc5, Hc6.
    rewrite Hrange, !Htable. done. }
  assert (validate_records L (contents file) (tellg file) = Pass) as Hrecords.
  { unfold validate_records, for_each. rewrite Hc1, Hc2, Hc3, Hc4, Hc5. done. }
  eexists. split.
  - unfold LoadSModelFile. rewrite Hopen, Hread. simpl.
    destruct (Z.leb_spec (tellg file) 0); [lia|].
    destruct (Z.ltb_spec (tellg file) (sizeof_SModelHeader L)); [lia|].
    rewrite Hcompat. simpl.
    assert (negb (fileSizeBytes (header_at_0 (contents file)) =? 0)
            && negb (fileSizeBytes (header_at_0 (contents file)) =? tellg file)
            = false) as ->.
    { destruct Hdecl as [->| ->]; [done|].
      rewrite Hsize, Z.eqb_refl. apply andb_false_r. }
    rewrite Hranges, Hrecords. reflexivity.
  - unfold View.meshCount, View.primitiveCount, View.materialCount,
      View.textureCount, View.deref. simpl.
    rewrite Hc1, Hc2, Hc3, Hc4, Hc5, Hc6. simpl. repeat split; done.
Qed.

Lemma header_only_file_loads_witness :
  exists v,
    LoadSModelFile Examples.layout64 "empty.smodel" (Examples.header_only_file 1 0)
      empty_view EmptyString = Returned true v EmptyString
    /\ View.meshCount v = 0.
Proof.
  destruct (header_only_file_loads Examples.layout64 "empty.smodel"
              (Examples.header_only_file 1 0) empty_view EmptyString)
    as (v & Hload & Hmesh & _).
  - reflexivity.
  - reflexivity.
  - reflexivity.
  - reflexivity.
  - vm_compute. repeat split; try reflexivity. discriminate.
  - left. reflexivity.
  - exists v. split; [exact Hload | exact Hmesh].
Defined.

(** ** Node child ranges *)

(** C1: the loader accepts files the claim excludes.  In the first file the
    only node declares one child at position 0 of a child-index table that
    has no entry; in the second the declared range lies in the table but the
    index stored there is 7, with two nodes in the file.  The loader compares
    [firstChild + childCount] with the node count and never reads the
    child-index table. *)
Theorem loader_accepts_invalid_child_ranges :
  (exists v,
     LoadSModelFile Examples.layout64 "dangling.smodel" Examples.dangling_child_file
       empty_view EmptyString = Returned true v EmptyString)
  /\ child_ranges_ok Examples.dangling_child_memory = false
  /\ (exists v,
        LoadSModelFile Examples.layout64 "index7.smodel" Examples.bad_child_index_file
          empty_view EmptyString = Returned true v EmptyString)
  /\ child_ranges_ok Examples.bad_child_index_memory = false.
Proof.
  split; [eexists; vm_compute; reflexivity|].
  split; [vm_compute; reflexivity|].
  split; [eexists; vm_compute; reflexivity|].
  vm_compute; reflexivity.
Qed.

(** ** Byte ranges *)

(** The section and table test is exact for every file size a stream can
    report (below [2^63]): it holds exactly when the range ends within the
    file. *)
Lemma isRangeInsideFile_exact (begin size fileSize : Z) :
  0 <= begin -> 0 <= size -> fileSize < 2 ^ 63 ->
  isRangeInsideFile begin size fileSize = true <-> begin + size <= fileSize.
Proof.
  intros Hb Hs Hf. unfold isRangeInsideFile, wrap64, wrap.
  destruct (Z.gtb_spec begin fileSize); [split; [done|lia]|].
  destruct (Z.gtb_spec size fileSize); [split; [done|lia]|].
  rewrite Z.mod_small by lia.
  destruct (Z.gtb_spec (begin + size) fileSize); split; try done; lia.
Qed.

(** C3: the blob-slice checks wrap around.  A texture whose image slice
    starts 8 bytes below the top of the offset type and is 16 bytes long, and
    a mesh whose vertex slice does, are accepted against a 64-byte blob,
    whether the sum is evaluated in 64 or in 32 bits, although the slices do
    not lie within the blob. *)
Theorem blob_slice_checks_wrap_around :
  outcome_ok (LoadSModelFile Examples.layout64 "t64.smodel"
                (Examples.wrapping_texture_file 64) empty_view EmptyString) = Some true
  /\ slice_in_blob (imageDataOffset (Examples.wrapping_texture 64))
       (imageDataSize (Examples.wrapping_texture 64))
       (blobSize Examples.wrapping_texture_header) = false
  /\ outcome_ok (LoadSModelFile Examples.layout32 "t32.smodel"
                   (Examples.wrapping_texture_file 32) empty_view EmptyString) = Some true
  /\ slice_in_blob (imageDataOffset (Examples.wrapping_texture 32))
       (imageDataSize (Examples.wrapping_texture 32))
       (blobSize Examples.wrapping_texture_header) = false
  /\ outcome_ok (LoadSModelFile Examples.layout64 "m64.smodel"
                   (Examples.wrapping_mesh_file 64) empty_view EmptyString) = Some true
  /\ outcome_ok (LoadSModelFile Examples.layout32 "m32.smodel"
                   (Examples.wrapping_mesh_file 32) empty_view EmptyString) = Some true
  /\ slice_in_blob (vertexDataOffset (Examples.wrapping_mesh 64))
       (vertexDataSize (Examples.wrapping_mesh 64))
       (blobSize Examples.wrapping_mesh_header) = false
  /\ slice_in_blob (vertexDataOffset (Examples.wrapping_mesh 32))
       (vertexDataSize (Examples.wrapping_mesh 32))
       (blobSize Examples.wrapping_mesh_header) = false.
Proof. repeat split; vm_compute; reflexivity. Qed.

End Loader.

(* ===================================================================== *)
(** * Properties of the node-graph traversal *)
(* ===================================================================== *)

Section Traversal.
Import Verify.
Context {M : Mat4}.
Variable model : ModelAsset.

Local Abbreviation N := (nodeCount model).
Local Abbreviation nc := (nodeChildIndices model).

Lemma nodeCount_range : 0 <= N < 2 ^ 32.
Proof. unfold nodeCount, wrap32, wrap. apply Z.mod_pos_bound. lia. Qed.

Lemma nodeCount_le_size : N <= Z.of_nat (length (nodes model)).
Proof. unfold nodeCount, wrap32, wrap. apply Z.mod_le; lia. Qed.

(** ** The visited vector *)

Lemma count_false_insert (l : list bool) (p : nat) :
  (p < length l)%nat -> nth p l false = false ->
  S (count_false (<[p:=true]> l)) = count_false l.
Proof.
  revert p. induction l as [|b l IH]; intros p Hp Hb; simpl in *; [lia|].
  destruct p as [|p]; simpl.
  - subst b. lia.
  - rewrite <- (IH p) by (done || lia). lia.
Qed.

Lemma count_false_repeat (n : nat) : count_false (repeat false n) = n.
Proof. induction n as [|n IH]; simpl; [done | by rewrite IH]. Qed.

Lemma initial_state_wf : state_wf model (initial_state model).
Proof. unfold state_wf, initial_state. simpl. by rewrite !repeat_length. Qed.

Lemma initial_unvisited : unvisited (initial_state model) = Z.to_nat N.
Proof. unfold unvisited, initial_state. simpl. apply count_false_repeat. Qed.

Lemma initial_not_visited (i : Z) : is_visited (initial_state model) i = false.
Proof.
  unfold is_visited, initial_state, at_. simpl.
  destruct (Nat.ltb_spec (Z.to_nat i) (Z.to_nat N)).
  - by rewrite nth_repeat.
  - apply nth_overflow. rewrite repeat_length. lia.
Qed.

Lemma initial_global (i : Z) : global_of (initial_state model) i = mat_identity.
Proof.
  unfold global_of, initial_state, at_. simpl.
  destruct (Nat.ltb_spec (Z.to_nat i) (Z.to_nat N)).
  - by rewrite nth_repeat.
  - apply nth_overflow. rewrite repeat_length. lia.
Qed.

Lemma visited_in_range (st : DfsState) (i : Z) :
  state_wf model st -> 0 <= i -> is_visited st i = true -> i < N.
Proof.
  intros [Hv _] Hi H. unfold is_visited, at_ in H.
  destruct (Z.ltb_spec i N); [done|].
  rewrite nth_overflow in H by lia. discriminate.
Qed.

Lemma mark_wf (idx : Z) (g : mat4) (st : DfsState) :
  state_wf model st -> state_wf model (mark idx g st).
Proof. intros [Hv Hg]. split; simpl; by rewrite length_insert. Qed.

Lemma mark_unvisited (idx : Z) (g : mat4) (st : DfsState) :
  state_wf model st -> (Z.to_nat idx < Z.to_nat N)%nat ->
  is_visited st idx = false ->
  S (unvisited (mark idx g st)) = unvisited st.
Proof.
  intros [Hv _] Hi H. unfold unvisited. simpl.
  apply count_false_insert; [lia | exact H].
Qed.

Lemma nth_insert_list {A} (l : list A) (p q : nat) (x d : A) :
  nth q (<[p:=x]> l) d = if decide (q = p /\ (p < length l)%nat) then x else nth q l d.
Proof.
  destruct (decide (q = p /\ (p < length l)%nat)) as [[-> Hp]|Hn].
  - apply nth_lookup_Some. by apply list_lookup_insert_eq.
  - destruct (decide (q = p)) as [->|Hqp].
    + rewrite list_insert_ge; [done|]. lia.
    + rewrite !nth_lookup. by rewrite list_lookup_insert_ne.
Qed.

Lemma mark_is_visited (idx j : Z) (g : mat4) (st : DfsState) :
  state_wf model st -> 0 <= idx < N -> 0 <= j ->
  is_visited (mark idx g st) j = if decide (j = idx) then true else is_visited st j.
Proof.
  intros [Hv _] Hi Hj. unfold is_visited, at_. simpl.
  rewrite nth_insert_list.
  destruct (decide (j = idx)) as [->|Hne].
  - rewrite decide_True; [done|]. split; [done | lia].
  - rewrite decide_False; [done|]. intros [E _]. apply Hne. lia.
Qed.

Lemma mark_global_of (idx j : Z) (g : mat4) (st : DfsState) :
  state_wf model st -> 0 <= idx < N -> 0 <= j ->
  global_of (mark idx g st) j = if decide (j = idx) then g else global_of st j.
Proof.
  intros [_ Hg] Hi Hj. unfold global_of, at_. simpl.
  rewrite nth_insert_list.
  destruct (decide (j = idx)) as [->|Hne].
  - rewrite decide_True; [done|]. split; [done | lia].
  - rewrite decide_False; [done|]. intros [E _]. apply Hne. lia.
Qed.

(** ** Termination *)

(** With more fuel than unvisited nodes, a call returns; it leaves the two
    vectors at their size and visits no node twice. *)
Lemma visit_children_total
    (rec : Z -> mat4 -> DfsState -> option DfsState) (bound : nat)
    (idx : Z) (n : ModelNode) :
  (forall c p st, state_wf model st -> (unvisited st < bound)%nat ->
     exists st', rec c p st = Some st' /\ state_wf model st'
                 /\ (unvisited st' <= unvisited st)%nat) ->
  forall steps k st, state_wf model st -> (unvisited st < bound)%nat ->
    exists st', visit_children model rec idx n k steps st = Some st'
                /\ state_wf model st' /\ (unvisited st' <= unvisited st)%nat.
Proof.
  intros Hrec. induction steps as [|s IH]; intros k st Hwf Hlt; simpl.
  - exists st. split; [done|]. split; [done | lia].
  - destruct (Hrec (at_ 0 nc (wrap32 (firstChildIndex n + k)))
                (at_ mat_identity (expectedGlobals st) idx) st Hwf Hlt)
      as (st1 & -> & Hwf1 & Hle1).
    destruct (IH (k + 1) st1 Hwf1 ltac:(lia)) as (st' & -> & Hwf' & Hle').
    exists st'. split; [done|]. split; [done | lia].
Qed.

Lemma dfs_total (fuel : nat) :
  0 < N ->
  forall idx parent st, state_wf model st -> (unvisited st < fuel)%nat ->
    exists st', dfs model fuel idx parent st = Some st' /\ state_wf model st'
                /\ (unvisited st' <= unvisited st)%nat.
Proof.
  intros HN. induction fuel as [|f IH]; intros idx parent st Hwf Hlt; [lia|].
  simpl.
  destruct (Z.geb_spec idx N) as [Hge|Hidx]; [exists st; split; [done|]; split; [done | lia]|].
  destruct (at_ false (visited st) idx) eqn:Hv; [exists st; split; [done|]; split; [done | lia]|].
  set (st1 := mark idx (mat_mul parent (localMatrix (node model idx))) st).
  assert (state_wf model st1) as Hwf1 by (by apply mark_wf).
  assert (S (unvisited st1) = unvisited st) as Hun
    by (apply mark_unvisited; [done | lia | exact Hv]).
  destruct ((childCount (node model idx) =? 0)
            || (firstChildIndex (node model idx) =? UINT32_MAX));
    [exists st1; split; [done|]; split; [done | lia]|].
  destruct (firstChildIndex (node model idx) + childCount (node model idx)
            >? Z.of_nat (length nc));
    [exists st1; split; [done|]; split; [done | lia]|].
  destruct (visit_children_total (dfs model f) f idx (node model idx) IH
              (Z.to_nat (childCount (node model idx))) 0 st1 Hwf1 ltac:(lia))
    as (st' & -> & Hwf' & Hle').
  exists st'. split; [done|]. split; [done | lia].
Qed.

Lemma unvisited_below_bound (st : DfsState) :
  state_wf model st -> (unvisited st < depth_bound model)%nat.
Proof.
  intros [Hv _]. unfold depth_bound, unvisited.
  revert Hv. generalize (Z.to_nat N). generalize (visited st).
  induction l as [|b l IHl]; intros n Hn; simpl in *; [lia|].
  destruct n as [|n]; [lia|]. specialize (IHl n ltac:(lia)).
  destruct b; lia.
Qed.

Lemma visit_roots_total (steps : nat) :
  0 < N ->
  forall i st, state_wf model st ->
    exists st', visit_roots model i steps st = Some st' /\ state_wf model st'.
Proof.
  intros HN. induction steps as [|s IH]; intros i st Hwf; cbn [visit_roots];
    [by exists st|].
  destruct (parentIndex (node model i) =? UINT32_MAX); [|by apply IH].
  destruct (dfs_total _ HN i mat_identity st Hwf (unvisited_below_bound st Hwf))
    as (st1 & -> & Hwf1 & _).
  by apply IH.
Qed.

Lemma resolve_globals_total :
  exists st, resolve_globals model = Some st /\ state_wf model st.
Proof.
  unfold resolve_globals. destruct (Z_lt_le_dec 0 N) as [HN|HN].
  - apply visit_roots_total; [done | apply initial_state_wf].
  - replace (Z.to_nat N) with O by lia.
    exists (initial_state model). split; [done | apply initial_state_wf].
Qed.

(** ** Calls of [dfs] on well-formed tables *)

Section WellFormed.
Hypothesis Hwf : model_wf model.

Lemma child_nonneg (i k : Z) : 0 <= child model i k.
Proof.
  destruct Hwf as (_ & Hnc & _). unfold child, at_.
  destruct (nth_in_or_default (Z.to_nat (wrap32 (firstChildIndex (node model i) + k)))
              nc 0) as [Hin | ->]; [|lia].
  rewrite Forall_forall in Hnc. apply list_elem_of_In, Hnc in Hin.
  unfold is_u32 in Hin. lia.
Qed.

Lemma visit_children_Children (f : nat) (idx : Z) :
  (forall c parent st st', dfs model f c parent st = Some st' -> 0 <= c ->
     Dfs model c parent st st') ->
  forall steps k st st',
    visit_children model (dfs model f) idx (node model idx) k steps st = Some st' ->
    Children model idx k steps st st'.
Proof.
  intros Hrec. induction steps as [|s IH]; intros k st st'; simpl.
  - intros [= <-]. constructor.
  - destruct (dfs model f _ _ st) as [st1|] eqn:E; [|done].
    intros Hrest. econstructor.
    + apply Hrec; [exact E | apply child_nonneg].
    + by apply IH.
Qed.

(** Every call that returns is a derivation of the call relation. *)
Lemma dfs_Dfs (fuel : nat) :
  forall idx parent st st',
    dfs model fuel idx parent st = Some st' -> 0 <= idx ->
    Dfs model idx parent st st'.
Proof.
  induction fuel as [|f IH]; intros idx parent st st'; [done|].
  cbn [dfs]. intros H Hidx.
  destruct (Z.geb_spec idx N) as [Hge|Hlt].
  { injection H as <-. apply Dfs_skip. by left. }
  destruct (at_ false (visited st) idx) eqn:Hv.
  { injection H as <-. apply Dfs_skip. by right. }
  destruct (Z.eqb_spec (childCount (node model idx)) 0) as [Hc|Hc]; simpl in H.
  { injection H as <-. apply Dfs_leaf; [lia | done |]. intros (? & _); done. }
  destruct (Z.eqb_spec (firstChildIndex (node model idx)) UINT32_MAX) as [Hf|Hf];
    simpl in H.
  { injection H as <-. apply Dfs_leaf; [lia | done |]. intros (_ & ? & _); done. }
  destruct (Z.gtb_spec (firstChildIndex (node model idx) + childCount (node model idx))
              (Z.of_nat (length nc))) as [Hr|Hr].
  { injection H as <-. apply Dfs_leaf; [lia | done |]. intros (_ & _ & ?); lia. }
  apply Dfs_node; [lia | done | done |].
  by apply (visit_children_Children f).
Qed.

(** *** A call only adds marks *)

Lemma extends_refl (st : DfsState) : state_wf model st -> extends model st st.
Proof. intros H. split; [done|]. split; intros; done. Qed.

Lemma extends_trans (st1 st2 st3 : DfsState) :
  extends model st1 st2 -> extends model st2 st3 -> extends model st1 st3.
Proof.
  intros (W2 & V12 & U12) (W3 & V23 & U23). split; [done|]. split.
  - intros j Hj H1. destruct (V12 j Hj H1) as [H2 G2].
    destruct (V23 j Hj H2) as [H3 G3]. split; [done | congruence].
  - intros j Hj H3.
    destruct (is_visited st2 j) eqn:H2.
    + destruct (V23 j Hj H2); congruence.
    + rewrite (U23 j Hj H3). by apply U12.
Qed.

Lemma extends_mark (idx : Z) (g : mat4) (st : DfsState) :
  state_wf model st -> 0 <= idx < N -> is_visited st idx = false ->
  extends model st (mark idx g st).
Proof.
  intros W Hi Hv. split; [by apply mark_wf|]. split.
  - intros j Hj H. rewrite mark_is_visited, mark_global_of by done.
    destruct (decide (j = idx)); [subst; congruence | done].
  - intros j Hj. rewrite mark_is_visited, mark_global_of by done.
    destruct (decide (j = idx)); done.
Qed.

Lemma Dfs_Children_extends :
  (forall idx parent st st', Dfs model idx parent st st' ->
     state_wf model st -> extends model st st')
  /\ (forall idx k steps st st', Children model idx k steps st st' ->
        state_wf model st -> extends model st st').
Proof.
  apply Dfs_Children_min.
  - intros idx parent st _ W. by apply extends_refl.
  - intros idx parent st Hi Hv _ W. by apply extends_mark.
  - intros idx parent st st' Hi Hv _ _ IH W.
    eapply extends_trans; [by apply extends_mark|].
    apply IH. by apply mark_wf.
  - intros idx k st W. by apply extends_refl.
  - intros idx k steps st st1 st' _ IH1 _ IH2 W.
    specialize (IH1 W). eapply extends_trans; [exact IH1|].
    apply IH2. apply IH1.
Qed.

Lemma Dfs_extends idx parent st st' :
  Dfs model idx parent st st' -> state_wf model st -> extends model st st'.
Proof. apply Dfs_Children_extends. Qed.

Lemma Children_extends idx k steps st st' :
  Children model idx k steps st st' -> state_wf model st -> extends model st st'.
Proof. apply Dfs_Children_extends. Qed.

Lemma extends_visited st st' j :
  extends model st st' -> 0 <= j -> is_visited st j = true -> is_visited st' j = true.
Proof. intros (_ & V & _) Hj H. by apply V. Qed.

Lemma extends_global st st' j :
  extends model st st' -> 0 <= j -> is_visited st j = true ->
  global_of st' j = global_of st j.
Proof. intros (_ & V & _) Hj H. by apply V. Qed.

Lemma extends_wf st st' : extends model st st' -> state_wf model st'.
Proof. by intros (W & _). Qed.

Lemma extends_not_visited st st' j :
  extends model st st' -> 0 <= j -> is_visited st' j = false ->
  is_visited st j = false.
Proof.
  intros E Hj H. destruct (is_visited st j) eqn:V; [|done].
  rewrite (extends_visited _ _ _ E Hj V) in H. done.
Qed.

(** *** A call marks its node and closes what it marks under children *)

Lemma Dfs_Children_closed :
  (forall idx parent st st', Dfs model idx parent st st' ->
     state_wf model st -> 0 <= idx ->
     (idx < N -> is_visited st' idx = true) /\ new_closed model st st')
  /\ (forall idx k steps st st', Children model idx k steps st st' ->
        state_wf model st -> 0 <= idx < N -> is_visited st idx = true -> 0 <= k ->
        (forall k', k <= k' < k + Z.of_nat steps -> child model idx k' < N ->
           is_visited st' (child model idx k') = true)
        /\ new_closed model st st').
Proof.
  apply Dfs_Children_min.
  - intros idx parent st Hskip W Hidx. split.
    + intros Hlt. destruct Hskip; [lia | done].
    + intros j c _ H1 H2. congruence.
  - intros idx parent st Hi Hv Hno W _. split.
    + intros _. rewrite mark_is_visited by (done || lia). by rewrite decide_True.
    + intros j c Hj H1 H2 Hch. rewrite mark_is_visited in H1 by done.
      destruct (decide (j = idx)) as [->|]; [|congruence].
      exfalso. apply Hno. apply Hch.
  - intros idx parent st st' Hi Hv Hrange Hch IH W _.
    set (st1 := mark idx (mat_mul parent (localMatrix (node model idx))) st) in *.
    assert (state_wf model st1) as W1 by (by apply mark_wf).
    assert (is_visited st1 idx = true) as V1
      by (unfold st1; rewrite mark_is_visited by (done || lia); by rewrite decide_True).
    destruct (IH W1 Hi V1 ltac:(lia)) as [Hkids Hclosed].
    pose proof (Children_extends _ _ _ _ _ Hch W1) as E1.
    split.
    + intros _. eapply extends_visited; [exact E1 | lia | exact V1].
    + intros j c Hj H1 H2 Hc. destruct (decide (j = idx)) as [->|Hne].
      * destruct Hc as (_ & _ & Hcr & k' & Hk' & ->).
        apply Hkids; lia.
      * apply (Hclosed j c Hj H1); [|done].
        unfold st1. rewrite mark_is_visited by done. by rewrite decide_False.
  - intros idx k st W Hi V Hk. split; [intros; lia|].
    intros j c _ H1 H2. congruence.
  - intros idx k steps st st1 st' Hd IH1 Hc IH2 W Hi V Hk.
    pose proof (child_nonneg idx k) as Hck.
    destruct (IH1 W Hck) as [Hvis Hcl1].
    pose proof (Dfs_extends _ _ _ _ Hd W) as E1.
    pose proof (extends_wf _ _ E1) as W1.
    assert (is_visited st1 idx = true) as V1
      by (eapply extends_visited; [exact E1 | lia | exact V]).
    destruct (IH2 W1 Hi V1 ltac:(lia)) as [Hkids Hcl2].
    pose proof (Children_extends _ _ _ _ _ Hc W1) as E2.
    split.
    + intros k' Hk' Hlt. destruct (decide (k' = k)) as [->|Hne].
      * eapply extends_visited; [exact E2 | done | by apply Hvis].
      * apply Hkids; [lia | done].
    + intros j c Hj H3 H1 Hch.
      destruct (is_visited st1 j) eqn:H2.
      * eapply extends_visited; [exact E2 | apply Hch |].
        by apply (Hcl1 j c).
      * by apply (Hcl2 j c).
Qed.

(** *** The global written for a node *)

Lemma from_lister_extends st st' j :
  extends model st st' -> 0 <= j -> is_visited st j = true ->
  from_lister model st j -> from_lister model st' j.
Proof.
  intros E Hj V (p & Hch & Vp & G). exists p. split; [done|].
  assert (0 <= p) as Hp by apply Hch.
  split; [by eapply extends_visited|].
  rewrite (extends_global _ _ _ E Hj V), (extends_global _ _ _ E Hp Vp). done.
Qed.

Lemma Dfs_Children_globals :
  (forall idx parent st st', Dfs model idx parent st st' ->
     state_wf model st -> 0 <= idx ->
     forall j, 0 <= j -> is_visited st' j = true -> is_visited st j = false ->
       (j = idx /\ global_of st' j = mat_mul parent (localMatrix (node model j)))
       \/ from_lister model st' j)
  /\ (forall idx k steps st st', Children model idx k steps st st' ->
        state_wf model st -> 0 <= idx < N -> is_visited st idx = true ->
        has_child_range model idx ->
        0 <= k -> k + Z.of_nat steps <= childCount (node model idx) ->
        forall j, 0 <= j -> is_visited st' j = true -> is_visited st j = false ->
          from_lister model st' j).
Proof.
  apply Dfs_Children_min.
  - intros idx parent st _ W _ j _ H1 H2. congruence.
  - intros idx parent st Hi Hv _ W _ j Hj H1 H2.
    rewrite mark_is_visited in H1 by done.
    destruct (decide (j = idx)) as [->|]; [|congruence].
    left. split; [done|]. rewrite mark_global_of by done. by rewrite decide_True.
  - intros idx parent st st' Hi Hv Hrange Hch IH W _ j Hj H1 H2.
    set (st1 := mark idx (mat_mul parent (localMatrix (node model idx))) st) in *.
    assert (state_wf model st1) as W1 by (by apply mark_wf).
    assert (is_visited st1 idx = true) as V1
      by (unfold st1; rewrite mark_is_visited by (done || lia); by rewrite decide_True).
    pose proof (Children_extends _ _ _ _ _ Hch W1) as E1.
    destruct (decide (j = idx)) as [->|Hne].
    + left. split; [done|].
      rewrite (extends_global _ _ _ E1 Hj V1).
      unfold st1. rewrite mark_global_of by done. by rewrite decide_True.
    + right. apply (IH W1 Hi V1 Hrange); [lia | | done | done |].
      * destruct Hrange as (Hc0 & _).
        destruct Hwf as (Hn & _). pose proof (Z2Nat.id (childCount (node model idx))).
        assert (0 <= childCount (node model idx)); [|lia].
        unfold node, at_.
        destruct (nth_in_or_default (Z.to_nat idx) (nodes model) (default_node))
          as [Hin | ->]; [|simpl; lia].
        rewrite Forall_forall in Hn. apply list_elem_of_In, Hn in Hin.
        destruct Hin as (_ & _ & Hcc & _). unfold is_u32 in Hcc. lia.
      * unfold st1. rewrite mark_is_visited by done. by rewrite decide_False.
  - intros idx k st W Hi V Hr Hk Hks j _ H1 H2. congruence.
  - intros idx k steps st st1 st' Hd IH1 Hc IH2 W Hi V Hr Hk Hks j Hj H3 H1.
    pose proof (child_nonneg idx k) as Hck.
    pose proof (Dfs_extends _ _ _ _ Hd W) as E1.
    pose proof (extends_wf _ _ E1) as W1.
    assert (is_visited st1 idx = true) as V1
      by (eapply extends_visited; [exact E1 | lia | exact V]).
    pose proof (Children_extends _ _ _ _ _ Hc W1) as E2.
    destruct (is_visited st1 j) eqn:H2.
    + apply (from_lister_extends st1 st' j E2 Hj H2).
      destruct (IH1 W Hck j Hj H2 H1) as [[-> G]|Hl]; [|done].
      exists idx. split.
      * split; [done|]. split; [done|]. split.
        -- split; [done|]. by apply (visited_in_range st1).
        -- exists k. split; [lia | done].
      * split; [done|]. rewrite G.
        by rewrite (extends_global st st1 idx E1 (proj1 Hi) V).
    + apply (IH2 W1 Hi V1 Hr); [lia | lia | done | done | done].
Qed.

Lemma node_fields_u32 (i : Z) : node_wf (node model i).
Proof.
  destruct Hwf as (Hn & _). unfold node, at_.
  destruct (nth_in_or_default (Z.to_nat i) (nodes model) default_node)
    as [Hin | ->].
  - rewrite Forall_forall in Hn. by apply list_elem_of_In, Hn in Hin.
  - unfold node_wf, is_u32, default_node, UINT32_MAX. simpl. lia.
Qed.

(** *** Only reachable nodes are marked *)

Lemma Dfs_Children_reachable :
  (forall idx parent st st', Dfs model idx parent st st' ->
     state_wf model st -> 0 <= idx ->
     (idx < N -> reachable model idx) ->
     (forall j, 0 <= j -> is_visited st j = true -> reachable model j) ->
     forall j, 0 <= j -> is_visited st' j = true -> reachable model j)
  /\ (forall idx k steps st st', Children model idx k steps st st' ->
        state_wf model st -> 0 <= idx < N -> is_visited st idx = true ->
        has_child_range model idx ->
        0 <= k -> k + Z.of_nat steps <= childCount (node model idx) ->
        (forall j, 0 <= j -> is_visited st j = true -> reachable model j) ->
        forall j, 0 <= j -> is_visited st' j = true -> reachable model j).
Proof.
  apply Dfs_Children_min.
  - intros idx parent st _ W _ _ Hall j Hj H. by apply Hall.
  - intros idx parent st Hi Hv _ W _ Hr Hall j Hj H.
    rewrite mark_is_visited in H by done.
    destruct (decide (j = idx)) as [->|]; [apply Hr; lia | by apply Hall].
  - intros idx parent st st' Hi Hv Hrange Hch IH W _ Hr Hall.
    set (st1 := mark idx (mat_mul parent (localMatrix (node model idx))) st) in *.
    assert (state_wf model st1) as W1 by (by apply mark_wf).
    assert (is_visited st1 idx = true) as V1
      by (unfold st1; rewrite mark_is_visited by (done || lia); by rewrite decide_True).
    apply (IH W1 Hi V1 Hrange); [lia | |].
    + destruct (node_fields_u32 idx) as (_ & _ & Hcc & _). unfold is_u32 in Hcc. lia.
    + intros j Hj H. unfold st1 in H. rewrite mark_is_visited in H by done.
      destruct (decide (j = idx)) as [->|]; [apply Hr; lia | by apply Hall].
  - intros idx k st W Hi V Hr Hk Hks Hall j Hj H. by apply Hall.
  - intros idx k steps st st1 st' Hd IH1 Hc IH2 W Hi V Hr Hk Hks Hall.
    pose proof (child_nonneg idx k) as Hck.
    pose proof (Dfs_extends _ _ _ _ Hd W) as E1.
    pose proof (extends_wf _ _ E1) as W1.
    assert (is_visited st1 idx = true) as V1
      by (eapply extends_visited; [exact E1 | lia | exact V]).
    apply (IH2 W1 Hi V1 Hr); [lia | lia |].
    apply (IH1 W Hck); [|done].
    intros Hlt. apply (reachable_child model idx); [apply Hall; [lia | done]|].
    split; [done|]. split; [done|]. split; [lia|].
    exists k. split; [lia | done].
Qed.

(** ** The loop over the roots *)

Lemma roots_invariant_initial : roots_invariant model 0 (initial_state model).
Proof.
  split; [apply initial_state_wf|].
  repeat split; intros; try lia;
    try (rewrite initial_not_visited in *; discriminate).
  apply initial_global.
Qed.

Lemma roots_invariant_call (i : Z) (st st' : DfsState) :
  0 <= i < N -> is_root model i ->
  Dfs model i mat_identity st st' ->
  roots_invariant model i st -> roots_invariant model (i + 1) st'.
Proof.
  intros Hi Hroot Hd (W & Hreach & Hclosed & Hglob & Hid & Hroots).
  pose proof (Dfs_extends _ _ _ _ Hd W) as E.
  destruct (proj1 Dfs_Children_closed _ _ _ _ Hd W (proj1 Hi)) as [Hvis Hcl].
  pose proof (proj1 Dfs_Children_globals _ _ _ _ Hd W (proj1 Hi)) as Hg.
  pose proof (proj1 Dfs_Children_reachable _ _ _ _ Hd W (proj1 Hi)
                (fun _ => reachable_root model i Hroot) Hreach) as Hr.
  split; [by apply (extends_wf st)|]. split; [exact Hr|]. split; [|split; [|split]].
  - intros j c Hj V Hch. destruct (is_visited st j) eqn:V0.
    + eapply extends_visited; [exact E | apply Hch | by apply (Hclosed j)].
    + by apply (Hcl j c).
  - intros j Hj V. destruct (is_visited st j) eqn:V0.
    + destruct (Hglob j Hj V0) as [[Hrt G]|Hl].
      * left. split; [done|]. by rewrite (extends_global _ _ _ E Hj V0).
      * right. by apply (from_lister_extends st).
    + destruct (Hg j Hj V V0) as [[-> G]|Hl]; [left | by right]. done.
  - intros j Hj V. pose proof E as (_ & _ & U). rewrite (U j Hj V).
    apply Hid; [done|]. by apply (extends_not_visited st st').
  - intros r Hr' Hrt. destruct (decide (r = i)) as [->|].
    + apply Hvis. lia.
    + eapply extends_visited; [exact E | lia | apply Hroots; [lia | done]].
Qed.

Lemma visit_roots_invariant (steps : nat) :
  forall i st st',
    visit_roots model i steps st = Some st' -> 0 <= i ->
    i + Z.of_nat steps <= N ->
    roots_invariant model i st -> roots_invariant model (i + Z.of_nat steps) st'.
Proof.
  induction steps as [|s IH]; intros i st st'; cbn [visit_roots].
  - intros [= <-] _ _ H. by replace (i + Z.of_nat 0) with i by lia.
  - intros H Hi Hle Hinv.
    replace (i + Z.of_nat (S s)) with (i + 1 + Z.of_nat s) by lia.
    destruct (Z.eqb_spec (parentIndex (node model i)) UINT32_MAX) as [Hp|Hp].
    + destruct (dfs model (depth_bound model) i mat_identity st) as [st1|] eqn:E;
        [|done].
      apply (IH (i + 1) st1 st' H); [lia | lia |].
      apply (roots_invariant_call i st st1); [lia | split; [lia | done] | | done].
      by apply (dfs_Dfs (depth_bound model)).
    + apply (IH (i + 1) st st' H); [lia | lia |].
      destruct Hinv as (W & Hreach & Hclosed & Hglob & Hid & Hroots).
      repeat (split; [done|]).
      intros r Hr Hrt. destruct (decide (r = i)) as [->|]; [|apply Hroots; [lia|done]].
      destruct Hrt as [_ Hrt]. done.
Qed.

(** After the traversal the marked nodes are the nodes reachable from a
    root. *)
Lemma resolve_globals_invariant (st : DfsState) :
  resolve_globals model = Some st -> roots_invariant model N st.
Proof.
  unfold resolve_globals. intros H. pose proof nodeCount_range.
  apply visit_roots_invariant in H; [| lia | lia | apply roots_invariant_initial].
  by replace (0 + Z.of_nat (Z.to_nat N)) with N in H by lia.
Qed.

Lemma reachable_visited (st : DfsState) (j : Z) :
  roots_invariant model N st -> reachable model j -> is_visited st j = true.
Proof.
  intros (W & _ & Hclosed & _ & _ & Hroots). induction 1 as [i Hr|i c _ IH Hch].
  - apply Hroots; [apply Hr | done].
  - apply (Hclosed i c); [apply Hch | done | done].
Qed.

Lemma reachable_nonneg (j : Z) : reachable model j -> 0 <= j < N.
Proof. intros [i Hr|i c _ Hc]; [apply Hr | apply Hc]. Qed.

End WellFormed.

(** ** The bounds checks *)

Lemma primitives_ok_true (n : ModelNode) (steps : nat) :
  forall k nodeOk, primitives_ok model n k steps nodeOk = true -> nodeOk = true.
Proof.
  induction steps as [|s IH]; intros k ok; simpl; [done|].
  case_match; [|done]. intros Hp. apply IH in Hp. by destruct (_ >=? _).
Qed.

Lemma children_ok_spec (i : Z) (steps : nat) :
  forall k, children_ok model i (node model i) k steps = true ->
    forall k', k <= k' < k + Z.of_nat steps ->
      child model i k' < N /\ parentIndex (node model (child model i k')) = i.
Proof.
  induction steps as [|s IH]; intros k H k' Hk'; [lia|].
  cbn [children_ok] in H. fold (child model i k) in H.
  destruct (Z.geb_spec (child model i k) N) as [|Hlt]; [done|].
  destruct (Z.eqb_spec (parentIndex (node model (child model i k))) i) as [Hp|];
    [|done].
  simpl in H. destruct (decide (k' = k)) as [->|]; [done|].
  apply (IH (k + 1) H). lia.
Qed.

(** A node that passes its iteration of the first loop has a child range
    within the child-index table whose entries are nodes naming it as their
    parent. *)
Lemma check_node_true (i : Z) (nodeOk : bool) :
  check_node model i nodeOk = true ->
  nodeOk = true
  /\ (0 < childCount (node model i) ->
      has_child_range model i
      /\ forall k, 0 <= k < childCount (node model i) ->
           child model i k < N /\ parentIndex (node model (child model i k)) = i).
Proof.
  unfold check_node. set (n := node model i).
  set (ok1 := if negb (parentIndex n =? UINT32_MAX) && (parentIndex n >=? N)
              then false else nodeOk).
  set (ok2 := if childCount n >? 0 then _ else ok1).
  intros H.
  assert (ok2 = true) as H2.
  { destruct (primitiveCount n >? 0); [|done].
    apply primitives_ok_true in H.
    destruct (wrap32 (firstPrimitiveIndex n + primitiveCount n) >? _) in H; done. }
  assert (ok1 = true
          /\ (0 < childCount n ->
              has_child_range model i
              /\ children_ok model i n 0 (Z.to_nat (childCount n)) = true)) as [H1 Hc].
  { unfold ok2 in H2. destruct (Z.gtb_spec (childCount n) 0) as [Hpos|Hnp].
    - destruct (Z.eqb_spec (firstChildIndex n) UINT32_MAX) as [|Hf]; [done|].
      destruct (Z.gtb_spec (firstChildIndex n + childCount n)
                  (Z.of_nat (length nc))) as [|Hr]; [done|].
      simpl in H2. destruct (children_ok model i n 0 _) eqn:Hk; [|done].
      split; [done|]. intros _. split; [|done].
      unfold has_child_range. fold n. repeat split; [lia | done | lia].
    - split; [done | lia]. }
  split.
  - unfold ok1 in H1. by destruct (_ && _).
  - intros Hpos. destruct (Hc Hpos) as [Hr Hk]. split; [done|].
    intros k Hk'. apply (children_ok_spec i _ 0 Hk). lia.
Qed.

Lemma check_nodes_true (steps : nat) :
  forall i nodeOk, check_nodes model i steps nodeOk = true ->
    nodeOk = true
    /\ forall i', i <= i' < i + Z.of_nat steps -> check_node model i' true = true.
Proof.
  induction steps as [|s IH]; intros i ok H; simpl in H.
  - split; [done | intros; lia].
  - apply IH in H as [H Hrest]. pose proof (check_node_true i ok H) as [-> _].
    split; [done|]. intros i' Hi'.
    destruct (decide (i' = i)) as [->|]; [done | apply Hrest; lia].
Qed.

(** On a table that passes the first loop, a node listed in a child range
    names the owner of the range as its parent. *)
Lemma validated_child_parent (p j : Z) :
  check_nodes model 0 (Z.to_nat N) true = true ->
  child_of model p j -> parentIndex (node model j) = p.
Proof.
  intros H (Hp & Hr & Hj & k & Hk & ->).
  apply check_nodes_true in H as [_ H].
  specialize (H p ltac:(lia)). apply check_node_true in H as [_ H].
  apply H; lia.
Qed.

(** ** Tables without a root *)

Lemma visit_roots_no_root (steps : nat) :
  forall i st,
    (forall i', i <= i' < i + Z.of_nat steps ->
       parentIndex (node model i') <> UINT32_MAX) ->
    visit_roots model i steps st = Some st.
Proof.
  induction steps as [|s IH]; intros i st H; cbn [visit_roots]; [done|].
  destruct (Z.eqb_spec (parentIndex (node model i)) UINT32_MAX) as [E|_].
  - exfalso. apply (H i); [lia | done].
  - apply IH. intros i' Hi'. apply H. lia.
Qed.

Lemma compare_globals_unvisited (st : DfsState) (steps : nat) :
  (forall i, is_visited st i = false) ->
  forall i nodeOk, compare_globals model st i steps nodeOk = nodeOk.
Proof.
  intros Hnone. induction steps as [|s IH]; intros i ok; simpl; [done|].
  rewrite IH. fold (is_visited st i). by rewrite Hnone.
Qed.

End Traversal.

(** ** Integer matrices *)

Lemma zmat_mul_vec_identity (v : ZMat.vec4) : ZMat.mul_vec (ZMat.diag 1) v = v.
Proof.
  destruct v as [x y z w]. unfold ZMat.mul_vec, ZMat.vadd, ZMat.vscale. simpl.
  f_equal; lia.
Qed.

#[export] Instance zmat_left_unit : Mat4LeftUnit ZMat.ops.
Proof.
  constructor. intros [a b c d]. unfold mat_mul, mat_identity. simpl.
  unfold ZMat.mul. simpl. by rewrite !zmat_mul_vec_identity.
Qed.

(** ** Global transforms *)

(** C6. On a node table that passes the bounds and parent checks, the
    traversal returns, marks exactly the nodes reachable from a root, and
    gives each of them the product of its parent's global and its own local
    matrix, a root taking the identity for the parent's global.  In
    particular a node C3 listed by C1, itself listed by a root R, gets
    local(R) * local(C1) * local(C3); and when every local matrix is the
    identity every global is the identity. *)
Theorem validated_globals_are_parent_products
    {M : Mat4} {LU : Mat4LeftUnit M} (model : Verify.ModelAsset) :
  Verify.model_wf model ->
  Verify.check_nodes model 0 (Z.to_nat (Verify.nodeCount model)) true = true ->
  exists st,
    Verify.resolve_globals model = Some st
    /\ (forall i, 0 <= i ->
          Verify.is_visited st i = true <-> Verify.reachable model i)
    /\ (forall i, Verify.reachable model i ->
          let n := Verify.node model i in
          (Verify.parentIndex n = UINT32_MAX ->
             Verify.global_of st i = mat_mul mat_identity (Verify.localMatrix n))
          /\ (Verify.parentIndex n <> UINT32_MAX ->
                Verify.reachable model (Verify.parentIndex n)
                /\ Verify.child_of model (Verify.parentIndex n) i
                /\ Verify.global_of st i
                   = mat_mul (Verify.global_of st (Verify.parentIndex n))
                             (Verify.localMatrix n)))
    /\ (forall r c1 c3,
          Verify.is_root model r -> Verify.child_of model r c1 ->
          Verify.child_of model c1 c3 ->
          Verify.global_of st c3
          = mat_mul (mat_mul (Verify.localMatrix (Verify.node model r))
                             (Verify.localMatrix (Verify.node model c1)))
                    (Verify.localMatrix (Verify.node model c3)))
    /\ ((forall i, 0 <= i < Verify.nodeCount model ->
           Verify.localMatrix (Verify.node model i) = mat_identity) ->
        forall i, 0 <= i -> Verify.global_of st i = mat_identity).
Proof.
  intros Hwf Hcheck.
  destruct (resolve_globals_total model) as (st & Hres & W).
  exists st. split; [exact Hres|].
  pose proof (resolve_globals_invariant model Hwf st Hres) as Hinv.
  pose proof Hinv as (_ & Hreach & Hclosed & Hglob & Hid & Hroots).
  pose proof (nodeCount_range model) as HN.
  assert (forall p j, Verify.child_of model p j ->
            Verify.parentIndex (Verify.node model j) = p
            /\ Verify.parentIndex (Verify.node model j) <> UINT32_MAX) as Hparent.
  { intros p j Hc. pose proof (validated_child_parent model p j Hcheck Hc) as E.
    split; [done|]. rewrite E. destruct Hc as (Hp & _). unfold UINT32_MAX. lia. }
  assert (forall i, Verify.reachable model i ->
            let n := Verify.node model i in
            (Verify.parentIndex n = UINT32_MAX ->
               Verify.global_of st i = mat_mul mat_identity (Verify.localMatrix n))
            /\ (Verify.parentIndex n <> UINT32_MAX ->
                  Verify.reachable model (Verify.parentIndex n)
                  /\ Verify.child_of model (Verify.parentIndex n) i
                  /\ Verify.global_of st i
                     = mat_mul (Verify.global_of st (Verify.parentIndex n))
                               (Verify.localMatrix n))) as Hprod.
  { intros i Hr. cbv zeta.
    pose proof (reachable_nonneg model i Hr) as Hi.
    pose proof (reachable_visited model st i Hinv Hr) as V.
    destruct (Hglob i (proj1 Hi) V) as [[Hrt G]|(p & Hc & Vp & G)].
    - split; [done|]. intros Hne. destruct Hrt as [_ Hrt]. done.
    - destruct (Hparent p i Hc) as [E Hne]. split; [done|]. intros _.
      rewrite E. split; [|done]. apply Hreach; [apply Hc | done]. }
  split; [|split; [exact Hprod|split]].
  - intros i Hi. split; [by apply Hreach | by apply reachable_visited].
  - intros r c1 c3 Hr H1 H3.
    assert (Verify.reachable model r) as Rr by (by constructor).
    assert (Verify.reachable model c1) as R1 by (by apply (Verify.reachable_child model r)).
    assert (Verify.reachable model c3) as R3 by (by apply (Verify.reachable_child model c1)).
    destruct (Hparent r c1 H1) as [E1 N1]. destruct (Hparent c1 c3 H3) as [E3 N3].
    destruct (Hprod c3 R3) as [_ P3]. destruct (P3 N3) as (_ & _ & ->).
    destruct (Hprod c1 R1) as [_ P1]. destruct (P1 N1) as (_ & _ & G1).
    destruct (Hprod r Rr) as [Pr _]. rewrite E3, G1, E1, (Pr (proj2 Hr)).
    by rewrite mat_mul_identity_l.
  - intros Hlocal.
    assert (forall i, Verify.reachable model i -> Verify.global_of st i = mat_identity)
      as Hall.
    { induction 1 as [i Hr|i c Hri IH Hc].
      - destruct (Hprod i (Verify.reachable_root model i Hr)) as [Pr _].
        rewrite (Pr (proj2 Hr)), Hlocal by apply Hr. apply mat_mul_identity_l.
      - destruct (Hparent i c Hc) as [E Hne].
        destruct (Hprod c (Verify.reachable_child model i c Hri Hc)) as [_ Pc].
        destruct (Pc Hne) as (_ & _ & ->). rewrite E, IH, Hlocal by apply Hc.
        apply mat_mul_identity_l. }
    intros i Hi. destruct (Verify.is_visited st i) eqn:V.
    + apply Hall. by apply Hreach.
    + by apply Hid.
Qed.

(** The table with root R, its children C1 and C2, and C3 under C1. *)
Lemma validated_globals_are_parent_products_witness :
  exists st,
    Verify.resolve_globals Examples.family_model = Some st
    /\ Verify.global_of st 3
       = ZMat.mul (ZMat.mul Examples.local_R Examples.local_C1) Examples.local_C3.
Proof.
  destruct (validated_globals_are_parent_products (M := ZMat.ops) Examples.family_model)
    as (st & Hres & _ & _ & Hchain & _).
  - split; [|split].
    + repeat constructor; unfold Verify.is_u32; simpl; unfold UINT32_MAX; lia.
    + repeat constructor; unfold Verify.is_u32; simpl; lia.
    + constructor.
  - vm_compute. reflexivity.
  - exists st. split; [exact Hres|].
    apply (Hchain 0 1 3).
    + split; [vm_compute; split; [discriminate | reflexivity] | reflexivity].
    + split; [vm_compute; split; [discriminate | reflexivity]|].
      split; [vm_compute; repeat split; discriminate|].
      split; [vm_compute; split; [discriminate | reflexivity]|].
      exists 0. split; [vm_compute; split; [discriminate | reflexivity] | reflexivity].
    + split; [vm_compute; split; [discriminate | reflexivity]|].
      split; [vm_compute; repeat split; discriminate|].
      split; [vm_compute; split; [discriminate | reflexivity]|].
      exists 0. split; [vm_compute; split; [discriminate | reflexivity] | reflexivity].
Defined.

(** ** Termination and tables without a root *)

(** C7, as stated, fails on its own example: on the two-node cycle the
    traversal starts nowhere, both nodes stay unvisited, the comparison loop
    skips them, and the run reports that the node graph is valid. *)
Lemma cyclic_table_not_flagged_counterexample :
  Verify.verify_node_graph Examples.cyclic_model = Some (Verify.NodeGraph true)
  /\ Verify.resolve_globals Examples.cyclic_model
     = Some (Verify.initial_state Examples.cyclic_model)
  /\ Verify.is_visited (Verify.initial_state Examples.cyclic_model) 0 = false
  /\ Verify.is_visited (Verify.initial_state Examples.cyclic_model) 1 = false.
Proof. repeat split; vm_compute; reflexivity. Qed.

(** C7, amended.  The traversal returns for every node table: the fuel of
    [resolve_globals] is never exhausted, and a call of the recursive
    function returns whenever its fuel exceeds the number of unvisited nodes,
    each nested call finding fewer of them.  On a table without a root no
    call is made: every node stays unvisited and, unvisited nodes being
    skipped by the comparison loop, nothing is flagged; the verdict is that
    of the bounds checks alone. *)
Theorem traversal_terminates_and_skips_unvisited
    {M : Mat4} (model : Verify.ModelAsset) :
  (exists st, Verify.resolve_globals model = Some st /\ Verify.state_wf model st)
  /\ (exists r, Verify.verify_node_graph model = Some r)
  /\ (forall fuel idx parent st,
        0 < Verify.nodeCount model -> Verify.state_wf model st ->
        (Verify.unvisited st < fuel)%nat ->
        exists st', Verify.dfs model fuel idx parent st = Some st'
                    /\ (Verify.unvisited st' <= Verify.unvisited st)%nat)
  /\ ((forall i, 0 <= i < Verify.nodeCount model ->
         Verify.parentIndex (Verify.node model i) <> UINT32_MAX) ->
      Verify.resolve_globals model = Some (Verify.initial_state model)
      /\ (Verify.nodes model <> [] ->
          Verify.verify_node_graph model
          = Some (Verify.NodeGraph
                    (Verify.check_nodes model 0
                       (Z.to_nat (Verify.nodeCount model)) true)))).
Proof.
  pose proof (resolve_globals_total model) as Htotal.
  split; [exact Htotal|]. split; [|split].
  - unfold Verify.verify_node_graph. destruct (Verify.nodes model); [by eexists|].
    destruct Htotal as (st & -> & _). by eexists.
  - intros fuel idx parent st HN W Hlt.
    destruct (dfs_total model fuel HN idx parent st W Hlt) as (st' & E & _ & Hle).
    by exists st'.
  - intros Hnoroot.
    assert (Verify.resolve_globals model = Some (Verify.initial_state model)) as E.
    { unfold Verify.resolve_globals. apply visit_roots_no_root.
      pose proof (nodeCount_range model). intros i' Hi'. apply Hnoroot. lia. }
    split; [exact E|]. intros Hne. unfold Verify.verify_node_graph. rewrite E.
    destruct (Verify.nodes model); [done|].
    rewrite compare_globals_unvisited; [done|]. apply initial_not_visited.
Qed.

Lemma traversal_terminates_and_skips_unvisited_witness :
  Verify.resolve_globals Examples.cyclic_model
  = Some (Verify.initial_state Examples.cyclic_model)
  /\ Verify.verify_node_graph Examples.cyclic_model = Some (Verify.NodeGraph true).
Proof.
  destruct (traversal_terminates_and_skips_unvisited (M := ZMat.ops) Examples.cyclic_model)
    as (_ & _ & _ & Hnoroot).
  destruct Hnoroot as [Hres Hver].
  - intros i Hi. change (Verify.nodeCount Examples.cyclic_model) with 2 in Hi.
    assert (i = 0 \/ i = 1) as [-> | ->] by lia; vm_compute; discriminate.
  - split; [exact Hres|]. rewrite Hver; [vm_compute; reflexivity | discriminate].
Defined.

(* ===================================================================== *)
(** * Further properties of component masks and of the registry *)
(* ===================================================================== *)

(** ** Words stay 64-bit *)

Lemma word_range_iff (x : Z) :
  0 <= x < 2 ^ 64 <-> 0 <= x /\ forall k, 64 <= k -> Z.testbit x k = false.
Proof.
  split.
  - intros H. split; [lia|]. intros k Hk. by apply word_high_bits.
  - intros [H0 Hhigh]. split; [done|].
    assert (x mod 2 ^ 64 = x) as <-.
    { apply Z.bits_inj'. intros k Hk. rewrite Z.testbit_mod_pow2 by lia.
      destruct (Z.ltb_spec k 64); [done|]. simpl. symmetry. apply Hhigh. lia. }
    apply Z.mod_pos_bound. lia.
Qed.

Lemma set_word_range (w bit : Z) :
  0 <= w < 2 ^ 64 -> 0 <= bit < 64 -> 0 <= Z.lor w (Z.shiftl 1 bit) < 2 ^ 64.
Proof.
  intros Hw Hb. apply word_range_iff. split.
  - apply Z.lor_nonneg. split; [lia|]. rewrite Z.shiftl_1_l. apply Z.pow_nonneg. lia.
  - intros k Hk. rewrite Z.lor_spec, testbit_single by lia.
    rewrite (word_high_bits w k) by done. simpl. apply bool_decide_eq_false. lia.
Qed.

Lemma clear_word_range (w x : Z) : 0 <= w < 2 ^ 64 -> 0 <= Z.land w x < 2 ^ 64.
Proof.
  intros Hw. apply word_range_iff. split.
  - apply Z.land_nonneg. left. lia.
  - intros k Hk. by rewrite Z.land_spec, (word_high_bits w k).
Qed.

(** The bits of [~(1 << bit)] below 64. *)
Lemma testbit_not64_single (bit k : Z) :
  0 <= bit < 64 -> 0 <= k < 64 ->
  Z.testbit (ECS.not64 (Z.shiftl 1 bit)) k = negb (bool_decide (k = bit)).
Proof.
  intros Hb Hk. unfold ECS.not64, UINT64_MAX.
  rewrite Z.lxor_spec, testbit_single by lia.
  replace (2 ^ 64 - 1) with (Z.ones 64) by (rewrite Z.ones_equiv; reflexivity).
  rewrite Z.ones_spec_low by lia. by destruct (bool_decide (k = bit)).
Qed.

(** ** How [clear] changes the words *)

Lemma clear_words (compId : Z) (m : ECS.ComponentMask) :
  0 <= compId ->
  let j := Z.to_nat (compId / 64) in
  length (ECS.m_words (ECS.clear compId m)) = length (ECS.m_words m)
  /\ forall i,
       nth i (ECS.m_words (ECS.clear compId m)) 0
       = if decide (i = j /\ ECS.has compId m = true)
         then Z.land (nth i (ECS.m_words m) 0) (ECS.not64 (Z.shiftl 1 (compId mod 64)))
         else nth i (ECS.m_words m) 0.
Proof.
  intros Hid j. unfold ECS.clear.
  destruct (ECS.has compId m) eqn:Hhas; simpl.
  - unfold ECS.bitPos. cbn [ECS.m_words]. split; [by rewrite length_insert|].
    assert (j < length (ECS.m_words m))%nat as Hj.
    { unfold ECS.has, ECS.bitPos, ECS.size in Hhas.
      assert (0 <= compId / 64) by (apply Z.div_pos; lia).
      destruct (Z.geb_spec (compId / 64) (Z.of_nat (length (ECS.m_words m))));
        [done | unfold j; lia]. }
    intros i. fold j. unfold at_. fold j.
    destruct (decide (i = j /\ true = true)) as [[-> _]|Hn].
    + apply nth_lookup_Some. by apply list_lookup_insert_eq.
    + rewrite !nth_lookup, list_lookup_insert_ne; [done|]. intros <-. by apply Hn.
  - split; [done|]. intros i. rewrite decide_False; [done|]. intros [_ ?]; done.
Qed.

(** ** Mask invariant *)

Lemma set_wf (compId : Z) (m : ECS.ComponentMask) :
  ECS.is_id compId -> ECS.mask_wf m -> ECS.mask_wf (ECS.set compId m).
Proof.
  intros Hid [Hw Hs]. unfold ECS.is_id in Hid.
  destruct (set_words compId m ltac:(lia)) as [Hl Hn].
  assert (0 <= compId / 64 < 2 ^ 26) as Hq.
  { split; [apply Z.div_pos; lia|]. apply Z.div_lt_upper_bound; lia. }
  assert (0 <= compId mod 64 < 64) as Hb by (apply Z.mod_pos_bound; lia).
  split.
  - apply Forall_forall. intros w Hin. apply list_elem_of_In in Hin.
    apply (In_nth _ _ 0) in Hin as (i & Hi & <-). rewrite Hn.
    assert (0 <= nth i (ECS.m_words m) 0 < 2 ^ 64) as Hold.
    { destruct (nth_in_or_default i (ECS.m_words m) 0) as [Hin | ->]; [|lia].
      rewrite Forall_forall in Hw. by apply Hw, list_elem_of_In. }
    destruct (decide _); [by apply set_word_range | done].
  - unfold ECS.size in *. rewrite Hl. lia.
Qed.

Lemma clear_wf (compId : Z) (m : ECS.ComponentMask) :
  0 <= compId -> ECS.mask_wf m -> ECS.mask_wf (ECS.clear compId m).
Proof.
  intros Hid [Hw Hs]. destruct (clear_words compId m Hid) as [Hl Hn]. split.
  - apply Forall_forall. intros w Hin. apply list_elem_of_In in Hin.
    apply (In_nth _ _ 0) in Hin as (i & Hi & <-). rewrite Hn.
    assert (0 <= nth i (ECS.m_words m) 0 < 2 ^ 64) as Hold.
    { destruct (nth_in_or_default i (ECS.m_words m) 0) as [Hin | ->]; [|lia].
      rewrite Forall_forall in Hw. by apply Hw, list_elem_of_In. }
    destruct (decide _); [by apply clear_word_range | done].
  - unfold ECS.size in *. by rewrite Hl.
Qed.

Lemma empty_mask_wf : ECS.mask_wf ECS.empty_mask.
Proof. split; [constructor | unfold ECS.size; simpl; lia]. Qed.

Lemma fold_set_wf (ids : list Z) (m : ECS.ComponentMask) :
  Forall ECS.is_id ids -> ECS.mask_wf m ->
  ECS.mask_wf (fold_left (fun m id => ECS.set id m) ids m).
Proof.
  revert m. induction ids as [|a ids IH]; intros m Hids Hm; simpl; [done|].
  apply Forall_cons in Hids as [Ha Hids]. apply IH; [done|]. by apply set_wf.
Qed.

(** X1. Masks keep their representation invariant: setting a component ID,
    clearing one, and building a mask from a list of IDs all yield masks whose
    words are 64-bit values and which hold at most [2^26] words. *)
Theorem mask_operations_keep_words_64bit
    (compId : Z) (ids : list Z) (m : ECS.ComponentMask) :
  ECS.is_id compId -> Forall ECS.is_id ids -> ECS.mask_wf m ->
  ECS.mask_wf (ECS.set compId m)
  /\ ECS.mask_wf (ECS.clear compId m)
  /\ ECS.mask_wf (ECS.fromIds ids)
  /\ ECS.mask_wf ECS.empty_mask.
Proof.
  intros Hid Hids Hm. split; [by apply set_wf|]. split.
  - apply clear_wf; [apply Hid | done].
  - split; [|apply empty_mask_wf]. apply fold_set_wf; [done | apply empty_mask_wf].
Qed.

Lemma mask_operations_keep_words_64bit_witness :
  ECS.mask_wf (ECS.set 200 (ECS.fromIds [3; 64]))
  /\ ECS.mask_wf (ECS.clear 64 (ECS.fromIds [3; 64])).
Proof.
  assert (Forall ECS.is_id [3; 64]) as Hids
    by (repeat constructor; unfold ECS.is_id; lia).
  destruct (mask_operations_keep_words_64bit 0 [3; 64] ECS.empty_mask)
    as (_ & _ & Hm & _);
    [unfold ECS.is_id; lia | exact Hids
     | split; [constructor | unfold ECS.size; simpl; lia] |].
  destruct (mask_operations_keep_words_64bit 200 [] (ECS.fromIds [3; 64]))
    as (Hset & _); [unfold ECS.is_id; lia | constructor | exact Hm |].
  destruct (mask_operations_keep_words_64bit 64 [] (ECS.fromIds [3; 64]))
    as (_ & Hclear & _); [unfold ECS.is_id; lia | constructor | exact Hm |].
  split; [exact Hset | exact Hclear].
Defined.

(** ** [set], [clear] and [has] on one mask *)

Lemma id_position (a b : Z) :
  0 <= a -> 0 <= b ->
  (Z.to_nat (a / 64) = Z.to_nat (b / 64) /\ a mod 64 = b mod 64) <-> a = b.
Proof.
  intros Ha Hb. split; [|intros ->; done]. intros [Hq Hr].
  assert (0 <= a / 64) by (apply Z.div_pos; lia).
  assert (0 <= b / 64) by (apply Z.div_pos; lia).
  rewrite (Z.div_mod a 64), (Z.div_mod b 64) by lia. lia.
Qed.

(** X2. Single-bit operations.  After [set id] the mask has [id] and every
    other ID as before, and its word vector has grown exactly as far as the
    word of [id]; after [clear id] the mask lacks [id], has every other ID as
    before, and keeps its length (clearing never shrinks or grows the
    vector); clearing an ID the mask does not have, in range or not, returns
    the mask unchanged. *)
Theorem set_clear_has_laws (id other : Z) (m : ECS.ComponentMask) :
  0 <= id -> 0 <= other -> other <> id ->
  ECS.has id (ECS.set id m) = true
  /\ ECS.has other (ECS.set id m) = ECS.has other m
  /\ length (ECS.m_words (ECS.set id m))
     = Nat.max (length (ECS.m_words m)) (S (Z.to_nat (id / 64)))
  /\ ECS.has id (ECS.clear id m) = false
  /\ ECS.has other (ECS.clear id m) = ECS.has other m
  /\ length (ECS.m_words (ECS.clear id m)) = length (ECS.m_words m)
  /\ (ECS.has id m = false -> ECS.clear id m = m).
Proof.
  intros Hid Hother Hne.
  destruct (set_words id m Hid) as [Sl Sn].
  destruct (clear_words id m Hid) as [Cl Cn].
  assert (0 <= id mod 64 < 64) as Hb by (apply Z.mod_pos_bound; lia).
  assert (0 <= other mod 64 < 64) as Hb' by (apply Z.mod_pos_bound; lia).
  assert (~ (Z.to_nat (other / 64) = Z.to_nat (id / 64) /\ other mod 64 = id mod 64))
    as Hpos by (rewrite id_position by done; done).
  split; [|split; [|split; [exact Sl|split; [|split; [|split; [exact Cl|]]]]]].
  - rewrite has_testbit, Sn, decide_True by done.
    rewrite Z.lor_spec, testbit_single by lia.
    rewrite bool_decide_eq_true_2 by done. apply orb_true_r.
  - rewrite !has_testbit, Sn by done.
    destruct (decide _) as [E|]; [|done].
    rewrite Z.lor_spec, testbit_single by lia.
    rewrite bool_decide_eq_false_2 by tauto. apply orb_false_r.
  - rewrite has_testbit, Cn by done.
    destruct (decide _) as [[_ Hh]|Hn].
    + rewrite Z.land_spec, testbit_not64_single by lia.
      rewrite bool_decide_eq_true_2 by done. apply andb_false_r.
    + rewrite <- has_testbit by done.
      destruct (ECS.has id m); [exfalso; by apply Hn | done].
  - rewrite !has_testbit, Cn by done.
    destruct (decide _) as [[E _]|]; [|done].
    rewrite Z.land_spec, testbit_not64_single by lia.
    rewrite bool_decide_eq_false_2 by tauto. apply andb_true_r.
  - intros Hno. unfold ECS.clear. by rewrite Hno.
Qed.

Lemma set_clear_has_laws_witness :
  ECS.has 70 (ECS.set 70 (ECS.fromIds [3])) = true
  /\ ECS.has 3 (ECS.clear 70 (ECS.set 70 (ECS.fromIds [3]))) = true
  /\ ECS.has 70 (ECS.clear 70 (ECS.set 70 (ECS.fromIds [3]))) = false.
Proof.
  destruct (set_clear_has_laws 70 3 (ECS.fromIds [3])) as (H1 & _); [lia | lia | lia |].
  destruct (set_clear_has_laws 70 3 (ECS.set 70 (ECS.fromIds [3])))
    as (_ & _ & _ & H4 & H5 & _); [lia | lia | lia |].
  split; [exact H1|]. split; [|exact H4]. rewrite H5. vm_compute. reflexivity.
Defined.

(** ** Round trip through [fromIds] *)

Lemma fromIds_has_In (ids : list Z) (id : Z) :
  Forall ECS.is_id ids -> ECS.is_id id ->
  ECS.has id (ECS.fromIds ids) = true <-> In id ids.
Proof.
  intros Hids Hid. unfold ECS.is_id in Hid.
  assert (Forall (fun id => 0 <= id) ids) as Hpos
    by (eapply Forall_impl; [exact Hids | unfold ECS.is_id; intros; lia]).
  destruct (fold_set_words ids ECS.empty_mask Hpos) as [_ B].
  fold (ECS.fromIds ids) in B.
  assert (0 <= id mod 64 < 64) as Hb by (apply Z.mod_pos_bound; lia).
  rewrite has_testbit, B by lia. simpl. split.
  - intros [H0|(id' & Hin & Hq & Hr)].
    + destruct (Z.to_nat (id / 64)); rewrite Z.bits_0 in H0; discriminate.
    + rewrite Forall_forall in Hpos. apply list_elem_of_In in Hin as Hin'.
      specialize (Hpos id' Hin').
      assert (id = id') as -> by (apply id_position; [lia | lia | done]). done.
  - intros Hin. right. by exists id.
Qed.

(** X3. [fromIds] followed by [has] recovers the list: the mask built from a
    list of component IDs has exactly the IDs of the list, whatever their
    order and repetitions. *)
Theorem fromIds_has_exactly (ids : list Z) (id : Z) :
  Forall ECS.is_id ids -> ECS.is_id id ->
  ECS.has id (ECS.fromIds ids) = true <-> In id ids.
Proof. apply fromIds_has_In. Qed.

Lemma fromIds_has_exactly_witness :
  ECS.has 65 (ECS.fromIds [1; 65; 3]) = true
  /\ ~ (ECS.has 2 (ECS.fromIds [1; 65; 3]) = true).
Proof.
  assert (Forall ECS.is_id [1; 65; 3]) as Hids
    by (repeat constructor; unfold ECS.is_id; lia).
  split.
  - apply (fromIds_has_exactly [1; 65; 3] 65 Hids); [unfold ECS.is_id; lia|].
    simpl. tauto.
  - intros H. apply (fromIds_has_exactly [1; 65; 3] 2 Hids) in H;
      [|unfold ECS.is_id; lia].
    simpl in H. lia.
Defined.

(** ** Queries *)

Lemma containsAll_iff (A B : ECS.ComponentMask) :
  ECS.mask_wf B ->
  ECS.containsAll A B = true <->
  (forall id, ECS.is_id id -> ECS.has id B = true -> ECS.has id A = true).
Proof.
  intros HB. unfold ECS.containsAll. rewrite containsAll_from_spec. split.
  - intros H id Hid Hb. unfold ECS.is_id in Hid.
    rewrite has_testbit in * by lia.
    set (j := Z.to_nat (id / 64)) in *.
    destruct (Nat.ltb_spec j (length (ECS.m_words B))) as [Hj|Hj].
    + assert (Z.land (nth j (ECS.m_words A) 0) (nth j (ECS.m_words B) 0)
              = nth j (ECS.m_words B) 0) as E by (apply H; lia).
      eapply land_eq_iff; [exact E | apply Z.mod_pos_bound; lia | exact Hb].
    + rewrite nth_overflow, Z.bits_0 in Hb by lia. discriminate.
  - intros H j _. apply land_eq_iff. intros k Hk Hb.
    destruct (mask_bit_is_id B j k HB Hk Hb) as (Hk64 & Hid & Hdiv & Hmod).
    specialize (H _ Hid). unfold ECS.is_id in Hid.
    rewrite !has_testbit, Hdiv, Hmod, Nat2Z.id in H by lia. by apply H.
Qed.

Lemma containsNone_iff (A B : ECS.ComponentMask) :
  ECS.mask_wf B ->
  ECS.containsNone A B = true <->
  (forall id, ECS.is_id id -> ECS.has id B = true -> ECS.has id A = false).
Proof.
  intros HB. unfold ECS.containsNone. rewrite containsNone_from_spec. split.
  - intros H id Hid Hb. unfold ECS.is_id in Hid.
    destruct (ECS.has id A) eqn:Ha; [|done]. exfalso.
    rewrite has_testbit in * by lia.
    set (j := Z.to_nat (id / 64)) in *.
    destruct (Nat.ltb_spec j (length (ECS.m_words B))) as [Hj|Hj].
    + assert (Z.land (nth j (ECS.m_words A) 0) (nth j (ECS.m_words B) 0) = 0) as E
        by (apply H; lia).
      eapply land_zero_iff; [exact E | | split; [exact Ha | exact Hb]].
      apply Z.mod_pos_bound; lia.
    + rewrite nth_overflow, Z.bits_0 in Hb by lia. discriminate.
  - intros H j _. apply land_zero_iff. intros k Hk [Ha Hb].
    destruct (mask_bit_is_id B j k HB Hk Hb) as (Hk64 & Hid & Hdiv & Hmod).
    specialize (H _ Hid). unfold ECS.is_id in Hid.
    rewrite !has_testbit, Hdiv, Hmod, Nat2Z.id in H by lia.
    rewrite H in Ha; done.
Qed.

(** X4. A query built from two lists of IDs selects exactly the masks that
    have every required ID and none of the excluded ones. *)
Theorem matches_required_excluded
    (m : ECS.ComponentMask) (required excluded : list Z) :
  Forall ECS.is_id required -> Forall ECS.is_id excluded ->
  ECS.matches m (ECS.fromIds required) (ECS.fromIds excluded) = true <->
  (forall id, In id required -> ECS.has id m = true)
  /\ (forall id, In id excluded -> ECS.has id m = false).
Proof.
  intros Hr He. unfold ECS.matches. rewrite andb_true_iff.
  rewrite containsAll_iff by (apply fold_set_wf; [done | apply empty_mask_wf]).
  rewrite containsNone_iff by (apply fold_set_wf; [done | apply empty_mask_wf]).
  rewrite Forall_forall in Hr, He.
  split; intros [Hall Hnone]; split.
  - intros id Hin. assert (ECS.is_id id) as Hid by (by apply Hr, list_elem_of_In).
    apply Hall; [done|]. apply fromIds_has_In; [by apply Forall_forall | done..].
  - intros id Hin. assert (ECS.is_id id) as Hid by (by apply He, list_elem_of_In).
    apply Hnone; [done|]. apply fromIds_has_In; [by apply Forall_forall | done..].
  - intros id Hid Hhas. apply Hall.
    by apply (fromIds_has_In required id); [apply Forall_forall|..].
  - intros id Hid Hhas. apply Hnone.
    by apply (fromIds_has_In excluded id); [apply Forall_forall|..].
Qed.

Lemma matches_required_excluded_witness :
  ECS.matches (ECS.fromIds [0; 1; 70]) (ECS.fromIds [0; 70]) (ECS.fromIds [5]) = true.
Proof.
  apply matches_required_excluded.
  - repeat constructor; unfold ECS.is_id; lia.
  - repeat constructor; unfold ECS.is_id; lia.
  - split; intros id Hin; simpl in Hin.
    + destruct Hin as [<-|[<-|[]]]; vm_compute; reflexivity.
    + destruct Hin as [<-|[]]. vm_compute. reflexivity.
Defined.

(** ** Keys determine the words *)

Lemma hex_digit_inj (a b : Z) :
  0 <= a < 16 -> 0 <= b < 16 -> ECS.hex_digit a = ECS.hex_digit b -> a = b.
Proof.
  intros Ha Hb.
  assert (a = 0 \/ a = 1 \/ a = 2 \/ a = 3 \/ a = 4 \/ a = 5 \/ a = 6 \/ a = 7
          \/ a = 8 \/ a = 9 \/ a = 10 \/ a = 11 \/ a = 12 \/ a = 13 \/ a = 14
          \/ a = 15) as Ca by lia.
  assert (b = 0 \/ b = 1 \/ b = 2 \/ b = 3 \/ b = 4 \/ b = 5 \/ b = 6 \/ b = 7
          \/ b = 8 \/ b = 9 \/ b = 10 \/ b = 11 \/ b = 12 \/ b = 13 \/ b = 14
          \/ b = 15) as Cb by lia.
  clear Ha Hb.
  repeat (destruct Ca as [->|Ca]); try subst a;
    repeat (destruct Cb as [->|Cb]); try subst b;
    simpl; intros E; first [reflexivity | discriminate E].
Qed.

Lemma hex_fixed_inj (width : nat) (w1 w2 : Z) :
  ECS.hex_fixed width w1 = ECS.hex_fixed width w2 ->
  w1 mod 16 ^ Z.of_nat width = w2 mod 16 ^ Z.of_nat width.
Proof.
  induction width as [|k IH].
  - intros _. simpl. by rewrite !Z.mod_1_r.
  - cbn [ECS.hex_fixed]. intros [= Hd Hrest].
    apply hex_digit_inj in Hd; [|apply Z.mod_pos_bound; lia..].
    specialize (IH Hrest).
    replace (16 ^ Z.of_nat (S k)) with (16 ^ Z.of_nat k * 16)
      by (rewrite Nat2Z.inj_succ, Z.pow_succ_r by lia; lia).
    assert (0 < 16 ^ Z.of_nat k) by (apply Z.pow_pos_nonneg; lia).
    rewrite !Z.rem_mul_r by lia. by rewrite Hd, IH.
Qed.

Lemma string_append_inj (s1 s2 t1 t2 : string) :
  String.length s1 = String.length s2 -> s1 +:+ t1 = s2 +:+ t2 -> s1 = s2 /\ t1 = t2.
Proof.
  revert s2. induction s1 as [|c s1 IH]; intros [|c2 s2] Hl; simpl in *; try done.
  intros [= -> E]. destruct (IH s2 ltac:(lia) E) as [-> ->]. done.
Qed.

Lemma string_append_nil_r (s : string) : s +:+ EmptyString = s.
Proof.
  induction s as [|c s IH]; [reflexivity | exact (f_equal (String c) IH)].
Qed.

Lemma string_append_assoc (s t u : string) : (s +:+ t) +:+ u = s +:+ (t +:+ u).
Proof.
  induction s as [|c s IH]; [reflexivity | exact (f_equal (String c) IH)].
Qed.

Lemma stream_words_app (ws : list Z) (oss : string) :
  fold_left (fun oss w => oss +:+ ECS.hex_fixed 16 w) ws oss
  = oss +:+ fold_left (fun oss w => oss +:+ ECS.hex_fixed 16 w) ws EmptyString.
Proof.
  revert oss. induction ws as [|w ws IH]; intros oss; cbn [fold_left].
  - by rewrite string_append_nil_r.
  - rewrite IH, (IH (EmptyString +:+ _)).
    change (EmptyString +:+ ECS.hex_fixed 16 w) with (ECS.hex_fixed 16 w).
    by rewrite string_append_assoc.
Qed.

Lemma stream_words_inj (ws1 ws2 : list Z) :
  Forall (fun w => 0 <= w < 2 ^ 64) ws1 -> Forall (fun w => 0 <= w < 2 ^ 64) ws2 ->
  fold_left (fun oss w => oss +:+ ECS.hex_fixed 16 w) ws1 EmptyString
  = fold_left (fun oss w => oss +:+ ECS.hex_fixed 16 w) ws2 EmptyString ->
  ws1 = ws2.
Proof.
  revert ws2. induction ws1 as [|w1 ws1 IH]; intros [|w2 ws2] H1 H2 E.
  - done.
  - apply (f_equal String.length) in E. rewrite !stream_words_length in E.
    simpl in E. lia.
  - apply (f_equal String.length) in E. rewrite !stream_words_length in E.
    simpl in E. lia.
  - cbn [fold_left] in E. rewrite (stream_words_app ws1), (stream_words_app ws2) in E.
    change (EmptyString +:+ ECS.hex_fixed 16 w1) with (ECS.hex_fixed 16 w1) in E.
    change (EmptyString +:+ ECS.hex_fixed 16 w2) with (ECS.hex_fixed 16 w2) in E.
    apply string_append_inj in E as [Eh Et]; [|by rewrite !hex_fixed_length].
    apply Forall_cons in H1 as [R1 H1]. apply Forall_cons in H2 as [R2 H2].
    apply hex_fixed_inj in Eh. change (16 ^ Z.of_nat 16) with (2 ^ 64) in Eh.
    rewrite !Z.mod_small in Eh by done. subst w2. f_equal. by apply IH.
Qed.

(** X5. Keys are unambiguous: two masks with the same key have the same
    backing words, so two different signatures never share a key. *)
Theorem toKey_determines_words (a b : ECS.ComponentMask) :
  ECS.mask_wf a -> ECS.mask_wf b ->
  ECS.toKey a = ECS.toKey b -> a = b.
Proof.
  intros [Ha _] [Hb _] E.
  assert (ECS.m_words a = ECS.m_words b) as Ew.
  { pose proof (f_equal String.length E) as El. rewrite !toKey_length in El.
    unfold ECS.toKey in E.
    destruct (ECS.m_words a) as [|wa wsa] eqn:Ea, (ECS.m_words b) as [|wb wsb] eqn:Eb;
      try done; try (simpl in El; lia).
    apply stream_words_inj in E.
    - apply (f_equal (@rev Z)) in E. by rewrite !rev_involutive in E.
    - apply Forall_rev. exact Ha.
    - apply Forall_rev. exact Hb. }
  destruct a, b. simpl in Ew. by subst.
Qed.

Lemma toKey_determines_words_witness :
  ECS.fromIds [1; 65] = ECS.fromIds [65; 1].
Proof.
  apply toKey_determines_words.
  - split; [|vm_compute; intros H; discriminate H].
    change (ECS.m_words (ECS.fromIds [1; 65])) with [2; 2]. repeat constructor; lia.
  - split; [|vm_compute; intros H; discriminate H].
    change (ECS.m_words (ECS.fromIds [65; 1])) with [2; 2]. repeat constructor; lia.
  - vm_compute. reflexivity.
Defined.

(** ** The registry is append-only *)

(** X6. Registration never disturbs what is registered: after
    [registerComponent] or [ensureId] of any name, a name that had an ID
    keeps it, an ID that had a name keeps it, and the count does not go down
    while it fits 32 bits. *)
Theorem registration_keeps_existing_ids
    (name known : string) (id : Z) (r : ECS.ComponentRegistry) :
  let r1 := snd (ECS.registerComponent name r) in
  let r2 := snd (ECS.ensureId name r) in
  r2 = r1
  /\ (ECS.m_nameToId r !! known = Some id ->
      ECS.getId known r1 = id /\ ECS.getId known r = id)
  /\ (0 <= id < Z.of_nat (length (ECS.m_idToName r)) ->
      ECS.getName id r1 = ECS.getName id r)
  /\ (Z.of_nat (length (ECS.m_idToName r)) < 2 ^ 32 - 1 ->
      ECS.count r <= ECS.count r1 <= ECS.count r + 1).
Proof.
  cbv zeta. unfold ECS.ensureId, ECS.registerComponent.
  destruct (ECS.m_nameToId r !! name) as [idn|] eqn:E; cbn [snd].
  - split; [done|]. split; [|split; [done | lia]].
    intros Hk. unfold ECS.getId. by rewrite Hk.
  - split; [done|]. split; [|split].
    + intros Hk. unfold ECS.getId, ECS.emplace. cbn [ECS.m_nameToId]. rewrite E, Hk.
      rewrite lookup_insert_ne; [by rewrite Hk | congruence].
    + intros Hid. unfold ECS.getName, at_. cbn [ECS.m_idToName].
      rewrite length_app. cbn [length].
      destruct (Z.ltb_spec id (Z.of_nat (length (ECS.m_idToName r) + 1))); [|lia].
      destruct (Z.ltb_spec id (Z.of_nat (length (ECS.m_idToName r)))); [|lia].
      apply app_nth1. lia.
    + intros Hlen. unfold ECS.count, wrap32, wrap. cbn [ECS.m_idToName].
      rewrite length_app. cbn [length]. rewrite !Z.mod_small by lia. lia.
Qed.

Lemma registration_keeps_existing_ids_witness :
  let r := Calls.register_all ["Position"; "Velocity"]%string ECS.empty_registry in
  ECS.getId "Velocity" (snd (ECS.registerComponent "Health" r)) = 1
  /\ ECS.getName 0 (snd (ECS.registerComponent "Health" r)) = "Position"%string.
Proof.
  cbv zeta.
  destruct (registration_keeps_existing_ids "Health" "Velocity" 1
              (Calls.register_all ["Position"; "Velocity"]%string ECS.empty_registry))
    as (_ & Hid & _).
  destruct (registration_keeps_existing_ids "Health" "Velocity" 0
              (Calls.register_all ["Position"; "Velocity"]%string ECS.empty_registry))
    as (_ & _ & Hname & _).
  split.
  - apply Hid. vm_compute. reflexivity.
  - rewrite Hname; [vm_compute; reflexivity | vm_compute; split; [discriminate | reflexivity]].
Defined.

(** ** Names and IDs are inverse *)

Lemma registry_inv_empty : Calls.registry_inv ECS.empty_registry.
Proof.
  split; [simpl; lia|]. intros name id. simpl. rewrite lookup_empty. split; [done|].
  intros [_ H]. by rewrite lookup_nil in H.
Qed.

Lemma registry_inv_register (name : string) (r : ECS.ComponentRegistry) :
  Calls.registry_inv r -> Z.of_nat (length (ECS.m_idToName r)) < 2 ^ 32 - 1 ->
  Calls.registry_inv (snd (ECS.registerComponent name r)).
Proof.
  intros [Hlen Hinv] Hroom. unfold ECS.registerComponent.
  destruct (ECS.m_nameToId r !! name) as [idn|] eqn:E; cbn [snd]; [by split|].
  unfold ECS.emplace. rewrite E.
  assert (wrap32 (Z.of_nat (length (ECS.m_idToName r)))
          = Z.of_nat (length (ECS.m_idToName r))) as ->
    by (unfold wrap32, wrap; apply Z.mod_small; lia).
  split; cbn [ECS.m_idToName ECS.m_nameToId].
  - rewrite length_app. simpl. lia.
  - intros n id. destruct (decide (n = name)) as [->|Hne].
    + rewrite lookup_insert_eq. split.
      * intros [= <-]. split; [lia|]. rewrite Nat2Z.id.
        rewrite lookup_app_r by lia. by rewrite Nat.sub_diag.
      * intros [Hid Hl]. f_equal.
        destruct (Nat.ltb_spec (Z.to_nat id) (length (ECS.m_idToName r))) as [Hlt|Hge].
        -- rewrite lookup_app_l in Hl by done.
           assert (ECS.m_nameToId r !! name = Some id) as C by (by apply Hinv).
           congruence.
        -- apply lookup_lt_Some in Hl. rewrite length_app in Hl. simpl in Hl. lia.
    + rewrite lookup_insert_ne by done. rewrite Hinv. split; intros [Hid Hl]; split; try done.
      * rewrite lookup_app_l; [done|]. by apply lookup_lt_Some in Hl.
      * destruct (Nat.ltb_spec (Z.to_nat id) (length (ECS.m_idToName r))) as [Hlt|Hge].
        -- by rewrite lookup_app_l in Hl.
        -- rewrite lookup_app_r in Hl by done.
           destruct (Z.to_nat id - length (ECS.m_idToName r))%nat; simpl in Hl;
             [congruence | by rewrite lookup_nil in Hl].
Qed.

Lemma register_all_length (names : list string) (r : ECS.ComponentRegistry) :
  (length (ECS.m_idToName (Calls.register_all names r))
   <= length (ECS.m_idToName r) + length names)%nat.
Proof.
  revert r. induction names as [|n names IH]; intros r; simpl; [lia|].
  specialize (IH (snd (ECS.registerComponent n r))).
  unfold Calls.register_all in *. simpl.
  assert (length (ECS.m_idToName (snd (ECS.registerComponent n r)))
          <= S (length (ECS.m_idToName r)))%nat; [|lia].
  unfold ECS.registerComponent. destruct (_ !! n); simpl; [lia|].
  rewrite length_app. simpl. lia.
Qed.

Lemma registry_inv_register_all (names : list string) (r : ECS.ComponentRegistry) :
  Calls.registry_inv r ->
  Z.of_nat (length (ECS.m_idToName r) + length names) < 2 ^ 32 ->
  Calls.registry_inv (Calls.register_all names r).
Proof.
  revert r. induction names as [|n names IH]; intros r Hinv Hlen; [done|].
  unfold Calls.register_all. cbn [fold_left]. apply IH.
  - apply registry_inv_register; [done|]. simpl in Hlen. lia.
  - pose proof (register_all_length [n] r) as Hl. unfold Calls.register_all in Hl.
    simpl in Hl. simpl in Hlen. lia.
Qed.

(** X7. In a registry built from the empty one by registering fewer than
    [2^32] names, names and IDs are inverse: [getName] of the ID of a
    registered name is that name, [getId] of the name of an assigned ID is
    that ID, every assigned ID is below the count, and a miss yields the
    sentinel on one side and the empty string on the other. *)
Theorem registry_names_and_ids_are_inverse
    (names : list string) (name : string) (id : Z) :
  Z.of_nat (length names) < 2 ^ 32 ->
  let r := Calls.register_all names ECS.empty_registry in
  (In name names ->
     0 <= ECS.getId name r < ECS.count r
     /\ ECS.getName (ECS.getId name r) r = name)
  /\ (~ In name names -> ECS.getId name r = ECS.InvalidID)
  /\ (0 <= id < ECS.count r ->
       In (ECS.getName id r) names /\ ECS.getId (ECS.getName id r) r = id)
  /\ (ECS.count r <= id -> ECS.getName id r = EmptyString).
Proof.
  intros Hlen r.
  assert (Calls.registry_inv r) as [Hfit Hinv]
    by (apply registry_inv_register_all; [apply registry_inv_empty | simpl; lia]).
  assert (ECS.count r = Z.of_nat (length (ECS.m_idToName r))) as Hcount
    by (unfold ECS.count, wrap32, wrap; apply Z.mod_small; lia).
  assert (forall n, is_Some (ECS.m_nameToId r !! n) <-> In n names) as Hreg.
  { intros n. unfold r. clear.
    assert (forall r0, is_Some (ECS.m_nameToId (Calls.register_all names r0) !! n)
                       <-> is_Some (ECS.m_nameToId r0 !! n) \/ In n names) as H.
    { induction names as [|a names IH]; intros r0.
      - simpl. tauto.
      - unfold Calls.register_all. cbn [fold_left].
        fold (Calls.register_all names (snd (ECS.registerComponent a r0))).
        rewrite IH. unfold ECS.registerComponent, ECS.emplace.
        destruct (ECS.m_nameToId r0 !! a) as [ida|] eqn:Ea; cbn [snd].
        + simpl. split; [tauto|]. intros [?|[<-|?]]; [tauto | left; by rewrite Ea | tauto].
        + cbn [ECS.m_nameToId]. destruct (decide (a = n)) as [->|Hne].
          * rewrite lookup_insert_eq. simpl. split; [tauto|]. intros _. left. by eexists.
          * rewrite lookup_insert_ne by done. simpl. tauto. }
    rewrite H. simpl. rewrite lookup_empty. split; [|tauto].
    intros [[? ?]|?]; done. }
  split; [|split; [|split]].
  - intros Hin. apply Hreg in Hin as [idn Hn]. unfold ECS.getId. rewrite Hn.
    apply Hinv in Hn as [Hpos Hl]. pose proof (lookup_lt_Some _ _ _ Hl) as Hlt.
    split; [lia|]. unfold ECS.getName, at_.
    destruct (Z.ltb_spec idn (Z.of_nat (length (ECS.m_idToName r)))); [|lia].
    by apply nth_lookup_Some.
  - intros Hnot. unfold ECS.getId.
    destruct (ECS.m_nameToId r !! name) eqn:E; [|done].
    exfalso. apply Hnot, Hreg. by eexists.
  - intros Hid. rewrite Hcount in Hid. unfold ECS.getName, at_.
    destruct (Z.ltb_spec id (Z.of_nat (length (ECS.m_idToName r)))); [|lia].
    destruct (lookup_lt_is_Some_2 (ECS.m_idToName r) (Z.to_nat id) ltac:(lia)) as [n Hn].
    rewrite (nth_lookup_Some _ _ _ _ Hn).
    assert (ECS.m_nameToId r !! n = Some id) as Hm by (apply Hinv; split; [lia | done]).
    split; [apply Hreg; by eexists|]. unfold ECS.getId. by rewrite Hm.
  - intros Hid. rewrite Hcount in Hid. unfold ECS.getName.
    destruct (Z.ltb_spec id (Z.of_nat (length (ECS.m_idToName r)))); [lia | done].
Qed.

Lemma registry_names_and_ids_are_inverse_witness :
  let r := Calls.register_all ["Position"; "Velocity"; "Position"]%string
             ECS.empty_registry in
  ECS.getName (ECS.getId "Velocity" r) r = "Velocity"%string
  /\ ECS.getId "Health" r = ECS.InvalidID.
Proof.
  cbv zeta.
  destruct (registry_names_and_ids_are_inverse
              ["Position"; "Velocity"; "Position"]%string "Velocity" 0)
    as (Hin & _); [simpl; lia|].
  destruct (registry_names_and_ids_are_inverse
              ["Position"; "Velocity"; "Position"]%string "Health" 0)
    as (_ & Hmiss & _); [simpl; lia|].
  split.
  - apply Hin. simpl. tauto.
  - apply Hmiss. simpl. intros [H|[H|[H|[]]]]; discriminate H.
Defined.

(* ===================================================================== *)
(** * Further properties of the loader *)
(* ===================================================================== *)

Section LoaderGuarantees.
Import SModel Spec Format.

(** ** Loops *)

Lemma and_then_pass (c k : Check) : and_then c k = Pass <-> c = Pass /\ k = Pass.
Proof. destruct c; simpl; split; try done; intros [? ?]; done. Qed.

Lemma for_loop_pass (body : Z -> Check) (steps : nat) (i : Z) :
  for_loop body i steps = Pass <->
  (forall j, i <= j < i + Z.of_nat steps -> body j = Pass).
Proof.
  revert i. induction steps as [|s IH]; intros i; cbn [for_loop].
  - split; [intros _ j Hj; lia | done].
  - rewrite and_then_pass, IH. split.
    + intros [H0 H] j Hj. destruct (decide (j = i)) as [->|]; [done | apply H; lia].
    + intros H. split; [apply H; lia | intros j Hj; apply H; lia].
Qed.

Lemma for_each_pass (count : Z) (body : Z -> Check) :
  for_each count body = Pass <-> (forall j, 0 <= j < count -> body j = Pass).
Proof.
  unfold for_each. rewrite for_loop_pass. split; intros H j Hj; apply H; lia.
Qed.

(** ** The range helpers *)

Lemma tableRangeValid_exact (sizeof_T tableOffset count fileSize : Z) :
  0 <= tableOffset -> fileSize < 2 ^ 63 -> 0 <= count < 2 ^ 32 ->
  0 <= sizeof_T <= 2 ^ 16 ->
  tableRangeValid sizeof_T tableOffset count fileSize = None <->
  tableOffset + count * sizeof_T <= fileSize.
Proof.
  intros Hb Hf Hc Hz. unfold tableRangeValid.
  assert (0 <= count * sizeof_T < 2 ^ 64) as Hbytes by nia.
  assert (wrap64 (count * sizeof_T) = count * sizeof_T) as ->
    by (unfold wrap64, wrap; apply Z.mod_small; lia).
  rewrite <- (isRangeInsideFile_exact tableOffset (count * sizeof_T) fileSize) by lia.
  destruct (isRangeInsideFile tableOffset (count * sizeof_T) fileSize); simpl; split; done.
Qed.

(** X8. The two range helpers are exact wherever the loader calls them: for
    a file size below [2^63] (a stream size), [isRangeInsideFile] accepts
    exactly the ranges that end within the file, and [tableRangeValid]
    accepts exactly the tables of [count] records of [sizeof_T] bytes that
    do, [count] being a 32-bit count. *)
Theorem range_helpers_are_exact (begin size sizeof_T count fileSize : Z) :
  0 <= begin -> 0 <= size -> fileSize < 2 ^ 63 ->
  0 <= count < 2 ^ 32 -> 0 <= sizeof_T <= 2 ^ 16 ->
  (isRangeInsideFile begin size fileSize = true <-> begin + size <= fileSize)
  /\ (tableRangeValid sizeof_T begin count fileSize = None <->
      begin + count * sizeof_T <= fileSize).
Proof.
  intros Hb Hs Hf Hc Hz. split; [by apply isRangeInsideFile_exact|].
  by apply tableRangeValid_exact.
Qed.

Lemma range_helpers_are_exact_witness :
  isRangeInsideFile 385 156 541 = true
  /\ tableRangeValid 88 500 1 541 <> None.
Proof.
  destruct (range_helpers_are_exact 385 156 88 1 541) as [H1 _]; try lia.
  destruct (range_helpers_are_exact 500 0 88 1 541) as [_ H2]; try lia.
  split; [apply H1; lia|]. intros E. apply H2 in E. lia.
Defined.

(** ** What a successful load establishes *)

Lemma load_true_inv (L : Layout) (path : string) (file : IfStream)
    (outView : SModelFileView) (outError : string)
    (v : SModelFileView) (e : string) :
  LoadSModelFile L path file outView outError = Returned true v e ->
  let mem := contents file in
  let h := header_at_0 mem in
  is_open file = true /\ 0 < tellg file /\ read_ok file = true
  /\ sizeof_SModelHeader L <= tellg file
  /\ isHeaderCompatible h = true
  /\ (fileSizeBytes h = 0 \/ fileSizeBytes h = tellg file)
  /\ validate_ranges L mem (tellg file) = None
  /\ validate_records L mem (tellg file) = Pass
  /\ e = EmptyString
  /\ v = with_tables
           (with_header
              (with_fileBytes empty_view
                 {| vec_size := tellg file; vec_data := mem |}) (Some 0)) h.
Proof.
  unfold LoadSModelFile.
  destruct (is_open file); cbn [negb]; [|done].
  destruct (Z.leb_spec (tellg file) 0); [done|].
  destruct (read_ok file); cbn [negb]; [|done].
  cbn [vec_size vec_data fileBytes with_fileBytes with_header].
  destruct (Z.ltb_spec (tellg file) (sizeof_SModelHeader L)); [done|].
  destruct (isHeaderCompatible (header_at_0 (contents file))); cbn [negb]; [|done].
  destruct (Z.eqb_spec (fileSizeBytes (header_at_0 (contents file))) 0) as [E0|E0];
    destruct (Z.eqb_spec (fileSizeBytes (header_at_0 (contents file))) (tellg file))
      as [E1|E1]; cbn [negb andb]; try done;
    (destruct (validate_ranges L (contents file) (tellg file)); [done|];
     destruct (validate_records L (contents file) (tellg file)); try done;
     intros [= <- <-]; cbv zeta; repeat split; try done; try lia; tauto).
Qed.

(** X9. On success the error text is empty and the view exposes the file:
    it owns all the bytes, the header pointer is at byte 0, every table
    pointer is at the offset the header declares (the node and
    node-primitive-index pointers staying null when their count is zero),
    and the counting helpers report the counts of the header; the file
    opened, was read, is at least as long as a header, and its header passed
    the compatibility and declared-size gates. *)
Theorem successful_load_exposes_the_file
    (L : Layout) (path : string) (file : IfStream)
    (outView : SModelFileView) (outError : string)
    (v : SModelFileView) (e : string) :
  LoadSModelFile L path file outView outError = Returned true v e ->
  let h := header_at_0 (contents file) in
  e = EmptyString
  /\ vec_size (fileBytes v) = tellg file /\ vec_data (fileBytes v) = contents file
  /\ header v = Some 0
  /\ meshes v = Some (meshesOffset h) /\ primitives v = Some (primitivesOffset h)
  /\ materials v = Some (materialsOffset h) /\ textures v = Some (texturesOffset h)
  /\ stringTable v = Some (stringTableOffset h) /\ blob v = Some (blobOffset h)
  /\ nodes v = (if nodeCount h >? 0 then Some (nodesOffset h) else None)
  /\ nodePrimitiveIndices v
     = (if nodePrimitiveIndexCount h >? 0
        then Some (nodePrimitiveIndicesOffset h) else None)
  /\ View.meshCount v = meshCount h /\ View.primitiveCount v = primitiveCount h
  /\ View.materialCount v = materialCount h /\ View.textureCount v = textureCount h
  /\ is_open file = true /\ read_ok file = true
  /\ sizeof_SModelHeader L <= tellg file
  /\ magic h = SMODEL_MAGIC /\ versionMajor h = SMODEL_VERSION_MAJOR
  /\ SMODEL_VERSION_MINOR <= versionMinor h
  /\ (fileSizeBytes h = 0 \/ fileSizeBytes h = tellg file).
Proof.
  intros H. apply load_true_inv in H.
  cbv zeta in H. destruct H as (Ho & Hp & Hr & Hs & Hc & Hf & _ & _ & -> & ->).
  apply isHeaderCompatible_iff in Hc as (Hm & HM & Hn).
  cbv zeta. repeat split; try done.
Qed.

Lemma successful_load_exposes_the_file_witness :
  exists v,
    LoadSModelFile Examples.layout64 "tri.smodel" Triangle.file empty_view EmptyString
    = Returned true v EmptyString
    /\ View.meshCount v = 1 /\ nodes v = Some 292.
Proof.
  eexists. split; [vm_compute; reflexivity|].
  assert (LoadSModelFile Examples.layout64 "tri.smodel" Triangle.file
            empty_view EmptyString
          = Returned true
              (with_tables
                 (with_header
                    (with_fileBytes empty_view
                       {| vec_size := 541; vec_data := Triangle.memory |}) (Some 0))
                 Triangle.header) EmptyString) as H by (vm_compute; reflexivity).
  pose proof (successful_load_exposes_the_file _ _ _ _ _ _ _ H) as Hall.
  cbv zeta in Hall.
  destruct Hall as (_ & _ & _ & _ & _ & _ & _ & _ & _ & _ & Hn & _ & Hm & _).
  split; [exact Hm | exact Hn].
Defined.

Lemma tableRangeValid_none
    (sizeof_T tableOffset count fileSize : Z) :
  0 <= tableOffset -> fileSize < 2 ^ 63 -> 0 <= count < 2 ^ 32 ->
  0 <= sizeof_T <= 2 ^ 16 ->
  tableRangeValid sizeof_T tableOffset count fileSize = None ->
  tableOffset + count * sizeof_T <= fileSize.
Proof. intros Ho Hf Hc Hs H. by apply tableRangeValid_exact. Qed.

(** X10. Every section and table of an accepted file lies within the file,
    in exact arithmetic: the string table, the blob, the four record tables
    and, when their count is not zero, the node table and the
    node-primitive-index table.  (The node-child-index table is not among
    them: the loader never looks at its offset or count.) *)
Theorem accepted_tables_lie_within_file
    (L : Layout) (path : string) (file : IfStream)
    (outView : SModelFileView) (outError : string)
    (v : SModelFileView) (e : string) :
  LoadSModelFile L path file outView outError = Returned true v e ->
  let h := header_at_0 (contents file) in
  header_typed h -> layout_typed L -> tellg file < 2 ^ 63 ->
  stringTableOffset h + stringTableSize h <= tellg file
  /\ blobOffset h + blobSize h <= tellg file
  /\ meshesOffset h + meshCount h * sizeof_SModelMeshRecord L <= tellg file
  /\ primitivesOffset h + primitiveCount h * sizeof_SModelPrimitiveRecord L <= tellg file
  /\ materialsOffset h + materialCount h * sizeof_SModelMaterialRecord L <= tellg file
  /\ texturesOffset h + textureCount h * sizeof_SModelTextureRecord L <= tellg file
  /\ (0 < nodeCount h ->
      nodesOffset h + nodeCount h * sizeof_SModelNodeRecord <= tellg file)
  /\ (0 < nodePrimitiveIndexCount h ->
      nodePrimitiveIndicesOffset h + nodePrimitiveIndexCount h * sizeof_uint32_t
      <= tellg file).
Proof.
  intros H h Ht HL Hfs. apply load_true_inv in H. cbv zeta in H.
  destruct H as (_ & _ & _ & _ & _ & _ & Hr & _). fold h in Hr.
  destruct Ht as (T1 & T2 & T3 & T4 & T5 & T6 & T7 & O1 & O2 & O3 & O4 & O5 & O6
                  & S1 & S2 & B1 & B2).
  destruct HL as (L0 & L1 & L2 & L3 & L4).
  unfold fits in *. unfold validate_ranges in Hr. fold h in Hr.
  destruct (isRangeInsideFile (stringTableOffset h) _ _) eqn:R1; cbn [negb] in Hr; [|done].
  destruct (isRangeInsideFile (blobOffset h) _ _) eqn:R2; cbn [negb] in Hr; [|done].
  destruct (tableRangeValid (sizeof_SModelMeshRecord L) _ _ _) eqn:R3; [done|].
  destruct (tableRangeValid (sizeof_SModelPrimitiveRecord L) _ _ _) eqn:R4; [done|].
  destruct (tableRangeValid (sizeof_SModelMaterialRecord L) _ _ _) eqn:R5; [done|].
  destruct (tableRangeValid (sizeof_SModelTextureRecord L) _ _ _) eqn:R6; [done|].
  apply isRangeInsideFile_exact in R1; [|lia..].
  apply isRangeInsideFile_exact in R2; [|lia..].
  apply tableRangeValid_none in R3; [|lia..].
  apply tableRangeValid_none in R4; [|lia..].
  apply tableRangeValid_none in R5; [|lia..].
  apply tableRangeValid_none in R6; [|lia..].
  repeat (split; [done|]). split.
  - intros Hpos. destruct (Z.gtb_spec (nodeCount h) 0); [|lia].
    destruct (tableRangeValid sizeof_SModelNodeRecord _ _ _) eqn:R7; [done|].
    apply tableRangeValid_none in R7; [done | lia | lia | lia |].
    unfold sizeof_SModelNodeRecord. lia.
  - intros Hpos. destruct (if nodeCount h >? 0 then _ else _); [done|].
    destruct (Z.gtb_spec (nodePrimitiveIndexCount h) 0); [|lia].
    cbn [andb] in Hr.
    destruct (isRangeInsideFile (nodePrimitiveIndicesOffset h) _ _) eqn:R8;
      cbn [negb] in Hr; [|done].
    unfold sizeof_uint32_t in *.
    assert (wrap64 (nodePrimitiveIndexCount h * 4) = nodePrimitiveIndexCount h * 4)
      as Hw by (unfold wrap64, wrap; apply Z.mod_small; lia).
    rewrite Hw in R8. apply isRangeInsideFile_exact in R8; lia.
Qed.

Lemma triangle_header_typed : header_typed Triangle.header.
Proof. unfold header_typed, fits. simpl. unfold SMODEL_MAGIC. repeat split; lia. Qed.

Lemma layout64_typed : layout_typed Examples.layout64.
Proof. unfold layout_typed. simpl. lia. Qed.

Lemma triangle_load :
  LoadSModelFile Examples.layout64 "tri.smodel" Triangle.file empty_view EmptyString
  = Returned true
      (with_tables
         (with_header
            (with_fileBytes empty_view
               {| vec_size := 541; vec_data := Triangle.memory |}) (Some 0))
         Triangle.header) EmptyString.
Proof. vm_compute. reflexivity. Qed.

Lemma accepted_tables_lie_within_file_witness :
  blobOffset Triangle.header + blobSize Triangle.header <= 541
  /\ nodesOffset Triangle.header + 1 * sizeof_SModelNodeRecord <= 541.
Proof.
  pose proof (accepted_tables_lie_within_file _ _ _ _ _ _ _ triangle_load
                triangle_header_typed layout64_typed) as H.
  destruct H as (_ & Hb & _ & _ & _ & _ & Hn & _); [simpl; lia|].
  split; [exact Hb|]. apply Hn. simpl. lia.
Defined.

(** ** Records of an accepted file *)

(** X11. The records of an accepted file are consistent with its header.
    Every mesh has a non-zero vertex count and stride and a vertex slice of
    exactly count times stride bytes; every primitive names a mesh and a
    material of the file; each of the five texture indices of every material
    is negative (none) or names a texture of the file; every node's parent
    index is the root sentinel or a node index. *)
Theorem accepted_records_are_consistent
    (L : Layout) (path : string) (file : IfStream)
    (outView : SModelFileView) (outError : string)
    (v : SModelFileView) (e : string) (i : Z) :
  LoadSModelFile L path file outView outError = Returned true v e ->
  let mem := contents file in
  let h := header_at_0 mem in
  (0 <= i < meshCount h ->
     let m := mesh_at mem (meshesOffset h + i * sizeof_SModelMeshRecord L) in
     vertexCount m <> 0 /\ vertexStride m <> 0
     /\ vertexDataSize m = wrap64 (vertexCount m * vertexStride m))
  /\ (0 <= i < primitiveCount h ->
        let p := primitive_at mem (primitivesOffset h + i * sizeof_SModelPrimitiveRecord L) in
        meshIndex p < meshCount h /\ materialIndex p < materialCount h)
  /\ (0 <= i < materialCount h ->
        let mat := material_at mem (materialsOffset h + i * sizeof_SModelMaterialRecord L) in
        Forall (fun t => t < 0 \/ t < textureCount h)
          [baseColorTexture mat; normalTexture mat; metallicRoughnessTexture mat;
           occlusionTexture mat; emissiveTexture mat])
  /\ (0 <= i < nodeCount h ->
        let nr := node_record mem i in
        NodeRecord.parentIndex nr = UINT32_MAX
        \/ NodeRecord.parentIndex nr < nodeCount h).
Proof.
  intros H mem h. apply load_true_inv in H. cbv zeta in H.
  destruct H as (_ & _ & _ & _ & _ & _ & _ & Hrec & _). fold mem h in Hrec.
  unfold validate_records in Hrec. fold mem h in Hrec.
  rewrite !and_then_pass in Hrec.
  destruct Hrec as (Hmesh & _ & Hprim & Hmat & Hnode).
  rewrite for_each_pass in Hmesh, Hprim, Hmat.
  split; [|split; [|split]].
  - intros Hi. specialize (Hmesh i Hi). unfold check_mesh in Hmesh. fold mem h in Hmesh.
    cbv zeta in *.
    set (m := mesh_at mem _) in *.
    destruct (slice_exceeds L (vertexDataOffset m) _ _); [done|].
    destruct (slice_exceeds L (indexDataOffset m) _ _); [done|].
    destruct (Z.eqb_spec (vertexCount m) 0); [done|].
    destruct (Z.eqb_spec (vertexStride m) 0); [done|]. cbn [orb] in Hmesh.
    destruct (Z.eqb_spec (vertexDataSize m) (wrap64 (vertexCount m * vertexStride m)));
      done.
  - intros Hi. specialize (Hprim i Hi). unfold check_primitive in Hprim.
    fold mem h in Hprim. cbv zeta in *. set (p := primitive_at mem _) in *.
    destruct (Z.geb_spec (meshIndex p) (meshCount h)); [done|].
    destruct (Z.geb_spec (materialIndex p) (materialCount h)); [done|]. lia.
  - intros Hi. specialize (Hmat i Hi). unfold check_material in Hmat.
    fold mem h in Hmat. cbv zeta in *. set (mat := material_at mem _) in *.
    rewrite !and_then_pass in Hmat.
    assert (forall t f, checkTex mem i t f = Pass -> t < 0 \/ t < textureCount h) as Ht.
    { intros t f. unfold checkTex. fold h.
      destruct (Z.ltb_spec t 0); [by left|].
      destruct (Z.geb_spec t (textureCount h)); [done | by right]. }
    destruct Hmat as (H1 & H2 & H3 & H4 & H5).
    do 5 (apply List.Forall_cons; [eauto|]). apply List.Forall_nil.
  - intros Hi. destruct (Z.gtb_spec (nodeCount h) 0); [|lia].
    rewrite for_each_pass in Hnode. specialize (Hnode i Hi).
    unfold check_node in Hnode. fold mem h in Hnode. cbv zeta in *.
    unfold node_record. fold h.
    set (nr := node_at mem _) in *.
    destruct (Z.eqb_spec (NodeRecord.parentIndex nr) UINT32_MAX); [by left|].
    destruct (Z.geb_spec (NodeRecord.parentIndex nr) (nodeCount h)); [done | by right].
Qed.

Lemma accepted_records_are_consistent_witness :
  vertexDataSize Triangle.mesh
  = wrap64 (vertexCount Triangle.mesh * vertexStride Triangle.mesh)
  /\ materialIndex Triangle.primitive < 1.
Proof.
  pose proof (accepted_records_are_consistent _ _ _ _ _ _ _ 0 triangle_load) as H.
  cbv zeta in H. destruct H as (Hm & Hp & _).
  split.
  - apply Hm. simpl. lia.
  - apply Hp. simpl. lia.
Defined.

(** ** Reads stay in the buffer *)

Lemma for_loop_out_of_bounds (body : Z -> Check) (steps : nat) (i : Z) :
  for_loop body i steps = OutOfBounds ->
  exists j, i <= j < i + Z.of_nat steps /\ body j = OutOfBounds.
Proof.
  revert i. induction steps as [|s IH]; intros i; cbn [for_loop]; [done|].
  destruct (body i) eqn:E; cbn [and_then]; try done.
  - intros H. apply IH in H as (j & Hj & Hb). exists j. split; [lia | done].
  - intros _. exists i. split; [lia | done].
Qed.

Lemma and_then_out_of_bounds (c k : Check) :
  and_then c k = OutOfBounds -> c = OutOfBounds \/ k = OutOfBounds.
Proof. destruct c; simpl; intros H; [by right | done | by left]. Qed.

(** X12. The loader's reads of the node-primitive-index table stay in the
    file buffer unless a node's primitive range wraps: on a header with typed
    fields and a file size below [2^63], if the primitive range of every node
    ends below [2^32], no index word is read through a null table pointer or
    past the end of the buffer, and the load returns (true or false). *)
Theorem load_stays_in_buffer_without_wrap
    (L : Layout) (path : string) (file : IfStream)
    (outView : SModelFileView) (outError : string) :
  header_typed (header_at_0 (contents file)) -> tellg file < 2 ^ 63 ->
  primitive_ranges_fit (contents file) ->
  exists ok v e, LoadSModelFile L path file outView outError = Returned ok v e.
Proof.
  intros Ht Hfs Hfit. unfold LoadSModelFile.
  destruct (is_open file); cbn [negb]; [|eauto].
  destruct (tellg file <=? 0); [eauto|].
  destruct (read_ok file); cbn [negb]; [|eauto].
  cbn [vec_size vec_data fileBytes with_fileBytes with_header].
  destruct (tellg file <? sizeof_SModelHeader L); [eauto|].
  destruct (isHeaderCompatible _); cbn [negb]; [|eauto].
  destruct (negb _ && negb _); [eauto|].
  set (mem := contents file) in *. set (h := header_at_0 mem) in *.
  destruct (validate_ranges L mem (tellg file)) eqn:Hr; [eauto|].
  destruct (validate_records L mem (tellg file)) eqn:Hrec; [eauto | eauto |].
  exfalso.
  unfold validate_records in Hrec. fold h in Hrec.
  assert (forall n f, for_each n f = OutOfBounds ->
            exists j, 0 <= j /\ f j = OutOfBounds) as Hloop.
  { intros n f Hf. apply for_loop_out_of_bounds in Hf as (j & Hj & Hb).
    exists j. split; [lia | done]. }
  apply and_then_out_of_bounds in Hrec as [Hrec|Hrec].
  { apply Hloop in Hrec as (j & _ & Hb). unfold check_mesh in Hb.
    repeat case_match; done. }
  apply and_then_out_of_bounds in Hrec as [Hrec|Hrec].
  { apply Hloop in Hrec as (j & _ & Hb). unfold check_texture in Hb.
    repeat case_match; done. }
  apply and_then_out_of_bounds in Hrec as [Hrec|Hrec].
  { apply Hloop in Hrec as (j & _ & Hb). unfold check_primitive in Hb.
    repeat case_match; done. }
  apply and_then_out_of_bounds in Hrec as [Hrec|Hrec].
  { apply Hloop in Hrec as (j & _ & Hb). unfold check_material in Hb.
    repeat (apply and_then_out_of_bounds in Hb as [Hb|Hb]);
      unfold checkTex in Hb; repeat case_match; done. }
  destruct (Z.gtb_spec (nodeCount h) 0) as [Hnc|]; [|done].
  apply for_loop_out_of_bounds in Hrec as (ni & Hni & Hb).
  destruct Ht as (_ & _ & _ & _ & T5 & T6 & _ & _ & _ & _ & _ & _ & O6 & _).
  unfold fits in T5, T6, O6. fold h in T5, T6, O6.
  destruct (Hfit ni ltac:(fold h; lia)) as (Hf0 & Hc0 & Hsum).
  unfold node_record in Hf0, Hc0, Hsum. fold h in Hf0, Hc0, Hsum.
  unfold check_node in Hb. fold h in Hb.
  set (nr := node_at mem _) in *.
  destruct (negb _ && _); [done|].
  apply and_then_out_of_bounds in Hb as [Hb|Hb]; [repeat case_match; done|].
  destruct (Z.gtb_spec (NodeRecord.primitiveCount nr) 0) as [Hpc|]; [|done].
  assert (wrap32 (NodeRecord.firstPrimitiveIndex nr + NodeRecord.primitiveCount nr)
          = NodeRecord.firstPrimitiveIndex nr + NodeRecord.primitiveCount nr) as Hw
    by (unfold wrap32, wrap; apply Z.mod_small; lia).
  rewrite Hw in Hb.
  destruct (Z.gtb_spec (NodeRecord.firstPrimitiveIndex nr + NodeRecord.primitiveCount nr)
              (nodePrimitiveIndexCount h)) as [|Hin]; [done|].
  apply for_loop_out_of_bounds in Hb as (k & Hk & Hb).
  unfold check_node_primitive, read_nodePrimitiveIndex in Hb. fold h in Hb.
  assert (wrap32 (NodeRecord.firstPrimitiveIndex nr + k)
          = NodeRecord.firstPrimitiveIndex nr + k) as Hwk
    by (unfold wrap32, wrap; apply Z.mod_small; lia).
  rewrite Hwk in Hb.
  destruct (Z.gtb_spec (nodePrimitiveIndexCount h) 0) as [_|]; [|lia].
(* the table range was validated *)
unfold validate_ranges in Hr. fold h in Hr.
repeat (match type of Hr with
        | (if ?c then _ else _) = None => destruct c eqn:?; [done|]
        | match ?c with Some _ => _ | None => _ end = None => destruct c eqn:?; [done|]
        end).
match goal with
| E : (nodePrimitiveIndexCount h >? 0) && negb ?r = false |- _ =>
    destruct (Z.gtb_spec (nodePrimitiveIndexCount h) 0); [|lia];
    cbn [andb] in E; apply negb_false_iff in E
end.
unfold sizeof_uint32_t in *.
assert (wrap64 (nodePrimitiveIndexCount h * 4) = nodePrimitiveIndexCount h * 4) as Hw4
  by (unfold wrap64, wrap; apply Z.mod_small; lia).
match goal with
| E : isRangeInsideFile (nodePrimitiveIndicesOffset h) _ _ = true |- _ =>
    rewrite Hw4 in E; apply isRangeInsideFile_exact in E; [|lia..]
end.
destruct (Z.leb_spec (nodePrimitiveIndicesOffset h
                      + (NodeRecord.firstPrimitiveIndex nr + k) * 4 + 4)
            (tellg file)) as [_|Hout]; [|lia].
repeat case_match; done.
Qed.

Lemma triangle_ranges_fit : primitive_ranges_fit Triangle.memory.
Proof.
  intros ni Hni. change (nodeCount (header_at_0 Triangle.memory)) with 1 in Hni.
  assert (ni = 0) as -> by lia. vm_compute. repeat split; discriminate.
Qed.

Lemma load_stays_in_buffer_without_wrap_witness :
  exists ok v e,
    LoadSModelFile Examples.layout64 "tri.smodel" Triangle.file empty_view EmptyString
    = Returned ok v e.
Proof.
  apply load_stays_in_buffer_without_wrap.
  - apply triangle_header_typed.
  - simpl. lia.
  - apply triangle_ranges_fit.
Defined.

End LoaderGuarantees.

(* ===================================================================== *)
(** * Further properties of the verifier's node-graph block *)
(* ===================================================================== *)

(** X13. On every node table with 32-bit fields, validated or not, the
    traversal marks exactly the nodes reachable from a root through child
    ranges that pass the guards of the recursive function.  The expected
    global of a marked node is either identity times its local matrix, and
    then the node is a root, or the global of a marked node that lists it,
    times its local matrix.  A marked node that is not a root gets the
    second; a marked node that no node lists is a root and gets the first; a
    root that another node lists may get either, as the call that reaches it
    first decides.  The expected global of an unmarked node stays the
    identity. *)
Theorem traversal_marks_exactly_reachable
    {M : Mat4} (model : Verify.ModelAsset) :
  Verify.model_wf model ->
  exists st,
    Verify.resolve_globals model = Some st
    /\ (forall i, 0 <= i ->
          Verify.is_visited st i = true <-> Verify.reachable model i)
    /\ (forall i, Verify.reachable model i ->
          (Verify.is_root model i
           /\ Verify.global_of st i
              = mat_mul mat_identity (Verify.localMatrix (Verify.node model i)))
          \/ Verify.from_lister model st i)
    /\ (forall i, Verify.reachable model i -> ~ Verify.is_root model i ->
          Verify.from_lister model st i)
    /\ (forall i, Verify.reachable model i ->
          (forall p, ~ Verify.child_of model p i) ->
          Verify.is_root model i
          /\ Verify.global_of st i
             = mat_mul mat_identity (Verify.localMatrix (Verify.node model i)))
    /\ (forall i, 0 <= i -> ~ Verify.reachable model i ->
          Verify.global_of st i = mat_identity).
Proof.
  intros Hwf. destruct (resolve_globals_total model) as (st & Hres & W).
  exists st. split; [exact Hres|].
  pose proof (resolve_globals_invariant model Hwf st Hres) as Hinv.
  pose proof Hinv as (_ & Hreach & _ & Hglob & Hid & _).
  assert (forall i, Verify.reachable model i ->
            (Verify.is_root model i
             /\ Verify.global_of st i
                = mat_mul mat_identity (Verify.localMatrix (Verify.node model i)))
            \/ Verify.from_lister model st i) as Hcase.
  { intros i Hr. apply Hglob;
      [by apply (reachable_nonneg model) | by apply (reachable_visited model st)]. }
  split; [|split; [exact Hcase|split; [|split]]].
  - intros i Hi. split; [by apply Hreach | by apply (reachable_visited model st)].
  - intros i Hr Hnr. destruct (Hcase i Hr) as [[Hroot _]|Hl]; [done|exact Hl].
  - intros i Hr Hnone. destruct (Hcase i Hr) as [Hroot|(p & Hc & _)]; [exact Hroot|].
    exfalso. exact (Hnone p Hc).
  - intros i Hi Hnot. apply Hid; [done|].
    destruct (Verify.is_visited st i) eqn:V; [|done]. exfalso. by apply Hnot, Hreach.
Qed.

(** On the table where the root 0 lists node 1 and node 1 names no parent,
    node 1 is marked, and its expected global is the global of node 0 times
    its local matrix, not identity times its local matrix. *)
Lemma traversal_marks_exactly_reachable_witness :
  exists st,
    Verify.resolve_globals Examples.adopted_root_model = Some st
    /\ Verify.is_visited st 0 = true /\ Verify.is_visited st 1 = true
    /\ Verify.global_of st 0 = ZMat.mul (ZMat.diag 1) Examples.local_R
    /\ Verify.global_of st 1
       = ZMat.mul (ZMat.mul (ZMat.diag 1) Examples.local_R) Examples.local_C2
    /\ Verify.global_of st 1 <> ZMat.mul (ZMat.diag 1) Examples.local_C2.
Proof.
  destruct (traversal_marks_exactly_reachable (M := ZMat.ops)
              Examples.adopted_root_model)
    as (st & Hres & Hvis & _).
  - split; [|split].
    + repeat constructor; unfold Verify.is_u32; simpl; unfold UINT32_MAX; lia.
    + repeat constructor; unfold Verify.is_u32; simpl; lia.
    + constructor.
  - assert (Verify.is_root Examples.adopted_root_model 0) as R0
      by (split; [vm_compute; split; [discriminate | reflexivity] | reflexivity]).
    assert (Verify.is_root Examples.adopted_root_model 1) as R1
      by (split; [vm_compute; split; [discriminate | reflexivity] | reflexivity]).
    exists st. split; [exact Hres|].
    split; [apply Hvis; [lia | by apply Verify.reachable_root]|].
    split; [apply Hvis; [lia | by apply Verify.reachable_root]|].
    assert (Some st
            = Some (Verify.mark (M := ZMat.ops) 1
                      (ZMat.mul (ZMat.mul (ZMat.diag 1) Examples.local_R)
                                Examples.local_C2)
                      (Verify.mark (M := ZMat.ops) 0
                         (ZMat.mul (ZMat.diag 1) Examples.local_R)
                         (Verify.initial_state (M := ZMat.ops) Examples.adopted_root_model))))
      as E by (rewrite <- Hres; vm_compute; reflexivity).
    injection E as ->.
    split; [vm_compute; reflexivity|]. split; [vm_compute; reflexivity|].
    vm_compute. discriminate.
Defined.

(** ** The verdict *)

Lemma compare_globals_spec {M : Mat4} (model : Verify.ModelAsset)
    (st : Verify.DfsState) (steps : nat) :
  forall i nodeOk,
    Verify.compare_globals model st i steps nodeOk = true <->
    nodeOk = true
    /\ forall j, i <= j < i + Z.of_nat steps -> Verify.is_visited st j = true ->
         mat_nearlyEqual (Verify.global_of st j)
                         (Verify.globalMatrix (Verify.node model j)) = true.
Proof.
  induction steps as [|s IH]; intros i ok; cbn [Verify.compare_globals].
  - split; [intros ->; split; [done | intros; lia] | by intros [-> _]].
  - rewrite IH. fold (Verify.is_visited st i). fold (Verify.global_of st i).
    destruct (Verify.is_visited st i) eqn:V; cbn [negb].
    + destruct (mat_nearlyEqual (Verify.global_of st i) _) eqn:E.
      * split; intros [-> H]; (split; [done|]); intros j Hj Hv.
        -- destruct (decide (j = i)) as [->|]; [done | apply H; [lia | done]].
        -- apply H; [lia | done].
      * split; [intros [? _]; done|]. intros [_ H].
        rewrite (H i ltac:(lia) V) in E. done.
    + split; intros [-> H]; (split; [done|]); intros j Hj Hv.
      * destruct (decide (j = i)) as [->|]; [congruence | apply H; [lia | done]].
      * apply H; [lia | done].
Qed.

(** X14. What the verdict certifies: on a table with at least one node, the
    block reports a valid node graph exactly when the bounds and parent
    checks of the first loop all pass and the stored global of every node the
    traversal marked is close to the recomputed one; nodes the traversal did
    not mark are not compared. *)
Theorem verdict_ok_iff {M : Mat4} (model : Verify.ModelAsset) :
  Verify.nodes model <> [] ->
  exists st,
    Verify.resolve_globals model = Some st
    /\ (Verify.verify_node_graph model = Some (Verify.NodeGraph true) <->
        Verify.check_nodes model 0 (Z.to_nat (Verify.nodeCount model)) true = true
        /\ forall j, 0 <= j < Verify.nodeCount model ->
             Verify.is_visited st j = true ->
             mat_nearlyEqual (Verify.global_of st j)
                             (Verify.globalMatrix (Verify.node model j)) = true).
Proof.
  intros Hne. destruct (resolve_globals_total model) as (st & Hres & W).
  exists st. split; [exact Hres|].
  unfold Verify.verify_node_graph. rewrite Hres.
  destruct (Verify.nodes model) as [|n ns] eqn:En; [done|].
  pose proof (nodeCount_range model) as HN.
  split.
  - intros [= H]. apply compare_globals_spec in H as [Hc Hg]. split; [done|].
    intros j Hj. apply Hg. lia.
  - intros [Hc Hg]. do 2 f_equal. apply compare_globals_spec. split; [done|].
    intros j Hj. apply Hg. lia.
Qed.

Lemma verdict_ok_iff_witness :
  Verify.check_nodes Examples.cyclic_model 0
    (Z.to_nat (Verify.nodeCount Examples.cyclic_model)) true = true.
Proof.
  destruct (verdict_ok_iff (M := ZMat.ops) Examples.cyclic_model) as (st & Hres & Hiff);
    [discriminate|].
  apply Hiff. vm_compute. reflexivity.
Defined.

(** ** Tables that pass the first loop *)

Lemma primitives_ok_spec {M : Mat4} (model : Verify.ModelAsset)
    (n : Verify.ModelNode) (steps : nat) :
  forall k nodeOk,
    0 <= Verify.firstPrimitiveIndex n -> 0 <= k ->
    Verify.firstPrimitiveIndex n + k + Z.of_nat steps
      <= Z.of_nat (length (Verify.nodePrimitiveIndices model)) ->
    Verify.firstPrimitiveIndex n + k + Z.of_nat steps <= 2 ^ 32 ->
    Verify.primitives_ok model n k steps nodeOk = true ->
    forall k', k <= k' < k + Z.of_nat steps ->
      at_ 0 (Verify.nodePrimitiveIndices model) (Verify.firstPrimitiveIndex n + k')
      < Verify.primCount model.
Proof.
  induction steps as [|s IH]; intros k ok Hf Hk Hin H32 H k' Hk'; [lia|].
  cbn [Verify.primitives_ok] in H.
  assert (wrap32 (Verify.firstPrimitiveIndex n + k) = Verify.firstPrimitiveIndex n + k)
    as Hw by (unfold wrap32, wrap; apply Z.mod_small; lia).
  rewrite Hw in H.
  destruct (Z.ltb_spec (Verify.firstPrimitiveIndex n + k)
              (Z.of_nat (length (Verify.nodePrimitiveIndices model)))); [|lia].
  pose proof (primitives_ok_true model n s _ _ H) as Hok.
  destruct (Z.geb_spec (at_ 0 (Verify.nodePrimitiveIndices model)
                          (Verify.firstPrimitiveIndex n + k))
              (Verify.primCount model)) as [|Hlt]; [done|].
  destruct (decide (k' = k)) as [->|]; [done|].
  apply (IH (k + 1) ok); [done | lia | lia | lia | by subst ok | lia].
Qed.

(** X15. What the first loop certifies.  On a table of 32-bit fields that
    passes it: every parent index is the root sentinel or a node index; a
    node with children has a child range inside the child-index table whose
    entries are node indices naming that node as their parent, so no node is
    listed by two different nodes and no root is listed at all; and a node's
    primitive range, when its end fits 32 bits, lies inside the
    primitive-index table and holds primitive indices only. *)
Theorem passing_tables_are_consistent
    {M : Mat4} (model : Verify.ModelAsset) (i p p' j : Z) :
  Verify.model_wf model ->
  Verify.check_nodes model 0 (Z.to_nat (Verify.nodeCount model)) true = true ->
  0 <= i < Verify.nodeCount model ->
  let n := Verify.node model i in
  (Verify.parentIndex n = UINT32_MAX \/ Verify.parentIndex n < Verify.nodeCount model)
  /\ (0 < Verify.childCount n ->
      Verify.has_child_range model i
      /\ forall k, 0 <= k < Verify.childCount n ->
           0 <= Verify.child model i k < Verify.nodeCount model
           /\ Verify.parentIndex (Verify.node model (Verify.child model i k)) = i)
  /\ (Verify.child_of model p j -> Verify.child_of model p' j -> p = p')
  /\ (Verify.child_of model p j -> ~ Verify.is_root model j)
  /\ (0 < Verify.primitiveCount n ->
      Verify.firstPrimitiveIndex n + Verify.primitiveCount n < 2 ^ 32 ->
      Verify.firstPrimitiveIndex n + Verify.primitiveCount n
        <= Z.of_nat (length (Verify.nodePrimitiveIndices model))
      /\ forall k, 0 <= k < Verify.primitiveCount n ->
           at_ 0 (Verify.nodePrimitiveIndices model) (Verify.firstPrimitiveIndex n + k)
           < Verify.primCount model).
Proof.
  intros Hwf Hcheck Hi n.
  pose proof (nodeCount_range model) as HN.
  pose proof (check_nodes_true model _ _ _ Hcheck) as [_ Hall].
  pose proof (Hall i ltac:(lia)) as Hnode.
  pose proof (check_node_true model i true Hnode) as [_ Hkids].
  split; [|split; [|split; [|split]]].
  - unfold Verify.check_node in Hnode. fold n in Hnode.
    destruct (Z.eqb_spec (Verify.parentIndex n) UINT32_MAX) as [|Hne]; [by left|].
    destruct (Z.geb_spec (Verify.parentIndex n) (Verify.nodeCount model)) as [Hge|];
      [|by right].
    exfalso. cbn [negb andb] in Hnode.
    assert (forall b,
              (if Verify.primitiveCount n >? 0
               then Verify.primitives_ok model n 0 (Z.to_nat (Verify.primitiveCount n))
                      (if wrap32 (Verify.firstPrimitiveIndex n + Verify.primitiveCount n)
                          >? Z.of_nat (length (Verify.nodePrimitiveIndices model))
                       then false else b)
               else b) = true -> b = true) as Hb.
    { intros b. destruct (Verify.primitiveCount n >? 0); [|done].
      intros Hp. apply primitives_ok_true in Hp.
      by destruct (wrap32 _ >? _). }
    apply Hb in Hnode. repeat case_match; done.
  - intros Hpos. destruct (Hkids Hpos) as [Hr Hk]. split; [done|].
    intros k Hk'. destruct (Hk k Hk') as [Hlt Hp]. split; [|done].
    split; [by apply child_nonneg | done].
  - intros H1 H2. rewrite <- (validated_child_parent model p j Hcheck H1).
    by apply validated_child_parent.
  - intros Hc [_ Hroot]. pose proof (validated_child_parent model p j Hcheck Hc) as E.
    destruct Hc as (Hp & _). rewrite E in Hroot. unfold UINT32_MAX in Hroot. lia.
  - intros Hpos H32. destruct (node_fields_u32 model Hwf i) as (_ & _ & _ & Hf & Hc).
    fold n in Hf, Hc. unfold Verify.is_u32 in Hf, Hc.
    unfold Verify.check_node in Hnode. fold n in Hnode.
    destruct (Z.gtb_spec (Verify.primitiveCount n) 0) as [_|]; [|lia].
    pose proof (primitives_ok_true model n _ _ _ Hnode) as Hok.
    assert (wrap32 (Verify.firstPrimitiveIndex n + Verify.primitiveCount n)
            = Verify.firstPrimitiveIndex n + Verify.primitiveCount n) as Hw
      by (unfold wrap32, wrap; apply Z.mod_small; lia).
    rewrite Hw in Hok, Hnode.
    destruct (Z.gtb_spec (Verify.firstPrimitiveIndex n + Verify.primitiveCount n)
                (Z.of_nat (length (Verify.nodePrimitiveIndices model)))) as [|Hle];
      [done|].
    split; [done|]. intros k Hk.
    apply (primitives_ok_spec model n _ 0 _ ltac:(lia) ltac:(lia)) with (k' := k) in Hnode;
      [done | lia | lia | lia].
Qed.

Lemma passing_tables_are_consistent_witness :
  Verify.parentIndex (Verify.node Examples.family_model (Verify.child Examples.family_model 0 1)) = 0
  /\ ~ Verify.is_root Examples.family_model 3.
Proof.
  assert (Verify.model_wf Examples.family_model) as Hwf.
  { split; [|split].
    - repeat constructor; unfold Verify.is_u32; simpl; unfold UINT32_MAX; lia.
    - repeat constructor; unfold Verify.is_u32; simpl; lia.
    - constructor. }
  assert (Verify.check_nodes Examples.family_model 0
            (Z.to_nat (Verify.nodeCount Examples.family_model)) true = true) as Hc
    by (vm_compute; reflexivity).
  destruct (passing_tables_are_consistent (M := ZMat.ops) Examples.family_model
              0 1 1 3 Hwf Hc) as (_ & Hkids & _ & Hroot & _);
    [vm_compute; split; [discriminate | reflexivity]|].
  split.
  - destruct Hkids as [_ Hk]; [reflexivity|].
    apply (Hk 1). vm_compute. split; [discriminate | reflexivity].
  - apply Hroot.
    split; [vm_compute; split; [discriminate | reflexivity]|].
    split; [vm_compute; repeat split; discriminate|].
    split; [vm_compute; split; [discriminate | reflexivity]|].
    exists 0. split; [vm_compute; split; [discriminate | reflexivity] | reflexivity].
Defined.

(* ===================================================================== *)
(** * The string table *)
(* ===================================================================== *)

Section StringTable.
Import SModel Strings.

Lemma holds_app_l (chars : Z -> ascii) (table : Z) (l1 l2 : list ascii) :
  holds chars table (l1 ++ l2) -> holds chars table l1.
Proof.
  intros H i c Hi. apply H. by apply lookup_app_l_Some.
Qed.

Lemma holds_app_r (chars : Z -> ascii) (table : Z) (l1 l2 : list ascii) :
  holds chars table (l1 ++ l2) ->
  holds chars (table + Z.of_nat (length l1)) l2.
Proof.
  intros H i c Hi.
  replace (table + Z.of_nat (length l1) + Z.of_nat i)
    with (table + Z.of_nat (length l1 + i)) by lia.
  apply H. rewrite lookup_app_r by lia.
  by replace (length l1 + i - length l1)%nat with i by lia.
Qed.

Lemma holds_cons (chars : Z -> ascii) (table : Z) (c : ascii) (l : list ascii) :
  holds chars table (c :: l) -> chars table = c /\ holds chars (table + 1) l.
Proof.
  intros H. split.
  - replace table with (table + Z.of_nat 0) by lia. by apply H.
  - apply (holds_app_r chars table [c] l H).
Qed.

(** A NUL-terminated string stored at [addr] is what [c_string] reads back,
    whatever follows it, as soon as the terminator is within the bytes
    searched. *)
Lemma c_string_stored (chars : Z -> ascii) (s : string) (addr : Z) (n : nat) :
  no_NUL s ->
  holds chars addr (list_ascii_of_string s ++ [NUL]) ->
  (String.length s < n)%nat ->
  c_string chars addr n = Some s.
Proof.
  revert addr n. induction s as [|c s IH]; intros addr n Hnn Hh Hn.
  - destruct n as [|n]; [simpl in Hn; lia|]. cbn [c_string].
    apply holds_cons in Hh as [-> _]. by rewrite Ascii.eqb_refl.
  - destruct n as [|n]; [simpl in Hn; lia|]. cbn [c_string].
    cbn [list_ascii_of_string app] in Hh. apply holds_cons in Hh as [Hc Hh].
    rewrite Hc.
    destruct (Ascii.eqb_spec c NUL) as [->|_].
    + exfalso. apply Hnn. simpl. by left.
    + rewrite (IH (addr + 1) n); [done | | done | simpl in Hn; lia].
      intros Hin. apply Hnn. simpl. by right.
Qed.

(** What [c_string] returns lies entirely in the bytes searched, is followed
    by a NUL there, and holds no NUL. *)
Lemma c_string_found (chars : Z -> ascii) (addr : Z) (n : nat) (s : string) :
  c_string chars addr n = Some s ->
  (String.length s < n)%nat
  /\ holds chars addr (list_ascii_of_string s ++ [NUL])
  /\ no_NUL s.
Proof.
  revert addr s. induction n as [|n IH]; intros addr s; cbn [c_string]; [done|].
  destruct (Ascii.eqb_spec (chars addr) NUL) as [E|E].
  - intros [= <-]. split; [simpl; lia|]. split.
    + intros i c. destruct i as [|i]; [|done]. simpl. intros [= <-].
      by rewrite Z.add_0_r.
    + intros [].
  - destruct (c_string chars (addr + 1) n) as [s'|] eqn:E'; [|done].
    simpl. intros [= <-]. apply IH in E' as (Hl & Hh & Hn).
    split; [simpl; lia|]. split.
    + intros i c. destruct i as [|i].
      * simpl. intros [= <-]. by rewrite Z.add_0_r.
      * cbn [list_ascii_of_string app lookup list_lookup]. intros Hi.
        apply Hh in Hi. by replace (addr + Z.of_nat (S i)) with (addr + 1 + Z.of_nat i) by lia.
    + intros [Hin|Hin]; [by symmetry in Hin | by apply Hn].
Qed.

(** [c_string] reads only the [n] bytes at [addr]. *)
Lemma c_string_ext (chars chars' : Z -> ascii) (addr : Z) (n : nat) :
  (forall a, addr <= a < addr + Z.of_nat n -> chars a = chars' a) ->
  c_string chars addr n = c_string chars' addr n.
Proof.
  revert addr. induction n as [|n IH]; intros addr H; cbn [c_string]; [done|].
  rewrite <- (H addr) by lia. rewrite (IH (addr + 1)); [done|].
  intros a Ha. apply H. lia.
Qed.

Lemma length_list_ascii_of_string (s : string) :
  length (list_ascii_of_string s) = String.length s.
Proof. induction s as [|c s IH]; simpl; [done | by rewrite IH]. Qed.

(** X16. Strings survive cooking and loading.  A string without NUL added to
    a string table of the cooker comes back from [getStringOrEmpty] at the
    offset [add] returned, in every file whose string table starts with the
    table as it was after the call (whatever was added later), the table
    staying below [2^32] bytes; the empty string is offset 0. *)
Theorem string_table_round_trip
    (chars : Z -> ascii) (v : SModelFileView) (h : SModelHeader) (table : Z)
    (t t' : StringTable) (s : string) (off : Z) (later : list ascii) :
  View.deref v = Some h -> stringTable v = Some table ->
  data t <> [] -> no_NUL s ->
  add s t = (off, t') ->
  Z.of_nat (length (data t' ++ later)) < 2 ^ 32 ->
  stringTableSize h = Z.of_nat (length (data t' ++ later)) ->
  holds chars table (data t' ++ later) ->
  getStringOrEmpty chars v off = s /\ (off = 0 <-> s = EmptyString).
Proof.
  intros Hd Ht Hne Hnn Hadd Hlen Hsize Hh.
  unfold getStringOrEmpty. rewrite Hd, Ht.
  destruct s as [|c s]; cbn [add] in Hadd.
  - injection Hadd as <- <-. done.
  - injection Hadd as <- <-. cbn [data] in *.
    rewrite !length_app in Hlen, Hsize. cbn [length] in Hlen, Hsize.
    rewrite length_app, length_list_ascii_of_string in Hlen, Hsize.
    cbn [length] in Hlen, Hsize.
    assert (0 < Z.of_nat (length (data t))) as Hpos
      by (destruct (data t); [done | simpl; lia]).
    assert (wrap32 (Z.of_nat (length (data t))) = Z.of_nat (length (data t))) as ->
      by (unfold wrap32, wrap; apply Z.mod_small; lia).
    split; [|split; [lia | done]].
    destruct (Z.eqb_spec (Z.of_nat (length (data t))) 0); [lia|].
    destruct (Z.geb_spec (Z.of_nat (length (data t))) (stringTableSize h)); [lia|].
    assert (wrap64 (stringTableSize h - Z.of_nat (length (data t)))
            = stringTableSize h - Z.of_nat (length (data t))) as ->
      by (unfold wrap64, wrap; apply Z.mod_small; lia).
    rewrite (c_string_stored chars (String c s)); [done | done | | simpl; lia].
    rewrite <- app_assoc in Hh. apply holds_app_r in Hh.
    apply holds_app_l in Hh. exact Hh.
Qed.

Lemma root_name_holds : holds RootName.chars 384 (data RootName.table).
Proof.
  intros i c Hi.
  do 6 (destruct i as [|i]; [injection Hi as <-; reflexivity|]). discriminate Hi.
Qed.

Lemma string_table_round_trip_witness :
  getStringOrEmpty RootName.chars RootName.view 1 = "root"%string.
Proof.
  apply (string_table_round_trip RootName.chars RootName.view RootName.header 384
           StringTable_new RootName.table "root" 1 []).
  - reflexivity.
  - reflexivity.
  - discriminate.
  - intros H. simpl in H. unfold NUL in H. intuition discriminate.
  - reflexivity.
  - simpl. lia.
  - reflexivity.
  - rewrite app_nil_r. apply root_name_holds.
Defined.

(** X17. [getStringOrEmpty] stays inside the string table.  On a view with a
    header and a table pointer, an offset that is zero or not below the
    table size gives the empty string; any other result is a string without
    NUL that lies, terminator included, between the offset and the end of
    the table; and the result depends on no byte outside the table. *)
Theorem getStringOrEmpty_stays_in_table
    (chars chars' : Z -> ascii) (v : SModelFileView) (h : SModelHeader)
    (table strOffset : Z) :
  View.deref v = Some h -> stringTable v = Some table ->
  0 <= strOffset -> stringTableSize h < 2 ^ 64 ->
  let s := getStringOrEmpty chars v strOffset in
  no_NUL s
  /\ (s <> EmptyString ->
        0 < strOffset
        /\ strOffset + Z.of_nat (String.length s) < stringTableSize h
        /\ holds chars (table + strOffset) (list_ascii_of_string s ++ [NUL]))
  /\ ((forall a, table <= a < table + stringTableSize h -> chars a = chars' a) ->
        getStringOrEmpty chars' v strOffset = s).
Proof.
  intros Hd Ht Ho Hs. cbv zeta. unfold getStringOrEmpty. rewrite Hd, Ht.
  destruct (Z.eqb_spec strOffset 0) as [E0|E0];
    [split; [intros [] | split; [done | done]]|].
  destruct (Z.geb_spec strOffset (stringTableSize h)) as [Ege|Ege];
    [split; [intros [] | split; [done | done]]|].
  assert (wrap64 (stringTableSize h - strOffset) = stringTableSize h - strOffset)
    as -> by (unfold wrap64, wrap; apply Z.mod_small; lia).
  destruct (c_string chars (table + strOffset) _) as [s|] eqn:E.
  - apply c_string_found in E as Hf. destruct Hf as (Hl & Hh & Hn).
    split; [done|]. split.
    + intros _. split; [lia|]. split; [lia | done].
    + intros Hagree. rewrite <- (c_string_ext chars chars'); [by rewrite E|].
      intros a Ha. apply Hagree. lia.
  - split; [intros [] | split; [done|]].
    intros Hagree. rewrite <- (c_string_ext chars chars'); [by rewrite E|].
    intros a Ha. apply Hagree. lia.
Qed.

Lemma getStringOrEmpty_stays_in_table_witness :
  1 + Z.of_nat (String.length (getStringOrEmpty RootName.chars RootName.view 1)) < 6
  /\ getStringOrEmpty (fun _ => "y"%char) RootName.view 6 = EmptyString.
Proof.
  destruct (getStringOrEmpty_stays_in_table RootName.chars RootName.chars
              RootName.view RootName.header 384 1) as (_ & H & _);
    [reflexivity | reflexivity | lia | simpl; lia |].
  destruct (getStringOrEmpty_stays_in_table (fun _ => "y"%char) (fun _ => "y"%char)
              RootName.view RootName.header 384 6) as (_ & H6 & _);
    [reflexivity | reflexivity | lia | simpl; lia |].
  split.
  - apply H. vm_compute. discriminate.
  - destruct (string_dec (getStringOrEmpty (fun _ => "y"%char) RootName.view 6)
                EmptyString) as [E|E]; [exact E|].
    apply H6 in E. simpl in E. lia.
Defined.

End StringTable.

(* ===================================================================== *)
(** * The cooker *)
(* ===================================================================== *)

Section Blob.
Import SModel Cooker.

Lemma wrap32_small (x : Z) : 0 <= x < 2 ^ 32 -> wrap32 x = x.
Proof. intros H. unfold wrap32, wrap. by apply Z.mod_small. Qed.

Lemma wrap64_small (x : Z) : 0 <= x < 2 ^ 64 -> wrap64 x = x.
Proof. intros H. unfold wrap64, wrap. by apply Z.mod_small. Qed.

Lemma len_app {A} (l1 l2 : list A) : len (l1 ++ l2) = len l1 + len l2.
Proof. unfold len. rewrite length_app. lia. Qed.

Lemma len_nonneg {A} (l : list A) : 0 <= len l.
Proof. unfold len. lia. Qed.

Lemma align_spec (alignment : Z) (b : Blob) :
  0 < alignment ->
  exists pad,
    bytes (align alignment b) = bytes b ++ repeat 0 pad
    /\ Z.of_nat pad < alignment
    /\ len (bytes (align alignment b)) mod alignment = 0.
Proof.
  intros Ha. unfold align.
  pose proof (Z.mod_pos_bound (len (bytes b)) alignment Ha) as Hm.
  destruct (Z.eqb_spec (len (bytes b) mod alignment) 0) as [E|E]; cbn [negb].
  - exists O. rewrite app_nil_r. split; [done|]. split; [simpl; lia | done].
  - exists (Z.to_nat (alignment - len (bytes b) mod alignment)).
    split; [done|]. split; [lia|]. cbn [bytes].
    rewrite len_app. unfold len at 2. rewrite repeat_length, Z2Nat.id by lia.
    rewrite (Z.div_mod (len (bytes b)) alignment) at 1 by lia.
    replace (alignment * (len (bytes b) / alignment) + len (bytes b) mod alignment
             + (alignment - len (bytes b) mod alignment))
      with ((len (bytes b) / alignment + 1) * alignment) by lia.
    apply Z.mod_mul. lia.
Qed.

Lemma slice_middle (pre x post : list Z) :
  slice (len pre) (len x) (pre ++ x ++ post) = x.
Proof.
  unfold slice, len. rewrite !Nat2Z.id.
  rewrite drop_app_length. by rewrite take_app_length.
Qed.

Lemma len_concat_fixed (vs : list (list Z)) (n : Z) :
  Forall (fun v => len v = n) vs -> len (concat vs) = len vs * n.
Proof.
  induction 1 as [|v vs Hv _ IH]; [done|].
  cbn [concat]. rewrite len_app, IH, Hv. unfold len. cbn [length]. lia.
Qed.

(** X18. Mesh data survives cooking, and the record made for it passes the
    mesh checks of the loader exactly when the mesh has a vertex.  With
    48-byte vertices and a blob that stays below [2^32] bytes, the vertex and
    index slices the record names start on 8-byte boundaries and hold the
    bytes that were stored, whatever is appended to the blob later; and
    [LoadSModelFile]'s per-mesh check of that record against the final blob
    size passes, unless the vertex array is empty, in which case it reports
    an invalid vertex count. *)
Theorem cooked_mesh_record_round_trip
    (L : Layout) (vertices : list (list Z)) (indices index_bytes : list Z)
    (blob blob' : Blob) (mr : SModelMeshRecord) (later : list Z)
    (mem : Memory) (i : Z) :
  store_mesh vertices indices index_bytes blob = (mr, blob') ->
  Forall (fun v => len v = sizeof_VertexPNTT) vertices ->
  len index_bytes = len indices * sizeof_uint32_t ->
  len (bytes blob' ++ later) < 2 ^ 32 ->
  32 <= slice_bits L ->
  mesh_at mem (meshesOffset (header_at_0 mem) + i * sizeof_SModelMeshRecord L) = mr ->
  blobSize (header_at_0 mem) = len (bytes blob' ++ later) ->
  vertexDataOffset mr mod 8 = 0 /\ indexDataOffset mr mod 8 = 0
  /\ slice (vertexDataOffset mr) (vertexDataSize mr) (bytes blob' ++ later)
     = concat vertices
  /\ slice (indexDataOffset mr) (indexDataSize mr) (bytes blob' ++ later)
     = index_bytes
  /\ check_mesh L mem i
     = match vertices with
       | [] => Fail ("Mesh has invalid vertexCount/vertexStride (meshIndex="
                     +:+ to_string i +:+ ")")
       | _ :: _ => Pass
       end.
Proof.
  intros Hs Hv Hi Hlen Hbits Hmesh Hblob. unfold store_mesh in Hs.
  destruct (align_spec 8 blob) as (pad1 & E1 & _ & A1); [lia|].
  set (blob1 := align 8 blob) in *.
  cbn [append] in Hs.
  set (blob2 := {| bytes := bytes blob1 ++ concat vertices |}) in *.
  destruct (align_spec 8 blob2) as (pad2 & E2 & _ & A2); [lia|].
  set (blob3 := align 8 blob2) in *.
  injection Hs as <- <-. cbn [bytes] in *.
  pose proof (len_concat_fixed vertices _ Hv) as HV.
  rewrite E2 in Hlen, Hblob |- *. cbn [blob2 bytes] in Hlen, Hblob, A2, E2 |- *.
  rewrite E2 in A2.
  rewrite !len_app in Hlen.
  pose proof (len_nonneg (bytes blob1)). pose proof (len_nonneg (concat vertices)).
  pose proof (len_nonneg (repeat 0 pad2)). pose proof (len_nonneg index_bytes).
  pose proof (len_nonneg later). pose proof (len_nonneg vertices).
  pose proof (len_nonneg indices).
  unfold sizeof_VertexPNTT, sizeof_uint32_t in *.
  set (V := concat vertices) in *.
  assert (wrap64 (len (bytes blob1)) = len (bytes blob1)) as W1
    by (apply wrap64_small; lia).
  assert (wrap64 (len (bytes blob3))
          = len ((bytes blob1 ++ V) ++ repeat 0 pad2)) as W2
    by (rewrite E2; apply wrap64_small; rewrite !len_app; lia).
  assert (wrap32 (len vertices * 48) = len V) as W3
    by (rewrite wrap32_small; lia).
  assert (wrap32 (len indices * 4) = len index_bytes) as W4
    by (rewrite wrap32_small; lia).
  assert (wrap32 (len vertices) = len vertices) as W5 by (apply wrap32_small; lia).
  assert (wrap32 48 = 48) as W6 by done.
  rewrite W1, W2, W3, W4, W5, W6 in Hmesh.
  cbn [vertexDataOffset vertexDataSize indexDataOffset indexDataSize].
  rewrite E2 in W2. rewrite W1, W2, W3, W4.
  split; [done|]. split; [done|].
  split; [|split].
  - rewrite <- !app_assoc. apply slice_middle.
  - rewrite <- (app_assoc _ index_bytes later). apply slice_middle.
  - unfold check_mesh. rewrite Hmesh, Hblob.
    cbn [vertexDataOffset vertexDataSize indexDataOffset indexDataSize
         vertexCount vertexStride]. unfold slice_exceeds.
    assert (forall x, 0 <= x < 2 ^ 32 -> wrap (slice_bits L) x = x) as Wb.
    { intros x Hx. unfold wrap. apply Z.mod_small.
      pose proof (Z.pow_le_mono_r 2 32 (slice_bits L)). lia. }
    rewrite !len_app. rewrite !Wb by (rewrite ?len_app; lia).
    destruct (Z.gtb_spec (len (bytes blob1) + len V)
                (len (bytes blob1) + len V + len (repeat 0 pad2)
                 + len index_bytes + len later)); [lia|].
    destruct (Z.gtb_spec (len (bytes blob1) + len V + len (repeat 0 pad2)
                          + len index_bytes)
                (len (bytes blob1) + len V + len (repeat 0 pad2)
                 + len index_bytes + len later)); [lia|].
    destruct vertices as [|v vs].
    + done.
    + assert (0 < len (v :: vs)) by (unfold len; simpl; lia).
      destruct (Z.eqb_spec (len (v :: vs)) 0); [lia|]. cbn [orb Z.eqb].
      rewrite wrap64_small by lia.
      destruct (Z.eqb_spec (len V) (len (v :: vs) * 48)); [done | lia].
Qed.

Lemma cooked_mesh_record_round_trip_witness :
  slice 8 48 (bytes (snd (store_mesh [repeat 7 48%nat] [0; 0; 0] (repeat 1 12%nat)
                            {| bytes := [9; 9; 9] |})))
  = repeat 7 48%nat.
Proof.
  pose (mr := fst (store_mesh [repeat 7 48%nat] [0; 0; 0] (repeat 1 12%nat)
                     {| bytes := [9; 9; 9] |})).
  pose (mem := {| header_at_0 :=
                    {| magic := SMODEL_MAGIC; versionMajor := 2; versionMinor := 1;
                       meshCount := 1; primitiveCount := 0; materialCount := 0;
                       textureCount := 0; nodeCount := 0;
                       nodePrimitiveIndexCount := 0; nodeChildIndicesCount := 0;
                       meshesOffset := 128; primitivesOffset := 208;
                       materialsOffset := 208; texturesOffset := 208;
                       nodesOffset := 208; nodePrimitiveIndicesOffset := 208;
                       nodeChildIndicesOffset := 208;
                       stringTableOffset := 208; stringTableSize := 1;
                       blobOffset := 209; blobSize := 68; fileSizeBytes := 277 |};
                  mesh_at := fun _ => mr;
                  primitive_at := primitive_at zero_memory;
                  material_at := material_at zero_memory;
                  texture_at := texture_at zero_memory;
                  node_at := node_at zero_memory;
                  u32_at := u32_at zero_memory |}).
  destruct (cooked_mesh_record_round_trip Examples.layout64
              [repeat 7 48%nat] [0; 0; 0] (repeat 1 12%nat) {| bytes := [9; 9; 9] |}
              (snd (store_mesh [repeat 7 48%nat] [0; 0; 0] (repeat 1 12%nat)
                      {| bytes := [9; 9; 9] |}))
              mr [] mem 0) as (_ & _ & H & _).
  - reflexivity.
  - repeat constructor.
  - reflexivity.
  - vm_compute. reflexivity.
  - vm_compute. discriminate.
  - reflexivity.
  - vm_compute. reflexivity.
  - rewrite app_nil_r in H. exact H.
Defined.

End Blob.

Section Header.
Import SModel Format Cooker.

Ltac unwrap :=
  repeat match goal with
         | |- context [wrap64 ?x] => rewrite (wrap64_small x) by lia
         | |- context [wrap32 ?x] => rewrite (wrap32_small x) by lia
         end.

(** Below [2^64] bytes the cursor never wraps: the header lists the tables
    back to back, and the final cursor is the number of bytes written. *)
Lemma build_header_exact (L : Layout) (s : Sizes) :
  sizes_ok s -> layout_typed L -> bytes_written L s < 2 ^ 64 ->
  let h := fst (build_header L s) in
  snd (build_header L s) = bytes_written L s
  /\ meshesOffset h = sizeof_SModelHeader L
  /\ primitivesOffset h
     = meshesOffset h + meshRecords_size s * sizeof_SModelMeshRecord L
  /\ materialsOffset h
     = primitivesOffset h + primRecords_size s * sizeof_SModelPrimitiveRecord L
  /\ texturesOffset h
     = materialsOffset h + materialRecords_size s * sizeof_SModelMaterialRecord L
  /\ nodesOffset h
     = texturesOffset h + textureRecords_size s * sizeof_SModelTextureRecord L
  /\ nodePrimitiveIndicesOffset h
     = nodesOffset h + nodeRecords_size s * sizeof_SModelNodeRecord
  /\ stringTableOffset h
     = nodePrimitiveIndicesOffset h
       + nodePrimitiveIndices_size s * sizeof_uint32_t
       + nodeChildIndices_size s * sizeof_uint32_t
  /\ blobOffset h = stringTableOffset h + strings_data_size s
  /\ bytes_written L s = blobOffset h + blob_bytes_size s
  /\ fileSizeBytes h = wrap32 (bytes_written L s).
Proof.
  intros (S1 & S2 & S3 & S4 & S5 & S6 & S7 & S8 & S9) (L0 & L1 & L2 & L3 & L4) Hb.
  unfold bytes_written in *. unfold build_header.
  unfold sizeof_SModelNodeRecord, sizeof_uint32_t in *.
  cbn [fst snd meshesOffset primitivesOffset materialsOffset texturesOffset
       nodesOffset nodePrimitiveIndicesOffset stringTableOffset blobOffset
       fileSizeBytes].
  pose proof (Z.mul_nonneg_nonneg (meshRecords_size s) (sizeof_SModelMeshRecord L)
                S1 ltac:(lia)).
  pose proof (Z.mul_nonneg_nonneg (primRecords_size s)
                (sizeof_SModelPrimitiveRecord L) S2 ltac:(lia)).
  pose proof (Z.mul_nonneg_nonneg (materialRecords_size s)
                (sizeof_SModelMaterialRecord L) S3 ltac:(lia)).
  pose proof (Z.mul_nonneg_nonneg (textureRecords_size s)
                (sizeof_SModelTextureRecord L) S4 ltac:(lia)).
  unwrap. repeat split; lia.
Qed.

(** X19. A cooked file below 4 GiB passes every gate of the loader that
    looks at the header alone.  The header the cooker builds lists the
    tables back to back from the end of the header to the end of the file;
    it is compatible, declares the size of the file, and passes the section
    and table range checks; what [LoadSModelFile] then returns on the file
    is decided by the per-record checks. *)
Theorem cooked_header_passes_the_gates
    (L : Layout) (s : Sizes) (path : string) (file : IfStream)
    (outView : SModelFileView) (outError : string) :
  sizes_ok s -> layout_typed L -> bytes_written L s < 2 ^ 32 ->
  header_at_0 (contents file) = fst (build_header L s) ->
  is_open file = true -> read_ok file = true -> tellg file = bytes_written L s ->
  let h := fst (build_header L s) in
  isHeaderCompatible h = true
  /\ fileSizeBytes h = bytes_written L s
  /\ header_typed h
  /\ validate_ranges L (contents file) (bytes_written L s) = None
  /\ LoadSModelFile L path file outView outError
     = let view :=
         with_header
           (with_fileBytes empty_view
              {| vec_size := bytes_written L s; vec_data := contents file |})
           (Some 0) in
       match validate_records L (contents file) (bytes_written L s) with
       | Pass => Returned true (with_tables view h) EmptyString
       | Fail e => Returned false (with_tables view h) e
       | OutOfBounds => Undefined
       end.
Proof.
  intros Hs HL Hb Hh Ho Hr Ht. cbv zeta.
  destruct (build_header_exact L s Hs HL ltac:(lia))
    as (E0 & E1 & E2 & E3 & E4 & E5 & E6 & E7 & E8 & E9 & E10).
  destruct Hs as (S1 & S2 & S3 & S4 & S5 & S6 & S7 & S8 & S9).
  destruct HL as (L0 & L1 & L2 & L3 & L4).
  set (h := fst (build_header L s)) in *.
  unfold sizeof_SModelNodeRecord, sizeof_uint32_t in *.
  assert (0 <= meshRecords_size s * sizeof_SModelMeshRecord L
          /\ meshRecords_size s <= meshRecords_size s * sizeof_SModelMeshRecord L)
    as [] by nia.
  assert (0 <= primRecords_size s * sizeof_SModelPrimitiveRecord L
          /\ primRecords_size s
             <= primRecords_size s * sizeof_SModelPrimitiveRecord L) as [] by nia.
  assert (0 <= materialRecords_size s * sizeof_SModelMaterialRecord L
          /\ materialRecords_size s
             <= materialRecords_size s * sizeof_SModelMaterialRecord L) as [] by nia.
  assert (0 <= textureRecords_size s * sizeof_SModelTextureRecord L
          /\ textureRecords_size s
             <= textureRecords_size s * sizeof_SModelTextureRecord L) as [] by nia.
  assert (meshCount h = meshRecords_size s) as C1 by (apply wrap32_small; lia).
  assert (primitiveCount h = primRecords_size s) as C2 by (apply wrap32_small; lia).
  assert (materialCount h = materialRecords_size s) as C3
    by (apply wrap32_small; lia).
  assert (textureCount h = textureRecords_size s) as C4 by (apply wrap32_small; lia).
  assert (nodeCount h = nodeRecords_size s) as C5 by (apply wrap32_small; lia).
  assert (nodePrimitiveIndexCount h = nodePrimitiveIndices_size s) as C6
    by (apply wrap32_small; lia).
  assert (nodeChildIndicesCount h = nodeChildIndices_size s) as C7
    by (apply wrap32_small; lia).
  assert (stringTableSize h = strings_data_size s) as C8
    by (apply wrap32_small; lia).
  assert (blobSize h = blob_bytes_size s) as C9 by (apply wrap32_small; lia).
  assert (fileSizeBytes h = bytes_written L s) as C10
    by (rewrite E10; apply wrap32_small; lia).
  assert (isHeaderCompatible h = true) as HC by reflexivity.
  assert (header_typed h) as HT.
  { unfold header_typed, fits.
    rewrite C1, C2, C3, C4, C5, C6, C7, C8, C9.
    repeat split; lia. }
  assert (validate_ranges L (contents file) (bytes_written L s) = None) as HR.
  { unfold validate_ranges. rewrite Hh. fold h.
    unfold sizeof_SModelNodeRecord, sizeof_uint32_t.
    rewrite C1, C2, C3, C4, C5, C6, C8, C9.
    rewrite (proj2 (isRangeInsideFile_exact (stringTableOffset h)
                      (strings_data_size s) (bytes_written L s)
                      ltac:(lia) ltac:(lia) ltac:(lia))) by lia.
    rewrite (proj2 (isRangeInsideFile_exact (blobOffset h)
                      (blob_bytes_size s) (bytes_written L s)
                      ltac:(lia) ltac:(lia) ltac:(lia))) by lia.
    cbn [negb].
    rewrite (proj2 (tableRangeValid_exact (sizeof_SModelMeshRecord L)
                      (meshesOffset h) (meshRecords_size s) (bytes_written L s)
                      ltac:(lia) ltac:(lia) ltac:(lia) ltac:(lia))) by lia.
    rewrite (proj2 (tableRangeValid_exact (sizeof_SModelPrimitiveRecord L)
                      (primitivesOffset h) (primRecords_size s) (bytes_written L s)
                      ltac:(lia) ltac:(lia) ltac:(lia) ltac:(lia))) by lia.
    rewrite (proj2 (tableRangeValid_exact (sizeof_SModelMaterialRecord L)
                      (materialsOffset h) (materialRecords_size s)
                      (bytes_written L s)
                      ltac:(lia) ltac:(lia) ltac:(lia) ltac:(lia))) by lia.
    rewrite (proj2 (tableRangeValid_exact (sizeof_SModelTextureRecord L)
                      (texturesOffset h) (textureRecords_size s)
                      (bytes_written L s)
                      ltac:(lia) ltac:(lia) ltac:(lia) ltac:(lia))) by lia.
    rewrite (proj2 (tableRangeValid_exact 88
                      (nodesOffset h) (nodeRecords_size s) (bytes_written L s)
                      ltac:(lia) ltac:(lia) ltac:(lia) ltac:(lia))) by lia.
    rewrite wrap64_small by lia.
    rewrite (proj2 (isRangeInsideFile_exact (nodePrimitiveIndicesOffset h)
                      (nodePrimitiveIndices_size s * 4) (bytes_written L s)
                      ltac:(lia) ltac:(lia) ltac:(lia))) by lia.
    rewrite andb_false_r. by destruct (nodeRecords_size s >? 0). }
  split; [done|]. split; [done|]. split; [done|]. split; [done|].
  unfold LoadSModelFile. rewrite Ho, Hr, Ht. cbn [negb].
  destruct (Z.leb_spec (bytes_written L s) 0); [lia|].
  cbn [vec_size vec_data fileBytes with_fileBytes with_header].
  destruct (Z.ltb_spec (bytes_written L s) (sizeof_SModelHeader L)); [lia|].
  rewrite Hh. fold h. rewrite HC, C10, Z.eqb_refl, HR. cbn [negb andb].
  by rewrite andb_false_r.
Qed.

Lemma triangle_sizes_ok : sizes_ok Cooked.triangle_sizes.
Proof. unfold sizes_ok. simpl. lia. Qed.

Lemma cooked_header_passes_the_gates_witness :
  validate_ranges Examples.layout64 Triangle.memory 541 = None
  /\ fileSizeBytes Triangle.header = 541.
Proof.
  destruct (cooked_header_passes_the_gates Examples.layout64 Cooked.triangle_sizes
              "tri.smodel" Triangle.file empty_view EmptyString)
    as (_ & Hsize & _ & Hranges & _).
  - apply triangle_sizes_ok.
  - apply layout64_typed.
  - vm_compute. reflexivity.
  - vm_compute. reflexivity.
  - reflexivity.
  - reflexivity.
  - vm_compute. reflexivity.
  - split; [exact Hranges | exact Hsize].
Defined.

(** X20. A cooked file of 4 GiB or more is rejected by the loader.  The
    cooker stores the final cursor in [fileSizeBytes] through a 32-bit cast;
    once the file is at least [2^32] bytes long (and not a multiple of
    [2^32]) the declared size is not zero and differs from the real one, so
    [LoadSModelFile] returns false with the size-mismatch message, before
    any table is looked at. *)
Theorem cooked_file_of_4GiB_is_rejected
    (L : Layout) (s : Sizes) (path : string) (file : IfStream)
    (outView : SModelFileView) (outError : string) :
  sizes_ok s -> layout_typed L ->
  2 ^ 32 <= bytes_written L s < 2 ^ 63 ->
  bytes_written L s mod 2 ^ 32 <> 0 ->
  header_at_0 (contents file) = fst (build_header L s) ->
  is_open file = true -> read_ok file = true -> tellg file = bytes_written L s ->
  LoadSModelFile L path file outView outError
  = Returned false
      (with_header
         (with_fileBytes empty_view
            {| vec_size := bytes_written L s; vec_data := contents file |})
         (Some 0))
      "SModel header fileSizeBytes does not match actual file size.".
Proof.
  intros Hs HL Hb Hm Hh Ho Hr Ht.
  destruct (build_header_exact L s Hs HL ltac:(lia))
    as (_ & E1 & _ & _ & _ & _ & _ & _ & _ & _ & E10).
  destruct HL as (L0 & L1 & L2 & L3 & L4).
  set (h := fst (build_header L s)) in *.
  assert (isHeaderCompatible h = true) as HC by reflexivity.
  unfold LoadSModelFile. rewrite Ho, Hr, Ht. cbn [negb].
  destruct (Z.leb_spec (bytes_written L s) 0); [lia|].
  cbn [vec_size vec_data fileBytes with_fileBytes with_header].
  assert (sizeof_SModelHeader L <= bytes_written L s) as Hge.
  { destruct Hs as (S1 & S2 & S3 & S4 & S5 & S6 & S7 & S8 & S9).
    unfold bytes_written, sizeof_SModelNodeRecord, sizeof_uint32_t.
    pose proof (Z.mul_nonneg_nonneg (meshRecords_size s) (sizeof_SModelMeshRecord L)
                  S1 ltac:(lia)).
    pose proof (Z.mul_nonneg_nonneg (primRecords_size s)
                  (sizeof_SModelPrimitiveRecord L) S2 ltac:(lia)).
    pose proof (Z.mul_nonneg_nonneg (materialRecords_size s)
                  (sizeof_SModelMaterialRecord L) S3 ltac:(lia)).
    pose proof (Z.mul_nonneg_nonneg (textureRecords_size s)
                  (sizeof_SModelTextureRecord L) S4 ltac:(lia)).
    lia. }
  destruct (Z.ltb_spec (bytes_written L s) (sizeof_SModelHeader L)); [lia|].
  rewrite Hh. fold h. rewrite HC, E10. cbn [negb].
  unfold wrap32, wrap.
  pose proof (Z.mod_pos_bound (bytes_written L s) (2 ^ 32) ltac:(lia)).
  destruct (Z.eqb_spec (bytes_written L s mod 2 ^ 32) 0); [done|].
  destruct (Z.eqb_spec (bytes_written L s mod 2 ^ 32) (bytes_written L s)); [lia|].
  done.
Qed.

Lemma cooked_file_of_4GiB_is_rejected_witness :
  exists v,
    LoadSModelFile Examples.layout64 "huge.smodel" Cooked.huge_file
      empty_view EmptyString
    = Returned false v
        "SModel header fileSizeBytes does not match actual file size.".
Proof.
  eexists.
  apply (cooked_file_of_4GiB_is_rejected Examples.layout64 Cooked.huge_sizes).
  - unfold sizes_ok. simpl. lia.
  - apply layout64_typed.
  - vm_compute. split; [discriminate | reflexivity].
  - vm_compute. discriminate.
  - reflexivity.
  - reflexivity.
  - reflexivity.
  - reflexivity.
Defined.

End Header.

(* ===================================================================== *)
(** * The node graph the cooker emits *)
(* ===================================================================== *)

Section NodeGraph.
Import SModel Cooker NodeRecord.

Variable m : list Z.

(** ** The mesh loop *)

Lemma push_mesh_spec (meshes : list Z) (np : list Z) (cnt : Z) :
  0 <= cnt -> cnt + len meshes < 2 ^ 32 ->
  exists own,
    fold_left (push_mesh m) meshes (np, cnt) = (np ++ own, cnt + len own)
    /\ (length own <= length meshes)%nat
    /\ Forall (mapped_prim m) own.
Proof.
  revert np cnt. induction meshes as [|a meshes IH]; intros np cnt Hc Hb.
  - exists []. rewrite app_nil_r. cbn [fold_left length]. split; [f_equal; unfold len; simpl; lia|]. split; [lia | constructor].
  - cbn [fold_left]. unfold len in Hb. cbn [length] in Hb.
    unfold push_mesh at 2.
    set (primIdx := if a <? len m then at_ (-1) m a else -1).
    destruct (Z.geb_spec primIdx 0) as [Hp|Hp].
    + destruct (IH (np ++ [primIdx]) (wrap32 (cnt + 1))) as (own & E & Hl & Hv).
      * unfold wrap32, wrap. apply Z.mod_pos_bound. lia.
      * rewrite wrap32_small by lia. unfold len. lia.
      * exists (primIdx :: own). rewrite E. rewrite wrap32_small by lia.
        split; [|split].
        -- rewrite <- app_assoc. cbn [app]. f_equal. unfold len. cbn [length]. lia.
        -- cbn [length]. lia.
        -- constructor; [|done]. split; [lia|].
           subst primIdx. destruct (a <? len m); [|lia].
           unfold at_ in *. destruct (nth_in_or_default (Z.to_nat a) m (-1)) as [Hin|E'];
             [done | lia].
    + destruct (IH np cnt) as (own & E & Hl & Hv); [lia | unfold len; lia |].
      exists own. rewrite E. split; [done|]. split; [cbn [length]; lia | done].
Qed.

(** ** Sizes *)

Lemma size_pos (n : aiNode) : (0 < size n)%nat.
Proof. destruct n. simpl. lia. Qed.

Lemma forest_size_cons (c : option aiNode) (l : list (option aiNode)) :
  forest_size (c :: l) = (size_ptr size c + forest_size l)%nat.
Proof. reflexivity. Qed.

Lemma forest_refs_cons (c : option aiNode) (l : list (option aiNode)) :
  forest_refs (c :: l) = (size_ptr mesh_refs c + forest_refs l)%nat.
Proof. reflexivity. Qed.

Lemma size_eq (name : string) (meshes : list Z) (children : list (option aiNode)) :
  size (AiNode name meshes children) = S (forest_size children).
Proof. reflexivity. Qed.

Lemma mesh_refs_eq (name : string) (meshes : list Z)
    (children : list (option aiNode)) :
  mesh_refs (AiNode name meshes children)
  = (length meshes + forest_refs children)%nat.
Proof. reflexivity. Qed.

Lemma child_size_le (c : aiNode) (l : list (option aiNode)) :
  In (Some c) l -> (size c <= forest_size l)%nat.
Proof.
  induction l as [|x l IH]; [done|]. rewrite forest_size_cons.
  intros [->|Hin]; [simpl; lia | apply IH in Hin; lia].
Qed.

(** ** Stretches of a table inside a longer table *)

Lemma child_range_embed (N C N' C' : Z) (recs : list SModelNodeRecord)
    (cs : list Z) (j : nat) (r : SModelNodeRecord)
    (pr sr : list SModelNodeRecord) (pc sc : list Z) :
  N = N' + len pr -> C = C' + len pc ->
  child_range_ok N C recs cs j r ->
  child_range_ok N' C' (pr ++ recs ++ sr) (pc ++ cs ++ sc) (length pr + j) r.
Proof.
  intros -> -> [H|(Hc & Hf & Hl & Hk)]; [by left | right].
  unfold len in *. split; [done|]. split; [lia|]. split.
  - rewrite !length_app. lia.
  - intros k Hk'. destruct (Hk k Hk') as (c & r' & E1 & Hlt & E2 & Hp).
    exists c, r'. split; [|split; [lia|split; [|lia]]].
    + replace (Z.to_nat (firstChildIndex r - C' + k))
        with (length pc + Z.to_nat (firstChildIndex r - (C' + Z.of_nat (length pc)) + k))%nat
        by lia.
      rewrite lookup_app_r by lia.
      replace (length pc + _ - length pc)%nat
        with (Z.to_nat (firstChildIndex r - (C' + Z.of_nat (length pc)) + k)) by lia.
      by apply lookup_app_l_Some.
    + replace (Z.to_nat (c - N'))
        with (length pr + Z.to_nat (c - (N' + Z.of_nat (length pr))))%nat by lia.
      rewrite lookup_app_r by lia.
      replace (length pr + _ - length pr)%nat
        with (Z.to_nat (c - (N' + Z.of_nat (length pr)))) by lia.
      by apply lookup_app_l_Some.
Qed.

Lemma primitive_range_embed (P P' : Z) (ps pp sp : list Z) (r : SModelNodeRecord) :
  P = P' + len pp ->
  primitive_range_ok P ps r -> primitive_range_ok P' (pp ++ ps ++ sp) r.
Proof.
  intros -> (H1 & H2 & H3). unfold primitive_range_ok, len in *.
  rewrite !length_app. lia.
Qed.

Lemma no_null_inv (name : string) (meshes : list Z)
    (l : list (option aiNode)) :
  no_null (AiNode name meshes l) ->
  Forall (fun c => c <> None) l /\ forall c, In (Some c) l -> no_null c.
Proof.
  cbn [no_null]. induction l as [|[c|] l IH]; cbn [fold_right].
  - intros _. split; [constructor | intros c []].
  - intros [Hc Hl]. destruct (IH Hl) as [F I]. split; [by constructor|].
    intros c' [[= <-]|Hin]; [done | by apply I].
  - intros [].
Qed.

Lemma forest_size_ge_length (l : list (option aiNode)) :
  Forall (fun c => c <> None) l -> (length l <= forest_size l)%nat.
Proof.
  induction 1 as [|c l Hc _ IH]; [done|].
  rewrite forest_size_cons. destruct c as [n|]; [|done].
  cbn [size_ptr length]. pose proof (size_pos n). lia.
Qed.

(** ** The loop over the children *)

Lemma emit_children_spec (T S0 : Z) (A : list SModelNodeRecord) (B Pq : list Z) :
  len A = T -> len B = S0 ->
  forall (rest : list (option aiNode)) (ci : nat) (st : NodeTables)
         (R : list SModelNodeRecord) (K Q slots : list Z),
    (forall c, In (Some c) rest -> emits_subtree m c) ->
    Forall (fun c => c <> None) rest ->
    nodeRecords st = A ++ zero_record :: R ->
    nodeChildIndices st = B ++ slots ++ K ->
    nodePrimitiveIndices st = Pq ++ Q ->
    length slots = (ci + length rest)%nat ->
    length R = (length K + ci)%nat ->
    table_ok (forest_parent (T + 1)) (T + 1) (S0 + len slots) (len Pq) R K Q ->
    slots_filled T R slots ci ->
    Forall (mapped_prim m) Q ->
    T + 1 + len R + Z.of_nat (forest_size rest) < 2 ^ 32 ->
    S0 + len slots + len K + Z.of_nat (forest_size rest)
      < 2 ^ 32 + Z.of_nat (length rest) ->
    len Pq + len Q + Z.of_nat (forest_refs rest) < 2 ^ 32 ->
    exists R' K' Q' slots',
      let st' := emit_children (EmitNode m) T S0 rest (Z.of_nat ci) st in
      nodeRecords st' = A ++ zero_record :: R'
      /\ nodeChildIndices st' = B ++ slots' ++ K'
      /\ nodePrimitiveIndices st' = Pq ++ Q'
      /\ length slots' = length slots
      /\ length R' = (length K' + (ci + length rest))%nat
      /\ length R' = (length R + forest_size rest)%nat
      /\ (length Q' <= length Q + forest_refs rest)%nat
      /\ table_ok (forest_parent (T + 1)) (T + 1) (S0 + len slots) (len Pq) R' K' Q'
      /\ slots_filled T R' slots' (ci + length rest)
      /\ Forall (mapped_prim m) Q'.
Proof.
  intros HA HB rest.
  induction rest as [|c rest IH];
    intros ci st R K Q slots Hsub Hnn HR HK HQ Hls HlR Htab Hfill HvQ B1 B2 B3.
  - exists R, K, Q, slots. cbn [emit_children length]. cbv zeta.
    unfold forest_size, forest_refs. cbn [map list_sum].
    rewrite !Nat.add_0_r. done.
  - destruct c as [n|]; [|by inversion Hnn].
    apply Forall_cons in Hnn as [_ Hnn]. cbn [length] in Hls.
    rewrite forest_size_cons in B1, B2. rewrite forest_refs_cons in B3.
    cbn [size_ptr length] in B1, B2, B3.
    pose proof (forest_size_ge_length rest Hnn) as Hfl.
    cbn [emit_children]. cbv zeta.
    destruct (EmitNode m n T st) as [idx st1] eqn:E.
    assert (len (nodeRecords st) = T + 1 + len R) as LR
      by (rewrite HR; unfold len in *; rewrite length_app; cbn [length]; lia).
    assert (len (nodeChildIndices st) = S0 + len slots + len K) as LK
      by (rewrite HK; unfold len in *; rewrite !length_app; lia).
    assert (len (nodePrimitiveIndices st) = len Pq + len Q) as LQ
      by (rewrite HQ; unfold len in *; rewrite length_app; lia).
    destruct (Hsub n (or_introl eq_refl) T st idx st1)
      as (Hidx & recs & cs & ps & E1 & E2 & E3 & Hlr & Hlc & Hlp & Htc & Hvp);
      [unfold room; lia | done |].
    rewrite LR, LK, LQ in Htc. rewrite LR in Hidx.
    assert (Z.to_nat (wrap32 (S0 + Z.of_nat ci)) = (length B + ci)%nat) as Ew
      by (rewrite wrap32_small by (unfold len in *; lia); unfold len in *; lia).
    rewrite Ew.
    set (st2 := with_nodeChildIndices st1 _).
    assert (len (<[ci:=idx]> slots) = len slots) as Lins
      by (unfold len; by rewrite length_insert).
    destruct (IH (S ci) st2 (R ++ recs) (K ++ cs) (Q ++ ps) (<[ci:=idx]> slots))
      as (R' & K' & Q' & slots' & F1 & F2 & F3 & F4 & F5 & F6 & F7 & F8 & F9 & F10).
    + intros c Hc. apply Hsub. by right.
    + done.
    + subst st2. cbn [with_nodeChildIndices nodeRecords]. rewrite E1, HR.
      by rewrite <- app_assoc.
    + subst st2. cbn [with_nodeChildIndices nodeChildIndices]. rewrite E2, HK.
      rewrite <- !app_assoc. rewrite insert_app_r.
      rewrite insert_app_l by lia. done.
    + subst st2. cbn [with_nodeChildIndices nodePrimitiveIndices].
      rewrite E3, HQ. by rewrite <- app_assoc.
    + rewrite length_insert. cbn [length] in Hls. lia.
    + rewrite !length_app. lia.
    + rewrite Lins. intros j r Hj.
      destruct (lookup_app_Some R recs j r) as [Hcase _].
      destruct (Hcase Hj) as [Hj'|[Hge Hj']].
      * destruct (Htab j r Hj') as (P1 & P2 & P3). split; [done|]. split.
        -- pose proof (child_range_embed (T + 1) (S0 + len slots) (T + 1)
                         (S0 + len slots) R K j r [] recs [] cs
                         ltac:(unfold len; simpl; lia) ltac:(unfold len; simpl; lia) P2)
             as P2'.
           exact P2'.
        -- exact (primitive_range_embed (len Pq) (len Pq) Q [] ps r
                    ltac:(unfold len; simpl; lia) P3).
      * destruct (Htc (j - length R)%nat r Hj') as (P1 & P2 & P3). split; [|split].
        -- unfold forest_parent. unfold subtree_parent in P1.
           destruct (j - length R)%nat eqn:Ej; unfold len in *; lia.
        -- pose proof (child_range_embed (T + 1 + len R) (S0 + len slots + len K)
                         (T + 1) (S0 + len slots) recs cs (j - length R) r
                         R [] K [] ltac:(done) ltac:(done) P2) as P2'.
           rewrite !app_nil_r in P2'.
           by replace (length R + (j - length R))%nat with j in P2' by lia.
        -- pose proof (primitive_range_embed (len Pq + len Q) (len Pq) ps Q [] r
                         ltac:(done) P3) as P3'.
           by rewrite app_nil_r in P3'.
    + intros k Hk. destruct (decide (k = ci)) as [->|Hne].
      * assert (exists r0, recs !! 0%nat = Some r0) as [r0 Hr0]
          by (destruct recs as [|r0 ?]; [pose proof (size_pos n); simpl in Hlr; lia
                                        | by exists r0]).
        exists idx, r0. split; [|split; [unfold len in *; lia|split]].
        -- apply list_lookup_insert_eq. cbn [length] in Hls. lia.
        -- replace (Z.to_nat (idx - (T + 1))) with (length R + 0)%nat
             by (unfold len in *; lia).
           by rewrite lookup_app_r, Nat.add_0_r, Nat.sub_diag by lia.
        -- destruct (Htc 0%nat r0 Hr0) as (P1 & _). exact P1.
      * destruct (Hfill k ltac:(lia)) as (c & r' & G1 & G2 & G3 & G4).
        exists c, r'. split; [|split; [done|split; [|done]]].
        -- by rewrite list_lookup_insert_ne.
        -- by apply lookup_app_l_Some.
    + by apply Forall_app.
    + unfold len in *. rewrite length_app. lia.
    + rewrite Lins. unfold len in *. rewrite length_app. lia.
    + unfold len in *. rewrite length_app. lia.
    + exists R', K', Q', slots'. cbv zeta in F1, F2, F3.
      replace (Z.of_nat ci + 1) with (Z.of_nat (S ci)) by lia.
      rewrite Lins in F8. rewrite length_insert in F4.
      rewrite !length_app in F6, F7. cbn [length].
      replace (ci + S (length rest))%nat with (S ci + length rest)%nat by lia.
      rewrite forest_size_cons, forest_refs_cons. cbn [size_ptr].
      split; [exact F1|]. split; [exact F2|]. split; [exact F3|].
      split; [lia|]. split; [lia|]. split; [lia|]. split; [lia|].
      split; [exact F8|]. split; [exact F9 | exact F10].
Qed.

(** ** One call of [EmitNode] *)

Lemma EmitNode_emits (k : nat) :
  forall n, (size n <= k)%nat -> no_null n -> emits_subtree m n.
Proof.
  induction k as [|k IHk]; intros n Hk Hnn;
    [pose proof (size_pos n); lia|].
  destruct n as [name meshes children].
  apply no_null_inv in Hnn as [Hsome Hkids].
  rewrite size_eq in Hk.
  intros parent st idx st' (Hr1 & Hr2 & Hr3) E.
  rewrite size_eq in Hr1, Hr2. rewrite mesh_refs_eq in Hr3.
  pose proof (forest_size_ge_length children Hsome) as Hfl.
  cbn [EmitNode] in E.
  destruct (Strings.add name (strings st)) as [nameStrOffset strings1].
  destruct (push_mesh_spec meshes (nodePrimitiveIndices st) 0)
    as (own & Eown & Hlo & Hvo); [lia | unfold len in *; lia |].
  rewrite Eown in E. rewrite Z.add_0_l in E.
  set (N := len (nodeRecords st)) in *.
  set (C := len (nodeChildIndices st)) in *.
  set (P := len (nodePrimitiveIndices st)) in *.
  assert (0 <= N /\ 0 <= C /\ 0 <= P) as (HN & HC & HP) by (unfold N, C, P, len; lia).
  rewrite (wrap32_small N) in E by lia.
  rewrite (wrap32_small P) in E by lia.
  cbn [nodeChildIndices nodeRecords nodePrimitiveIndices] in E. fold C in E.
  assert ((if parent =? UINT32_MAX then UINT32_MAX else parent) = parent) as Epar
    by (destruct (Z.eqb_spec parent UINT32_MAX); congruence).
  rewrite Epar in E.
  destruct (Z.gtb_spec (len children) 0) as [Hch|Hch].
  - rewrite (wrap32_small C) in E by lia.
    rewrite (wrap32_small (len children)) in E by (unfold len in *; lia).
    replace (Z.to_nat (len children)) with (length children) in E
      by (unfold len; lia).
    set (slots := repeat UINT32_MAX (length children)) in *.
    set (reserved := with_nodeChildIndices _ _) in E.
    destruct (emit_children_spec N C (nodeRecords st) (nodeChildIndices st)
                (nodePrimitiveIndices st ++ own) eq_refl eq_refl
                children 0%nat reserved [] [] [] slots)
      as (R' & K' & Q' & slots' & F1 & F2 & F3 & F4 & F5 & F6 & F7 & F8 & F9 & F10).
    + intros c Hc. apply IHk; [|by apply Hkids].
      pose proof (child_size_le c children Hc). lia.
    + done.
    + done.
    + subst reserved. cbn [with_nodeChildIndices nodeChildIndices].
      by rewrite app_nil_r.
    + subst reserved. cbn [with_nodeChildIndices nodePrimitiveIndices].
      by rewrite app_nil_r.
    + subst slots. rewrite repeat_length. lia.
    + done.
    + intros j r Hj. done.
    + intros k' Hk'. lia.
    + constructor.
    + unfold len. cbn [length]. lia.
    + subst slots. unfold len in *. rewrite repeat_length. cbn [length]. lia.
    + unfold len in *. rewrite length_app. cbn [length]. lia.
    + cbv zeta in F1, F2, F3. change (Z.of_nat 0) with 0 in F1, F2, F3.
      cbn [length] in F5, F6, F7. rewrite Nat.add_0_l in F5, F6, F7, F9.
      assert (length slots' = length children) as Ls
        by (rewrite F4; subst slots; by rewrite repeat_length).
      assert (len slots = len children) as Ls'
        by (subst slots; unfold len; by rewrite repeat_length).
      rewrite Ls' in F8.
      injection E as <- <-. split; [done|].
      set (rec := {| NodeRecord.nameStrOffset := nameStrOffset;
                     parentIndex := parent; firstChildIndex := C;
                     childCount := len children; firstPrimitiveIndex := P;
                     primitiveCount := len own |}).
      exists (rec :: R'), (slots' ++ K'), (own ++ Q').
      cbn [with_nodeRecords nodeRecords nodeChildIndices nodePrimitiveIndices].
      rewrite F1, F2, F3.
      split; [|split; [done|split; [by rewrite <- app_assoc|]]].
      { replace (Z.to_nat N) with (length (nodeRecords st) + 0)%nat
          by (unfold N, len; lia).
        by rewrite insert_app_r. }
      split; [cbn [length]; rewrite size_eq; lia|].
      split; [cbn [length]; rewrite length_app; lia|].
      split; [rewrite length_app, mesh_refs_eq; lia|].
      split; [|by apply Forall_app].
      change (len (nodeRecords st)) with N.
      change (len (nodeChildIndices st)) with C.
      change (len (nodePrimitiveIndices st)) with P.
      intros j r Hj. destruct j as [|j].
      * injection Hj as <-. split; [done|]. split.
        -- right. subst rec.
           cbn [childCount firstChildIndex]. split; [done|].
           split; [lia|]. split; [unfold len; rewrite length_app; lia|].
           intros k' Hk'.
           destruct (F9 (Z.to_nat k') ltac:(unfold len in *; lia))
             as (c & r' & G1 & G2 & G3 & G4).
           exists c, r'. split; [|split; [lia|split; [|lia]]].
           ++ replace (C - C + k') with k' by lia. by apply lookup_app_l_Some.
           ++ replace (Z.to_nat (c - N)) with (S (Z.to_nat (c - (N + 1)))) by lia.
              exact G3.
        -- unfold primitive_range_ok. subst rec.
           cbn [firstPrimitiveIndex primitiveCount].
           unfold len. rewrite length_app. lia.
      * cbn [lookup list_lookup] in Hj. destruct (F8 j r Hj) as (P1 & P2 & P3).
        split; [|split].
        -- unfold forest_parent in P1. unfold subtree_parent. lia.
        -- pose proof (child_range_embed (N + 1) (C + len children) N C R' K' j r
                         [rec] [] slots' []
                         ltac:(unfold len; simpl; lia)
                         ltac:(unfold len in *; lia) P2) as P2'.
           rewrite !app_nil_r in P2'. exact P2'.
        -- pose proof (primitive_range_embed (len (nodePrimitiveIndices st ++ own))
                         P Q' own [] r
                         ltac:(unfold P, len; rewrite length_app; lia) P3) as P3'.
           by rewrite app_nil_r in P3'.
  - assert (children = []) as ->
      by (destruct children; [done | unfold len in Hch; simpl in Hch; lia]).
    injection E as <- <-. split; [done|].
    set (rec := {| NodeRecord.nameStrOffset := nameStrOffset;
                   parentIndex := parent; firstChildIndex := UINT32_MAX;
                   childCount := 0; firstPrimitiveIndex := P;
                   primitiveCount := len own |}).
    exists [rec], [], own.
    cbn [with_nodeRecords nodeRecords nodeChildIndices nodePrimitiveIndices].
    split; [|split; [by rewrite app_nil_r|split; [done|]]].
    { replace (Z.to_nat N) with (length (nodeRecords st) + 0)%nat
        by (unfold N, len; lia).
      by rewrite insert_app_r. }
    split; [done|]. split; [done|].
    split; [rewrite mesh_refs_eq; lia|]. split; [|done].
    change (len (nodeRecords st)) with N.
    change (len (nodeChildIndices st)) with C.
    change (len (nodePrimitiveIndices st)) with P.
    intros j r Hj. destruct j as [|j]; [|by destruct j].
    injection Hj as <-. split; [done|]. split; [by left|].
    unfold primitive_range_ok. subst rec.
    cbn [firstPrimitiveIndex primitiveCount]. unfold len. lia.
Qed.

(** ** The whole graph *)

Lemma EmitNode_root (root : aiNode) (st0 st : NodeTables) (idx : Z) :
  nodeRecords st0 = [] -> nodePrimitiveIndices st0 = [] ->
  nodeChildIndices st0 = [] ->
  no_null root ->
  Z.of_nat (size root) < 2 ^ 32 -> Z.of_nat (mesh_refs root) < 2 ^ 32 ->
  EmitNode m root UINT32_MAX st0 = (idx, st) ->
  idx = 0
  /\ length (nodeRecords st) = size root
  /\ length (nodeRecords st) = S (length (nodeChildIndices st))
  /\ table_ok (subtree_parent UINT32_MAX 0) 0 0 0
       (nodeRecords st) (nodeChildIndices st) (nodePrimitiveIndices st)
  /\ Forall (mapped_prim m) (nodePrimitiveIndices st).
Proof.
  intros E1 E2 E3 Hnn Hs Hr E.
  destruct (EmitNode_emits (size root) root (le_n _) Hnn UINT32_MAX st0 idx st)
    as (Hidx & recs & cs & ps & F1 & F2 & F3 & F4 & F5 & F6 & F7 & F8).
  - unfold room. rewrite E1, E2, E3. unfold len. simpl. lia.
  - done.
  - rewrite E1, E2, E3 in *. cbn [app] in F1, F2, F3. unfold len in *.
    cbn [length] in *. change (Z.of_nat 0) with 0 in F7.
    rewrite F1, F2, F3. done.
Qed.

(** X21. The node tables the cooker emits for a scene form a tree laid out
    parents first.  For a scene without null children and below [2^32]
    nodes and mesh references, [EmitNode] on the root returns index 0 and
    leaves one record per node and one child index per node but the root;
    record 0 has the root sentinel as parent and every other record a
    parent with a smaller index; a record without children has child count
    0 and the sentinel as first child, and a record with children has a
    child range inside the child-index table whose entries are later
    records naming it as their parent; every primitive range lies inside
    the primitive-index table, whose entries all come from the mesh to
    primitive map. *)
Theorem cooked_node_tables_form_a_tree
    (root : aiNode) (st0 st : NodeTables) (idx : Z) :
  nodeRecords st0 = [] -> nodePrimitiveIndices st0 = [] ->
  nodeChildIndices st0 = [] ->
  no_null root ->
  Z.of_nat (size root) < 2 ^ 32 -> Z.of_nat (mesh_refs root) < 2 ^ 32 ->
  EmitNode m root UINT32_MAX st0 = (idx, st) ->
  idx = 0
  /\ length (nodeRecords st) = size root
  /\ length (nodeRecords st) = S (length (nodeChildIndices st))
  /\ table_ok (subtree_parent UINT32_MAX 0) 0 0 0
       (nodeRecords st) (nodeChildIndices st) (nodePrimitiveIndices st)
  /\ Forall (mapped_prim m) (nodePrimitiveIndices st).
Proof. apply EmitNode_root. Qed.

(** X22. Cooked node graphs pass the node checks of the loader.  In a file
    whose header counts are the sizes of the emitted tables and whose node
    and node-primitive-index tables hold them, the latter inside the file,
    and whose primitive count exceeds every entry of the mesh to primitive
    map, the node loop of [LoadSModelFile] runs to its end: no parent, child
    range or primitive reference is reported, and no read leaves the
    buffer. *)
Theorem cooked_node_graph_passes_loader_checks
    (root : aiNode) (st0 st : NodeTables) (idx : Z)
    (mem : Memory) (uFileSize : Z) :
  nodeRecords st0 = [] -> nodePrimitiveIndices st0 = [] ->
  nodeChildIndices st0 = [] ->
  no_null root ->
  Z.of_nat (size root) < 2 ^ 32 -> Z.of_nat (mesh_refs root) < 2 ^ 32 ->
  EmitNode m root UINT32_MAX st0 = (idx, st) ->
  let h := header_at_0 mem in
  nodeCount h = len (nodeRecords st) ->
  nodePrimitiveIndexCount h = len (nodePrimitiveIndices st) ->
  (forall p, In p m -> p < SModel.primitiveCount h) ->
  (forall i r, nodeRecords st !! i = Some r ->
     node_at mem (nodesOffset h + Z.of_nat i * sizeof_SModelNodeRecord) = r) ->
  (forall k p, nodePrimitiveIndices st !! k = Some p ->
     u32_at mem (nodePrimitiveIndicesOffset h + Z.of_nat k * sizeof_uint32_t) = p) ->
  nodePrimitiveIndicesOffset h
  + len (nodePrimitiveIndices st) * sizeof_uint32_t <= uFileSize ->
  for_each (nodeCount h) (check_node mem uFileSize) = Pass.
Proof.
  intros E1 E2 E3 Hnn Hs Hr E h Hnc Hpc Hprim Hnodes Hnp Hfit.
  destruct (EmitNode_root root st0 st idx E1 E2 E3 Hnn Hs Hr E)
    as (_ & Hlen & Hlc & Htab & Hmapped).
  destruct (EmitNode_emits (size root) root (le_n _) Hnn UINT32_MAX st0 idx st)
    as (_ & _ & _ & ps & _ & _ & F3 & _ & _ & F6 & _);
    [unfold room; rewrite E1, E2, E3; unfold len; simpl; lia | done |].
  rewrite E2 in F3. cbn [app] in F3. rewrite <- F3 in F6. clear F3 ps.
  apply for_each_pass. intros i Hi. rewrite Hnc in Hi. unfold len in Hi.
  destruct (lookup_lt_is_Some_2 (nodeRecords st) (Z.to_nat i) ltac:(lia))
    as [r Hri].
  destruct (Htab _ r Hri) as (Hpar & Hchild & Hprange).
  assert (node_at mem (nodesOffset h + i * sizeof_SModelNodeRecord) = r) as Hnode
    by (rewrite <- (Hnodes _ r Hri), Z2Nat.id by lia; done).
  unfold check_node. fold h. rewrite Hnode, Hnc, Hpc. unfold len in *.
  unfold sizeof_uint32_t in *.
  assert (parentIndex r = UINT32_MAX \/ parentIndex r < Z.of_nat (length (nodeRecords st)))
    as Hpar'.
  { unfold subtree_parent in Hpar. destruct (Z.to_nat i) eqn:Ei; [by left | right; lia]. }
  assert (negb (parentIndex r =? UINT32_MAX)
          && (parentIndex r >=? Z.of_nat (length (nodeRecords st))) = false) as ->.
  { destruct (Z.eqb_spec (parentIndex r) UINT32_MAX); [done|]. cbn [negb andb].
    destruct (Z.geb_spec (parentIndex r) (Z.of_nat (length (nodeRecords st))));
      [lia | done]. }
  apply and_then_pass. split.
  - destruct Hchild as [[-> _]|(Hc & Hf & Hl & _)]; [done|].
    destruct (Z.gtb_spec (childCount r) 0); [|done].
    unfold len in Hl. unfold UINT32_MAX.
    destruct (Z.eqb_spec (firstChildIndex r) (2 ^ 32 - 1)); [lia|].
    rewrite wrap32_small by lia.
    destruct (Z.gtb_spec (firstChildIndex r + childCount r)
                (Z.of_nat (length (nodeRecords st)))); [lia | done].
  - destruct Hprange as (Hp1 & Hp2 & Hp3). unfold len in Hp3.
    destruct (Z.gtb_spec (primitiveCount r) 0) as [Hpos|]; [|done].
    rewrite wrap32_small by lia.
    destruct (Z.gtb_spec (firstPrimitiveIndex r + primitiveCount r)
                (Z.of_nat (length (nodePrimitiveIndices st)))); [lia|].
    apply for_each_pass. intros k Hk.
    unfold check_node_primitive, read_nodePrimitiveIndex. fold h.
    rewrite Hpc. rewrite wrap32_small by lia. unfold sizeof_uint32_t.
    destruct (Z.gtb_spec (Z.of_nat (length (nodePrimitiveIndices st))) 0); [|lia].
    destruct (Z.leb_spec (nodePrimitiveIndicesOffset h
                          + (firstPrimitiveIndex r + k) * 4 + 4) uFileSize); [|lia].
    destruct (lookup_lt_is_Some_2 (nodePrimitiveIndices st)
                (Z.to_nat (firstPrimitiveIndex r + k)) ltac:(lia)) as [p Hp].
    assert (u32_at mem (nodePrimitiveIndicesOffset h
                        + (firstPrimitiveIndex r + k) * 4) = p) as ->
      by (rewrite <- (Hnp _ p Hp), Z2Nat.id by lia; done).
    rewrite Forall_forall in Hmapped. apply list_elem_of_lookup_2 in Hp.
    apply Hmapped in Hp as [_ Hin]. apply Hprim in Hin.
    destruct (Z.geb_spec p (SModel.primitiveCount h)); [lia | done].
Qed.

End NodeGraph.

Lemma scene_emitted :
  Cooker.EmitNode Cooked.prim_of_mesh Cooked.scene UINT32_MAX Cooker.no_tables
  = (0, Cooked.scene_tables).
Proof. vm_compute. reflexivity. Qed.

Lemma scene_no_null : Cooker.no_null Cooked.scene.
Proof. simpl. tauto. Qed.

Lemma cooked_node_tables_form_a_tree_witness :
  length (Cooker.nodeRecords Cooked.scene_tables) = Cooker.size Cooked.scene
  /\ length (Cooker.nodeRecords Cooked.scene_tables)
     = S (length (Cooker.nodeChildIndices Cooked.scene_tables)).
Proof.
  destruct (cooked_node_tables_form_a_tree Cooked.prim_of_mesh Cooked.scene
              Cooker.no_tables Cooked.scene_tables 0)
    as (_ & H1 & H2 & _).
  - reflexivity.
  - reflexivity.
  - reflexivity.
  - apply scene_no_null.
  - vm_compute. reflexivity.
  - vm_compute. reflexivity.
  - apply scene_emitted.
  - split; [exact H1 | exact H2].
Defined.

Lemma cooked_node_graph_passes_loader_checks_witness :
  SModel.for_each (SModel.nodeCount (SModel.header_at_0 Cooked.scene_memory))
    (SModel.check_node Cooked.scene_memory 1100) = SModel.Pass.
Proof.
  apply (cooked_node_graph_passes_loader_checks Cooked.prim_of_mesh Cooked.scene
           Cooker.no_tables Cooked.scene_tables 0 Cooked.scene_memory 1100).
  - reflexivity.
  - reflexivity.
  - reflexivity.
  - apply scene_no_null.
  - vm_compute. reflexivity.
  - vm_compute. reflexivity.
  - apply scene_emitted.
  - vm_compute. reflexivity.
  - vm_compute. reflexivity.
  - intros p Hp. change (SModel.primitiveCount _) with 2.
    simpl in Hp. lia.
  - intros i r Hi.
    let v := eval vm_compute in (Cooker.nodeRecords Cooked.scene_tables) in
    change (Cooker.nodeRecords Cooked.scene_tables) with v in Hi.
    do 7 (destruct i as [|i]; [injection Hi as <-; vm_compute; reflexivity|]).
    discriminate Hi.
  - intros k p Hk.
    let v := eval vm_compute in (Cooker.nodePrimitiveIndices Cooked.scene_tables) in
    change (Cooker.nodePrimitiveIndices Cooked.scene_tables) with v in Hk.
    do 3 (destruct k as [|k]; [injection Hk as <-; vm_compute; reflexivity|]).
    discriminate Hk.
  - vm_compute. discriminate.
Defined.

(* ===================================================================== *)
(** * Node names, from the scene to the loaded view *)
(* ===================================================================== *)

Section NodeNames.
Import SModel Cooker NodeRecord.

Variable m : list Z.

Lemma stored_mono (table more : list ascii) (off : Z) (name : string) :
  stored table off name -> stored (table ++ more) off name.
Proof.
  intros [H|(Hoff & pre & post & -> & Hpre)]; [by left | right].
  split; [done|]. exists pre, (post ++ more). split; [|done].
  by rewrite <- !app_assoc.
Qed.

Lemma add_stored (name : string) (t t' : Strings.StringTable) (off : Z) :
  Strings.data t <> [] ->
  len (Strings.data t) < 2 ^ 32 ->
  Strings.add name t = (off, t') ->
  stored (Strings.data t') off name
  /\ exists more, Strings.data t' = Strings.data t ++ more
                  /\ length more = name_size name.
Proof.
  intros Hne Hb E. destruct name as [|c name]; cbn [Strings.add] in E.
  - injection E as <- <-. split; [by left|]. exists []. by rewrite app_nil_r.
  - injection E as <- <-. cbn [Strings.data].
    assert (0 < len (Strings.data t))
      by (unfold len; destruct (Strings.data t); [done | simpl; lia]).
    unfold len in *. rewrite wrap32_small by lia. split.
    + right. split; [done|]. exists (Strings.data t), []. split; [|done].
      by rewrite app_nil_r.
    + eexists. split; [done|]. cbn [length].
      rewrite length_app, length_list_ascii_of_string.
      cbn [length name_size String.length]. lia.
Qed.

Lemma forest_name_bytes_cons (c : option aiNode) (l : list (option aiNode)) :
  forest_name_bytes (c :: l) = (size_ptr name_bytes c + forest_name_bytes l)%nat.
Proof. reflexivity. Qed.

Lemma forest_names_cons (c : option aiNode) (l : list (option aiNode)) :
  forest_names (c :: l) = names_ptr names c ++ forest_names l.
Proof. reflexivity. Qed.

Lemma emit_children_names (T S0 : Z) :
  forall (rest : list (option aiNode)) (ci : Z) (st : NodeTables),
    (forall c, In (Some c) rest -> emits_names m c) ->
    names_room st (forest_size rest) (forest_name_bytes rest) ->
    let st' := emit_children (EmitNode m) T S0 rest ci st in
    exists recs more,
      nodeRecords st' = nodeRecords st ++ recs
      /\ Strings.data (strings st') = Strings.data (strings st) ++ more
      /\ length recs = forest_size rest
      /\ (length more <= forest_name_bytes rest)%nat
      /\ Forall2 (fun r name =>
                    stored (Strings.data (strings st')) (nameStrOffset r) name)
           recs (forest_names rest).
Proof.
  induction rest as [|c rest IH]; intros ci st Hsub (B1 & B2 & B3).
  - exists [], []. cbn [emit_children]. rewrite !app_nil_r.
    repeat split; done.
  - rewrite forest_size_cons in B1. rewrite forest_name_bytes_cons in B2.
    cbn [emit_children]. cbv zeta.
    destruct c as [n|].
    + cbn [size_ptr] in B1, B2.
      destruct (EmitNode m n T st) as [idx st1] eqn:E.
      destruct (Hsub n (or_introl eq_refl) T st idx st1)
        as (recs1 & more1 & E1 & E2 & L1 & L2 & F1);
        [unfold names_room; split; [lia|]; split; [lia | done] | done |].
      set (st2 := with_nodeChildIndices st1 _).
      destruct (IH (ci + 1) st2) as (recs2 & more2 & G1 & G2 & K1 & K2 & F2).
      * intros c Hc. apply Hsub. by right.
      * unfold names_room, st2. cbn [with_nodeChildIndices nodeRecords strings].
        rewrite E1, E2. unfold len in *. rewrite !length_app.
        split; [lia|]. split; [lia|]. by destruct (Strings.data (strings st)).
      * cbv zeta in G1, G2, F2.
        assert (nodeRecords st2 = nodeRecords st ++ recs1) as E1' by (by rewrite <- E1).
        assert (Strings.data (strings st2) = Strings.data (strings st) ++ more1)
          as E2' by (by rewrite <- E2).
        exists (recs1 ++ recs2), (more1 ++ more2).
        split; [by rewrite G1, E1', <- app_assoc|].
        split; [by rewrite G2, E2', <- app_assoc|].
        rewrite !length_app, forest_size_cons, forest_name_bytes_cons,
          forest_names_cons. cbn [size_ptr names_ptr].
        split; [lia|]. split; [lia|].
        apply Forall2_app; [|done].
        eapply Forall2_impl; [exact F1|]. intros r name Hs. cbn beta in Hs.
        rewrite G2. change (strings st2) with (strings st1).
        by apply stored_mono.
    + cbn [size_ptr] in B1, B2.
      set (st2 := with_nodeChildIndices st _).
      destruct (IH (ci + 1) st2) as (recs2 & more2 & G1 & G2 & K1 & K2 & F2).
      * intros c Hc. apply Hsub. by right.
      * unfold names_room, st2. cbn [with_nodeChildIndices nodeRecords strings].
        split; [lia|]. split; [lia | done].
      * exists recs2, more2. cbv zeta in G1, G2, F2.
        rewrite forest_size_cons, forest_name_bytes_cons, forest_names_cons.
        cbn [size_ptr names_ptr app]. done.
Qed.

Lemma child_in_forest (c : aiNode) (l : list (option aiNode)) :
  In (Some c) l -> (size c <= forest_size l)%nat.
Proof. apply child_size_le. Qed.

Lemma EmitNode_names (k : nat) :
  forall n, (size n <= k)%nat -> emits_names m n.
Proof.
  induction k as [|k IHk]; intros n Hk; [pose proof (size_pos n); lia|].
  destruct n as [name meshes children]. rewrite size_eq in Hk.
  intros parent st idx st' (B1 & B2 & B3) E.
  rewrite size_eq in B1.
  change (name_bytes (AiNode name meshes children))
    with (name_size name + forest_name_bytes children)%nat in B2 |- *.
  change (names (AiNode name meshes children))
    with (name :: forest_names children).
  rewrite size_eq.
  cbn [EmitNode] in E.
  destruct (Strings.add name (strings st)) as [nameStrOffset strings1] eqn:Eadd.
  destruct (add_stored name (strings st) strings1 nameStrOffset B3
              ltac:(unfold len in *; lia) Eadd)
    as (Hstored & more0 & Emore0 & Lmore0).
  destruct (fold_left (push_mesh m) meshes (nodePrimitiveIndices st, 0))
    as [np1 primitiveCount].
  set (N := len (nodeRecords st)) in *.
  assert (0 <= N) by (unfold N, len; lia).
  rewrite (wrap32_small N) in E by lia.
  set (st1 := {| nodeRecords := nodeRecords st ++ [zero_record];
                 nodePrimitiveIndices := np1;
                 nodeChildIndices := nodeChildIndices st;
                 strings := strings1 |}) in E.
  assert (exists firstChildIndex childCount st2 recs more,
            (idx, st')
            = (N, with_nodeRecords st2
                    (<[Z.to_nat N :=
                         {| NodeRecord.nameStrOffset := nameStrOffset;
                            parentIndex :=
                              if parent =? UINT32_MAX then UINT32_MAX else parent;
                            firstChildIndex := firstChildIndex;
                            childCount := childCount;
                            firstPrimitiveIndex :=
                              wrap32 (len (nodePrimitiveIndices st));
                            primitiveCount := primitiveCount |}]>
                       (nodeRecords st2)))
            /\ nodeRecords st2 = nodeRecords st1 ++ recs
            /\ Strings.data (strings st2) = Strings.data (strings st1) ++ more
            /\ length recs = forest_size children
            /\ (length more <= forest_name_bytes children)%nat
            /\ Forall2 (fun r name =>
                          stored (Strings.data (strings st2)) (NodeRecord.nameStrOffset r)
                            name)
                 recs (forest_names children))
    as (fci & cc & st2 & recs & more & Eres & G1 & G2 & K1 & K2 & F2).
  { destruct (Z.gtb_spec (len children) 0) as [Hch|Hch].
    - set (reserved := with_nodeChildIndices st1 _) in E.
      destruct (emit_children_names N (wrap32 (len (nodeChildIndices st1)))
                  children 0 reserved)
        as (recs & more & G1 & G2 & K1 & K2 & F2).
      + intros c Hc. apply IHk. pose proof (child_in_forest c children Hc). lia.
      + unfold names_room, reserved, st1.
        cbn [with_nodeChildIndices nodeRecords strings].
        rewrite Emore0. unfold len in *. rewrite !length_app. cbn [length].
        split; [lia|]. split; [lia|]. by destruct (Strings.data (strings st)).
      + cbv zeta in G1, G2, F2. eexists _, _, _, recs, more.
        split; [symmetry; exact E|]. done.
    - exists UINT32_MAX, 0, st1, [], [].
      split; [by symmetry|]. rewrite !app_nil_r.
      assert (children = []) as ->
        by (destruct children; [done | unfold len in Hch; simpl in Hch; lia]).
      repeat split; done. }
  injection Eres as -> ->.
  exists ({| NodeRecord.nameStrOffset := nameStrOffset;
             parentIndex := if parent =? UINT32_MAX then UINT32_MAX else parent;
             firstChildIndex := fci; childCount := cc;
             firstPrimitiveIndex := wrap32 (len (nodePrimitiveIndices st));
             primitiveCount := primitiveCount |} :: recs), (more0 ++ more).
  cbn [with_nodeRecords nodeRecords strings].
  rewrite G1, G2. cbn [st1 nodeRecords strings]. rewrite Emore0.
  split; [|split; [by rewrite <- app_assoc|]].
  { rewrite <- app_assoc. cbn [app].
    replace (Z.to_nat N) with (length (nodeRecords st) + 0)%nat
      by (unfold N, len; lia).
    by rewrite insert_app_r. }
  split; [cbn [length]; lia|].
  split; [rewrite length_app; lia|].
  constructor.
  - cbn [NodeRecord.nameStrOffset]. rewrite <- Emore0.
    by apply stored_mono.
  - eapply Forall2_impl; [exact F2|]. intros r nm Hs. cbn beta in Hs.
    rewrite G2 in Hs. cbn [st1 strings] in Hs. by rewrite Emore0 in Hs.
Qed.

Lemma getStringOrEmpty_stored
    (chars : Z -> ascii) (v : SModelFileView) (h : SModelHeader) (table : Z)
    (final : list ascii) (off : Z) (name : string) :
  View.deref v = Some h -> stringTable v = Some table ->
  stringTableSize h = len final -> len final < 2 ^ 32 ->
  Strings.holds chars table final ->
  Strings.no_NUL name -> stored final off name ->
  Strings.getStringOrEmpty chars v off = name.
Proof.
  intros Hd Ht Hsize Hlen Hh Hnn Hs. unfold Strings.getStringOrEmpty.
  rewrite Hd, Ht. destruct Hs as [[-> ->]|(Hoff & pre & post & -> & Hpre)]; [done|].
  unfold len in *. rewrite !length_app, length_list_ascii_of_string in Hsize, Hlen.
  cbn [length] in Hsize, Hlen.
  destruct (Z.eqb_spec off 0); [lia|].
  destruct (Z.geb_spec off (stringTableSize h)); [lia|].
  rewrite wrap64_small by lia.
  rewrite (c_string_stored chars name); [done | done | | lia].
  apply holds_app_r in Hh. rewrite Hpre in Hh.
  rewrite app_assoc in Hh. by apply holds_app_l in Hh.
Qed.

Lemma Forall2_with_Forall {A B : Type} (P Q : A -> B -> Prop) (R : B -> Prop)
    (l : list A) (k : list B) :
  Forall2 P l k -> Forall R k -> (forall x y, P x y -> R y -> Q x y) ->
  Forall2 Q l k.
Proof.
  intros F. induction F as [|x y l k Hxy _ IH]; intros HR Himp; [constructor|].
  apply Forall_cons in HR as [Hy HR]. constructor; [by apply Himp | by apply IH].
Qed.

(** X23. Node names survive cooking and loading.  For a scene below [2^32]
    nodes whose names hold no NUL, in a file whose string table starts with
    the table the cooker built (below [2^32] bytes), [getStringOrEmpty] at
    the name offset of the i-th node record returns the name of the i-th
    node of the scene in depth-first order, null children being skipped. *)
Theorem cooked_node_names_round_trip
    (root : aiNode) (st0 st : NodeTables) (idx : Z)
    (chars : Z -> ascii) (v : SModelFileView) (h : SModelHeader) (table : Z)
    (later : list ascii) :
  nodeRecords st0 = [] -> Strings.data (strings st0) <> [] ->
  Z.of_nat (size root) < 2 ^ 32 ->
  len (Strings.data (strings st0)) + Z.of_nat (name_bytes root) < 2 ^ 32 ->
  Forall Strings.no_NUL (names root) ->
  EmitNode m root UINT32_MAX st0 = (idx, st) ->
  View.deref v = Some h -> stringTable v = Some table ->
  stringTableSize h = len (Strings.data (strings st) ++ later) ->
  len (Strings.data (strings st) ++ later) < 2 ^ 32 ->
  Strings.holds chars table (Strings.data (strings st) ++ later) ->
  Forall2 (fun r name => Strings.getStringOrEmpty chars v (nameStrOffset r) = name)
    (nodeRecords st) (names root).
Proof.
  intros E0 Hne Hs Hb Hnn E Hd Ht Hsize Hlen Hh.
  destruct (EmitNode_names (size root) root (le_n _) UINT32_MAX st0 idx st)
    as (recs & more & E1 & E2 & L1 & L2 & F); [|done|].
  { unfold names_room. rewrite E0. unfold len in *. cbn [length].
    split; [lia|]. split; [lia | done]. }
  rewrite E0 in E1. cbn [app] in E1. rewrite E1.
  apply (Forall2_with_Forall _ _ Strings.no_NUL _ _ F Hnn).
  intros r name Hst Hn.
  apply (getStringOrEmpty_stored chars v h table
           (Strings.data (strings st) ++ later)); try done.
  by apply stored_mono.
Qed.

End NodeNames.

Lemma scene_holds :
  Strings.holds Cooked.scene_chars
    (SModel.stringTableOffset Cooked.scene_header)
    (Strings.data (Cooker.strings Cooked.scene_tables)).
Proof.
  intros i c Hi. unfold Cooked.scene_chars.
  replace (SModel.stringTableOffset Cooked.scene_header + Z.of_nat i
           - SModel.stringTableOffset Cooked.scene_header) with (Z.of_nat i) by lia.
  rewrite Nat2Z.id. by apply nth_lookup_Some.
Qed.

Lemma cooked_node_names_round_trip_witness :
  Forall2 (fun r name =>
             Strings.getStringOrEmpty Cooked.scene_chars Cooked.scene_view
               (SModel.NodeRecord.nameStrOffset r) = name)
    (Cooker.nodeRecords Cooked.scene_tables) (Cooker.names Cooked.scene).
Proof.
  apply (cooked_node_names_round_trip Cooked.prim_of_mesh Cooked.scene
           Cooker.no_tables Cooked.scene_tables 0 Cooked.scene_chars
           Cooked.scene_view Cooked.scene_header
           (SModel.stringTableOffset Cooked.scene_header) []).
  - reflexivity.
  - discriminate.
  - vm_compute. reflexivity.
  - vm_compute. reflexivity.
  - unfold Strings.no_NUL, Strings.NUL. simpl.
    repeat (constructor; [intros H; simpl in H; intuition discriminate|]).
    constructor.
  - apply scene_emitted.
  - reflexivity.
  - reflexivity.
  - vm_compute. reflexivity.
  - vm_compute. reflexivity.
  - rewrite app_nil_r. apply scene_holds.
Defined.

(* ===================================================================== *)
(** * Meshes: welding, writing and loading *)
(* ===================================================================== *)

Section Welding.
Import SMesh.
Context {Vertex Key : Type} `{Countable Key}.
Variable makeKey : Vertex -> Key.

Local Abbreviation St := (Welded (Vertex := Vertex) (Key := Key)).

Lemma represented_mono (st st' : St) (v : Vertex) (vi : Z) (more : list Vertex) :
  vertices st' = vertices st ++ more ->
  represented makeKey st v vi -> represented makeKey st' v vi.
Proof.
  intros E (Hvi & w & Hw & Hk). split; [done|]. exists w. split; [|done].
  rewrite E. by apply lookup_app_l_Some.
Qed.

Lemma weld_corner_spec (st : St) (seen : list Vertex) (v : Vertex) :
  weld_inv makeKey st ->
  NoDup (makeKey <$> vertices st) ->
  (length (vertices st) <= length seen)%nat ->
  Forall2 (represented makeKey st) seen (indices st) ->
  len seen < 2 ^ 32 ->
  let st' := weld_corner makeKey st v in
  weld_inv makeKey st'
  /\ NoDup (makeKey <$> vertices st')
  /\ (length (vertices st') <= length (seen ++ [v]))%nat
  /\ Forall2 (represented makeKey st') (seen ++ [v]) (indices st')
  /\ exists more, vertices st' = vertices st ++ more.
Proof.
  intros Hinv Hnd Hle Hrep Hb. cbv zeta. unfold weld_corner.
  destruct (remap st !! makeKey v) as [vi|] eqn:E.
  - cbn [remap vertices indices]. split; [done|]. split; [done|].
    split; [rewrite length_app; lia|]. split; [|by exists []; rewrite app_nil_r].
    apply Forall2_app; [done|]. constructor; [|constructor].
    apply Hinv in E as (Hvi & w & Hw & Hk). split; [done|]. by exists w.
  - assert (wrap32 (len (vertices st)) = len (vertices st)) as ->
      by (apply wrap32_small; unfold len in *; lia).
    cbn [remap vertices indices].
    split; [|split; [|split; [|split]]].
    + intros key vi. cbn [remap vertices]. destruct (decide (key = makeKey v)) as [->|Hne].
      * rewrite lookup_insert_eq. split.
        -- intros [= <-]. split; [unfold len; lia|]. exists v. split; [|done].
           unfold len. rewrite Nat2Z.id.
           by rewrite lookup_app_r, Nat.sub_diag by lia.
        -- intros (Hvi & w & Hw & Hk).
           destruct (decide (Z.to_nat vi < length (vertices st))%nat) as [Hlt|Hge].
           ++ rewrite lookup_app_l in Hw by done.
              assert (remap st !! makeKey v = Some vi) as E'
                by (apply Hinv; split; [done | by exists w]).
              congruence.
           ++ apply lookup_lt_Some in Hw. rewrite length_app in Hw. cbn in Hw.
              f_equal. unfold len. lia.
      * rewrite lookup_insert_ne by done. rewrite (Hinv key vi). split.
        -- intros (Hvi & w & Hw & Hk). split; [done|]. exists w.
           split; [by apply lookup_app_l_Some | done].
        -- intros (Hvi & w & Hw & Hk). split; [done|]. exists w. split; [|done].
           destruct (decide (Z.to_nat vi < length (vertices st))%nat) as [Hlt|Hge].
           ++ by rewrite lookup_app_l in Hw.
           ++ rewrite lookup_app_r in Hw by lia.
              destruct (Z.to_nat vi - length (vertices st))%nat; [|done].
              injection Hw as <-. done.
    + rewrite fmap_app. apply NoDup_app. split; [done|]. split.
      * intros key Hin Hin2. cbn [fmap list_fmap] in Hin2.
        apply list_elem_of_singleton in Hin2 as ->.
        apply list_elem_of_fmap in Hin as (w & Hk & Hw).
        apply list_elem_of_lookup in Hw as [i Hi].
        assert (remap st !! makeKey v = Some (Z.of_nat i)) as E'.
        { apply Hinv. split; [lia|]. exists w. rewrite Nat2Z.id. done. }
        congruence.
      * apply NoDup_singleton.
    + rewrite !length_app. cbn. lia.
    + apply Forall2_app.
      * eapply Forall2_impl; [exact Hrep|]. intros x y Hxy.
        by apply (represented_mono st _ x y [v]).
      * constructor; [|constructor]. split; [unfold len; lia|]. exists v.
        split; [|done]. cbn [vertices]. unfold len. rewrite Nat2Z.id.
        by rewrite lookup_app_r, Nat.sub_diag by lia.
    + by exists [v].
Qed.

Lemma weld_fold_spec (corners seen : list Vertex) (st : St) :
  weld_inv makeKey st ->
  NoDup (makeKey <$> vertices st) ->
  (length (vertices st) <= length seen)%nat ->
  Forall2 (represented makeKey st) seen (indices st) ->
  len (seen ++ corners) < 2 ^ 32 ->
  let st' := fold_left (weld_corner makeKey) corners st in
  weld_inv makeKey st'
  /\ NoDup (makeKey <$> vertices st')
  /\ (length (vertices st') <= length (seen ++ corners))%nat
  /\ Forall2 (represented makeKey st') (seen ++ corners) (indices st').
Proof.
  revert seen st. induction corners as [|v corners IH]; intros seen st Hinv Hnd Hle Hrep Hb.
  - cbn [fold_left]. by rewrite app_nil_r.
  - cbn [fold_left]. cbv zeta.
    destruct (weld_corner_spec st seen v Hinv Hnd Hle Hrep) as (I1 & I2 & I3 & I4 & _).
    { unfold len in *. rewrite length_app in Hb. lia. }
    replace (seen ++ v :: corners) with ((seen ++ [v]) ++ corners)
      by (by rewrite <- app_assoc).
    apply IH; try done. by rewrite <- app_assoc.
Qed.

(** X24. Welding keeps the mesh and leaves no duplicate.  After the corner
    loop of [convertObjToSMesh] over fewer than [2^32] corners, there is one
    index per corner, each index names a vertex whose key is the key of the
    corner, no two vertices have the same key, the map holds exactly the
    keys of the vertices with their indices, and there are no more vertices
    than corners. *)
Theorem welding_represents_every_corner (corners : list Vertex) :
  len corners < 2 ^ 32 ->
  let st := weld makeKey corners in
  Forall2 (represented makeKey st) corners (indices st)
  /\ NoDup (makeKey <$> vertices st)
  /\ weld_inv makeKey st
  /\ (length (vertices st) <= length corners)%nat.
Proof.
  intros Hb. cbv zeta. unfold weld.
  destruct (weld_fold_spec corners [] (nothing_welded (Vertex := Vertex)))
    as (I1 & I2 & I3 & I4).
  - intros key vi. cbn [remap vertices nothing_welded]. rewrite lookup_empty.
    split; [done|]. intros (_ & w & Hw & _). done.
  - constructor.
  - done.
  - constructor.
  - done.
  - done.
Qed.

End Welding.

Lemma welding_represents_every_corner_witness :
  SMesh.indices (SMesh.weld (fun v : Z => v mod 10) [1; 11; 2; 21; 13; 3])
  = [0; 0; 1; 0; 2; 2]
  /\ NoDup ((fun v : Z => v mod 10)
              <$> SMesh.vertices (SMesh.weld (fun v : Z => v mod 10)
                                    [1; 11; 2; 21; 13; 3])).
Proof.
  destruct (welding_represents_every_corner (fun v : Z => v mod 10)
              [1; 11; 2; 21; 13; 3]) as (_ & H & _).
  - vm_compute. reflexivity.
  - split; [vm_compute; reflexivity | exact H].
Defined.


Section MeshFiles.
Import SMesh.

(** ** Bytes *)

Lemma decode_encode_u32 (x : Z) : 0 <= x < 2 ^ 32 -> decode_u32 (encode_u32 x) = x.
Proof.
  intros H. unfold decode_u32, encode_u32. cbn [nth].
  Z.div_mod_to_equations. lia.
Qed.

Lemma nth_is_byte (l : list Z) (i : nat) : Forall is_byte l -> is_byte (nth i l 0).
Proof.
  intros Hl. destruct (nth_in_or_default i l 0) as [Hin| ->]; [|unfold is_byte; lia].
  rewrite Forall_forall in Hl. apply Hl. by apply list_elem_of_In.
Qed.

Lemma decode_u32_range (b : list Z) : Forall is_byte b -> 0 <= decode_u32 b < 2 ^ 32.
Proof.
  intros Hb. unfold decode_u32.
  pose proof (nth_is_byte b 0 Hb). pose proof (nth_is_byte b 1 Hb).
  pose proof (nth_is_byte b 2 Hb). pose proof (nth_is_byte b 3 Hb).
  unfold is_byte in *. lia.
Qed.

Lemma slice_is_byte (off n : Z) (b : list Z) :
  Forall is_byte b -> Forall is_byte (slice off n b).
Proof. intros Hb. unfold slice. by apply Forall_take, Forall_drop. Qed.

Lemma len_slice (off n : Z) (b : list Z) :
  0 <= off -> 0 <= n -> off + n <= len b -> len (slice off n b) = n.
Proof.
  intros Ho Hn Hb. unfold slice, len in *. rewrite length_take, length_drop. lia.
Qed.

Lemma len_slice_le (off n : Z) (b : list Z) :
  0 <= off -> 0 <= n -> len (slice off n b) = Z.min n (Z.max 0 (len b - off)).
Proof.
  intros Ho Hn. unfold slice, len in *. rewrite length_take, length_drop. lia.
Qed.

Lemma len_resize (n : Z) (v : list Z) : 0 <= n -> len (resize n v) = n.
Proof.
  intros Hn. unfold resize, len. rewrite length_app, length_take, repeat_length. lia.
Qed.

Lemma drop_all_len (l d : list Z) : len l = len d -> drop (length l) d = [].
Proof. intros E. apply drop_ge. unfold len in E. lia. Qed.

Lemma len_image_u32 (v : list Z) : len (image_u32 v) = len v * 4.
Proof.
  unfold image_u32, len. induction v as [|x v IH]; [done|].
  cbn [map concat]. rewrite length_app. cbn [length encode_u32] in *. lia.
Qed.

Lemma len_image_u16 (v : list Z) : len (image_u16 v) = len v * 2.
Proof.
  unfold image_u16, len. induction v as [|x v IH]; [done|].
  cbn [map concat]. rewrite length_app. cbn [length encode_u16] in *. lia.
Qed.

(** The header fields of a file of bytes are 32-bit values. *)
Lemma header_fields_range (b : list Z) :
  Forall is_byte b ->
  let hdr := header_of_bytes b in
  0 <= Header.vertexCount hdr < 2 ^ 32 /\ 0 <= Header.indexCount hdr < 2 ^ 32
  /\ 0 <= Header.vertexStride hdr < 2 ^ 32 /\ 0 <= Header.indexFormat hdr < 2 ^ 32
  /\ 0 <= Header.vertexDataOffset hdr < 2 ^ 32
  /\ 0 <= Header.indexDataOffset hdr < 2 ^ 32.
Proof.
  intros Hb. cbv zeta. unfold header_of_bytes.
  cbn [Header.vertexCount Header.indexCount Header.vertexStride Header.indexFormat
       Header.vertexDataOffset Header.indexDataOffset].
  repeat split; apply decode_u32_range, slice_is_byte, Hb.
Qed.

(** ** The loader *)

Lemma LoadSMeshV0FromFile_spec (bytes : list Z) (out : MeshData) :
  Forall is_byte bytes -> len bytes < 2 ^ 63 ->
  (accepted bytes ->
     LoadSMeshV0FromFile (Some bytes) out = (true, loaded bytes out))
  /\ (~ accepted bytes -> LoadSMeshV0FromFile (Some bytes) out = (false, out)).
Proof.
  intros Hb Hlen. unfold accepted, loaded, LoadSMeshV0FromFile, fread_exact.
  unfold file_size, fseek_set. cbn [content position]. unfold sizeof_SMeshHeaderV0.
  rewrite (len_slice_le 0 48 bytes) by lia.
  assert (0 <= len bytes) as Hnn by (unfold len; lia).
  destruct (Z.eqb_spec (Z.min 48 (Z.max 0 (len bytes - 0))) 48) as [E48|E48];
    cbn [negb]; [|split; [lia | done]].
  assert (48 <= len bytes) as H48 by lia.
  assert (slice 0 48 bytes ++ drop (length (slice 0 48 bytes)) (repeat 0 48)
          = slice 0 48 bytes) as ->.
  { rewrite drop_all_len, app_nil_r; [done|].
    rewrite len_slice by lia. unfold len. by rewrite repeat_length. }
  pose proof (header_fields_range (slice 0 48 bytes) (slice_is_byte 0 48 bytes Hb))
    as (R1 & R2 & R3 & R4 & R5 & R6).
  set (hdr := header_of_bytes (slice 0 48 bytes)) in *.
  destruct (Z.eqb_spec (Header.vertexStride hdr) 32) as [Es|Es];
    cbn [negb]; [|split; [lia | done]].
  destruct (Z.gtb_spec (Header.indexFormat hdr) 1) as [Ef|Ef];
    [split; [lia | done]|].
  rewrite Es.
  set (isz := if Header.indexFormat hdr =? 0 then 2 else 4).
  assert (isz = 2 \/ isz = 4) as Hisz
    by (unfold isz; destruct (Header.indexFormat hdr =? 0); lia).
  rewrite (wrap64_small (Header.vertexCount hdr * 32)) by lia.
  rewrite (wrap64_small (Header.indexCount hdr * isz)) by lia.
  rewrite !wrap64_small by lia.
  destruct (Z.gtb_spec (Header.vertexDataOffset hdr + Header.vertexCount hdr * 32)
              (len bytes)) as [Ev|Ev]; cbn [orb]; [split; [lia | done]|].
  destruct (Z.gtb_spec (Header.indexDataOffset hdr + Header.indexCount hdr * isz)
              (len bytes)) as [Ei|Ei]; cbn [orb]; [split; [lia | done]|].
  split; [intros _ | intros Hna; exfalso; apply Hna; lia].
  rewrite len_resize by lia.
  set (vb := slice (Header.vertexDataOffset hdr) (Header.vertexCount hdr * 32) bytes).
  assert (len vb = Header.vertexCount hdr * 32) as Lvb by (apply len_slice; lia).
  rewrite Lvb, Z.eqb_refl. cbn [negb].
  rewrite drop_all_len, app_nil_r by (rewrite len_resize by lia; done).
  cbn [indices32 indices16 vertexCount indexCount vertexStride indexFormat
       aabbMin aabbMax].
  destruct (Z.eqb_spec (Header.indexFormat hdr) 1) as [E1|E1].
  - assert (isz = 4) as -> by (unfold isz; rewrite E1; done).
    rewrite len_resize by lia.
    set (ib := slice (Header.indexDataOffset hdr) (Header.indexCount hdr * 4) bytes).
    assert (len ib = Header.indexCount hdr * 4) as Lib by (apply len_slice; lia).
    rewrite Lib, Z.eqb_refl.
    rewrite drop_all_len, app_nil_r
      by (rewrite len_image_u32, len_resize by lia; done).
    pose proof (len_resize (Header.indexCount hdr) (indices32 out)) as Lr.
    unfold len in Lr.
    by replace (length (resize (Header.indexCount hdr) (indices32 out)))
      with (Z.to_nat (Header.indexCount hdr)) by lia.
  - assert (Header.indexFormat hdr = 0) as E0 by lia.
    assert (isz = 2) as -> by (unfold isz; rewrite E0; done).
    rewrite len_resize by lia.
    set (ib := slice (Header.indexDataOffset hdr) (Header.indexCount hdr * 2) bytes).
    assert (len ib = Header.indexCount hdr * 2) as Lib by (apply len_slice; lia).
    rewrite Lib, Z.eqb_refl.
    rewrite drop_all_len, app_nil_r
      by (rewrite len_image_u16, len_resize by lia; done).
    pose proof (len_resize (Header.indexCount hdr) (indices16 out)) as Lr.
    unfold len in Lr.
    by replace (length (resize (Header.indexCount hdr) (indices16 out)))
      with (Z.to_nat (Header.indexCount hdr)) by lia.
Qed.

Lemma accepted_dec (bytes : list Z) : accepted bytes \/ ~ accepted bytes.
Proof.
  unfold accepted. cbv zeta.
  set (hdr := header_of_bytes (slice 0 48 bytes)).
  destruct (Z_le_dec 48 (len bytes)); [|right; tauto].
  destruct (Z.eq_dec (Header.vertexStride hdr) 32); [|right; tauto].
  destruct (Z_le_dec (Header.indexFormat hdr) 1); [|right; tauto].
  destruct (Z_le_dec (Header.vertexDataOffset hdr + Header.vertexCount hdr * 32)
              (len bytes)); [|right; tauto].
  destruct (Z_le_dec (Header.indexDataOffset hdr
                      + Header.indexCount hdr
                        * (if Header.indexFormat hdr =? 0 then 2 else 4))
              (len bytes)); [left; tauto | right; tauto].
Qed.

(** X25. Loading a mesh is all or nothing, and no read can fail once the
    header checks have passed.  On a file of fewer than [2^63] bytes,
    [LoadSMeshV0FromFile] returns true exactly when the file holds a
    48-byte header with stride 32 and index format 0 or 1 whose vertex and
    index ranges end within the file; [out] then holds the header fields,
    the vertex bytes and the indices of the declared format, the index
    vector of the other format being left as it was.  In every other case,
    a missing file included, it returns false and [out] is untouched. *)
Theorem smesh_load_is_all_or_nothing (file : option (list Z)) (out : MeshData) :
  (forall bytes, file = Some bytes -> Forall is_byte bytes /\ len bytes < 2 ^ 63) ->
  let result := LoadSMeshV0FromFile file out in
  (fst result = true ->
     exists bytes, file = Some bytes /\ accepted bytes
                   /\ snd result = loaded bytes out)
  /\ (fst result = false ->
        snd result = out /\ forall bytes, file = Some bytes -> ~ accepted bytes).
Proof.
  intros Hfile. cbv zeta. destruct file as [bytes|].
  - destruct (Hfile bytes eq_refl) as [Hb Hlen].
    destruct (LoadSMeshV0FromFile_spec bytes out Hb Hlen) as [Hyes Hno].
    destruct (accepted_dec bytes) as [Ha|Ha].
    + rewrite (Hyes Ha). cbn [fst snd]. split; [|done].
      intros _. by exists bytes.
    + rewrite (Hno Ha). cbn [fst snd]. split; [done|].
      intros _. split; [done|]. by intros ? [= <-].
  - cbn. split; [done|]. intros _. split; [done|]. done.
Qed.

(** ** Writing *)

Lemma memcpy_over (pre old post src : list Z) (n : Z) :
  len old = n -> len src = n ->
  memcpy (pre ++ old ++ post) (len pre) src n = Some (pre ++ src ++ post).
Proof.
  intros Ho Hs. unfold memcpy, len in *.
  rewrite !length_app.
  destruct (Z.leb_spec (Z.of_nat (length pre) + n)
              (Z.of_nat (length pre + (length old + length post)))); [|lia].
  destruct (Z.leb_spec n (Z.of_nat (length src))); [|lia]. cbn [andb].
  rewrite Nat2Z.id. rewrite take_app_length.
  rewrite take_ge by lia.
  replace (Z.to_nat (Z.of_nat (length pre) + n)) with (length (pre ++ old))
    by (rewrite length_app; lia).
  rewrite (app_assoc pre old post). by rewrite drop_app_length.
Qed.

Lemma len_concat_vertices (vs : list (list Z)) :
  Forall (fun v => len v = sizeof_VertexPNUT /\ Forall is_byte v) vs ->
  len (concat vs) = len vs * 32 /\ Forall is_byte (concat vs).
Proof.
  induction 1 as [|v vs [Hv Hb] _ [IH1 IH2]]; [by split|].
  cbn [concat]. unfold len, sizeof_VertexPNUT in *. rewrite length_app.
  cbn [length]. split; [lia | by apply Forall_app].
Qed.

Lemma encode_u32_bytes (x : Z) : Forall is_byte (encode_u32 x).
Proof.
  unfold encode_u32, is_byte.
  repeat constructor; apply Z.mod_pos_bound; lia.
Qed.

Lemma image_u32_bytes (v : list Z) : Forall is_byte (image_u32 v).
Proof.
  unfold image_u32. induction v as [|x v IH]; [constructor|].
  cbn [map concat]. apply Forall_app. split; [apply encode_u32_bytes | done].
Qed.

Lemma decode_image_u32 (v rest : list Z) :
  Forall (fun i => 0 <= i < 2 ^ 32) v ->
  decode_all decode_u32 4 (length v) (image_u32 v ++ rest) = v.
Proof.
  unfold image_u32. induction 1 as [|x v Hx _ IH]; [done|].
  cbn [map concat length decode_all]. rewrite <- app_assoc.
  change (take 4 (encode_u32 x ++ concat (map encode_u32 v) ++ rest))
    with (encode_u32 x).
  change (drop 4 (encode_u32 x ++ concat (map encode_u32 v) ++ rest))
    with (concat (map encode_u32 v) ++ rest).
  by rewrite decode_encode_u32, IH.
Qed.

Lemma slice_at (pre x post : list Z) (off n : Z) :
  len pre = off -> len x = n -> slice off n (pre ++ x ++ post) = x.
Proof.
  intros <- <-. unfold slice, len. rewrite !Nat2Z.id.
  rewrite drop_app_length. by rewrite take_app_length.
Qed.

Ltac explode l H :=
  do 12 (destruct l as [|? l]; [discriminate H|]);
  destruct l; [|discriminate H].

(** The header a 48-byte image represents is the header that was stored. *)
Lemma header_of_header_bytes (h : Header.SMeshHeaderV0) (rest : list Z) :
  0 <= Header.vertexCount h < 2 ^ 32 -> 0 <= Header.indexCount h < 2 ^ 32 ->
  0 <= Header.vertexStride h < 2 ^ 32 -> 0 <= Header.indexFormat h < 2 ^ 32 ->
  0 <= Header.vertexDataOffset h < 2 ^ 32 ->
  0 <= Header.indexDataOffset h < 2 ^ 32 ->
  length (Header.aabbMin h) = 12%nat -> length (Header.aabbMax h) = 12%nat ->
  len (header_bytes h) = 48
  /\ header_of_bytes (slice 0 48 (header_bytes h ++ rest)) = h.
Proof.
  intros R1 R2 R3 R4 R5 R6 Hmin Hmax.
  destruct h as [vc ic vs fmt mn mx vo io]. cbn [Header.vertexCount
    Header.indexCount Header.vertexStride Header.indexFormat
    Header.aabbMin Header.aabbMax Header.vertexDataOffset Header.indexDataOffset] in *.
  explode mn Hmin. explode mx Hmax.
  split; [reflexivity|].
  unfold header_bytes, header_of_bytes, slice.
  cbn [Header.vertexCount Header.indexCount Header.vertexStride Header.indexFormat
       Header.aabbMin Header.aabbMax Header.vertexDataOffset Header.indexDataOffset].
  change (Z.to_nat 0) with 0%nat. change (Z.to_nat 4) with 4%nat.
  change (Z.to_nat 8) with 8%nat. change (Z.to_nat 12) with 12%nat.
  change (Z.to_nat 16) with 16%nat. change (Z.to_nat 28) with 28%nat.
  change (Z.to_nat 40) with 40%nat. change (Z.to_nat 44) with 44%nat.
  change (Z.to_nat 48) with 48%nat.
  unfold encode_u32. cbn [app take drop]. rewrite ?take_0.
  fold (encode_u32 vc). fold (encode_u32 ic). fold (encode_u32 vs).
  fold (encode_u32 fmt). fold (encode_u32 vo). fold (encode_u32 io).
  by rewrite !decode_encode_u32.
Qed.

Lemma header_bytes_are_bytes (h : Header.SMeshHeaderV0) :
  Forall is_byte (Header.aabbMin h) -> Forall is_byte (Header.aabbMax h) ->
  Forall is_byte (header_bytes h).
Proof.
  intros Hmin Hmax. unfold header_bytes.
  repeat (apply Forall_app; split); try apply encode_u32_bytes; done.
Qed.

Lemma build_blob_exact (vertices : list (list Z)) (indices aabbMin aabbMax : list Z) :
  vertices <> [] -> indices <> [] ->
  Forall (fun v => len v = sizeof_VertexPNUT /\ Forall is_byte v) vertices ->
  length aabbMin = 12%nat -> length aabbMax = 12%nat ->
  48 + len vertices * 32 + len indices * 4 < 2 ^ 32 ->
  build_blob vertices indices aabbMin aabbMax
  = Blob (header_bytes
            {| Header.vertexCount := len vertices;
               Header.indexCount := len indices;
               Header.vertexStride := 32; Header.indexFormat := 1;
               Header.aabbMin := aabbMin; Header.aabbMax := aabbMax;
               Header.vertexDataOffset := 48;
               Header.indexDataOffset := 48 + len vertices * 32 |}
          ++ concat vertices ++ image_u32 indices).
Proof.
  intros Hv Hi Hvs Hmin Hmax Hb.
  destruct (len_concat_vertices vertices Hvs) as [LV _].
  pose proof (len_image_u32 indices) as LI.
  assert (0 <= len vertices /\ 0 <= len indices) as [] by (unfold len; lia).
  unfold build_blob.
  destruct vertices as [|v0 vs0]; [done|]. destruct indices as [|i0 is0]; [done|].
  set (vertices := v0 :: vs0) in *. set (indices := i0 :: is0) in *.
  unfold sizeof_VertexPNUT, sizeof_SMeshHeaderV0.
  rewrite (wrap32_small (len vertices)) by lia.
  rewrite (wrap32_small (len indices)) by lia.
  rewrite (wrap32_small (len vertices * 32)) by lia.
  rewrite (wrap32_small (len indices * 4)) by lia.
  rewrite (wrap32_small (48 + len vertices * 32)) by lia.
  rewrite (wrap32_small (48 + len vertices * 32 + len indices * 4)) by lia.
  set (hdr := {| Header.vertexCount := len vertices |}).
  assert (len (header_bytes hdr) = 48) as LH.
  { destruct (header_of_header_bytes hdr []) as [LH _]; cbn; try lia; done. }
  replace (Z.to_nat (48 + len vertices * 32 + len indices * 4))
    with (48 + (Z.to_nat (len vertices * 32) + Z.to_nat (len indices * 4)))%nat
    by lia.
  rewrite !repeat_app.
  set (Z48 := repeat 0 48). set (ZV := repeat 0 (Z.to_nat (len vertices * 32))).
  set (ZI := repeat 0 (Z.to_nat (len indices * 4))).
  assert (len Z48 = 48) by (unfold len, Z48; by rewrite repeat_length).
  assert (len ZV = len vertices * 32) by (unfold ZV, len; rewrite repeat_length; lia).
  assert (len ZI = len indices * 4) by (unfold ZI, len; rewrite repeat_length; lia).
  pose proof (memcpy_over [] Z48 (ZV ++ ZI) (header_bytes hdr) 48) as M1.
  cbn [app] in M1. change (len []) with 0 in M1. rewrite M1 by done.
  cbn [Header.vertexDataOffset Header.indexDataOffset hdr].
  pose proof (memcpy_over (header_bytes hdr) ZV ZI (concat vertices)
                (len vertices * 32)) as M2.
  rewrite LH in M2. rewrite M2 by done.
  pose proof (memcpy_over (header_bytes hdr ++ concat vertices) ZI []
                (image_u32 indices) (len indices * 4)) as M3.
  assert (len (header_bytes hdr ++ concat vertices) = 48 + len vertices * 32)
    as LHV by (unfold len in *; rewrite length_app; lia).
  rewrite LHV in M3. rewrite !app_nil_r in M3. rewrite <- !app_assoc in M3.
  rewrite M3 by done. done.
Qed.

(** X26. A mesh written by [ObjToSmesh] loads back unchanged.  For vertices
    of 32 bytes each, 32-bit indices and a file below 4 GiB, the blob the
    converter hands to [writeBinary] is the header followed by the vertex
    data and the index data, and [LoadSMeshV0FromFile] on it returns true
    with the counts, the boxes, the vertex bytes and the indices that were
    written. *)
Theorem obj_to_smesh_round_trip
    (vertices : list (list Z)) (indices aabbMin aabbMax : list Z) (out : MeshData) :
  vertices <> [] -> indices <> [] ->
  Forall (fun v => len v = sizeof_VertexPNUT /\ Forall is_byte v) vertices ->
  Forall (fun i => 0 <= i < 2 ^ 32) indices ->
  length aabbMin = 12%nat -> length aabbMax = 12%nat ->
  Forall is_byte aabbMin -> Forall is_byte aabbMax ->
  48 + len vertices * 32 + len indices * 4 < 2 ^ 32 ->
  exists blob,
    build_blob vertices indices aabbMin aabbMax = Blob blob
    /\ len blob = 48 + len vertices * 32 + len indices * 4
    /\ LoadSMeshV0FromFile (Some blob) out
       = (true,
          {| vertexBytes := concat vertices;
             indices32 := indices;
             indices16 := indices16 out;
             vertexCount := len vertices;
             indexCount := len indices;
             vertexStride := 32;
             indexFormat := 1;
             aabbMin := aabbMin;
             aabbMax := aabbMax |}).
Proof.
  intros Hv Hi Hvs His Hmin Hmax Bmin Bmax Hb.
  destruct (len_concat_vertices vertices Hvs) as [LV BV].
  pose proof (len_image_u32 indices) as LI.
  assert (0 <= len vertices /\ 0 <= len indices) as [] by (unfold len; lia).
  rewrite (build_blob_exact vertices indices aabbMin aabbMax) by done.
  set (hdr := {| Header.vertexCount := len vertices |}).
  assert (len (header_bytes hdr) = 48
          /\ header_of_bytes
               (slice 0 48 (header_bytes hdr ++ concat vertices ++ image_u32 indices))
             = hdr) as [LH EH].
  { apply header_of_header_bytes; cbn; try lia; done. }
  set (blob := header_bytes hdr ++ concat vertices ++ image_u32 indices) in *.
  assert (len blob = 48 + len vertices * 32 + len indices * 4) as LB
    by (unfold blob, len in *; rewrite !length_app; lia).
  exists blob. split; [done|]. split; [done|].
  assert (Forall is_byte blob) as BB.
  { unfold blob. apply Forall_app. split; [by apply header_bytes_are_bytes|].
    apply Forall_app. split; [done | apply image_u32_bytes]. }
  destruct (LoadSMeshV0FromFile_spec blob out BB ltac:(lia)) as [Hyes _].
  rewrite Hyes.
  - f_equal. unfold loaded. rewrite EH.
    cbn [Header.vertexCount Header.indexCount Header.vertexStride
         Header.indexFormat Header.aabbMin Header.aabbMax
         Header.vertexDataOffset Header.indexDataOffset hdr]. cbn [Z.eqb Pos.eqb].
    f_equal.
    + unfold blob. by apply slice_at.
    + unfold blob. rewrite app_assoc.
      rewrite <- (app_nil_r (image_u32 indices)) at 1.
      rewrite (slice_at (header_bytes hdr ++ concat vertices) (image_u32 indices) []
                 (48 + len vertices * 32) (len indices * 4));
        [|unfold len in *; rewrite length_app; lia | done].
      unfold len. rewrite Nat2Z.id.
      rewrite <- (app_nil_r (image_u32 indices)). by apply decode_image_u32.
  - unfold accepted. rewrite EH.
    cbn [Header.vertexCount Header.indexCount Header.vertexStride
         Header.indexFormat Header.aabbMin Header.aabbMax
         Header.vertexDataOffset Header.indexDataOffset hdr]. cbn [Z.eqb].
    lia.
Qed.

End MeshFiles.

Lemma smesh_load_is_all_or_nothing_witness :
  SMesh.indices32 (snd (SMesh.LoadSMeshV0FromFile (Some SMesh.quad_file) SMesh.no_mesh))
  = [0; 1; 2; 2; 1; 3]
  /\ snd (SMesh.LoadSMeshV0FromFile (Some [1; 2; 3]) SMesh.no_mesh) = SMesh.no_mesh.
Proof.
  split.
  - destruct (smesh_load_is_all_or_nothing (Some SMesh.quad_file) SMesh.no_mesh)
      as [H _].
    + intros bytes [= <-]. split; [|vm_compute; reflexivity].
      apply Forall_forall. intros b Hb. apply list_elem_of_In in Hb.
      vm_compute in Hb. unfold SMesh.is_byte.
      repeat (destruct Hb as [<-|Hb]; [lia|]). destruct Hb.
    + destruct H as (bytes & [= <-] & _ & ->); [vm_compute; reflexivity|].
      vm_compute. reflexivity.
  - destruct (smesh_load_is_all_or_nothing (Some [1; 2; 3]) SMesh.no_mesh)
      as [_ H].
    + intros bytes [= <-]. split; [|vm_compute; reflexivity].
      unfold SMesh.is_byte. repeat constructor; lia.
    + apply H. vm_compute. reflexivity.
Defined.

Lemma obj_to_smesh_round_trip_witness :
  exists blob,
    SMesh.build_blob SMesh.quad_vertices SMesh.quad_indices
      (repeat 0 12%nat) (repeat 9 12%nat) = SMesh.Blob blob
    /\ SMesh.len blob = 200
    /\ SMesh.indices32 (snd (SMesh.LoadSMeshV0FromFile (Some blob) SMesh.no_mesh))
       = SMesh.quad_indices.
Proof.
  destruct (obj_to_smesh_round_trip SMesh.quad_vertices SMesh.quad_indices
              (repeat 0 12%nat) (repeat 9 12%nat) SMesh.no_mesh)
    as (blob & E & L & Hload).
  - discriminate.
  - discriminate.
  - unfold SMesh.quad_vertices, SMesh.is_byte.
    repeat (constructor; [split; [reflexivity | repeat constructor; lia]|]).
    constructor.
  - unfold SMesh.quad_indices. repeat constructor; lia.
  - reflexivity.
  - reflexivity.
  - unfold SMesh.is_byte. repeat constructor; lia.
  - unfold SMesh.is_byte. repeat constructor; lia.
  - vm_compute. reflexivity.
  - exists blob. split; [exact E|]. split; [exact L|]. rewrite Hload. reflexivity.
Defined.

(* ===================================================================== *)
(** * The edge of the node-primitive-index table *)
(* ===================================================================== *)

Section NullTable.
Import SModel Format.

(** X27. A primitive range that wraps to zero sends the loader through the
    null table pointer.  In a file that passes the header and range gates
    and the four record loops, whose node-primitive-index table is declared
    empty, a first node that is a childless root and claims primitives
    whose 32-bit range end is zero passes the range check, and the loader
    then reads [nodePrimitiveIndices[...]] although the pointer was never
    set: the call has no defined result. *)
Theorem wrapped_primitive_range_reads_null_table
    (L : Layout) (path : string) (file : IfStream)
    (outView : SModelFileView) (outError : string) :
  let mem := contents file in
  let h := header_at_0 mem in
  let nr := node_record mem 0 in
  is_open file = true -> read_ok file = true ->
  0 < tellg file -> sizeof_SModelHeader L <= tellg file ->
  isHeaderCompatible h = true ->
  fileSizeBytes h = 0 \/ fileSizeBytes h = tellg file ->
  validate_ranges L mem (tellg file) = None ->
  for_each (meshCount h) (check_mesh L mem) = Pass ->
  for_each (textureCount h) (check_texture L mem) = Pass ->
  for_each (primitiveCount h) (check_primitive L mem) = Pass ->
  for_each (materialCount h) (check_material L mem) = Pass ->
  0 < nodeCount h -> nodePrimitiveIndexCount h = 0 ->
  NodeRecord.parentIndex nr = UINT32_MAX -> NodeRecord.childCount nr = 0 ->
  0 < NodeRecord.primitiveCount nr ->
  wrap32 (NodeRecord.firstPrimitiveIndex nr + NodeRecord.primitiveCount nr) = 0 ->
  LoadSModelFile L path file outView outError = Undefined.
Proof.
  intros mem h nr Ho Hr Hpos Hsize Hc Hf Hranges Hm Ht Hp Hmat Hn Hidx
    Hparent Hchild Hcount Hwrap.
  unfold LoadSModelFile. rewrite Ho, Hr. cbn [negb].
  destruct (Z.leb_spec (tellg file) 0); [lia|].
  cbn [vec_size vec_data fileBytes with_fileBytes with_header].
  destruct (Z.ltb_spec (tellg file) (sizeof_SModelHeader L)); [lia|].
  fold mem h. rewrite Hc. cbn [negb].
  assert (negb (fileSizeBytes h =? 0) && negb (fileSizeBytes h =? tellg file) = false)
    as ->.
  { destruct Hf as [-> | ->]; [done|]. rewrite Z.eqb_refl. cbn [negb].
    by rewrite andb_false_r. }
  rewrite Hranges.
  assert (validate_records L mem (tellg file) = OutOfBounds) as ->; [|done].
  unfold validate_records. fold h. rewrite Hm, Ht, Hp, Hmat. cbn [and_then].
  destruct (Z.gtb_spec (nodeCount h) 0); [|lia].
  unfold for_each. destruct (Z.to_nat (nodeCount h)) as [|k] eqn:Ek; [lia|].
  cbn [for_loop].
  assert (check_node mem (tellg file) 0 = OutOfBounds) as ->; [|done].
  unfold check_node. fold h. unfold node_record in nr. fold h in nr. fold nr.
  rewrite Hparent, Hchild, Hwrap, Hidx, Z.eqb_refl. cbn [negb andb Z.gtb Z.compare and_then].
  destruct (Z.gtb_spec (NodeRecord.primitiveCount nr) 0); [|lia].
  unfold for_each.
  destruct (Z.to_nat (NodeRecord.primitiveCount nr)) as [|k'] eqn:Ek'; [lia|].
  cbn [for_loop].
  unfold check_node_primitive, read_nodePrimitiveIndex. fold h. rewrite Hidx.
  done.
Qed.

Lemma wrapped_primitive_range_reads_null_table_witness :
  LoadSModelFile Examples.layout64 "wrapped.smodel" WrappedRange.file
    empty_view EmptyString = Undefined.
Proof.
  apply wrapped_primitive_range_reads_null_table.
  - reflexivity.
  - reflexivity.
  - reflexivity.
  - vm_compute. discriminate.
  - reflexivity.
  - right. reflexivity.
  - vm_compute. reflexivity.
  - reflexivity.
  - reflexivity.
  - reflexivity.
  - reflexivity.
  - reflexivity.
  - reflexivity.
  - reflexivity.
  - reflexivity.
  - reflexivity.
  - vm_compute. reflexivity.
Defined.

End NullTable.

(* ===================================================================== *)
(** * Memory types *)
(* ===================================================================== *)

Section MemoryTypes.
Import ImageUtils.

Lemma suitable_spec (typeBits props i propertyFlags : Z) :
  0 <= i < 32 ->
  suitable typeBits props i propertyFlags = true <->
  Z.testbit typeBits i = true /\ Z.land propertyFlags props = props.
Proof.
  intros Hi. unfold suitable.
  assert (wrap32 (Z.shiftl 1 i) = Z.shiftl 1 i) as ->.
  { apply wrap32_small. rewrite Z.shiftl_1_l. split; [apply Z.pow_nonneg; lia|].
    apply Z.pow_lt_mono_r; lia. }
  rewrite land_single_eqb by lia. rewrite negb_involutive, andb_true_iff.
  by rewrite Z.eqb_eq.
Qed.

Lemma search_spec (typeBits props : Z) (memoryTypes : list Z) (i : Z) :
  0 <= i -> i + Z.of_nat (length memoryTypes) <= 32 ->
  match search typeBits props i memoryTypes with
  | Some r =>
      i <= r
      /\ (exists propertyFlags,
            memoryTypes !! Z.to_nat (r - i) = Some propertyFlags
            /\ Z.testbit typeBits r = true
            /\ Z.land propertyFlags props = props)
      /\ forall j propertyFlags,
           i <= j < r ->
           memoryTypes !! Z.to_nat (j - i) = Some propertyFlags ->
           ~ (Z.testbit typeBits j = true /\ Z.land propertyFlags props = props)
  | None =>
      forall j propertyFlags,
        memoryTypes !! j = Some propertyFlags ->
        ~ (Z.testbit typeBits (i + Z.of_nat j) = true
           /\ Z.land propertyFlags props = props)
  end.
Proof.
  revert i. induction memoryTypes as [|f rest IH]; intros i Hi Hb; cbn [search].
  - intros j pf Hj. done.
  - cbn [length] in Hb.
    destruct (suitable typeBits props i f) eqn:E.
    + apply suitable_spec in E as [E1 E2]; [|lia]. split; [lia|]. split.
      * exists f. rewrite Z.sub_diag. done.
      * intros j pf Hj. lia.
    + assert (~ (Z.testbit typeBits i = true /\ Z.land f props = props)) as Hnot.
      { intros Hs. apply (suitable_spec typeBits props i f) in Hs; [|lia]. congruence. }
      specialize (IH (i + 1) ltac:(lia) ltac:(lia)).
      destruct (search typeBits props (i + 1) rest) as [r|].
      * destruct IH as (Hr & (pf & Hpf & Ht & Hl) & Hfirst). split; [lia|]. split.
        -- exists pf. replace (Z.to_nat (r - i)) with (S (Z.to_nat (r - (i + 1)))) by lia.
           done.
        -- intros j pf' Hj Hlook. destruct (decide (j = i)) as [->|Hne].
           ++ rewrite Z.sub_diag in Hlook. injection Hlook as <-. done.
           ++ apply (Hfirst j pf'); [lia|].
              replace (Z.to_nat (j - i)) with (S (Z.to_nat (j - (i + 1)))) in Hlook by lia.
              done.
      * intros j pf Hj. destruct j as [|j].
        -- injection Hj as <-. by rewrite Z.add_0_r.
        -- replace (i + Z.of_nat (S j)) with (i + 1 + Z.of_nat j) by lia.
           by apply IH.
Qed.

(** X28. [findMemoryType] returns the first memory type that fits.  With at
    most 32 memory types, the index returned is allowed by the type mask and
    has all the wanted property flags, no smaller index does, and the
    exception is thrown exactly when no type fits. *)
Theorem findMemoryType_returns_first_fit (memoryTypes : list Z) (typeBits props : Z) :
  Z.of_nat (length memoryTypes) <= 32 ->
  match findMemoryType memoryTypes typeBits props with
  | Some i =>
      fits memoryTypes typeBits props i
      /\ forall j, j < i -> ~ fits memoryTypes typeBits props j
  | None => forall j, ~ fits memoryTypes typeBits props j
  end.
Proof.
  intros Hb. unfold findMemoryType.
  pose proof (search_spec typeBits props memoryTypes 0 ltac:(lia) ltac:(lia)) as S.
  destruct (search typeBits props 0 memoryTypes) as [r|].
  - destruct S as (Hr & (pf & Hpf & Ht & Hl) & Hfirst).
    rewrite Z.sub_0_r in Hpf. split.
    + split; [done|]. split; [done|]. by exists pf.
    + intros j Hj (Hj0 & Hjt & pf' & Hpf' & Hl').
      apply (Hfirst j pf'); [lia | by rewrite Z.sub_0_r | done].
  - intros j (Hj0 & Hjt & pf & Hpf & Hl).
    apply (S (Z.to_nat j) pf Hpf). rewrite Z.add_0_l, Z2Nat.id by lia. done.
Qed.

Lemma findMemoryType_returns_first_fit_witness :
  fits [1; 6; 7; 3] 13 3 2 /\ ~ fits [1; 6; 7; 3] 13 3 0.
Proof.
  pose proof (findMemoryType_returns_first_fit [1; 6; 7; 3] 13 3) as H.
  change (findMemoryType [1; 6; 7; 3] 13 3) with (Some 2) in H.
  destruct H as [H1 H2]; [simpl; lia|].
  split; [exact H1 | apply H2; lia].
Defined.

End MemoryTypes.
